(** * Minesweeper engine: square sets, set store, solver, perturbator, generator

    A shallow embedding of the C++ sources (squareset.h/.cpp, grid.h,
    game.cpp, solver.cpp, perturbator.cpp, generator.cpp) together with the
    properties proved about them.

    Conventions of the embedding:
    - [int] coordinates are modelled by [Z]; signed overflow is undefined
      behaviour in C++, so the statements concern executions in which no
      coordinate computation overflows.
    - [SquareSetMask::val_t] is [unsigned int]: mask values are
      non-negative [Z], and left shifts are reduced modulo [2^32].
    - [uint16_t] values are reduced modulo [2^16].
    - a failed [assert], an uncaught [std::out_of_range] thrown by
      [std::vector::at], and an out-of-range [operator[]] are all modelled
      by the outcome [Abort]; a loop that has not finished when its fuel
      is spent yields [Diverge]. *)

From Stdlib Require Import ZArith List Bool Lia Permutation Sorted.
Import ListNotations.
Local Open Scope Z_scope.


(* ===================================================================== *)
(** * Outcomes of a computation *)
(* ===================================================================== *)

Inductive res (A : Type) : Type :=
| Ret (a : A)
| Abort
| Diverge.

Arguments Ret {A} a.
Arguments Abort {A}.
Arguments Diverge {A}.

Definition bind {A B : Type} (m : res A) (k : A -> res B) : res B :=
  match m with
  | Ret a => k a
  | Abort => Abort
  | Diverge => Diverge
  end.

Notation "x <- m ;; k" := (bind m (fun x => k))
  (at level 61, m at next level, right associativity).
Notation "' p <- m ;; k" := (bind m (fun p => k))
  (at level 61, p pattern, m at next level, right associativity).

(** [assert(c)] *)
Definition assert (c : bool) : res unit := if c then Ret tt else Abort.

(** A [while (cond) body] loop, run for at most [fuel] tests of [cond]. *)
Fixpoint while_loop {S : Type} (fuel : nat) (cond : S -> bool)
         (body : S -> res S) (s : S) : res S :=
  match fuel with
  | O => Diverge
  | Datatypes.S f =>
      if cond s then s' <- body s ;; while_loop f cond body s' else Ret s
  end.

(** A [for] loop over the elements of a container, threading a state. *)
Fixpoint for_each {A S : Type} (l : list A) (body : A -> S -> res S) (s : S)
  : res S :=
  match l with
  | [] => Ret s
  | a :: l' => s' <- body a s ;; for_each l' body s'
  end.

(** Integers [0, 1, ..., n-1]. *)
Definition zrange (n : nat) : list Z := map Z.of_nat (seq 0 n).

(* ===================================================================== *)
(** * squareset.h: mask flags, popcount, SquareSetMask *)
(* ===================================================================== *)

Definition u16 (v : Z) : Z := v mod 2 ^ 16.
Definition u32 (v : Z) : Z := v mod 2 ^ 32.

Definition NONE : Z := 0.
Definition TOP_LEFT : Z := 0x001.
Definition TOP : Z := 0x002.
Definition TOP_RIGHT : Z := 0x004.
Definition LEFT : Z := 0x008.
Definition CENTER : Z := 0x010.
Definition RIGHT : Z := 0x020.
Definition BOTTOM_LEFT : Z := 0x040.
Definition BOTTOM : Z := 0x080.
Definition BOTTOM_RIGHT : Z := 0x100.

Definition LEFT_COLUMN : Z := Z.lor (Z.lor TOP_LEFT LEFT) BOTTOM_LEFT.
Definition CENTER_COLUMN : Z := Z.lor (Z.lor TOP CENTER) BOTTOM.
Definition RIGHT_COLUMN : Z := Z.lor (Z.lor TOP_RIGHT RIGHT) BOTTOM_RIGHT.
Definition TOP_ROW : Z := Z.lor (Z.lor TOP_LEFT TOP) TOP_RIGHT.
Definition CENTER_ROW : Z := Z.lor (Z.lor LEFT CENTER) RIGHT.
Definition BOTTOM_ROW : Z := Z.lor (Z.lor BOTTOM_LEFT BOTTOM) BOTTOM_RIGHT.

Definition enumerateSquareSetMaskFlags : list Z :=
  [TOP_LEFT; TOP; TOP_RIGHT; LEFT; CENTER; RIGHT;
   BOTTOM_LEFT; BOTTOM; BOTTOM_RIGHT].

(** [pt2mf(x, y) = 1 << (y * 3 + x)] *)
Definition pt2mf (x y : Z) : Z := Z.shiftl 1 (y * 3 + x).

(** [mf2pt]: the position of a flag inside the 3x3 window. *)
Definition mf2pt (flag : Z) : Z * Z :=
  if flag =? TOP_LEFT then (0, 0)
  else if flag =? TOP then (1, 0)
  else if flag =? TOP_RIGHT then (2, 0)
  else if flag =? LEFT then (0, 1)
  else if flag =? CENTER then (1, 1)
  else if flag =? RIGHT then (2, 1)
  else if flag =? BOTTOM_LEFT then (0, 2)
  else if flag =? BOTTOM then (1, 2)
  else if flag =? BOTTOM_RIGHT then (2, 2)
  else (-1, -1).

(** [popcount(uint16_t word)]: every assignment to [word] truncates to
    16 bits. *)
Definition popcount (word : Z) : Z :=
  let word := u16 (Z.land word 0x5555 + Z.shiftr (Z.land word 0xAAAA) 1) in
  let word := u16 (Z.land word 0x3333 + Z.shiftr (Z.land word 0xCCCC) 2) in
  let word := u16 (Z.land word 0x0F0F + Z.shiftr (Z.land word 0xF0F0) 4) in
  let word := u16 (Z.land word 0x00FF + Z.shiftr (Z.land word 0xFF00) 8) in
  word.

(** [SquareSetMask::count()]: the [unsigned] value is converted to the
    [uint16_t] parameter of [popcount]. *)
Definition count (m : Z) : Z := popcount (u16 m).

(** [SquareSetMask::operator bool] and [operator!] *)
Definition mask_nonzero (m : Z) : bool := negb (m =? 0).
Definition mask_is_zero (m : Z) : bool := m =? 0.

(** [SquareSetMask::operator~]: xor with [(BOTTOM_RIGHT << 1) - 1]. *)
Definition mask_not (m : Z) : Z :=
  Z.lxor m (u32 (Z.shiftl BOTTOM_RIGHT 1) - 1).

Definition mask_and (a b : Z) : Z := Z.land a b.
Definition mask_or (a b : Z) : Z := Z.lor a b.

(* ===================================================================== *)
(** * squareset.cpp: SquareSet *)
(* ===================================================================== *)

Definition move_left (mask : Z) : Z :=
  let mask := mask_and mask (mask_not RIGHT_COLUMN) in
  u32 (Z.shiftl mask 1).

Definition move_right (mask : Z) : Z :=
  let mask := mask_and mask (mask_not LEFT_COLUMN) in
  Z.shiftr mask 1.

Definition move_up (mask : Z) : Z :=
  let mask := mask_and mask (mask_not BOTTOM_ROW) in
  u32 (Z.shiftl mask 3).

Definition move_down (mask : Z) : Z :=
  let mask := mask_and mask (mask_not TOP_ROW) in
  Z.shiftr mask 3.

Record SquareSet : Type := mkSquareSet
  { set_x : Z; set_y : Z; set_mask : Z }.

(** The loops of the re-anchoring constructor are counting loops:
    [while (ox > x) { mask = move_left(mask); ox--; }] runs [ox - x]
    times when [ox > x] and not at all otherwise.  [iterate] is the
    counted form; [countdown_loop_iterate] and [countup_loop_iterate] below
    relate it to [while_loop]. *)
Fixpoint iterate {A : Type} (n : nat) (f : A -> A) (a : A) : A :=
  match n with
  | O => a
  | S n' => iterate n' f (f a)
  end.

(** [SquareSet::SquareSet(int x_, int y_, const SquareSet& other)] *)
Definition SquareSet_at (x_ y_ : Z) (other : SquareSet) : SquareSet :=
  if (3 <=? Z.abs (set_x other - x_)) || (3 <=? Z.abs (set_y other - y_))
  then mkSquareSet x_ y_ NONE
  else
    let mask := set_mask other in
    let ox := set_x other in
    let oy := set_y other in
    let mask := iterate (Z.to_nat (ox - x_)) move_left mask in
    let mask := iterate (Z.to_nat (x_ - ox)) move_right mask in
    let mask := iterate (Z.to_nat (oy - y_)) move_up mask in
    let mask := iterate (Z.to_nat (y_ - oy)) move_down mask in
    mkSquareSet x_ y_ mask.

(** [SquareSet::normalize()] *)
Definition normalize (fuel : nat) (s : SquareSet) : res SquareSet :=
  if mask_is_zero (set_mask s) then Ret s
  else
    '(mask, x) <-
      while_loop fuel
        (fun '(mask, x) => mask_is_zero (mask_and mask LEFT_COLUMN))
        (fun '(mask, x) => Ret (move_right mask, x + 1))
        (set_mask s, set_x s) ;;
    '(mask, y) <-
      while_loop fuel
        (fun '(mask, y) => mask_is_zero (mask_and mask TOP_ROW))
        (fun '(mask, y) => Ret (move_down mask, y + 1))
        (mask, set_y s) ;;
    Ret (mkSquareSet x y mask).

(** [operator<]: lexicographic on [(x, y, mask.value())]. *)
Definition set_ltb (lhs rhs : SquareSet) : bool :=
  (set_x lhs <? set_x rhs)
  || ((set_x lhs =? set_x rhs)
      && ((set_y lhs <? set_y rhs)
          || ((set_y lhs =? set_y rhs) && (set_mask lhs <? set_mask rhs)))).

(** [operator&] and [operator-] *)
Definition set_and (lhs rhs : SquareSet) : SquareSet :=
  let other := SquareSet_at (set_x lhs) (set_y lhs) rhs in
  mkSquareSet (set_x lhs) (set_y lhs)
    (mask_and (set_mask lhs) (set_mask other)).

Definition set_minus (lhs rhs : SquareSet) : SquareSet :=
  let other := SquareSet_at (set_x lhs) (set_y lhs) rhs in
  mkSquareSet (set_x lhs) (set_y lhs)
    (mask_and (set_mask lhs) (mask_not (set_mask other))).

(** [foreachSquare]: the absolute squares of a set, in flag order. *)
Definition squares (s : SquareSet) : list (Z * Z) :=
  flat_map
    (fun flag =>
       if mask_nonzero (mask_and (set_mask s) flag)
       then let relpos := mf2pt flag in
            [(set_x s + fst relpos, set_y s + snd relpos)]
       else [])
    enumerateSquareSetMaskFlags.

(* ===================================================================== *)
(** * grid.h: Grid<T> *)
(* ===================================================================== *)

Record Grid (T : Type) : Type := mkGrid
  { g_width : Z; g_height : Z; g_data : list T }.

Arguments mkGrid {T} _ _ _.
Arguments g_width {T} _.
Arguments g_height {T} _.
Arguments g_data {T} _.

(** [Grid(w, h, value)]: [m_data.resize(w * h, value)] *)
Definition Grid_new {T : Type} (w h : Z) (value : T) : Grid T :=
  mkGrid w h (repeat value (Z.to_nat (w * h))).

Definition grid_size {T : Type} (g : Grid T) : Z :=
  Z.of_nat (length (g_data g)).

(** [pt2idx]: [y * width + x]; [idx2pt]: [(idx % width, idx / width)],
    with the truncating division of C++. *)
Definition pt2idx {T : Type} (g : Grid T) (x y : Z) : Z := y * g_width g + x.

Definition idx2pt {T : Type} (g : Grid T) (index : Z) : Z * Z :=
  (Z.rem index (g_width g), Z.quot index (g_width g)).

(** [contains(x, y)] *)
Definition grid_contains {T : Type} (g : Grid T) (x y : Z) : bool :=
  (0 <=? x) && (x <? g_width g) && (0 <=? y) && (y <? g_height g).

(** [at(index)]: [std::vector::at] throws outside [0, size);
    [operator[]] is undefined there.  Both are [Abort]. *)
Definition grid_at_idx {T : Type} (g : Grid T) (index : Z) : res T :=
  if (0 <=? index) && (index <? grid_size g)
  then match nth_error (g_data g) (Z.to_nat index) with
       | Some v => Ret v
       | None => Abort
       end
  else Abort.

(** [at(x, y)] and [operator[](Point)]: element [y * width + x]. *)
Definition grid_at {T : Type} (g : Grid T) (x y : Z) : res T :=
  grid_at_idx g (y * g_width g + x).

Fixpoint list_update {T : Type} (l : list T) (n : nat) (v : T) : list T :=
  match l, n with
  | [], _ => []
  | _ :: l', O => v :: l'
  | a :: l', S n' => a :: list_update l' n' v
  end.

(** [operator[](index) = val] *)
Definition grid_set_idx {T : Type} (g : Grid T) (index : Z) (val : T)
  : res (Grid T) :=
  if (0 <=? index) && (index <? grid_size g)
  then Ret (mkGrid (g_width g) (g_height g)
              (list_update (g_data g) (Z.to_nat index) val))
  else Abort.

(** [set(x, y, val)]: [m_data[y * width + x] = val] *)
Definition grid_set {T : Type} (g : Grid T) (x y : Z) (val : T)
  : res (Grid T) :=
  grid_set_idx g (y * g_width g + x) val.

(** [std::fill(begin, end, value)] *)
Definition grid_fill {T : Type} (g : Grid T) (value : T) : Grid T :=
  mkGrid (g_width g) (g_height g) (map (fun _ => value) (g_data g)).

(** [std::count(begin, end, value)] for a decidable test. *)
Definition count_if {T : Type} (f : T -> bool) (l : list T) : Z :=
  Z.of_nat (length (filter f l)).

(** The indices [0 .. size-1] of a grid. *)
Definition grid_indices {T : Type} (g : Grid T) : list Z :=
  zrange (length (g_data g)).

(* ===================================================================== *)
(** * knowledge.h, gamedata.h, game.cpp *)
(* ===================================================================== *)

(** [enum PlayerKnowledge]: the code converts freely between the enum and
    [int], so knowledge values are integers. *)
Definition Unknown : Z := -2.
Definition MarkedAsMine : Z := -1.
Definition Mine0 : Z := 0.
Definition MineRevealed : Z := 64.

Record GameParams : Type := mkGameParams
  { p_width : Z; p_height : Z; p_minecount : Z; p_unique : bool;
    p_sx : Z; p_sy : Z; p_seed : Z }.

(** [GameData]: of [params] only the start square is read by the solver,
    the perturbator and the generator; [dead], [won] and [seed] are neither
    read nor written by them. *)
Record GameData : Type := mkGameData
  { gd_sx : Z; gd_sy : Z; gd_mines : Grid bool; gd_grid : Grid Z }.

Definition with_grid (game : GameData) (g : Grid Z) : GameData :=
  mkGameData (gd_sx game) (gd_sy game) (gd_mines game) g.

Definition with_mines (game : GameData) (m : Grid bool) : GameData :=
  mkGameData (gd_sx game) (gd_sy game) m (gd_grid game).

(** The offsets [-1, 0, +1] of the neighbourhood loops. *)
Definition deltas : list Z := [-1; 0; 1].

(** [Game::mineLookup(x, y)] *)
Definition mineLookup (game : GameData) (x y : Z) : res Z :=
  here <- grid_at (gd_mines game) x y ;;
  if (here : bool) then Ret (-1)
  else
    for_each deltas (fun i n =>
      for_each deltas (fun j n =>
        if negb (grid_contains (gd_mines game) (x + i) (y + j))
           || ((i =? 0) && (j =? 0))
        then Ret n
        else
          m <- grid_at (gd_mines game) (x + i) (y + j) ;;
          Ret (if (m : bool) then n + 1 else n)) n) 0.

(* ===================================================================== *)
(** * solver.cpp: SetStoreElement and SetStore *)
(* ===================================================================== *)

(** A [SetStoreElement] is a [SquareSet] with a mine count and the
    [todo] flag; the [prev]/[next] links of the intrusive todo list are
    modelled by the queue [m_todolist] of the store. *)
Record SetStoreElement : Type := mkElement
  { e_set : SquareSet; e_mines : Z; e_todo : bool }.

(** [SetStore]: [m_elements] is the [std::map], its entries listed in
    increasing key order (the key of an entry is its own [SquareSet]);
    [m_todolist] lists the keys of the queued elements, head first. *)
Record SetStore : Type := mkSetStore
  { m_elements : list SetStoreElement; m_todolist : list SquareSet }.

Definition SetStore_empty : SetStore := mkSetStore [] [].

Definition set_eqb (a b : SquareSet) : bool :=
  (set_x a =? set_x b) && (set_y a =? set_y b) && (set_mask a =? set_mask b).

Definition setstore_size (ss : SetStore) : Z :=
  Z.of_nat (length (m_elements ss)).

(** [std::map::insert]: keeps an existing entry with the same key; the
    boolean tells whether the entry was inserted. *)
Fixpoint map_insert (e : SetStoreElement) (l : list SetStoreElement)
  : list SetStoreElement * bool :=
  match l with
  | [] => ([e], true)
  | e' :: l' =>
      if set_ltb (e_set e) (e_set e') then (e :: e' :: l', true)
      else if set_ltb (e_set e') (e_set e)
           then let '(r, b) := map_insert e l' in (e' :: r, b)
           else (e' :: l', false)
  end.

(** [std::map::find] *)
Fixpoint map_find (k : SquareSet) (l : list SetStoreElement)
  : option SetStoreElement :=
  match l with
  | [] => None
  | e :: l' =>
      if set_ltb k (e_set e) then None
      else if set_ltb (e_set e) k then map_find k l'
           else Some e
  end.

(** [std::map::erase(iterator)] for the entry with key [k] *)
Fixpoint map_erase (k : SquareSet) (l : list SetStoreElement)
  : list SetStoreElement :=
  match l with
  | [] => []
  | e :: l' => if set_eqb (e_set e) k then l' else e :: map_erase k l'
  end.

(** Assignment through an iterator to the entry with key [k] *)
Fixpoint map_update (k : SquareSet) (f : SetStoreElement -> SetStoreElement)
         (l : list SetStoreElement) : list SetStoreElement :=
  match l with
  | [] => []
  | e :: l' => if set_eqb (e_set e) k then f e :: l'
               else e :: map_update k f l'
  end.

(** [std::map::lower_bound]: the entries whose key is not below [k] *)
Fixpoint lower_bound (k : SquareSet) (l : list SetStoreElement)
  : list SetStoreElement :=
  match l with
  | [] => []
  | e :: l' => if set_ltb (e_set e) k then lower_bound k l' else l
  end.

(** Dereferencing an iterator: a key that is no longer in the map is an
    invalidated iterator. *)
Definition deref (ss : SetStore) (it : SquareSet) : res SetStoreElement :=
  match map_find it (m_elements ss) with
  | Some e => Ret e
  | None => Abort
  end.

(** [SetStore::add_todo(it)] *)
Definition add_todo (ss : SetStore) (it : SquareSet) : res SetStore :=
  elem <- deref ss it ;;
  if e_todo elem then Ret ss
  else Ret (mkSetStore
              (map_update it (fun e => mkElement (e_set e) (e_mines e) true)
                 (m_elements ss))
              (m_todolist ss ++ [it])).

(** [SetStore::add(x, y, mask, mines)] *)
Definition add (fuel : nat) (ss : SetStore) (x y mask mines : Z)
  : res SetStore :=
  s <- normalize fuel (mkSquareSet x y mask) ;;
  let '(elements, inserted) :=
    map_insert (mkElement s mines false) (m_elements ss) in
  if inserted
  then add_todo (mkSetStore elements (m_todolist ss)) s
  else Ret ss.

(** [SetStore::find(s)]: [None] is the end iterator. *)
Definition find (fuel : nat) (ss : SetStore) (s : SquareSet)
  : res (option SetStoreElement) :=
  s <- normalize fuel s ;;
  Ret (map_find s (m_elements ss)).

Definition remove_key (k : SquareSet) (l : list SquareSet) : list SquareSet :=
  filter (fun k' => negb (set_eqb k' k)) l.

(** [SetStore::erase(it)] *)
Definition erase (ss : SetStore) (it : SquareSet) : res SetStore :=
  elem <- deref ss it ;;
  let todolist :=
    if e_todo elem then remove_key it (m_todolist ss) else m_todolist ss in
  Ret (mkSetStore (map_erase it (m_elements ss)) todolist).

(** [SetStore::next_todo()]: [None] is [nullptr]. *)
Definition next_todo (ss : SetStore)
  : res (option SetStoreElement * SetStore) :=
  match m_todolist ss with
  | [] => Ret (None, ss)
  | head :: rest =>
      ret <- deref ss head ;;
      Ret (Some (mkElement (e_set ret) (e_mines ret) false),
           mkSetStore
             (map_update head
                (fun e => mkElement (e_set e) (e_mines e) false)
                (m_elements ss))
             rest)
  end.

(** The inner [while] of [overlap]: entries anchored at [(xx, yy)] from
    the lower bound on. *)
Fixpoint overlap_scan (xx yy : Z) (input : SquareSet)
         (l : list SetStoreElement) : list SquareSet :=
  match l with
  | [] => []
  | e :: l' =>
      if (set_x (e_set e) =? xx) && (set_y (e_set e) =? yy)
      then (if mask_nonzero (set_mask (set_and (e_set e) input))
            then [e_set e] else [])
           ++ overlap_scan xx yy input l'
      else []
  end.

(** [SetStore::overlap(x, y, mask)]: the iterators (keys) found. *)
Definition overlap (ss : SetStore) (x y mask : Z) : list SquareSet :=
  let input := mkSquareSet x y mask in
  flat_map (fun xx =>
    flat_map (fun yy =>
      let searchkey := mkSquareSet xx yy NONE in
      overlap_scan xx yy input (lower_bound searchkey (m_elements ss)))
      (map (fun d => y + d) [-2; -1; 0; 1; 2]))
    (map (fun d => x + d) [-2; -1; 0; 1; 2]).

(** [setstore_at(ss, i)] *)
Definition setstore_at (ss : SetStore) (i : Z) : res SquareSet :=
  if (0 <=? i) && (i <? setstore_size ss)
  then match nth_error (m_elements ss) (Z.to_nat i) with
       | Some e => Ret (e_set e)
       | None => Abort
       end
  else Abort.

(* ===================================================================== *)
(** * The random engine *)
(* ===================================================================== *)

(** [std::default_random_engine] with the three ways the sources use it:
    [seed(s)], [std::shuffle(first, last, rng)] and
    [std::uniform_int_distribution<size_t>(a, b)(rng)].  Each is a
    function of the engine state. *)
Class RNG : Type := mkRNG
  { RandomEngine : Type;
    rng_seed : Z -> RandomEngine;
    shuffle : forall A : Type, list A -> RandomEngine -> list A * RandomEngine;
    uniform_int : Z -> Z -> RandomEngine -> Z * RandomEngine }.

(* ===================================================================== *)
(** * perturbator.h / perturbator.cpp *)
(* ===================================================================== *)

Definition ChangedToMine : Z := 1.
Definition Cleared : Z := -1.

Record Perturbation : Type := mkPerturbation
  { pt_x : Z; pt_y : Z; pt_delta : Z }.

Definition opposite (c : Z) : Z := -1 * c.

Definition NearKnownSquare : Z := 1.
Definition InUnknownRegion : Z := 2.
Definition KnownSquare : Z := 3.

Record PerturbSquare : Type := mkPerturbSquare
  { sq_type : Z; sq_x : Z; sq_y : Z }.

(** The comparator given to [std::sort]: [(type, y, x)], lexicographic. *)
Definition sq_ltb (lhs rhs : PerturbSquare) : bool :=
  (sq_type lhs <? sq_type rhs)
  || ((sq_type lhs =? sq_type rhs)
      && ((sq_y lhs <? sq_y rhs)
          || ((sq_y lhs =? sq_y rhs) && (sq_x lhs <? sq_x rhs)))).

Fixpoint sq_insert (a : PerturbSquare) (l : list PerturbSquare)
  : list PerturbSquare :=
  match l with
  | [] => [a]
  | b :: l' => if sq_ltb b a then b :: sq_insert a l' else a :: b :: l'
  end.

(** [std::sort(sqlist.begin(), sqlist.end(), cmp)] *)
Definition sq_sort (l : list PerturbSquare) : list PerturbSquare :=
  fold_right sq_insert [] l.

(** The leading run of squares whose type is not above [t], and the rest:
    [std::upper_bound(it, end, *it, type <)] on the sorted list. *)
Fixpoint span_type (t : Z) (l : list PerturbSquare)
  : list PerturbSquare * list PerturbSquare :=
  match l with
  | [] => ([], [])
  | a :: l' =>
      if t <? sq_type a then ([], l)
      else let '(run, rest) := span_type t l' in (a :: run, rest)
  end.

Section WithRNG.

Context {R : RNG}.

(** The loop that shuffles each group; it runs at most once per element,
    so [n] is the length of the list. *)
Fixpoint shuffle_groups (n : nat) (l : list PerturbSquare) (rng : RandomEngine)
  : list PerturbSquare * RandomEngine :=
  match n, l with
  | _, [] => ([], rng)
  | O, _ => (l, rng)
  | S n', a :: _ =>
      let '(run, rest) := span_type (sq_type a) l in
      let '(run', rng) := shuffle PerturbSquare run rng in
      let '(rest', rng) := shuffle_groups n' rest rng in
      (run' ++ rest', rng)
  end.

(** The scan of one row of the neighbourhood, left at the first known
    square found ([break]). *)
Fixpoint near_known_row (grid : Grid Z) (x y dy : Z) (dxs : list Z) (ty : Z)
  : res Z :=
  match dxs with
  | [] => Ret ty
  | dx :: dxs' =>
      if grid_contains grid (x + dx) (y + dy)
      then v <- grid_at grid (x + dx) (y + dy) ;;
           if negb (v =? Unknown) then Ret NearKnownSquare
           else near_known_row grid x y dy dxs' ty
      else near_known_row grid x y dy dxs' ty
  end.

(** [build_squarelist] *)
Definition build_squarelist (ctx : GameData) (grid : Grid Z)
           (setx sety mask : Z) (rng : RandomEngine)
  : res (list PerturbSquare * RandomEngine) :=
  sqlist <-
    for_each (grid_indices grid) (fun i sqlist =>
      let x := fst (idx2pt grid i) in
      let y := snd (idx2pt grid i) in
      if (Z.abs (y - gd_sy ctx) <=? 1) && (Z.abs (x - gd_sx ctx) <=? 1)
      then Ret sqlist
      else
        v <- grid_at_idx grid i ;;
        if (mask_is_zero mask && (v =? Unknown))
           || ((setx <=? x) && (x <? setx + 3) && (sety <=? y)
               && (y <? sety + 3)
               && mask_nonzero
                    (mask_and mask
                       (Z.shiftl 1 ((y - sety) * 3 + (x - setx)))))
        then Ret sqlist
        else
          ty <-
            (if negb (v =? Unknown) then Ret KnownSquare
             else for_each deltas (fun dy ty =>
                    near_known_row grid x y dy deltas ty) InUnknownRegion) ;;
          Ret (sqlist ++ [mkPerturbSquare ty x y])) [] ;;
  let sqlist := sq_sort sqlist in
  Ret (shuffle_groups (length sqlist) sqlist rng).

(** The offsets [(dx, dy)] of the loops [for dy in 0..2: for dx in 0..2]. *)
Definition window_offsets : list (Z * Z) :=
  [(0, 0); (1, 0); (2, 0); (0, 1); (1, 1); (2, 1); (0, 2); (1, 2); (2, 2)].

(** [count_full_and_empty] *)
Definition count_full_and_empty (s : SquareSet) (mines : Grid bool)
  : res (Z * Z) :=
  for_each window_offsets (fun '(dx, dy) '(nfull, nempty) =>
    if mask_nonzero (mask_and (set_mask s) (pt2mf dx dy))
    then
      _ <- assert (set_x s + dx <? g_width mines) ;;
      _ <- assert (set_y s + dy <? g_height mines) ;;
      m <- grid_at mines (set_x s + dx) (set_y s + dy) ;;
      Ret (if (m : bool) then (nfull + 1, nempty) else (nfull, nempty + 1))
    else Ret (nfull, nempty)) (0, 0).

(** [count_full_and_empty_among_unknown_squares] *)
Definition count_full_and_empty_among_unknown_squares
           (grid : Grid Z) (mines : Grid bool) : res (Z * Z) :=
  for_each (grid_indices grid) (fun i '(nfull, nempty) =>
    v <- grid_at_idx grid i ;;
    if v =? Unknown
    then m <- grid_at_idx mines i ;;
         Ret (if (m : bool) then (nfull + 1, nempty) else (nfull, nempty + 1))
    else Ret (nfull, nempty)) (0, 0).

Definition zlength {A : Type} (l : list A) : Z := Z.of_nat (length l).

(** [build_fill_list] *)
Definition build_fill_list (grid : Grid Z) (mines : Grid bool)
           (inputset : SquareSet) (size : Z) (rng : RandomEngine)
  : res (list Z * RandomEngine) :=
  _ <- assert (negb (size =? 0)) ;;
  filllist <-
    (if mask_nonzero (set_mask inputset)
     then
       for_each window_offsets (fun '(dx, dy) filllist =>
         if mask_nonzero (mask_and (set_mask inputset) (pt2mf dx dy))
         then
           _ <- assert (set_x inputset + dx <=? g_width grid) ;;
           _ <- assert (set_y inputset + dy <=? g_height grid) ;;
           m <- grid_at mines (set_x inputset + dx) (set_y inputset + dy) ;;
           Ret (if (m : bool) then filllist
                else filllist
                       ++ [pt2idx grid (set_x inputset + dx)
                             (set_y inputset + dy)])
         else Ret filllist) []
     else
       for_each (grid_indices grid) (fun i filllist =>
         v <- grid_at_idx grid i ;;
         if v =? Unknown
         then m <- grid_at_idx mines i ;;
              Ret (if (m : bool) then filllist else filllist ++ [i])
         else Ret filllist) []) ;;
  _ <- assert (size <=? zlength filllist) ;;
  _ <- assert (size <? zlength filllist) ;;
  let '(filllist, rng) := shuffle Z filllist rng in
  Ret (firstn (Z.to_nat size) filllist, rng).

(** The recount of the mines around a square that was just cleared. *)
Definition recount (grid : Grid Z) (mines : Grid bool) (x y : Z) : res Z :=
  for_each deltas (fun dy2 minecount =>
    for_each deltas (fun dx2 minecount =>
      if grid_contains grid (x + dx2) (y + dy2)
      then m <- grid_at mines (x + dx2) (y + dy2) ;;
           Ret (if (m : bool) then minecount + 1 else minecount)
      else Ret minecount) minecount) 0.

(** The body of the loop of [apply_changes], for one perturbation. *)
Definition apply_change (p : Perturbation) (st : Grid Z * Grid bool)
  : res (Grid Z * Grid bool) :=
  let '(grid, mines) := st in
  let x := pt_x p in
  let y := pt_y p in
  let delta := pt_delta p in
  here <- grid_at mines x y ;;
  _ <- assert (xorb (delta =? Cleared) (Bool.eqb here false)) ;;
  mines <- grid_set mines x y (delta =? ChangedToMine) ;;
  grid <-
    for_each deltas (fun dy grid =>
      for_each deltas (fun dx grid =>
        if grid_contains grid (x + dx) (y + dy)
        then
          v <- grid_at grid (x + dx) (y + dy) ;;
          if negb (v =? Unknown)
          then
            if (dx =? 0) && (dy =? 0)
            then
              if delta =? ChangedToMine
              then grid_set grid x y MarkedAsMine
              else minecount <- recount grid mines x y ;;
                   grid_set grid x y minecount
            else
              if Mine0 <=? v
              then grid_set grid (x + dx) (y + dy) (v + delta)
              else Ret grid
          else Ret grid
        else Ret grid) grid) grid ;;
  Ret (grid, mines).

(** [apply_changes] *)
Definition apply_changes (grid : Grid Z) (mines : Grid bool)
           (perturbations : list Perturbation) : res (Grid Z * Grid bool) :=
  for_each perturbations apply_change (grid, mines).

(** The loop of [mineperturb] that collects [tofill] and [toempty] and
    stops as soon as one of them has the wanted size. *)
Fixpoint collect_squares (mines : Grid bool) (nfull nempty : Z)
         (sqlist tofill toempty : list PerturbSquare)
  : res (list PerturbSquare * list PerturbSquare) :=
  match sqlist with
  | [] => Ret (tofill, toempty)
  | sq :: sqlist' =>
      m <- grid_at mines (sq_x sq) (sq_y sq) ;;
      let toempty := if (m : bool) then toempty ++ [sq] else toempty in
      let tofill := if (m : bool) then tofill else tofill ++ [sq] in
      if (zlength tofill =? nfull) || (zlength toempty =? nempty)
      then Ret (tofill, toempty)
      else collect_squares mines nfull nempty sqlist' tofill toempty
  end.

Definition change_for (square_is_mined : bool) : Z :=
  if square_is_mined then Cleared else ChangedToMine.

Definition near_start (ctx : GameData) (p : Perturbation) : bool :=
  (Z.abs (pt_x p - gd_sx ctx) <=? 1) && (Z.abs (pt_y p - gd_sy ctx) <=? 1).

(** [mineperturb]; the [grid] argument of the source is always
    [game.gameData().grid], the grid of [ctx]. *)
Definition mineperturb (ctx : GameData) (setx sety mask : Z)
           (rng : RandomEngine) (allow_big_perturbs : bool)
  : res (list Perturbation * GameData * RandomEngine) :=
  if mask_is_zero mask && negb allow_big_perturbs then Ret ([], ctx, rng)
  else
    let grid := gd_grid ctx in
    '(nfull, nempty) <-
      (if mask_nonzero mask
       then count_full_and_empty (mkSquareSet setx sety mask) (gd_mines ctx)
       else count_full_and_empty_among_unknown_squares grid (gd_mines ctx)) ;;
    '(sqlist, rng) <- build_squarelist ctx grid setx sety mask rng ;;
    '(tofill, toempty) <-
      collect_squares (gd_mines ctx) nfull nempty sqlist [] [] ;;
    '(filllist, rng) <-
      (if negb (zlength tofill =? nfull) && negb (zlength toempty =? nempty)
       then build_fill_list grid (gd_mines ctx) (mkSquareSet setx sety mask)
              (zlength toempty) rng
       else Ret ([], rng)) ;;
    (* [todo] takes over one of the two vectors and the other is cleared,
       so [assert(toempty.empty() && tofill.empty())] always passes *)
    let '(todo, change) :=
      if zlength tofill =? nfull then (tofill, ChangedToMine)
      else (toempty, Cleared) in
    let ret :=
      map (fun sq => mkPerturbation (sq_x sq) (sq_y sq) change) todo in
    let change := opposite change in
    inside <-
      (match filllist with
       | _ :: _ =>
           _ <- assert (change =? ChangedToMine) ;;
           Ret (map (fun i => mkPerturbation (fst (idx2pt grid i))
                                (snd (idx2pt grid i)) change) filllist)
       | [] =>
           if mask_nonzero mask
           then
             for_each window_offsets (fun '(dx, dy) acc =>
               if mask_nonzero (mask_and mask (pt2mf dx dy))
               then
                 m <- grid_at (gd_mines ctx) (setx + dx) (sety + dy) ;;
                 Ret (if change =? change_for m
                      then acc ++ [mkPerturbation (setx + dx) (sety + dy)
                                     change]
                      else acc)
               else Ret acc) []
           else
             for_each (grid_indices grid) (fun i acc =>
               v <- grid_at_idx grid i ;;
               if v =? Unknown
               then
                 m <- grid_at_idx (gd_mines ctx) i ;;
                 Ret (if change =? change_for m
                      then acc ++ [mkPerturbation (fst (idx2pt grid i))
                                     (snd (idx2pt grid i)) change]
                      else acc)
               else Ret acc) []
       end) ;;
    let ret := ret ++ inside in
    _ <- assert (zlength ret =? 2 * zlength todo) ;;
    _ <- assert (negb (existsb (near_start ctx) ret)) ;;
    '(grid, mines) <- apply_changes grid (gd_mines ctx) ret ;;
    Ret (ret, mkGameData (gd_sx ctx) (gd_sy ctx) mines grid, rng).

(** The state of a perturbator, apart from the engine [m_rng] it refers
    to: the use count and, for the [BuiltinPerturbator] of generator.cpp,
    [m_allow_big_perturbs].  For a [Perturbator] of the base class, whose
    [do_perturb] calls [mineperturb] with the default
    [allow_big_perturbs = false], the flag is [false]. *)
Record Perturbator : Type := mkPerturbator
  { m_use_count : Z; m_allow_big_perturbs : bool }.

(** [BuiltinPerturbator::reset(ntries)] *)
Definition perturbator_reset (ntries : Z) : Perturbator :=
  mkPerturbator 0 (100 <? ntries).

(** [Perturbator::reset(ntries)] of the base class: [resetUseCount()]. *)
Definition base_perturbator_reset : Perturbator := mkPerturbator 0 false.

(** [Perturbator::perturb(ctx, x, y, mask)]; [rng] is the engine the
    perturbator refers to.  [do_perturb] calls [mineperturb] with
    [m_allow_big_perturbs] in [BuiltinPerturbator], and with the default
    [false], which is the value the flag has then, in the base class. *)
Definition perturb (pb : Perturbator) (rng : RandomEngine) (ctx : GameData)
           (x y mask : Z)
  : res (list Perturbation * GameData * Perturbator * RandomEngine) :=
  let pb := mkPerturbator (m_use_count pb + 1) (m_allow_big_perturbs pb) in
  '(ret, ctx, rng) <-
    mineperturb ctx x y mask rng (m_allow_big_perturbs pb) ;;
  Ret (ret, ctx, pb, rng).

(** [Perturbator::perturb(ctx, ss)] *)
Definition perturb_ss (pb : Perturbator) (rng : RandomEngine) (ctx : GameData)
           (ss : SetStore)
  : res (list Perturbation * GameData * Perturbator * RandomEngine) :=
  let sssize := setstore_size ss in
  if sssize =? 0 then perturb pb rng ctx (-1) (-1) NONE
  else
    let '(i, rng) := uniform_int 0 (sssize - 1) rng in
    s <- setstore_at ss i ;;
    perturb pb rng ctx (set_x s) (set_y s) (set_mask s).

(* ===================================================================== *)
(** * solver.cpp: the solver *)
(* ===================================================================== *)

Definition SquareTodo : Type := list Z.

(** [build_square_todolist] *)
Definition build_square_todolist (grid : Grid Z) : res SquareTodo :=
  for_each (grid_indices grid) (fun i list =>
    v <- grid_at_idx grid i ;;
    Ret (if negb (v =? Unknown) then list ++ [i] else list)) [].

(** [mark_known_squares] *)
Definition mark_known_squares (thegame : GameData) (std : SquareTodo)
           (x y mask : Z) (mine : bool) : res (GameData * SquareTodo) :=
  for_each (squares (mkSquareSet x y mask)) (fun '(xx, yy) '(game, std) =>
    v <- grid_at (gd_grid game) xx yy ;;
    if negb (v =? Unknown) then Ret (game, std)
    else
      grid <-
        (if mine then grid_set (gd_grid game) xx yy MarkedAsMine
         else k <- mineLookup game xx yy ;;
              grid_set (gd_grid game) xx yy k) ;;
      Ret (with_grid game grid, std ++ [pt2idx grid xx yy]))
    (thegame, std).

(** [mark_known_square] *)
Definition mark_known_square (thegame : GameData) (std : SquareTodo)
           (x y : Z) (mine : bool) : res (GameData * SquareTodo) :=
  mark_known_squares thegame std x y TOP_LEFT mine.

(** The table [neighbors] of [process_newly_known_squares]. *)
Definition neighbors : list (Z * (Z * Z)) :=
  [(TOP_LEFT, (-1, -1)); (TOP, (0, -1)); (TOP_RIGHT, (1, -1));
   (LEFT, (-1, 0)); (RIGHT, (1, 0));
   (BOTTOM_LEFT, (-1, 1)); (BOTTOM, (0, 1)); (BOTTOM_RIGHT, (1, 1))].

(** The body of the loop of [process_newly_known_squares], for the
    square of index [i]. *)
Definition process_known_square (fuel : nat) (grid : Grid Z) (i : Z)
           (ss : SetStore) : res SetStore :=
  let x := fst (idx2pt grid i) in
  let y := snd (idx2pt grid i) in
  v <- grid_at_idx grid i ;;
  ss <-
    (if Mine0 <=? v
     then
       '(mines, mask) <-
         for_each neighbors (fun '(flag, (dx, dy)) '(mines, mask) =>
           if negb (grid_contains grid (x + dx) (y + dy))
           then Ret (mines, mask)
           else
             nv <- grid_at grid (x + dx) (y + dy) ;;
             if nv =? MarkedAsMine then Ret (mines - 1, mask)
             else if nv =? Unknown then Ret (mines, mask_or mask flag)
                  else Ret (mines, mask)) (v, NONE) ;;
       if mask_nonzero mask then add fuel ss (x - 1) (y - 1) mask mines
       else Ret ss
     else Ret ss) ;;
  let list := overlap ss x y TOP_LEFT in
  for_each list (fun it ss =>
    s <- deref ss it ;;
    let newmask :=
      set_mask (set_minus (e_set s) (mkSquareSet x y TOP_LEFT)) in
    let newmines := e_mines s - (if v =? MarkedAsMine then 1 else 0) in
    ss <-
      (if mask_nonzero newmask
       then add fuel ss (set_x (e_set s)) (set_y (e_set s)) newmask newmines
       else Ret ss) ;;
    erase ss it) ss.

(** [process_newly_known_squares]; the todo list is empty afterwards. *)
Definition process_newly_known_squares (fuel : nat) (squareTodo : SquareTodo)
           (grid : Grid Z) (ss : SetStore) : res SetStore :=
  for_each squareTodo (process_known_square fuel grid) ss.

(** [process_next_todo] *)
Definition process_next_todo (fuel : nat) (s : SetStoreElement)
           (thegame : GameData) (stodo : SquareTodo) (ss : SetStore)
  : res (GameData * SquareTodo * SetStore) :=
  let sx := set_x (e_set s) in
  let sy := set_y (e_set s) in
  if (e_mines s =? 0) || (e_mines s =? count (set_mask (e_set s)))
  then
    '(game, stodo) <-
      mark_known_squares thegame stodo sx sy (set_mask (e_set s))
        (negb (e_mines s =? 0)) ;;
    Ret (game, stodo, ss)
  else
    let list := overlap ss sx sy (set_mask (e_set s)) in
    for_each list (fun it '(game, stodo, ss) =>
      s2 <- deref ss it ;;
      let swing := set_mask (set_minus (e_set s) (e_set s2)) in
      let s2wing := set_mask (set_minus (e_set s2) (e_set s)) in
      let swc := count swing in
      let s2wc := count s2wing in
      if (swc =? e_mines s - e_mines s2) || (s2wc =? e_mines s2 - e_mines s)
      then
        '(game, stodo) <-
          mark_known_squares game stodo sx sy swing
            (swc =? e_mines s - e_mines s2) ;;
        '(game, stodo) <-
          mark_known_squares game stodo (set_x (e_set s2)) (set_y (e_set s2))
            s2wing (s2wc =? e_mines s2 - e_mines s) ;;
        Ret (game, stodo, ss)
      else if (swc =? 0) && negb (s2wc =? 0)
      then
        _ <- assert (e_mines s <? e_mines s2) ;;
        ss <- add fuel ss (set_x (e_set s2)) (set_y (e_set s2)) s2wing
                (e_mines s2 - e_mines s) ;;
        Ret (game, stodo, ss)
      else if (s2wc =? 0) && negb (swc =? 0)
      then
        _ <- assert (e_mines s2 <? e_mines s) ;;
        ss <- add fuel ss sx sy swing (e_mines s - e_mines s2) ;;
        Ret (game, stodo, ss)
      else Ret (game, stodo, ss)) (thegame, stodo, ss).

Definition setused_size : Z := 10.

Definition dummy_element : SetStoreElement :=
  mkElement (mkSquareSet 0 0 0) 0 false.

(** [*sets[i]] and [setused[i]]; the indices used are always in range. *)
Definition sets_at (sets : list SetStoreElement) (i : Z) : SetStoreElement :=
  nth (Z.to_nat i) sets dummy_element.

Definition setused_at (setused : list bool) (i : Z) : bool :=
  nth (Z.to_nat i) setused false.

(** [while (--cursor >= 0 && !setused[cursor]);] from [cursor]. *)
Fixpoint backtrack (cursor : nat) (setused : list bool) : Z :=
  match cursor with
  | O => -1
  | S c => if negb (nth c setused false) then backtrack c setused
           else Z.of_nat c
  end.

(** Marking the unknown squares outside the union found. *)
Definition mark_outside (sets : list SetStoreElement) (nsets : Z)
           (setused : list bool) (minesleft : Z)
           (thegame : GameData) (stodo : SquareTodo)
  : res (GameData * SquareTodo) :=
  for_each (grid_indices (gd_grid thegame)) (fun i '(game, stodo) =>
    v <- grid_at_idx (gd_grid game) i ;;
    if v =? Unknown
    then
      let y := snd (idx2pt (gd_grid game) i) in
      let x := fst (idx2pt (gd_grid game) i) in
      let outside :=
        negb (existsb (fun j =>
                setused_at setused j
                && mask_nonzero
                     (set_mask (set_and (e_set (sets_at sets j))
                                  (mkSquareSet x y TOP_LEFT))))
                (zrange (Z.to_nat nsets))) in
      if outside then mark_known_square game stodo x y (negb (minesleft =? 0))
      else Ret (game, stodo)
    else Ret (game, stodo)) (thegame, stodo).

(** The virtual recursion of [attempt_global_deduction]:
    [for (int cursor = 0;;) { ... }]. *)
Fixpoint global_loop (fuel : nat) (sets : list SetStoreElement) (nsets : Z)
         (thegame : GameData) (stodo : SquareTodo)
         (cursor : Z) (setused : list bool) (minesleft squaresleft : Z)
  : res (bool * GameData * SquareTodo) :=
  match fuel with
  | O => Diverge
  | S fuel' =>
      if cursor <? nsets
      then
        let ok :=
          negb (existsb (fun i =>
                  setused_at setused i
                  && mask_nonzero
                       (set_mask (set_and (e_set (sets_at sets cursor))
                                    (e_set (sets_at sets i)))))
                  (zrange (Z.to_nat cursor))) in
        let setused := list_update setused (Z.to_nat cursor) ok in
        let minesleft :=
          if ok then minesleft - e_mines (sets_at sets cursor)
          else minesleft in
        let squaresleft :=
          if ok then squaresleft - count (set_mask (e_set (sets_at sets cursor)))
          else squaresleft in
        global_loop fuel' sets nsets thegame stodo (cursor + 1) setused
          minesleft squaresleft
      else
        if (0 <? squaresleft)
           && ((minesleft =? 0) || (minesleft =? squaresleft))
        then
          '(game, stodo) <-
            mark_outside sets nsets setused minesleft thegame stodo ;;
          Ret (true, game, stodo)
        else
          let cursor := backtrack (Z.to_nat cursor) setused in
          if 0 <=? cursor
          then
            _ <- assert (setused_at setused cursor) ;;
            global_loop fuel' sets nsets thegame stodo (cursor + 1)
              (list_update setused (Z.to_nat cursor) false)
              (minesleft + e_mines (sets_at sets cursor))
              (squaresleft + count (set_mask (e_set (sets_at sets cursor))))
          else Ret (false, thegame, stodo)
  end.

(** [attempt_global_deduction]; the [grid] argument of the source is the
    grid of [thegame]. *)
Definition attempt_global_deduction (fuel : nat) (n squaresleft minesleft : Z)
           (thegame : GameData) (stodo : SquareTodo) (ss : SetStore)
  : res (bool * GameData * SquareTodo) :=
  if (minesleft =? 0) || (minesleft =? squaresleft)
  then
    '(game, stodo) <-
      for_each (grid_indices (gd_grid thegame)) (fun i '(game, stodo) =>
        v <- grid_at_idx (gd_grid game) i ;;
        if v =? Unknown
        then
          let pos := idx2pt (gd_grid game) i in
          mark_known_square game stodo (fst pos) (snd pos)
            (negb (minesleft =? 0))
        else Ret (game, stodo)) (thegame, stodo) ;;
    Ret (true, game, stodo)
  else
    let sets := m_elements ss in
    let nsets := setstore_size ss in
    if setused_size <? nsets then Ret (false, thegame, stodo)
    else
      global_loop fuel sets nsets thegame stodo 0
        (repeat false (Z.to_nat setused_size)) minesleft squaresleft.

(** [perturb_grid] *)
Definition perturb_grid (pb : Perturbator) (rng : RandomEngine)
           (thegame : GameData) (stodo : SquareTodo) (ss : SetStore)
  : res (bool * Perturbator * RandomEngine * GameData * SquareTodo * SetStore) :=
  '(perturbations, game, pb, rng) <- perturb_ss pb rng thegame ss ;;
  match perturbations with
  | [] => Ret (false, pb, rng, game, stodo, ss)
  | _ :: _ =>
      '(stodo, ss) <-
        for_each perturbations (fun p '(stodo, ss) =>
          v <- grid_at (gd_grid game) (pt_x p) (pt_y p) ;;
          let stodo :=
            if (pt_delta p =? Cleared) && negb (v =? Unknown)
            then stodo ++ [pt2idx (gd_grid game) (pt_x p) (pt_y p)]
            else stodo in
          let list := overlap ss (pt_x p) (pt_y p) TOP_LEFT in
          ss <-
            for_each list (fun it ss =>
              _ <- deref ss it ;;
              add_todo
                (mkSetStore
                   (map_update it
                      (fun e => mkElement (e_set e) (e_mines e + pt_delta p)
                                  (e_todo e))
                      (m_elements ss))
                   (m_todolist ss)) it) ss ;;
          Ret (stodo, ss)) (stodo, ss) ;;
      Ret (true, pb, rng, game, stodo, ss)
  end.

Definition has_unknown (grid : Grid Z) : bool :=
  existsb (fun v => v =? Unknown) (g_data grid).

(** The main loop [for (;;) { ... }] of [Solver::solve]. *)
Fixpoint solve_loop (fuel steps : nat) (n : Z)
         (perturbator : option (Perturbator * RandomEngine))
         (thegame : GameData) (stodo : SquareTodo) (ss : SetStore)
  : res (GameData * option (Perturbator * RandomEngine)) :=
  match steps with
  | O => Diverge
  | S steps' =>
      ss <- process_newly_known_squares fuel stodo (gd_grid thegame) ss ;;
      let stodo : SquareTodo := [] in
      '(todo, ss) <- next_todo ss ;;
      match todo with
      | Some s =>
          '(game, stodo, ss) <- process_next_todo fuel s thegame stodo ss ;;
          solve_loop fuel steps' n perturbator game stodo ss
      | None =>
          let squaresleft :=
            count_if (fun v => v =? Unknown) (g_data (gd_grid thegame)) in
          let minesleft :=
            n - count_if (fun v => v =? MarkedAsMine)
                  (g_data (gd_grid thegame)) in
          if squaresleft =? 0
          then _ <- assert (minesleft =? 0) ;; Ret (thegame, perturbator)
          else
            '(success, game, stodo) <-
              (if 0 <=? n
               then attempt_global_deduction fuel n squaresleft minesleft
                      thegame stodo ss
               else Ret (false, thegame, stodo)) ;;
            if (success : bool)
            then solve_loop fuel steps' n perturbator game stodo ss
            else
              match perturbator with
              | Some (pb, rng) =>
                  '(success, pb, rng, game, stodo, ss) <-
                    perturb_grid pb rng game stodo ss ;;
                  if (success : bool)
                  then solve_loop fuel steps' n (Some (pb, rng)) game stodo ss
                  else Ret (game, Some (pb, rng))
              | None => Ret (game, perturbator)
              end
      end
  end.

(** [Solver::solve]; [perturbator] is [m_perturbator] ([None] for
    [nullptr]) with the engine it draws from. *)
Definition solve (fuel : nat)
           (perturbator : option (Perturbator * RandomEngine))
           (thegame : GameData)
  : res (bool * GameData * option (Perturbator * RandomEngine)) :=
  let n := count_if (fun m : bool => m) (g_data (gd_mines thegame)) in
  stodo <- build_square_todolist (gd_grid thegame) ;;
  '(game, perturbator) <-
    solve_loop fuel fuel n perturbator thegame stodo SetStore_empty ;;
  Ret (negb (has_unknown (gd_grid game)), game, perturbator).

(* ===================================================================== *)
(** * generator.cpp *)
(* ===================================================================== *)

(** The possible locations for the mines: every square not within one
    square of [(x, y)], row by row. *)
Definition mine_candidates (ret : Grid bool) (w h x y : Z) : list Z :=
  flat_map (fun i =>
    flat_map (fun j =>
      if (1 <? Z.abs (i - y)) || (1 <? Z.abs (j - x))
      then [pt2idx ret j i] else [])
      (zrange (Z.to_nat w)))
    (zrange (Z.to_nat h)).

(** [minespos.resize(n)]: truncation, or padding with zeros. *)
Definition resize_indices (l : list Z) (n : Z) : list Z :=
  firstn (Z.to_nat n) l ++ repeat 0 (Z.to_nat n - length l).

(** Random placement of [n] mines, the first block of the loop of
    [minegen]. *)
Definition place_mines (ret : Grid bool) (n x y : Z) (rng : RandomEngine)
  : res (Grid bool * RandomEngine) :=
  let w := g_width ret in
  let h := g_height ret in
  let ret := grid_fill ret false in
  let minespos := mine_candidates ret w h x y in
  let '(minespos, rng) := shuffle Z minespos rng in
  _ <- assert (0 <=? n) ;;
  let minespos := resize_indices minespos n in
  ret <- for_each minespos (fun i ret => grid_set_idx ret i true) ret ;;
  Ret (ret, rng).

(** The engine a perturbator refers to ([Perturbator::m_rng] is a
    reference).  In [minegen] it is either the engine [rng] that places
    the mines, for the [BuiltinPerturbator] that the default [Generator]
    builds on its own [m_rng], or another engine, for a perturbator given
    to [Generator(Perturbator&)]: [own] is [None] in the first case and
    holds the state of that other engine in the second. *)
Definition perturbator_engine (rng : RandomEngine)
           (own : option RandomEngine) : RandomEngine :=
  match own with
  | None => rng
  | Some prng => prng
  end.

(** The inner loop [for (;;) { ... }] of [minegen]: [Some mines] when the
    grid is accepted, [None] when the attempt is given up.  The solver
    draws from the engine of the perturbator, which is [rng] itself when
    [own] is [None]. *)
Fixpoint verify_loop (fuel steps : nat) (ntries x y : Z) (game : GameData)
         (nbperturbs : Z) (pb : Perturbator) (rng : RandomEngine)
         (own : option RandomEngine)
  : res (option (Grid bool) * Perturbator * RandomEngine
         * option RandomEngine) :=
  match steps with
  | O => Diverge
  | S steps' =>
      let grid := grid_fill (gd_grid game) Unknown in
      k <- mineLookup (with_grid game grid) x y ;;
      grid <- grid_set grid x y k ;;
      v <- grid_at grid x y ;;
      _ <- assert (v =? Mine0) ;;
      let game := with_grid game grid in
      let pb :=
        match own with
        | None => perturbator_reset ntries
        | Some _ => base_perturbator_reset
        end in
      '(solved, game, perturbator) <-
        solve fuel (Some (pb, perturbator_engine rng own)) game ;;
      match perturbator with
      | None => Abort
      | Some (pb, prng) =>
          let rng := match own with None => prng | Some _ => rng end in
          let own := match own with None => None | Some _ => Some prng end in
          if negb solved
             || ((0 <=? nbperturbs) && (nbperturbs <=? m_use_count pb))
          then Ret (None, pb, rng, own)
          else
            let nbperturbs := m_use_count pb in
            if nbperturbs =? 0 then Ret (Some (gd_mines game), pb, rng, own)
            else verify_loop fuel steps' ntries x y game nbperturbs pb rng own
      end
  end.

(** The loop [do { ... } while (!success)] of [minegen]. *)
Fixpoint minegen_loop (fuel steps : nat) (ret : Grid bool) (n x y : Z)
         (unique : bool) (ntries : Z) (pb : Perturbator) (rng : RandomEngine)
         (own : option RandomEngine)
  : res (Grid bool * Perturbator * RandomEngine * option RandomEngine) :=
  match steps with
  | O => Diverge
  | S steps' =>
      let ntries := ntries + 1 in
      '(ret, rng) <- place_mines ret n x y rng ;;
      if unique
      then
        let w := g_width ret in
        let h := g_height ret in
        let game := mkGameData x y ret (Grid_new w h Unknown) in
        '(result, pb, rng, own) <-
          verify_loop fuel fuel ntries x y game (-1) pb rng own ;;
        match result with
        | Some mines => Ret (mines, pb, rng, own)
        | None => minegen_loop fuel steps' ret n x y unique ntries pb rng own
        end
      else Ret (ret, pb, rng, own)
  end.

(** [minegen(w, h, n, x, y, unique, rng, perturbator)] *)
Definition minegen (fuel : nat) (w h n x y : Z) (unique : bool)
           (pb : Perturbator) (rng : RandomEngine)
           (own : option RandomEngine)
  : res (Grid bool * Perturbator * RandomEngine * option RandomEngine) :=
  let ret := Grid_new w h false in
  minegen_loop fuel fuel ret n x y unique 0 pb rng own.

(** [Generator]: its seed, its engine and its perturbator.
    [m_perturbator_rng] is [None] for the generator that [Generator()]
    builds, whose [BuiltinPerturbator] refers to [m_rng]; for the
    generator that [Generator(Perturbator&)] builds on a perturbator of
    the base class, it holds the state of the engine that perturbator
    refers to. *)
Record Generator : Type := mkGenerator
  { m_seed : Z; m_rng : RandomEngine; m_perturbator : Perturbator;
    m_perturbator_rng : option RandomEngine }.

(** [Generator::generate(params)]; [entropy] is what [seed()] obtains from
    [std::random_device] or [std::rand] when it is called.  Only [m_rng]
    is seeded. *)
Definition generate (fuel : nat) (entropy : Z) (gen : Generator)
           (params : GameParams) : res (Grid bool * Generator) :=
  let m_seed' :=
    if negb (p_seed params =? 0) then m_seed gen
    else if m_seed gen =? 0 then entropy else m_seed gen in
  let s := if negb (p_seed params =? 0) then p_seed params else m_seed' in
  let rng := rng_seed s in
  '(ret, pb, rng, own) <-
    minegen fuel (p_width params) (p_height params) (p_minecount params)
      (p_sx params) (p_sy params) (p_unique params) (m_perturbator gen) rng
      (m_perturbator_rng gen) ;;
  Ret (ret, mkGenerator m_seed' rng pb own).

End WithRNG.

(* ===================================================================== *)
(** * Notions used to state the properties of square sets *)
(* ===================================================================== *)

(** A mask of the data model: a 9-bit word. *)
Definition mask9 (m : Z) : Prop := 0 <= m < 2 ^ 9.

(** Membership of the absolute square [(px, py)] in a set: bit
    [3 * dy + dx] of the mask, for the offset [(dx, dy)] from the anchor. *)
Definition member (s : SquareSet) (px py : Z) : bool :=
  let dx := px - set_x s in
  let dy := py - set_y s in
  (0 <=? dx) && (dx <? 3) && (0 <=? dy) && (dy <? 3)
  && Z.testbit (set_mask s) (3 * dy + dx).

(** The number of bit positions [0..15] at which a word has a 1. *)
Definition bits_set (w : Z) : Z :=
  Z.of_nat (length (filter (Z.testbit w) (zrange 16))).

(* ===================================================================== *)
(** * Notions used to state the properties of the set store *)
(* ===================================================================== *)

Definition elem_lt (a b : SetStoreElement) : Prop :=
  set_ltb (e_set a) (e_set b) = true.

(** A store as [std::map] keeps it: entries in strictly increasing key
    order, every mask a 9-bit word. *)
Definition store_ok (ss : SetStore) : Prop :=
  StronglySorted elem_lt (m_elements ss)
  /\ Forall (fun e => mask9 (set_mask (e_set e))) (m_elements ss).

(** A sequence of calls [ss.add(x, y, mask, mines)]. *)
Definition add_all (fuel : nat) (ss : SetStore) (calls : list (Z * Z * Z * Z))
  : res SetStore :=
  for_each calls (fun '(x, y, mask, mines) ss => add fuel ss x y mask mines) ss.

(** The number of entries of the store with key [k]. *)
Definition entries_with_key (ss : SetStore) (k : SquareSet) : nat :=
  length (filter (fun e => set_eqb (e_set e) k) (m_elements ss)).

(* ===================================================================== *)
(** * Notions used to state the properties of games *)
(* ===================================================================== *)

(** The shape of a grid: its dimensions and the number of its cells. *)
Definition shape {T : Type} (g : Grid T) : Z * Z * nat :=
  (g_width g, g_height g, length (g_data g)).

(** [game'] has the mines and the start square of [game], and a grid of
    the same shape. *)
Definition same_frame (game game' : GameData) : Prop :=
  gd_sx game' = gd_sx game /\ gd_sy game' = gd_sy game
  /\ gd_mines game' = gd_mines game
  /\ shape (gd_grid game') = shape (gd_grid game).

(** [game'] has the start square of [game], and grids of the same shapes. *)
Definition same_shapes (game game' : GameData) : Prop :=
  gd_sx game' = gd_sx game /\ gd_sy game' = gd_sy game
  /\ shape (gd_mines game') = shape (gd_mines game)
  /\ shape (gd_grid game') = shape (gd_grid game).

(** A grid as [Grid(w, h, value)] builds it, with at least one column. *)
Definition grid_wf {T : Type} (g : Grid T) : Prop :=
  0 < g_width g /\ 0 <= g_height g /\ grid_size g = g_width g * g_height g.

(** A game whose two grids are well formed and have the same dimensions. *)
Definition game_wf (game : GameData) : Prop :=
  grid_wf (gd_mines game) /\ grid_wf (gd_grid game)
  /\ g_width (gd_grid game) = g_width (gd_mines game)
  /\ g_height (gd_grid game) = g_height (gd_mines game).

(** The knowledge value of the cell [(x, y)]. *)
Definition cell (grid : Grid Z) (x y : Z) : Z :=
  nth (Z.to_nat (y * g_width grid + x)) (g_data grid) Unknown.

(** Whether the cell [(x, y)] is inside the grid and holds a mine. *)
Definition mine_at (mines : Grid bool) (x y : Z) : bool :=
  grid_contains mines x y
  && nth (Z.to_nat (y * g_width mines + x)) (g_data mines) false.

Definition neighbor_offsets : list (Z * Z) :=
  [(-1, -1); (0, -1); (1, -1); (-1, 0); (1, 0); (-1, 1); (0, 1); (1, 1)].

(** The number of mines among the in-bounds 8-neighbours of [(x, y)]. *)
Definition neighbor_mines (mines : Grid bool) (x y : Z) : Z :=
  fold_right Z.add 0
    (map (fun d => Z.b2z (mine_at mines (x + fst d) (y + snd d)))
       neighbor_offsets).

(** The total number of mines. *)
Definition mine_count (mines : Grid bool) : Z :=
  count_if (fun m : bool => m) (g_data mines).

(** Within Chebyshev distance 1 of the start square. *)
Definition near (sx sy x y : Z) : Prop :=
  Z.abs (x - sx) <= 1 /\ Z.abs (y - sy) <= 1.

(** Invariant 3 on a cell: a revealed value is the number of mines around
    the cell; with [safe], the cell is moreover not a mine. *)
Definition cell_ok (safe : bool) (mines : Grid bool) (x y v : Z) : Prop :=
  0 <= v ->
  (safe = true -> mine_at mines x y = false)
  /\ v = neighbor_mines mines x y.

Definition grid_ok (safe : bool) (game : GameData) : Prop :=
  forall x y, grid_contains (gd_grid game) x y = true ->
              cell_ok safe (gd_mines game) x y (cell (gd_grid game) x y).

(** Every knowledge value is one the enumeration allows from [Unknown] up. *)
Definition values_ok (game : GameData) : Prop :=
  forall x y, grid_contains (gd_grid game) x y = true ->
              Unknown <= cell (gd_grid game) x y.

(** No mine within one square of the start. *)
Definition start_clear (game : GameData) : Prop :=
  forall x y, near (gd_sx game) (gd_sy game) x y ->
              mine_at (gd_mines game) x y = false.

(** The law of [std::shuffle]: it permutes the range. *)
Definition shuffle_permutes (R : RNG) : Prop :=
  forall (A : Type) (l : list A) (rng : RandomEngine),
    Permutation l (fst (shuffle A l rng)).

(** Every square of every set of the store lies in the grid, and every
    mask is a 9-bit word. *)
Definition store_in_grid (grid : Grid Z) (ss : SetStore) : Prop :=
  forall e, In e (m_elements ss) ->
            mask9 (set_mask (e_set e))
            /\ forall px py, member (e_set e) px py = true ->
                             grid_contains grid px py = true.

(** The invariant of a game the solver works on. *)
Definition game_inv (safe : bool) (game : GameData) : Prop :=
  game_wf game /\ grid_ok safe game /\ values_ok game.

(* ===================================================================== *)
(** * squareset.cpp: the extent of a set *)
(* ===================================================================== *)

(** [SquareSet::xmax()] *)
Definition xmax (s : SquareSet) : Z :=
  if mask_nonzero (mask_and (set_mask s) RIGHT_COLUMN) then set_x s + 2
  else if mask_nonzero (mask_and (set_mask s) CENTER_COLUMN) then set_x s + 1
  else set_x s.

(** [SquareSet::ymax()] *)
Definition ymax (s : SquareSet) : Z :=
  if mask_nonzero (mask_and (set_mask s) BOTTOM_ROW) then set_y s + 2
  else if mask_nonzero (mask_and (set_mask s) CENTER_ROW) then set_y s + 1
  else set_y s.

(* ===================================================================== *)
(** * solver.cpp: SetStore::contains *)
(* ===================================================================== *)

(** [SetStore::contains(s)]: [find(s) != m_elements.end()] *)
Definition setstore_contains (fuel : nat) (ss : SetStore) (s : SquareSet)
  : res bool :=
  r <- find fuel ss s ;;
  Ret (match r with Some _ => true | None => false end).

(* ===================================================================== *)
(** * game.cpp: the Game class *)
(* ===================================================================== *)

Definition MineHit : Z := 65.

(** [enum OpenSquareResult] *)
Definition KilledByMine : Z := -1.
Definition OK : Z := 0.

(** [Game]: its member [m_data], with all the fields of [GameData]. *)
Record Game : Type := mkGame
  { gm_params : GameParams; gm_seed : Z; gm_mines : Grid bool;
    gm_grid : Grid Z; gm_dead : bool; gm_won : bool }.

(** The part of the data that [mineLookup] and the solver read. *)
Definition gameData (g : Game) : GameData :=
  mkGameData (p_sx (gm_params g)) (p_sy (gm_params g)) (gm_mines g)
    (gm_grid g).

Definition set_grid (g : Game) (grid : Grid Z) : Game :=
  mkGame (gm_params g) (gm_seed g) (gm_mines g) grid (gm_dead g) (gm_won g).

(** [Game::Game(const GameParams&)]: default-constructed grids; [seed] is
    left with the value [seed0] the memory holds. *)
Definition Game_new (params : GameParams) (seed0 : Z) : Game :=
  mkGame params seed0 (mkGrid 0 0 []) (mkGrid 0 0 []) false false.

(** [Grid::empty()] *)
Definition grid_empty {T : Type} (g : Grid T) : bool :=
  match g_data g with [] => true | _ :: _ => false end.

(** [Game::started()], [Game::finished()] *)
Definition started (g : Game) : bool := negb (grid_empty (gm_mines g)).
Definition finished (g : Game) : bool := gm_won g || gm_dead g.

(** The two loops [for dx: for dy:] of the flood fill of [open_square]
    around the square [(xx, yy)].  The vector [todo] is used as a stack:
    the list holds it from its back. *)
Definition open_around (xx yy : Z) (st : Game * list Z)
  : res (Game * list Z) :=
  for_each deltas (fun dx st =>
    for_each deltas (fun dy '(g, todo) =>
      let grid := gm_grid g in
      if grid_contains grid (xx + dx) (yy + dy)
      then
        v <- grid_at grid (xx + dx) (yy + dy) ;;
        if v =? Unknown
        then
          nbmines <- mineLookup (gameData g) (xx + dx) (yy + dy) ;;
          _ <- assert (negb (nbmines =? -1)) ;;
          grid <- grid_set grid (xx + dx) (yy + dy) nbmines ;;
          Ret (set_grid g grid,
               if nbmines =? 0
               then pt2idx grid (xx + dx) (yy + dy) :: todo
               else todo)
        else Ret (g, todo)
      else Ret (g, todo)) st) st.

(** [while (!todo.empty()) { ... }] of [open_square] *)
Definition flood_fill (fuel : nat) (st : Game * list Z)
  : res (Game * list Z) :=
  while_loop fuel
    (fun '(_, todo) => match todo with [] => false | _ :: _ => true end)
    (fun '(g, todo) =>
       match todo with
       | [] => Ret (g, todo)
       | i :: todo =>
           let xx := fst (idx2pt (gm_grid g) i) in
           let yy := snd (idx2pt (gm_grid g) i) in
           open_around xx yy (g, todo)
       end) st.

(** The loops [for yy < h: for xx < w:] of [open_square] that count the
    mines and the covered squares: [(nmines, ncovered)]. *)
Definition count_covered (g : Game) (w h : Z) : res (Z * Z) :=
  for_each (zrange (Z.to_nat h)) (fun yy st =>
    for_each (zrange (Z.to_nat w)) (fun xx '(nmines, ncovered) =>
      v <- grid_at (gm_grid g) xx yy ;;
      m <- grid_at (gm_mines g) xx yy ;;
      Ret (if (m : bool) then nmines + 1 else nmines,
           if v <? 0 then ncovered + 1 else ncovered)) st) (0, 0).

(** The loops of [open_square] that mark every covered square. *)
Definition mark_covered (grid : Grid Z) (w h : Z) : res (Grid Z) :=
  for_each (zrange (Z.to_nat h)) (fun yy grid =>
    for_each (zrange (Z.to_nat w)) (fun xx grid =>
      v <- grid_at grid xx yy ;;
      if v <? 0 then grid_set grid xx yy MarkedAsMine else Ret grid) grid)
    grid.

(** [open_square(thegame, x, y)]: the result and the game afterwards. *)
Definition open_square (fuel : nat) (g : Game) (x y : Z) : res (Z * Game) :=
  let w := p_width (gm_params g) in
  let h := p_height (gm_params g) in
  _ <- assert (negb (grid_empty (gm_mines g))) ;;
  here <- grid_at (gm_mines g) x y ;;
  if (here : bool)
  then
    grid <- grid_set (gm_grid g) x y MineHit ;;
    Ret (KilledByMine,
         mkGame (gm_params g) (gm_seed g) (gm_mines g) grid true (gm_won g))
  else
    nbmines <- mineLookup (gameData g) x y ;;
    grid <- grid_set (gm_grid g) x y nbmines ;;
    let g := set_grid g grid in
    let todo := if nbmines =? 0 then [pt2idx grid x y] else [] in
    '(g, _) <- flood_fill fuel (g, todo) ;;
    if gm_dead g then Ret (OK, g)
    else
      '(nmines, ncovered) <- count_covered g w h ;;
      _ <- assert (nmines <=? ncovered) ;;
      if ncovered =? nmines
      then
        grid <- mark_covered (gm_grid g) w h ;;
        Ret (OK,
             mkGame (gm_params g) (gm_seed g) (gm_mines g) grid (gm_dead g)
               true)
      else Ret (OK, g).

(** [Game::toggleMark(x, y)]: the result and the game afterwards. *)
Definition toggleMark (g : Game) (x y : Z) : res (bool * Game) :=
  if negb (grid_contains (gm_grid g) x y) then Ret (false, g)
  else
    v <- grid_at (gm_grid g) x y ;;
    grid <-
      (if v =? MarkedAsMine then grid_set (gm_grid g) x y Unknown
       else if v =? Unknown then grid_set (gm_grid g) x y MarkedAsMine
            else Ret (gm_grid g)) ;;
    v' <- grid_at grid x y ;;
    Ret ((v' =? MarkedAsMine) || (v' =? Unknown), set_grid g grid).

(** [Game::countUncovered()] *)
Definition countUncovered (g : Game) : Z :=
  count_if (fun k => (0 <=? k) && (k <=? 8)) (g_data (gm_grid g)).

(** The offsets [(dx, dy)] of the loops [for dy: for dx:] of
    [openAdjacentSquares]. *)
Definition adjacent_offsets : list (Z * Z) :=
  flat_map (fun dy => map (fun dx => (dx, dy)) deltas) deltas.

(** The first loop nest of the uncovering part of [openAdjacentSquares]:
    the first offset of a square that holds a mine and is not marked. *)
Fixpoint find_unmarked_mine (g : Game) (x y : Z) (l : list (Z * Z))
  : res (option (Z * Z)) :=
  match l with
  | [] => Ret None
  | (dx, dy) :: l' =>
      if grid_contains (gm_mines g) (x + dx) (y + dy)
      then
        v <- grid_at (gm_grid g) (x + dx) (y + dy) ;;
        if negb (v =? MarkedAsMine)
        then
          m <- grid_at (gm_mines g) (x + dx) (y + dy) ;;
          if (m : bool) then Ret (Some (dx, dy))
          else find_unmarked_mine g x y l'
        else find_unmarked_mine g x y l'
      else find_unmarked_mine g x y l'
  end.

(** [Game::openAdjacentSquares(x, y)] *)
Definition openAdjacentSquares (fuel : nat) (g : Game) (x y : Z) : res Game :=
  if negb (grid_contains (gm_grid g) x y) then Ret g
  else
    here <- grid_at (gm_grid g) x y ;;
    if here =? MarkedAsMine then Ret g
    else
      n <- for_each adjacent_offsets (fun '(dx, dy) n =>
             if grid_contains (gm_grid g) (x + dx) (y + dy)
             then
               v <- grid_at (gm_grid g) (x + dx) (y + dy) ;;
               Ret (if v =? MarkedAsMine then n + 1 else n)
             else Ret n) 0 ;;
      if n =? here
      then
        found <- find_unmarked_mine g x y adjacent_offsets ;;
        match found with
        | Some (dx, dy) =>
            '(_, g) <- open_square fuel g (x + dx) (y + dy) ;; Ret g
        | None =>
            for_each adjacent_offsets (fun '(dx, dy) g =>
              if grid_contains (gm_grid g) (x + dx) (y + dy)
              then
                v <- grid_at (gm_grid g) (x + dx) (y + dy) ;;
                if v =? Unknown
                then '(_, g) <- open_square fuel g (x + dx) (y + dy) ;; Ret g
                else Ret g
              else Ret g) g
        end
      else Ret g.

Section GameWithRNG.

Context {R : RNG}.

(** [Game::openSquare(x, y)].  [entropy1] is what [generator.seed()]
    obtains, [entropy2] what a second call of [seed()] inside [generate]
    would obtain, [rng0] the state of a default-constructed engine. *)
Definition openSquare (fuel : nat) (entropy1 entropy2 : Z)
           (rng0 : RandomEngine) (g : Game) (x y : Z) : res Game :=
  g <-
    (if grid_empty (gm_mines g)
     then
       let params :=
         mkGameParams (p_width (gm_params g)) (p_height (gm_params g))
           (p_minecount (gm_params g)) (p_unique (gm_params g)) x y
           (p_seed (gm_params g)) in
       let generator :=
         mkGenerator entropy1 rng0 (mkPerturbator 0 false) None in
       '(mines, _) <- generate fuel entropy2 generator params ;;
       let grid :=
         if negb (grid_size (gm_grid g) =? grid_size mines)
         then Grid_new (g_width mines) (g_height mines) Unknown
         else gm_grid g in
       Ret (mkGame params entropy1 mines grid (gm_dead g) (gm_won g))
     else Ret g) ;;
  '(_, g) <- open_square fuel g x y ;;
  Ret g.

End GameWithRNG.

(* ===================================================================== *)
(** * Auxiliary definitions of the proofs *)
(* ===================================================================== *)

(** The offsets, relative to the anchor, that [foreachSquare] visits. *)
Definition rel_squares (m : Z) : list (Z * Z) :=
  squares (mkSquareSet 0 0 m).

Definition pair_eqb (p q : Z * Z) : bool :=
  (fst p =? fst q) && (snd p =? snd q).

Fixpoint nodupb (l : list (Z * Z)) : bool :=
  match l with
  | [] => true
  | p :: l' => negb (existsb (pair_eqb p) l') && nodupb l'
  end.

Definition bit_square (m i dx dy : Z) : list (Z * Z) :=
  if Z.testbit m i then [(dx, dy)] else [].

Definition shift_res (x y : Z) (r : res SquareSet) : res SquareSet :=
  match r with
  | Ret s => Ret (mkSquareSet (x + set_x s) (y + set_y s) (set_mask s))
  | Abort => Abort
  | Diverge => Diverge
  end.

Definition shift_snd (x : Z) (r : res (Z * Z)) : res (Z * Z) :=
  match r with
  | Ret (m, k) => Ret (m, x + k)
  | Abort => Abort
  | Diverge => Diverge
  end.

Fixpoint pairs_eqb (l1 l2 : list (Z * Z)) : bool :=
  match l1, l2 with
  | [], [] => true
  | p :: l1', q :: l2' => pair_eqb p q && pairs_eqb l1' l2'
  | _, _ => false
  end.

(** What is checked, mask by mask, about [normalize] at the origin. *)
Definition normalize_check (m : Z) : bool :=
  match normalize 3 (mkSquareSet 0 0 m) with
  | Ret r =>
      match normalize 3 (mkSquareSet 0 0 (set_mask r)) with
      | Ret r' => (set_x r' =? 0) && (set_y r' =? 0)
                  && (set_mask r' =? set_mask r)
      | _ => false
      end
      && (if m =? 0
          then (set_x r =? 0) && (set_y r =? 0) && (set_mask r =? 0)
          else mask_nonzero (mask_and (set_mask r) LEFT_COLUMN)
               && mask_nonzero (mask_and (set_mask r) TOP_ROW))
      && pairs_eqb
           (map (fun d => (set_x r + fst d, set_y r + snd d))
                (rel_squares (set_mask r)))
           (rel_squares m)
      && (0 <=? set_mask r) && (set_mask r <? 512)
  | _ => false
  end.

(** The mask of [other] seen from an anchor at offset [(-dx, -dy)]. *)
Definition tmask (dx dy m : Z) : Z :=
  set_mask (SquareSet_at 0 0 (mkSquareSet dx dy m)).

Definition offsets5 : list Z := [-2; -1; 0; 1; 2].
Definition offsets3 : list Z := [0; 1; 2].

Definition tmask_check (m : Z) : bool :=
  forallb (fun dx =>
    forallb (fun dy =>
      (0 <=? tmask dx dy m) && (tmask dx dy m <? 512)
      && forallb (fun qx =>
           forallb (fun qy =>
             Bool.eqb (Z.testbit (tmask dx dy m) (3 * qy + qx))
                      (member (mkSquareSet dx dy m) qx qy))
             offsets3)
           offsets3)
      offsets5)
    offsets5.

Definition in_window (x y px py : Z) : bool :=
  (0 <=? px - x) && (px - x <? 3) && (0 <=? py - y) && (py - y <? 3).

Definition set_todo (e : SetStoreElement) : SetStoreElement :=
  mkElement (e_set e) (e_mines e) true.

Definition rotate {A : Type} (k : nat) (l : list A) : list A :=
  skipn k l ++ firstn k l.

(** A toy engine: the state is a counter, [shuffle] rotates the range by
    the counter, [uniform_int] returns the lower bound. *)
Definition test_rng : RNG :=
  {| RandomEngine := Z;
     rng_seed := fun s => s;
     shuffle := fun A l s => (rotate (Z.to_nat s) l, s + 1);
     uniform_int := fun a b s => (a, s + 1) |}.

Definition test_generator : @Generator test_rng :=
  @mkGenerator test_rng 0 0 (mkPerturbator 0 false) None.

Definition test_params : GameParams := mkGameParams 5 5 6 true 0 0 9.






(** The board that the generator returns for [test_params]. *)
Definition test_board : Grid bool :=
  Eval vm_compute in
    match @generate test_rng 60 0 test_generator test_params with
    | Ret (board, _) => board
    | _ => Grid_new 0 0 false
    end.

Definition test_generator1 : @Generator test_rng :=
  Eval vm_compute in
    match @generate test_rng 60 0 test_generator test_params with
    | Ret (_, gen) => gen
    | _ => test_generator
    end.

(** The body of the two nested loops of [apply_changes] that update the
    grid around the changed square [(x, y)]. *)
Definition change_cell (x y delta : Z) (mines : Grid bool) (dy dx : Z)
           (grid : Grid Z) : res (Grid Z) :=
  if grid_contains grid (x + dx) (y + dy)
  then
    v <- grid_at grid (x + dx) (y + dy) ;;
    if negb (v =? Unknown)
    then
      if (dx =? 0) && (dy =? 0)
      then
        if delta =? ChangedToMine
        then grid_set grid x y MarkedAsMine
        else minecount <- recount grid mines x y ;;
             grid_set grid x y minecount
      else
        if Mine0 <=? v
        then grid_set grid (x + dx) (y + dy) (v + delta)
        else Ret grid
    else Ret grid
  else Ret grid.

(** The value that [change_cell] leaves in the cell it visits. *)
Definition new_value (x y delta : Z) (mines : Grid bool) (dy dx v : Z) : Z :=
  if v =? Unknown then v
  else if (dx =? 0) && (dy =? 0)
       then if delta =? ChangedToMine then MarkedAsMine
            else neighbor_mines mines x y + Z.b2z (mine_at mines x y)
       else if Mine0 <=? v then v + delta else v.

(** The offsets [(dy, dx)] in the order of the two loops. *)
Definition all9 : list (Z * Z) :=
  flat_map (fun dy => map (fun dx => (dy, dx)) deltas) deltas.

(** The sum of the deltas of a list of perturbations. *)
Definition delta_sum (l : list Perturbation) : Z :=
  fold_right Z.add 0 (map pt_delta l).

(** A perturbation of a square of the grid, by [+1] or [-1]. *)
Definition pert_ok (grid : Grid Z) (p : Perturbation) : Prop :=
  grid_contains grid (pt_x p) (pt_y p) = true
  /\ (pt_delta p = 1 \/ pt_delta p = -1).

Definition grid_wfb {T : Type} (g : Grid T) : bool :=
  (0 <? g_width g) && (0 <=? g_height g)
  && (grid_size g =? g_width g * g_height g).

Definition game_wfb (game : GameData) : bool :=
  grid_wfb (gd_mines game) && grid_wfb (gd_grid game)
  && (g_width (gd_grid game) =? g_width (gd_mines game))
  && (g_height (gd_grid game) =? g_height (gd_mines game)).

Definition cell_okb (safe : bool) (mines : Grid bool) (x y v : Z) : bool :=
  (v <? 0)
  || ((negb safe || negb (mine_at mines x y))
      && (v =? neighbor_mines mines x y)).

Definition game_invb (safe : bool) (game : GameData) : bool :=
  game_wfb game
  && forallb (fun i =>
       let x := fst (idx2pt (gd_grid game) i) in
       let y := snd (idx2pt (gd_grid game) i) in
       cell_okb safe (gd_mines game) x y (cell (gd_grid game) x y)
       && (Unknown <=? cell (gd_grid game) x y))
       (grid_indices (gd_grid game)).

(** A game with a revealed square next to the squares that the
    perturbation below changes. *)
Definition test_ctx : GameData :=
  mkGameData 0 0 test_board
    (mkGrid 5 5 [0; -2; -2; -2; -2; -2; -2; 1; -2; -2; -2; -2; -2; -2; -2;
                 -2; -2; -2; -2; -2; -2; -2; -2; -2; -2]).

Definition test_perturbation : list Perturbation :=
  Eval vm_compute in
    match @mineperturb test_rng test_ctx 2 2 TOP_LEFT 0 false with
    | Ret (ret, _, _) => ret
    | _ => []
    end.

Definition test_ctx1 : GameData :=
  Eval vm_compute in
    match @mineperturb test_rng test_ctx 2 2 TOP_LEFT 0 false with
    | Ret (_, ctx, _) => ctx
    | _ => test_ctx
    end.

(** A set with a 9-bit mask, all of whose squares are squares of the
    grid. *)
Definition set_in_grid {T : Type} (grid : Grid T) (s : SquareSet) : Prop :=
  mask9 (set_mask s)
  /\ forall px py, member s px py = true ->
                   grid_contains grid px py = true.

(** [game'] has the start square of [game], as many mines, and the same
    mines within one square of the start. *)
Definition keeps_mines (game game' : GameData) : Prop :=
  gd_sx game' = gd_sx game /\ gd_sy game' = gd_sy game
  /\ mine_count (gd_mines game') = mine_count (gd_mines game)
  /\ forall x y, near (gd_sx game) (gd_sy game) x y ->
                 mine_at (gd_mines game') x y = mine_at (gd_mines game) x y.

(** The game that the solver is run on: the board of [test_board] with the
    start square opened. *)
Definition test_game : GameData :=
  mkGameData 0 0 test_board
    (mkGrid 5 5 [0; -2; -2; -2; -2; -2; -2; -2; -2; -2; -2; -2; -2; -2; -2;
                 -2; -2; -2; -2; -2; -2; -2; -2; -2; -2]).

Definition test_solved : GameData :=
  Eval vm_compute in
    match @solve test_rng 60 None test_game with
    | Ret (_, game, _) => game
    | _ => test_game
    end.

(** The indices of the squares within one square of [(x, y)], in a grid of
    width [w]. *)
Definition near_indices (w x y : Z) : list Z :=
  map (fun d => (y + fst d) * w + (x + snd d)) all9.

(** What is checked, mask by mask, about [xmax] and [ymax] at the
    origin. *)
Definition extent_check (m : Z) : bool :=
  let s := mkSquareSet 0 0 m in
  if m =? 0 then (xmax s =? 0) && (ymax s =? 0)
  else
    existsb (fun py => member s (xmax s) py) [0; 1; 2]
    && existsb (fun px => member s px (ymax s)) [0; 1; 2]
    && forallb (fun px => forallb (fun py =>
         negb (member s px py) || ((px <=? xmax s) && (py <=? ymax s)))
         [0; 1; 2]) [0; 1; 2].

(** A small grid to run the grid operations on. *)
Definition test_grid : Grid Z := Grid_new 3 2 Unknown.

(** The todo list agrees with the [todo] flags: it holds, once each, the
    keys of the entries whose flag is set. *)
Definition todo_ok (ss : SetStore) : Prop :=
  NoDup (m_todolist ss)
  /\ forall k, In k (m_todolist ss)
               <-> exists e, map_find k (m_elements ss) = Some e
                             /\ e_todo e = true.

(** A store with two entries, the second one in the todo list. *)
Definition test_store : SetStore :=
  mkSetStore
    [mkElement (mkSquareSet 0 0 TOP_LEFT) 1 false;
     mkElement (mkSquareSet 2 1 (Z.lor TOP_LEFT LEFT)) 1 true]
    [mkSquareSet 2 1 (Z.lor TOP_LEFT LEFT)].

(** The grid [g'] has the dimensions of [g], and every value of [g] other
    than [Unknown] is still there. *)
Definition grows (g g' : Grid Z) : Prop :=
  shape g' = shape g
  /\ forall i, nth i (g_data g) Unknown <> Unknown ->
               nth i (g_data g') Unknown = nth i (g_data g) Unknown.

(** [game'] has the mines and the start square of [game], and a grid that
    keeps what was known. *)
Definition learns (game game' : GameData) : Prop :=
  same_frame game game' /\ grows (gd_grid game) (gd_grid game').

(** The value that [mark_known_squares] writes into an unknown square. *)
Definition marked_value (mines : Grid bool) (mine : bool) (a b : Z) : Z :=
  if mine then MarkedAsMine
  else if mine_at mines a b then -1 else neighbor_mines mines a b.

Definition in_list (l : list (Z * Z)) (a b : Z) : bool :=
  existsb (fun q => (fst q =? a) && (snd q =? b)) l.




(** The test of [build_squarelist] that leaves a square out of the list:
    it is within one square of the start, or it belongs to the input set
    (the unknown squares, when the mask is empty). *)
Definition left_out (ctx : GameData) (grid : Grid Z) (setx sety mask : Z)
           (x y : Z) : bool :=
  ((Z.abs (y - gd_sy ctx) <=? 1) && (Z.abs (x - gd_sx ctx) <=? 1))
  || (mask_is_zero mask && (cell grid x y =? Unknown))
  || member (mkSquareSet setx sety mask) x y.

(** The body of the loop of [build_squarelist], for the square of index
    [i]. *)
Definition squarelist_body (ctx : GameData) (grid : Grid Z)
           (setx sety mask i : Z) (sqlist : list PerturbSquare)
  : res (list PerturbSquare) :=
  let x := fst (idx2pt grid i) in
  let y := snd (idx2pt grid i) in
  if (Z.abs (y - gd_sy ctx) <=? 1) && (Z.abs (x - gd_sx ctx) <=? 1)
  then Ret sqlist
  else
    v <- grid_at_idx grid i ;;
    if (mask_is_zero mask && (v =? Unknown))
       || ((setx <=? x) && (x <? setx + 3) && (sety <=? y)
           && (y <? sety + 3)
           && mask_nonzero
                (mask_and mask
                   (Z.shiftl 1 ((y - sety) * 3 + (x - setx)))))
    then Ret sqlist
    else
      ty <-
        (if negb (v =? Unknown) then Ret KnownSquare
         else for_each deltas (fun dy ty =>
                near_known_row grid x y dy deltas ty) InUnknownRegion) ;;
      Ret (sqlist ++ [mkPerturbSquare ty x y]).

Definition test_sqlist : list PerturbSquare :=
  Eval vm_compute in
    match @build_squarelist test_rng test_ctx (gd_grid test_ctx) 2 2
            TOP_LEFT 0 with
    | Ret (l, _) => l
    | _ => []
    end.

(** A game in progress on the board of [test_board]: the start square is
    open, one mine is marked and one safe square is marked by mistake. *)
Definition test_play : Game :=
  mkGame test_params 9 test_board
    (mkGrid 5 5 [0; -2; -2; -2; -2; -2; -2; -2; -2; -2; -2; -2; -2; -1; -2;
                 -2; -2; -2; -2; -2; -2; -2; -2; -2; -1])
    false false.

(** What [toggleMark] makes of the value of a square. *)
Definition toggled (v : Z) : Z :=
  if v =? MarkedAsMine then Unknown
  else if v =? Unknown then MarkedAsMine else v.

(** The grid with the value [v] written at [(x, y)]. *)
Definition grid_with {T : Type} (g : Grid T) (x y : Z) (v : T) : Grid T :=
  mkGrid (g_width g) (g_height g)
    (list_update (g_data g) (Z.to_nat (y * g_width g + x)) v).

(** The number of unknown squares of a grid. *)
Definition unknowns (grid : Grid Z) : nat :=
  length (filter (fun v => v =? Unknown) (g_data grid)).

(** Every square of the grid at distance at most 1 of [(a, c)] is known. *)
Definition closed (grid : Grid Z) (a c : Z) : Prop :=
  forall dx dy, In dx deltas -> In dy deltas ->
    grid_contains grid (a + dx) (c + dy) = true ->
    cell grid (a + dx) (c + dy) <> Unknown.

(** The grid [grid] comes from [grid0] by opening unknown squares. *)
Definition opened_from (grid0 grid : Grid Z) : Prop :=
  shape grid = shape grid0
  /\ forall a c, grid_contains grid0 a c = true ->
                 cell grid a c = cell grid0 a c
                 \/ (cell grid0 a c = Unknown /\ 0 <= cell grid a c).

(** The body of the two loops of [open_around]. *)
Definition open_step (xx yy dx dy : Z) (st : Game * list Z)
  : res (Game * list Z) :=
  let '(g, todo) := st in
  let grid := gm_grid g in
  if grid_contains grid (xx + dx) (yy + dy)
  then
    v <- grid_at grid (xx + dx) (yy + dy) ;;
    if v =? Unknown
    then
      nbmines <- mineLookup (gameData g) (xx + dx) (yy + dy) ;;
      _ <- assert (negb (nbmines =? -1)) ;;
      grid <- grid_set grid (xx + dx) (yy + dy) nbmines ;;
      Ret (set_grid g grid,
           if nbmines =? 0
           then pt2idx grid (xx + dx) (yy + dy) :: todo
           else todo)
    else Ret (g, todo)
  else Ret (g, todo).

(** The offsets [(dx, dy)] in the order of the loops of [open_around]. *)
Definition delta_pairs : list (Z * Z) :=
  flat_map (fun dx => map (fun dy => (dx, dy)) deltas) deltas.

(** What the flood fill keeps of the game [g1] it starts from: only the
    grid changes, by opening unknown squares; revealed squares are safe
    and show their count; the indices of [todo] are squares that show 0. *)
Definition flood_core (g1 g : Game) (todo : list Z) : Prop :=
  g = set_grid g1 (gm_grid g)
  /\ opened_from (gm_grid g1) (gm_grid g)
  /\ game_inv true (gameData g)
  /\ forall i, In i todo ->
               exists a c, grid_contains (gm_grid g) a c = true
                           /\ i = c * g_width (gm_grid g) + a
                           /\ cell (gm_grid g) a c = 0.

(** How a state of the flood fill extends an earlier one. *)
Definition flood_ext (g : Game) (todo : list Z) (g' : Game)
           (todo' : list Z) : Prop :=
  (forall a c, grid_contains (gm_grid g) a c = true ->
               cell (gm_grid g) a c <> Unknown ->
               cell (gm_grid g') a c = cell (gm_grid g) a c)
  /\ (forall i, In i todo -> In i todo')
  /\ (forall a c, grid_contains (gm_grid g) a c = true ->
                  cell (gm_grid g') a c = 0 ->
                  cell (gm_grid g) a c = 0
                  \/ In (c * g_width (gm_grid g) + a) todo')
  /\ (length todo' + unknowns (gm_grid g')
      <= length todo + unknowns (gm_grid g))%nat.

(** The invariant of the [while] loop of [open_square]: every square that
    shows 0 and is [fresh] is in [todo] or has its neighbours known. *)
Definition flood_inv (g1 : Game) (fresh : Z -> Z -> Prop) (g : Game)
           (todo : list Z) : Prop :=
  flood_core g1 g todo
  /\ forall a c, grid_contains (gm_grid g) a c = true ->
                 cell (gm_grid g) a c = 0 -> fresh a c ->
                 In (c * g_width (gm_grid g) + a) todo
                 \/ closed (gm_grid g) a c.

(** The squares [(yy, xx)] in the order of the loops [for yy: for xx:] of
    [open_square]. *)
Definition grid_pairs (w h : Z) : list (Z * Z) :=
  flat_map (fun yy => map (fun xx => (yy, xx)) (zrange (Z.to_nat w)))
    (zrange (Z.to_nat h)).

(** The body of the two loops of [count_covered]. *)
Definition count_step (g : Game) (yy xx : Z) (st : Z * Z) : res (Z * Z) :=
  let '(nmines, ncovered) := st in
  v <- grid_at (gm_grid g) xx yy ;;
  m <- grid_at (gm_mines g) xx yy ;;
  Ret (if (m : bool) then nmines + 1 else nmines,
       if v <? 0 then ncovered + 1 else ncovered).

(** The body of the two loops of [mark_covered]. *)
Definition mark_step (yy xx : Z) (grid : Grid Z) : res (Grid Z) :=
  v <- grid_at grid xx yy ;;
  if v <? 0 then grid_set grid xx yy MarkedAsMine else Ret grid.

Definition is_mine (mines : Grid bool) (p : Z * Z) : bool :=
  mine_at mines (snd p) (fst p).

Definition is_covered (grid : Grid Z) (p : Z * Z) : bool :=
  cell grid (snd p) (fst p) <? 0.

(** The value of a square after [mark_covered]. *)
Definition marked_cell (grid : Grid Z) (a c : Z) : Z :=
  if cell grid a c <? 0 then MarkedAsMine else cell grid a c.

(** Every square without a mine is revealed. *)
Definition all_safe_open (mines : Grid bool) (grid : Grid Z) : Prop :=
  forall a c, grid_contains grid a c = true -> mine_at mines a c = false ->
              0 <= cell grid a c.

(** The game [test_play] after the squares of its top rows and bottom row
    are opened: one square without a mine is left to open. *)
Definition test_endgame : Game :=
  Eval vm_compute in
    match
      for_each [(0, 0); (0, 4); (1, 4); (2, 4); (3, 4); (4, 4)]
        (fun '(x, y) g => '(_, g) <- open_square 60 g x y ;; Ret g) test_play
    with
    | Ret g => g
    | _ => test_play
    end.

(** The square at the offset [d] of [(x, y)] lies in the grid and is
    marked. *)
Definition is_marked (g : Game) (x y : Z) (d : Z * Z) : bool :=
  grid_contains (gm_grid g) (x + fst d) (y + snd d)
  && (cell (gm_grid g) (x + fst d) (y + snd d) =? MarkedAsMine).

(** The number of marked squares around [(x, y)]. *)
Definition marked_around (g : Game) (x y : Z) : Z :=
  count_if (is_marked g x y) adjacent_offsets.

(** The square at the offset [d] of [(x, y)] holds a mine and is not
    marked. *)
Definition unmarked_mine (g : Game) (x y : Z) (d : Z * Z) : bool :=
  grid_contains (gm_mines g) (x + fst d) (y + snd d)
  && negb (cell (gm_grid g) (x + fst d) (y + snd d) =? MarkedAsMine)
  && mine_at (gm_mines g) (x + fst d) (y + snd d).

(** The body of the last loops of [openAdjacentSquares]. *)
Definition open_unknown (fuel : nat) (x y : Z) (d : Z * Z) (g : Game)
  : res Game :=
  let '(dx, dy) := d in
  if grid_contains (gm_grid g) (x + dx) (y + dy)
  then
    v <- grid_at (gm_grid g) (x + dx) (y + dy) ;;
    if v =? Unknown
    then '(_, g) <- open_square fuel g (x + dx) (y + dy) ;; Ret g
    else Ret g
  else Ret g.

(** A game in which the player has marked no square, with a 0 shown
    next to a mine. *)
Definition test_misplay : Game :=
  mkGame test_params 9 test_board
    (mkGrid 5 5 [0; 0; 0; 0; 0; 0; 0; 0; -2; -2; -2; -2; -2; -2; -2;
                 -2; -2; -2; -2; -2; -2; -2; -2; -2; -2])
    false false.

(* ===================================================================== *)
(** * Generic facts: outcomes, loops, ranges *)
(* ===================================================================== *)

Lemma bind_Ret_inv {A B : Type} (m : res A) (k : A -> res B) (b : B) :
  bind m k = Ret b -> exists a, m = Ret a /\ k a = Ret b.
Proof.
  destruct m as [a| |]; simpl; intros H; try discriminate.
  exists a; split; [reflexivity | exact H].
Qed.

Lemma assert_Ret_inv (c : bool) (u : unit) : assert c = Ret u -> c = true.
Proof. destruct c; simpl; [reflexivity | discriminate]. Qed.

(** More fuel never changes a result that was reached. *)
Lemma while_loop_mono {S : Type} (cond : S -> bool) (body : S -> res S) :
  forall (n n' : nat) (s r : S),
    while_loop n cond body s = Ret r -> (n <= n')%nat ->
    while_loop n' cond body s = Ret r.
Proof.
  induction n as [|n IH]; intros n' s r H Hle; simpl in H; [discriminate|].
  destruct n' as [|n']; [lia|]. simpl.
  destruct (cond s); [|exact H].
  destruct (body s) as [s'| |]; simpl in *; try discriminate.
  apply IH; [exact H | lia].
Qed.

(** On exit the condition of the loop is false. *)
Lemma while_loop_exit {S : Type} (cond : S -> bool) (body : S -> res S) :
  forall (n : nat) (s r : S),
    while_loop n cond body s = Ret r -> cond r = false.
Proof.
  induction n as [|n IH]; intros s r H; simpl in H; [discriminate|].
  destruct (cond s) eqn:Hc.
  - destruct (body s) as [s'| |]; simpl in H; try discriminate. eauto.
  - inversion H; subst; exact Hc.
Qed.

(** The counting loops of the re-anchoring constructor, as [while] loops. *)
Lemma countdown_loop_iterate (f : Z -> Z) (x : Z) :
  forall (n k : nat) (mask : Z),
    while_loop (S n + k) (fun '(_, ox) => ox >? x)
      (fun '(mask, ox) => Ret (f mask, ox - 1)) (mask, x + Z.of_nat n)
    = Ret (iterate n f mask, x).
Proof.
  induction n as [|n IH]; intros k mask.
  - cbn [while_loop Nat.add iterate].
    replace (x + Z.of_nat 0) with x by lia.
    rewrite Z.gtb_ltb, Z.ltb_irrefl. reflexivity.
  - cbn [Nat.add while_loop iterate].
    rewrite Z.gtb_ltb.
    destruct (Z.ltb_spec x (x + Z.of_nat (S n))) as [_|E]; [|lia].
    cbn [bind].
    replace (x + Z.of_nat (S n) - 1) with (x + Z.of_nat n) by lia.
    apply (IH k).
Qed.

Lemma countup_loop_iterate (f : Z -> Z) (x : Z) :
  forall (n k : nat) (mask : Z),
    while_loop (S n + k) (fun '(_, ox) => ox <? x)
      (fun '(mask, ox) => Ret (f mask, ox + 1)) (mask, x - Z.of_nat n)
    = Ret (iterate n f mask, x).
Proof.
  induction n as [|n IH]; intros k mask.
  - cbn [while_loop Nat.add iterate].
    replace (x - Z.of_nat 0) with x by lia.
    rewrite Z.ltb_irrefl. reflexivity.
  - cbn [Nat.add while_loop iterate].
    destruct (Z.ltb_spec (x - Z.of_nat (S n)) x) as [_|E]; [|lia].
    cbn [bind].
    replace (x - Z.of_nat (S n) + 1) with (x - Z.of_nat n) by lia.
    apply (IH k).
Qed.

Lemma in_zrange (n : nat) (z : Z) : In z (zrange n) <-> 0 <= z < Z.of_nat n.
Proof.
  unfold zrange. rewrite in_map_iff. split.
  - intros [k [<- Hk]]. apply in_seq in Hk. lia.
  - intros H. exists (Z.to_nat z). split; [lia|]. apply in_seq. lia.
Qed.

(** Exhaustive check of a decidable property over an initial segment. *)
Lemma zrange_forallb (P : Z -> bool) (n : nat) :
  forallb P (zrange n) = true ->
  forall z, 0 <= z < Z.of_nat n -> P z = true.
Proof.
  intros H z Hz. rewrite forallb_forall in H. apply H, in_zrange, Hz.
Qed.

(* ===================================================================== *)
(** * popcount and SquareSetMask::count *)
(* ===================================================================== *)

Lemma eqb_refl_false_elim (a b : Z) (T : Type) (u v : T) :
  a <> b -> (if a =? b then u else v) = v.
Proof. intros H. destruct (a =? b) eqn:E; [lia | reflexivity]. Qed.

Lemma squares_rel (s : SquareSet) :
  squares s
  = map (fun d => (set_x s + fst d, set_y s + snd d))
        (rel_squares (set_mask s)).
Proof.
  unfold rel_squares, squares.
  cbn [enumerateSquareSetMaskFlags flat_map set_x set_y set_mask].
  repeat match goal with
         | |- context [if mask_nonzero ?c then _ else _] =>
             destruct (mask_nonzero c)
         end;
    cbn [app map fst snd]; rewrite ?Z.add_0_l; reflexivity.
Qed.

Lemma squares_length (s : SquareSet) :
  length (squares s) = length (rel_squares (set_mask s)).
Proof. rewrite squares_rel. apply length_map. Qed.

Lemma nodupb_NoDup (l : list (Z * Z)) : nodupb l = true -> NoDup l.
Proof.
  induction l as [|p l IH]; simpl; intros H; [constructor|].
  apply andb_true_iff in H. destruct H as [H1 H2].
  constructor; [|auto].
  intros Hin. apply negb_true_iff in H1.
  assert (existsb (pair_eqb p) l = true) as E.
  { apply existsb_exists. exists p. split; [exact Hin|].
    unfold pair_eqb. rewrite !Z.eqb_refl. reflexivity. }
  congruence.
Qed.

(** All 16-bit words, enumerated as high byte and low byte. *)
Lemma popcount_all_words :
  forallb (fun h =>
             forallb (fun l => popcount (256 * h + l) =? bits_set (256 * h + l))
                     (zrange 256))
          (zrange 256) = true.
Proof. vm_compute. reflexivity. Qed.

Lemma popcount_bits_set (w : Z) : 0 <= w < 2 ^ 16 -> popcount w = bits_set w.
Proof.
  intros Hw.
  change (2 ^ 16) with (256 * 256) in Hw.
  pose proof (Z.div_mod w 256 ltac:(lia)) as Hdm.
  pose proof (Z.mod_pos_bound w 256 ltac:(lia)) as Hl.
  assert (0 <= w / 256 < 256) as Hh.
  { split; [apply Z.div_pos; lia | apply Z.div_lt_upper_bound; lia]. }
  pose proof (zrange_forallb _ _ popcount_all_words (w / 256)) as H1.
  cbv beta in H1. change (Z.of_nat 256) with 256 in H1.
  specialize (H1 Hh).
  pose proof (zrange_forallb _ _ H1 (w mod 256)) as H2.
  cbv beta in H2. change (Z.of_nat 256) with 256 in H2.
  specialize (H2 Hl).
  rewrite <- Hdm in H2. apply Z.eqb_eq, H2.
Qed.

Lemma count_all_masks :
  forallb (fun m => (count m =? Z.of_nat (length (rel_squares m)))
                    && nodupb (rel_squares m)) (zrange 512) = true.
Proof. vm_compute. reflexivity. Qed.

Lemma squares_NoDup (s : SquareSet) :
  mask9 (set_mask s) -> NoDup (squares s).
Proof.
  intros Hm. rewrite squares_rel.
  apply Finite.Injective_map_NoDup.
  - intros [a b] [c d]; simpl; intros H; inversion H; f_equal; lia.
  - pose proof (zrange_forallb _ _ count_all_masks (set_mask s)) as H.
    cbv beta in H. unfold mask9 in Hm.
    apply nodupb_NoDup.
    eapply proj2, andb_true_iff, H. change (Z.of_nat 512) with (2 ^ 9). lia.
Qed.

(** C10. [popcount(w)] is the number of bit positions [0..15] at which the
    16-bit word [w] has a 1; and for a 9-bit mask [SquareSetMask::count()]
    is the number of squares that [foreachSquare] visits, which are
    pairwise distinct: the cardinality of the square set the mask
    denotes. *)
Theorem popcount_counts_set_bits (w x y : Z) :
  0 <= w < 2 ^ 16 ->
  popcount w = bits_set w
  /\ (w < 2 ^ 9 ->
      count w = Z.of_nat (length (squares (mkSquareSet x y w)))
      /\ NoDup (squares (mkSquareSet x y w))).
Proof.
  intros Hw. split.
  - apply popcount_bits_set, Hw.
  - intros H9.
    assert (mask9 w) as Hm by (unfold mask9; lia).
    split; [|apply squares_NoDup; exact Hm].
    rewrite squares_length. cbn [set_mask].
    pose proof (zrange_forallb _ _ count_all_masks w) as H.
    cbv beta in H.
    apply Z.eqb_eq. eapply proj1, andb_true_iff, H.
    change (Z.of_nat 512) with (2 ^ 9). lia.
Qed.

Lemma popcount_counts_set_bits_witness :
  popcount 0x1A5 = 5
  /\ count 0x1A5 = 5
  /\ length (squares (mkSquareSet 3 4 0x1A5)) = 5%nat.
Proof.
  destruct (popcount_counts_set_bits 0x1A5 3 4) as [H1 H2];
    [lia|].
  destruct H2 as [H2 _]; [lia|].
  split; [rewrite H1; reflexivity|].
  split; [rewrite H2; reflexivity | reflexivity].
Defined.

(* ===================================================================== *)
(** * Squares of a set and bits of its mask *)
(* ===================================================================== *)

(** Case analysis on the integer comparisons that occur in a goal. *)
Ltac zcmp :=
  repeat match goal with
         | |- context [?a <=? ?b] => destruct (Z.leb_spec a b)
         | |- context [?a <? ?b] => destruct (Z.ltb_spec a b)
         | |- context [?a =? ?b] => destruct (Z.eqb_spec a b)
         | H : context [?a <=? ?b] |- _ => destruct (Z.leb_spec a b)
         | H : context [?a <? ?b] |- _ => destruct (Z.ltb_spec a b)
         | H : context [?a =? ?b] |- _ => destruct (Z.eqb_spec a b)
         end.

Lemma mask_flag_testbit (m i : Z) :
  0 <= i -> mask_nonzero (mask_and m (Z.shiftl 1 i)) = Z.testbit m i.
Proof.
  intros Hi. unfold mask_nonzero, mask_and. rewrite Z.shiftl_1_l.
  destruct (Z.testbit m i) eqn:E.
  - destruct (Z.eqb_spec (Z.land m (2 ^ i)) 0) as [H0|]; [|reflexivity].
    assert (Z.testbit (Z.land m (2 ^ i)) i = true) as Hb.
    { rewrite Z.land_spec, E, Z.pow2_bits_true; [reflexivity | exact Hi]. }
    rewrite H0, Z.bits_0 in Hb. discriminate.
  - assert (Z.land m (2 ^ i) = 0) as ->; [|reflexivity].
    apply Z.bits_inj'. intros n Hn.
    rewrite Z.land_spec, Z.bits_0, Z.pow2_bits_eqb by exact Hi.
    destruct (Z.eqb_spec i n) as [->|]; [rewrite E|];
      apply andb_false_r || reflexivity.
Qed.

Lemma rel_squares_bits (m : Z) :
  rel_squares m
  = bit_square m 0 0 0 ++ bit_square m 1 1 0 ++ bit_square m 2 2 0
    ++ bit_square m 3 0 1 ++ bit_square m 4 1 1 ++ bit_square m 5 2 1
    ++ bit_square m 6 0 2 ++ bit_square m 7 1 2 ++ bit_square m 8 2 2.
Proof.
  unfold rel_squares, squares, bit_square.
  cbn [enumerateSquareSetMaskFlags flat_map set_x set_y set_mask].
  rewrite <- !(mask_flag_testbit m) by lia.
  rewrite app_nil_r. reflexivity.
Qed.

Lemma In_bit_square (m i dx dy : Z) (p : Z * Z) :
  In p (bit_square m i dx dy) <-> Z.testbit m i = true /\ p = (dx, dy).
Proof.
  unfold bit_square. destruct (Z.testbit m i); simpl; intuition congruence.
Qed.

Lemma In_rel_squares (m dx dy : Z) :
  In (dx, dy) (rel_squares m) <-> member (mkSquareSet 0 0 m) dx dy = true.
Proof.
  rewrite rel_squares_bits, !in_app_iff, !In_bit_square.
  unfold member; cbn [set_x set_y set_mask]. rewrite !Z.sub_0_r.
  split.
  - intros H.
    repeat match goal with
           | H : _ \/ _ |- _ => destruct H as [H|H]
           end;
      destruct H as [Hb Hp]; inversion Hp; subst; simpl; exact Hb.
  - intros H. rewrite !andb_true_iff in H.
    destruct H as [[[[H1 H2] H3] H4] Hb].
    zcmp; try discriminate.
    assert (dx = 0 \/ dx = 1 \/ dx = 2) as Hx by lia.
    assert (dy = 0 \/ dy = 1 \/ dy = 2) as Hy by lia.
    destruct Hx as [->|[->| ->]]; destruct Hy as [->|[->| ->]];
      simpl in Hb; tauto.
Qed.

Lemma member_shift (s : SquareSet) (x y px py : Z) :
  member s px py
  = member (mkSquareSet (set_x s - x) (set_y s - y) (set_mask s))
           (px - x) (py - y).
Proof.
  unfold member; cbn [set_x set_y set_mask].
  replace (px - x - (set_x s - x)) with (px - set_x s) by lia.
  replace (py - y - (set_y s - y)) with (py - set_y s) by lia.
  reflexivity.
Qed.

(** The squares that [foreachSquare] visits are those whose bit is set. *)
Lemma In_squares (s : SquareSet) (px py : Z) :
  In (px, py) (squares s) <-> member s px py = true.
Proof.
  rewrite squares_rel, in_map_iff.
  rewrite (member_shift s (set_x s) (set_y s)), !Z.sub_diag.
  rewrite <- In_rel_squares. split.
  - intros [[dx dy] [Hp Hin]]. cbn [fst snd] in Hp. inversion Hp; subst.
    replace (set_x s + dx - set_x s) with dx by lia.
    replace (set_y s + dy - set_y s) with dy by lia. exact Hin.
  - intros Hin. exists (px - set_x s, py - set_y s). split; [|exact Hin].
    cbn [fst snd]. f_equal; lia.
Qed.

Lemma member_bounds (s : SquareSet) (px py : Z) :
  member s px py = true ->
  0 <= px - set_x s < 3 /\ 0 <= py - set_y s < 3
  /\ Z.testbit (set_mask s) (3 * (py - set_y s) + (px - set_x s)) = true.
Proof.
  unfold member. rewrite !andb_true_iff.
  intros [[[[H1 H2] H3] H4] Hb]. zcmp; try discriminate.
  split; [lia | split; [lia | exact Hb]].
Qed.

Lemma member_intro (s : SquareSet) (px py : Z) :
  0 <= px - set_x s < 3 -> 0 <= py - set_y s < 3 ->
  member s px py = Z.testbit (set_mask s)
                     (3 * (py - set_y s) + (px - set_x s)).
Proof.
  intros Hx Hy. unfold member. zcmp; try lia. reflexivity.
Qed.

(* ===================================================================== *)
(** * SquareSet::normalize *)
(* ===================================================================== *)

Lemma normalize_loop_shift (c : Z) (f : Z -> Z) :
  forall (fuel : nat) (m x : Z),
    while_loop fuel (fun '(mask, _) => mask_is_zero (mask_and mask c))
      (fun '(mask, x) => Ret (f mask, x + 1)) (m, x)
    = shift_snd x
        (while_loop fuel (fun '(mask, _) => mask_is_zero (mask_and mask c))
           (fun '(mask, x) => Ret (f mask, x + 1)) (m, 0)).
Proof.
  induction fuel as [|fuel IH]; intros m x; [reflexivity|].
  cbn [while_loop].
  destruct (mask_is_zero (mask_and m c)).
  - cbn [bind]. rewrite (IH (f m) (x + 1)), (IH (f m) (0 + 1)).
    destruct (while_loop fuel _ _ (f m, 0)) as [[m' k]| |];
      cbn [shift_snd]; try reflexivity.
    do 2 f_equal. lia.
  - cbn [shift_snd]. rewrite Z.add_0_r. reflexivity.
Qed.

(** The result of [normalize] is that of the set anchored at the origin,
    moved back to the anchor. *)
Lemma normalize_shape (fuel : nat) (s : SquareSet) :
  normalize fuel s
  = shift_res (set_x s) (set_y s)
      (normalize fuel (mkSquareSet 0 0 (set_mask s))).
Proof.
  unfold normalize. cbn [set_x set_y set_mask].
  destruct (mask_is_zero (set_mask s)).
  - cbn [shift_res set_x set_y set_mask]. rewrite !Z.add_0_r.
    destruct s as [x0 y0 m0]; reflexivity.
  - rewrite (normalize_loop_shift LEFT_COLUMN move_right fuel
               (set_mask s) (set_x s)).
    destruct (while_loop fuel _ _ (set_mask s, 0)) as [[m1 k1]| |];
      cbn [shift_snd bind shift_res]; try reflexivity.
    rewrite (normalize_loop_shift TOP_ROW move_down fuel m1 (set_y s)).
    destruct (while_loop fuel _ _ (m1, 0)) as [[m2 k2]| |];
      cbn [shift_snd bind shift_res set_x set_y set_mask]; reflexivity.
Qed.

Lemma normalize_mono (n n' : nat) (s r : SquareSet) :
  normalize n s = Ret r -> (n <= n')%nat -> normalize n' s = Ret r.
Proof.
  unfold normalize. intros H Hle.
  destruct (mask_is_zero (set_mask s)); [exact H|].
  apply bind_Ret_inv in H. destruct H as [[m1 x1] [H1 H]].
  apply bind_Ret_inv in H. destruct H as [[m2 y2] [H2 H]].
  rewrite (while_loop_mono _ _ _ _ _ _ H1 Hle). cbn [bind].
  rewrite (while_loop_mono _ _ _ _ _ _ H2 Hle). cbn [bind]. exact H.
Qed.

Lemma pairs_eqb_eq (l1 l2 : list (Z * Z)) : pairs_eqb l1 l2 = true -> l1 = l2.
Proof.
  revert l2. induction l1 as [|[a b] l1 IH]; intros [|[c d] l2]; simpl;
    intros H; try discriminate; [reflexivity|].
  unfold pair_eqb in H; cbn [fst snd] in H.
  rewrite !andb_true_iff in H. destruct H as [[H1 H2] H3].
  apply Z.eqb_eq in H1, H2. subst. f_equal. auto.
Qed.

Lemma normalize_all_masks : forallb normalize_check (zrange 512) = true.
Proof. vm_compute. reflexivity. Qed.

Lemma normalize_origin (m : Z) :
  mask9 m ->
  exists r,
    normalize 3 (mkSquareSet 0 0 m) = Ret r
    /\ normalize 3 (mkSquareSet 0 0 (set_mask r))
       = Ret (mkSquareSet 0 0 (set_mask r))
    /\ (m = 0 -> r = mkSquareSet 0 0 0)
    /\ (m <> 0 -> mask_and (set_mask r) LEFT_COLUMN <> 0
                  /\ mask_and (set_mask r) TOP_ROW <> 0)
    /\ map (fun d => (set_x r + fst d, set_y r + snd d))
           (rel_squares (set_mask r)) = rel_squares m
    /\ mask9 (set_mask r).
Proof.
  intros Hm.
  pose proof (zrange_forallb _ _ normalize_all_masks m) as H.
  change (Z.of_nat 512) with (2 ^ 9) in H. specialize (H Hm).
  unfold normalize_check in H.
  destruct (normalize 3 (mkSquareSet 0 0 m)) as [r| |]; try discriminate.
  exists r. rewrite !andb_true_iff in H.
  destruct H as [[[[H1 H2] H3] H4] H5].
  split; [reflexivity|]. split; [|split; [|split; [|split]]].
  - destruct (normalize 3 (mkSquareSet 0 0 (set_mask r))) as [[x' y' m']| |];
      try discriminate.
    cbn [set_x set_y set_mask] in H1. rewrite !andb_true_iff in H1.
    destruct H1 as [[Hx Hy] Hmk]. apply Z.eqb_eq in Hx, Hy, Hmk. subst.
    reflexivity.
  - intros ->. simpl in H2. rewrite !andb_true_iff in H2.
    destruct H2 as [[Hx Hy] Hmk]. apply Z.eqb_eq in Hx, Hy, Hmk.
    destruct r as [rx ry rm]; cbn [set_x set_y set_mask] in *; subst.
    reflexivity.
  - intros Hne. destruct (Z.eqb_spec m 0) as [|_]; [contradiction|].
    apply andb_true_iff in H2. destruct H2 as [Ha Hb].
    unfold mask_nonzero in Ha, Hb. apply negb_true_iff in Ha, Hb.
    apply Z.eqb_neq in Ha, Hb. split; assumption.
  - apply pairs_eqb_eq, H3.
  - unfold mask9. change (2 ^ 9) with 512.
    apply Z.leb_le in H4. apply Z.ltb_lt in H5. lia.
Qed.

(** C8. For a set [s] with a 9-bit mask and enough fuel for the two loops,
    [normalize] returns a set [s'] on which [normalize] is the identity; it
    returns [s] itself when the mask is empty; and when the mask is not
    empty, [s'] has a bit in the left column and a bit in the top row, and
    [foreachSquare] visits exactly the same absolute squares on [s'] as on
    [s]. *)
Theorem normalize_idempotent_canonical (fuel : nat) (s : SquareSet) :
  (3 <= fuel)%nat -> mask9 (set_mask s) ->
  exists s',
    normalize fuel s = Ret s'
    /\ normalize fuel s' = Ret s'
    /\ (set_mask s = 0 -> s' = s)
    /\ (set_mask s <> 0 ->
        mask_and (set_mask s') LEFT_COLUMN <> 0
        /\ mask_and (set_mask s') TOP_ROW <> 0
        /\ squares s' = squares s).
Proof.
  intros Hfuel Hm.
  destruct (normalize_origin _ Hm) as [r [Hr [Hidem [Hzero [Hnz [Hsq Hr9]]]]]].
  exists (mkSquareSet (set_x s + set_x r) (set_y s + set_y r) (set_mask r)).
  split; [|split; [|split]].
  - rewrite normalize_shape.
    rewrite (normalize_mono _ _ _ _ Hr Hfuel). reflexivity.
  - rewrite normalize_shape. cbn [set_x set_y set_mask].
    rewrite (normalize_mono _ _ _ _ Hidem Hfuel).
    cbn [shift_res set_x set_y set_mask]. rewrite !Z.add_0_r. reflexivity.
  - intros H0. rewrite (Hzero H0). cbn [set_x set_y set_mask].
    rewrite !Z.add_0_r. destruct s as [x0 y0 m0]; cbn [set_mask] in H0; subst.
    reflexivity.
  - intros Hne. destruct (Hnz Hne) as [Ha Hb].
    cbn [set_mask]. split; [exact Ha|]. split; [exact Hb|].
    rewrite (squares_rel s), <- Hsq, squares_rel, map_map.
    cbn [set_x set_y set_mask fst snd].
    apply map_ext. intros [dx dy]. cbn [fst snd]. f_equal; lia.
Qed.

Lemma normalize_idempotent_canonical_witness :
  normalize 5 (mkSquareSet 4 7 0x120)
  = Ret (mkSquareSet 6 8 0x009)
  /\ normalize 5 (mkSquareSet 6 8 0x009) = Ret (mkSquareSet 6 8 0x009)
  /\ squares (mkSquareSet 6 8 0x009) = squares (mkSquareSet 4 7 0x120).
Proof.
  assert (mask9 (set_mask (mkSquareSet 4 7 0x120))) as Hm
      by (unfold mask9; simpl; lia).
  destruct (normalize_idempotent_canonical 5 (mkSquareSet 4 7 0x120)
              ltac:(lia) Hm) as [s' [H1 [H2 [_ H4]]]].
  assert (s' = mkSquareSet 6 8 0x009) as ->.
  { vm_compute in H1. inversion H1. reflexivity. }
  split; [exact H1|]. split; [exact H2|].
  apply H4. simpl. lia.
Defined.

(* ===================================================================== *)
(** * Re-anchoring, intersection and difference *)
(* ===================================================================== *)

Lemma mask9_testbit_high (m n : Z) : mask9 m -> 9 <= n -> Z.testbit m n = false.
Proof.
  intros [H0 H9] Hn.
  destruct (Z.eq_dec m 0) as [->|Hne]; [apply Z.bits_0|].
  apply Z.bits_above_log2; [exact H0|].
  assert (Z.log2 m < 9); [|lia].
  apply Z.log2_lt_pow2; lia.
Qed.

Lemma mask_not_spec (m n : Z) :
  0 <= n ->
  Z.testbit (mask_not m) n
  = if n <? 9 then negb (Z.testbit m n) else Z.testbit m n.
Proof.
  intros Hn. unfold mask_not.
  change (u32 (Z.shiftl BOTTOM_RIGHT 1) - 1) with (Z.ones 9).
  rewrite Z.lxor_spec.
  destruct (Z.ltb_spec n 9).
  - rewrite Z.ones_spec_low by lia. apply xorb_true_r.
  - rewrite Z.ones_spec_high by lia. apply xorb_false_r.
Qed.

Lemma SquareSet_at_shape (x y : Z) (o : SquareSet) :
  SquareSet_at x y o
  = mkSquareSet x y (tmask (set_x o - x) (set_y o - y) (set_mask o)).
Proof.
  unfold tmask, SquareSet_at. cbn [set_x set_y set_mask].
  rewrite !Z.sub_0_r.
  replace (0 - (set_x o - x)) with (x - set_x o) by lia.
  replace (0 - (set_y o - y)) with (y - set_y o) by lia.
  destruct ((3 <=? Z.abs (set_x o - x)) || (3 <=? Z.abs (set_y o - y)));
    reflexivity.
Qed.

Lemma tmask_all_masks : forallb tmask_check (zrange 512) = true.
Proof. vm_compute. reflexivity. Qed.

Lemma In_offsets5 (d : Z) : -2 <= d <= 2 -> In d offsets5.
Proof. unfold offsets5. simpl. lia. Qed.

Lemma In_offsets3 (d : Z) : 0 <= d < 3 -> In d offsets3.
Proof. unfold offsets3. simpl. lia. Qed.

Lemma tmask_spec (dx dy m : Z) :
  mask9 m ->
  mask9 (tmask dx dy m)
  /\ forall qx qy, 0 <= qx < 3 -> 0 <= qy < 3 ->
       Z.testbit (tmask dx dy m) (3 * qy + qx)
       = member (mkSquareSet dx dy m) qx qy.
Proof.
  intros Hm.
  destruct (Z_le_gt_dec 3 (Z.abs dx)) as [Hx|Hx];
    [|destruct (Z_le_gt_dec 3 (Z.abs dy)) as [Hy|Hy]].
  1,2: assert (tmask dx dy m = 0) as ->
      by (unfold tmask, SquareSet_at; cbn [set_x set_y set_mask];
          rewrite !Z.sub_0_r;
          destruct (Z.leb_spec 3 (Z.abs dx)); destruct (Z.leb_spec 3 (Z.abs dy));
          try lia; reflexivity).
  1,2: split; [unfold mask9; lia|]; intros qx qy Hqx Hqy;
    rewrite Z.bits_0; symmetry;
    unfold member; cbn [set_x set_y set_mask]; zcmp; try lia; reflexivity.
  pose proof (zrange_forallb _ _ tmask_all_masks m) as H.
  change (Z.of_nat 512) with (2 ^ 9) in H. specialize (H Hm).
  unfold tmask_check in H.
  assert (In dx offsets5) as Hdx by (apply In_offsets5; lia).
  assert (In dy offsets5) as Hdy by (apply In_offsets5; lia).
  rewrite forallb_forall in H. specialize (H dx Hdx).
  rewrite forallb_forall in H. specialize (H dy Hdy).
  rewrite !andb_true_iff in H. destruct H as [[H0 H9] H].
  split; [unfold mask9; change (2 ^ 9) with 512; lia|].
  intros qx qy Hqx Hqy.
  rewrite forallb_forall in H. specialize (H qx (In_offsets3 _ Hqx)).
  rewrite forallb_forall in H. specialize (H qy (In_offsets3 _ Hqy)).
  apply Bool.eqb_prop, H.
Qed.

(** Re-anchoring keeps exactly the squares that fit the new window. *)
Lemma member_SquareSet_at (x y : Z) (o : SquareSet) (px py : Z) :
  mask9 (set_mask o) ->
  member (SquareSet_at x y o) px py
  = member o px py && in_window x y px py.
Proof.
  intros Hm. rewrite SquareSet_at_shape.
  destruct (tmask_spec (set_x o - x) (set_y o - y) _ Hm) as [_ Ht].
  unfold in_window.
  destruct (Z.leb_spec 0 (px - x)); destruct (Z.ltb_spec (px - x) 3);
    destruct (Z.leb_spec 0 (py - y)); destruct (Z.ltb_spec (py - y) 3);
    cbn [andb]; rewrite ?andb_false_r;
    try (unfold member; cbn [set_x set_y set_mask]; zcmp; try lia;
         reflexivity).
  rewrite andb_true_r, member_intro by (cbn [set_x set_y]; lia).
  cbn [set_x set_y set_mask]. rewrite Ht by lia.
  symmetry. apply member_shift.
Qed.

Lemma mask9_SquareSet_at (x y : Z) (o : SquareSet) :
  mask9 (set_mask o) -> mask9 (set_mask (SquareSet_at x y o)).
Proof.
  intros Hm. rewrite SquareSet_at_shape. cbn [set_mask].
  apply tmask_spec, Hm.
Qed.

Lemma member_window (s : SquareSet) (px py : Z) :
  member s px py = true -> in_window (set_x s) (set_y s) px py = true.
Proof.
  intros H. apply member_bounds in H. unfold in_window.
  zcmp; try lia; reflexivity.
Qed.

Lemma member_set_and_at (a b : SquareSet) (px py : Z) :
  member (set_and a b) px py
  = member a px py && member (SquareSet_at (set_x a) (set_y a) b) px py.
Proof.
  unfold set_and, member, mask_and. cbn [set_x set_y set_mask].
  rewrite SquareSet_at_shape. cbn [set_x set_y set_mask].
  rewrite Z.land_spec.
  repeat match goal with |- context [?a <=? ?b] => destruct (a <=? b) end;
    repeat match goal with |- context [?a <? ?b] => destruct (a <? b) end;
    cbn [andb]; reflexivity.
Qed.

Lemma member_set_minus_at (a b : SquareSet) (px py : Z) :
  member (set_minus a b) px py
  = member a px py
    && negb (member (SquareSet_at (set_x a) (set_y a) b) px py).
Proof.
  unfold set_minus, mask_and.
  destruct (in_window (set_x a) (set_y a) px py) eqn:Hw.
  - unfold in_window in Hw. rewrite !andb_true_iff in Hw.
    destruct Hw as [[[H1 H2] H3] H4].
    apply Z.leb_le in H1, H3. apply Z.ltb_lt in H2, H4.
    rewrite !member_intro by (cbn [set_x set_y]; rewrite ?SquareSet_at_shape;
                              cbn [set_x set_y]; lia).
    cbn [set_x set_y set_mask].
    rewrite Z.land_spec, mask_not_spec by lia.
    rewrite SquareSet_at_shape. cbn [set_x set_y set_mask].
    destruct (Z.ltb_spec (3 * (py - set_y a) + (px - set_x a)) 9); [|lia].
    reflexivity.
  - assert (forall s, set_x s = set_x a -> set_y s = set_y a ->
                      member s px py = false) as Hout.
    { intros s Hx Hy. destruct (member s px py) eqn:E; [|reflexivity].
      apply member_window in E. rewrite Hx, Hy in E. congruence. }
    rewrite (Hout a) by reflexivity.
    rewrite Hout by reflexivity. reflexivity.
Qed.

(** Intersection and difference, read on absolute squares. *)
Lemma member_set_and (a b : SquareSet) (px py : Z) :
  mask9 (set_mask b) ->
  member (set_and a b) px py = member a px py && member b px py.
Proof.
  intros Hb. rewrite member_set_and_at, member_SquareSet_at by exact Hb.
  destruct (member a px py) eqn:Ha; [|reflexivity].
  rewrite (member_window _ _ _ Ha), andb_true_r. reflexivity.
Qed.

Lemma member_set_minus (a b : SquareSet) (px py : Z) :
  mask9 (set_mask b) ->
  member (set_minus a b) px py = member a px py && negb (member b px py).
Proof.
  intros Hb. rewrite member_set_minus_at, member_SquareSet_at by exact Hb.
  destruct (member a px py) eqn:Ha; [|reflexivity].
  rewrite (member_window _ _ _ Ha), andb_true_r. reflexivity.
Qed.

Lemma mask9_land (a b : Z) : mask9 a -> 0 <= b -> mask9 (Z.land a b).
Proof.
  intros [Ha0 Ha9] Hb. split; [apply Z.land_nonneg; lia|].
  destruct (Z.eq_dec (Z.land a b) 0) as [->|Hne]; [lia|].
  assert (0 < Z.land a b) by (pose proof (Z.land_nonneg a b); lia).
  apply Z.log2_lt_pow2; [lia|].
  destruct (Z.eq_dec a 0) as [->|Hane]; [rewrite Z.land_0_l in Hne; lia|].
  eapply Z.le_lt_trans; [apply Z.log2_land; lia|].
  apply Z.min_lt_iff. left. apply Z.log2_lt_pow2; lia.
Qed.

Lemma mask9_set_and (a b : SquareSet) :
  mask9 (set_mask a) -> mask9 (set_mask b) -> mask9 (set_mask (set_and a b)).
Proof.
  intros Ha Hb. unfold set_and, mask_and. cbn [set_mask].
  apply mask9_land; [exact Ha|].
  apply (mask9_SquareSet_at (set_x a) (set_y a)) in Hb. apply Hb.
Qed.

Lemma In_squares_set_and (a b : SquareSet) (p : Z * Z) :
  mask9 (set_mask b) ->
  In p (squares (set_and a b)) <-> In p (squares a) /\ In p (squares b).
Proof.
  intros Hb. destruct p as [px py].
  rewrite !In_squares, member_set_and by exact Hb. apply andb_true_iff.
Qed.

Lemma In_squares_set_minus (a b : SquareSet) (p : Z * Z) :
  mask9 (set_mask b) ->
  In p (squares (set_minus a b)) <-> In p (squares a) /\ ~ In p (squares b).
Proof.
  intros Hb. destruct p as [px py].
  rewrite !In_squares, member_set_minus by exact Hb.
  destruct (member a px py), (member b px py); simpl; intuition congruence.
Qed.

Lemma set_and_far (a b : SquareSet) :
  3 <= Z.abs (set_x a - set_x b) \/ 3 <= Z.abs (set_y a - set_y b) ->
  set_mask (set_and a b) = 0.
Proof.
  intros H. unfold set_and, SquareSet_at, mask_and.
  destruct (Z.leb_spec 3 (Z.abs (set_x b - set_x a)));
    destruct (Z.leb_spec 3 (Z.abs (set_y b - set_y a)));
    cbn [orb set_mask set_x set_y]; try apply Z.land_0_r.
  lia.
Qed.

(** C9. For sets with 9-bit masks: the squares of [a & b] are squares of
    [a] (and its mask is a sub-mask of [a]'s); [((a - b) & b).mask] is
    empty; a square is in [a] exactly when it is in [a - b] or in [a & b];
    and [(a & b).mask] is empty when the anchors are 3 or more apart in
    either axis. *)
Theorem set_and_minus_laws (a b : SquareSet) :
  mask9 (set_mask a) -> mask9 (set_mask b) ->
  (forall p, In p (squares (set_and a b)) -> In p (squares a))
  /\ Z.land (set_mask (set_and a b)) (set_mask a) = set_mask (set_and a b)
  /\ set_mask (set_and (set_minus a b) b) = 0
  /\ (forall p, In p (squares a) <->
               In p (squares (set_minus a b)) \/ In p (squares (set_and a b)))
  /\ (3 <= Z.abs (set_x a - set_x b) \/ 3 <= Z.abs (set_y a - set_y b) ->
      set_mask (set_and a b) = 0).
Proof.
  intros Ha Hb. split; [|split; [|split; [|split]]].
  - intros p Hp. apply In_squares_set_and in Hp; [tauto | exact Hb].
  - unfold set_and, mask_and. cbn [set_mask].
    rewrite <- Z.land_assoc, (Z.land_comm _ (set_mask a)), Z.land_assoc.
    rewrite Z.land_diag. reflexivity.
  - unfold set_and, set_minus, mask_and. cbn [set_x set_y set_mask].
    set (o := set_mask (SquareSet_at (set_x a) (set_y a) b)).
    apply Z.bits_inj'. intros n Hn.
    rewrite !Z.land_spec, Z.bits_0, mask_not_spec by exact Hn.
    destruct (Z.ltb_spec n 9).
    + destruct (Z.testbit o n); rewrite ?andb_false_r; reflexivity.
    + rewrite (mask9_testbit_high _ _ Ha) by lia. reflexivity.
  - intros [px py].
    rewrite !In_squares, member_set_minus, member_set_and by exact Hb.
    destruct (member a px py), (member b px py); simpl; intuition congruence.
  - apply set_and_far.
Qed.

Lemma set_and_minus_laws_witness :
  set_mask (set_and (mkSquareSet 2 2 0x0B8) (mkSquareSet 3 3 0x00A)) = 0x0A0
  /\ set_mask (set_and (set_minus (mkSquareSet 2 2 0x0B8)
                                  (mkSquareSet 3 3 0x00A))
                       (mkSquareSet 3 3 0x00A)) = 0
  /\ (In (3, 3) (squares (mkSquareSet 2 2 0x0B8)) <->
      In (3, 3) (squares (set_minus (mkSquareSet 2 2 0x0B8)
                                    (mkSquareSet 3 3 0x00A)))
      \/ In (3, 3) (squares (set_and (mkSquareSet 2 2 0x0B8)
                                     (mkSquareSet 3 3 0x00A)))).
Proof.
  assert (mask9 (set_mask (mkSquareSet 2 2 0x0B8))) as Ha
      by (unfold mask9; simpl; lia).
  assert (mask9 (set_mask (mkSquareSet 3 3 0x00A))) as Hb
      by (unfold mask9; simpl; lia).
  destruct (set_and_minus_laws _ _ Ha Hb) as [_ [_ [H3 [H4 _]]]].
  split; [reflexivity|]. split; [exact H3 | apply H4].
Defined.

(* ===================================================================== *)
(** * The order on square sets *)
(* ===================================================================== *)

Lemma set_eqb_eq (a b : SquareSet) : set_eqb a b = true <-> a = b.
Proof.
  unfold set_eqb. rewrite !andb_true_iff, !Z.eqb_eq.
  destruct a as [ax ay am], b as [bx b_y bm]; cbn [set_x set_y set_mask].
  split; [intros [[-> ->] ->]; reflexivity | intros H; inversion H; auto].
Qed.

Lemma set_eqb_refl (a : SquareSet) : set_eqb a a = true.
Proof. apply set_eqb_eq. reflexivity. Qed.

Lemma set_ltb_spec (a b : SquareSet) :
  set_ltb a b = true <->
  set_x a < set_x b
  \/ (set_x a = set_x b
      /\ (set_y a < set_y b
          \/ (set_y a = set_y b /\ set_mask a < set_mask b))).
Proof.
  unfold set_ltb.
  rewrite !orb_true_iff, !andb_true_iff, !orb_true_iff, !andb_true_iff,
    !Z.ltb_lt, !Z.eqb_eq.
  reflexivity.
Qed.

Lemma set_ltb_irrefl (a : SquareSet) : set_ltb a a = false.
Proof.
  destruct (set_ltb a a) eqn:E; [|reflexivity].
  apply set_ltb_spec in E. lia.
Qed.

Lemma set_ltb_trans (a b c : SquareSet) :
  set_ltb a b = true -> set_ltb b c = true -> set_ltb a c = true.
Proof. rewrite !set_ltb_spec. lia. Qed.

Lemma set_ltb_asym (a b : SquareSet) :
  set_ltb a b = true -> set_ltb b a = false.
Proof.
  intros H. destruct (set_ltb b a) eqn:E; [|reflexivity].
  pose proof (set_ltb_trans _ _ _ H E) as F.
  rewrite set_ltb_irrefl in F. discriminate.
Qed.

Lemma set_ltb_total (a b : SquareSet) :
  set_ltb a b = false -> set_ltb b a = false -> a = b.
Proof.
  intros H1 H2.
  assert (~ (set_ltb a b = true)) as N1 by congruence.
  assert (~ (set_ltb b a = true)) as N2 by congruence.
  rewrite set_ltb_spec in N1, N2.
  destruct a as [ax ay am], b as [bx b_y bm]; cbn [set_x set_y set_mask] in *.
  f_equal; lia.
Qed.

Lemma set_ltb_neq (a b : SquareSet) : set_ltb a b = true -> set_eqb a b = false.
Proof.
  intros H. destruct (set_eqb a b) eqn:E; [|reflexivity].
  apply set_eqb_eq in E. subst. rewrite set_ltb_irrefl in H. discriminate.
Qed.

(* ===================================================================== *)
(** * std::map operations on the sorted list of entries *)
(* ===================================================================== *)

(** [insert] reports an existing entry exactly when [find] finds one. *)
Lemma map_insert_find (e : SetStoreElement) (l : list SetStoreElement) :
  snd (map_insert e l) = false <-> map_find (e_set e) l <> None.
Proof.
  induction l as [|e' l IH]; simpl.
  - split; [discriminate | congruence].
  - destruct (set_ltb (e_set e) (e_set e')); simpl.
    + split; [discriminate | congruence].
    + destruct (set_ltb (e_set e') (e_set e)).
      * destruct (map_insert e l) as [r b]. simpl in *. exact IH.
      * simpl. split; [discriminate | reflexivity].
Qed.

Lemma map_insert_present (e : SetStoreElement) (l : list SetStoreElement) :
  map_find (e_set e) l <> None -> map_insert e l = (l, false).
Proof.
  induction l as [|e' l IH]; simpl; [congruence|].
  destruct (set_ltb (e_set e) (e_set e')); [congruence|].
  destruct (set_ltb (e_set e') (e_set e)); [|reflexivity].
  intros H. rewrite (IH H). reflexivity.
Qed.

Lemma map_insert_absent (e : SetStoreElement) (l : list SetStoreElement) :
  map_find (e_set e) l = None ->
  snd (map_insert e l) = true
  /\ map_find (e_set e) (fst (map_insert e l)) = Some e.
Proof.
  induction l as [|e' l IH]; simpl.
  - intros _. rewrite set_ltb_irrefl. auto.
  - destruct (set_ltb (e_set e) (e_set e')) eqn:E1; simpl.
    + intros _. rewrite set_ltb_irrefl. auto.
    + destruct (set_ltb (e_set e') (e_set e)) eqn:E2; [|discriminate].
      intros H. destruct (IH H) as [Hb Hf].
      destruct (map_insert e l) as [r b]. simpl in *.
      rewrite E1, E2. auto.
Qed.

Lemma map_insert_In (e a : SetStoreElement) (l : list SetStoreElement) :
  In a (fst (map_insert e l)) -> a = e \/ In a l.
Proof.
  induction l as [|e' l IH]; simpl; [intuition auto|].
  destruct (set_ltb (e_set e) (e_set e')); [simpl; intuition auto|].
  destruct (set_ltb (e_set e') (e_set e)); [|simpl; tauto].
  destruct (map_insert e l) as [r b]. simpl in *. tauto.
Qed.

Lemma map_insert_sorted (e : SetStoreElement) (l : list SetStoreElement) :
  StronglySorted elem_lt l -> StronglySorted elem_lt (fst (map_insert e l)).
Proof.
  induction l as [|e' l IH]; simpl; intros Hs.
  - repeat constructor.
  - inversion Hs as [|? ? Hs' Hall]; subst.
    destruct (set_ltb (e_set e) (e_set e')) eqn:E1; simpl.
    + constructor; [exact Hs|]. constructor; [exact E1|].
      eapply Forall_impl; [|exact Hall].
      intros a Ha. unfold elem_lt in *. eapply set_ltb_trans; eassumption.
    + destruct (set_ltb (e_set e') (e_set e)) eqn:E2; [|exact Hs].
      specialize (IH Hs').
      pose proof (map_insert_In e) as HIn. specialize (HIn) with (l := l).
      destruct (map_insert e l) as [r b]. simpl in *.
      constructor; [exact IH|].
      apply Forall_forall. intros a Ha.
      destruct (HIn a Ha) as [->|Hin]; [exact E2|].
      rewrite Forall_forall in Hall. apply Hall, Hin.
Qed.

Lemma filter_key_above (e : SetStoreElement) (l : list SetStoreElement) :
  Forall (elem_lt e) l ->
  filter (fun a => set_eqb (e_set a) (e_set e)) l = [].
Proof.
  induction 1 as [|a l Ha Hall IH]; simpl; [reflexivity|].
  destruct (set_eqb (e_set a) (e_set e)) eqn:F; [|exact IH].
  apply set_eqb_eq in F. unfold elem_lt in Ha.
  rewrite F, set_ltb_irrefl in Ha. discriminate.
Qed.

Lemma sorted_key_count (k : SquareSet) (l : list SetStoreElement) :
  StronglySorted elem_lt l ->
  (length (filter (fun e => set_eqb (e_set e) k) l) <= 1)%nat.
Proof.
  induction 1 as [|e l Hs IH Hall]; simpl; [lia|].
  destruct (set_eqb (e_set e) k) eqn:E; [|exact IH].
  apply set_eqb_eq in E. subst k.
  rewrite (filter_key_above e l Hall). simpl. lia.
Qed.

Lemma map_find_In (k : SquareSet) (l : list SetStoreElement) (e : SetStoreElement) :
  map_find k l = Some e -> In e l /\ e_set e = k.
Proof.
  induction l as [|e' l IH]; simpl; [discriminate|].
  destruct (set_ltb k (e_set e')) eqn:E1; [discriminate|].
  destruct (set_ltb (e_set e') k) eqn:E2.
  - intros H. destruct (IH H). auto.
  - intros H. inversion H; subst. split; [auto|].
    symmetry. apply set_ltb_total; assumption.
Qed.

Lemma map_find_sorted_In (l : list SetStoreElement) (e : SetStoreElement) :
  StronglySorted elem_lt l -> In e l -> map_find (e_set e) l = Some e.
Proof.
  induction 1 as [|e' l Hs IH Hall]; simpl; [tauto|].
  intros [->|Hin].
  - rewrite set_ltb_irrefl. reflexivity.
  - rewrite Forall_forall in Hall. specialize (Hall e Hin).
    unfold elem_lt in Hall. rewrite Hall, (set_ltb_asym _ _ Hall).
    apply IH, Hin.
Qed.

Lemma map_update_find (k : SquareSet) (f : SetStoreElement -> SetStoreElement)
      (l : list SetStoreElement) (e : SetStoreElement) :
  (forall a, e_set (f a) = e_set a) ->
  map_find k l = Some e ->
  map_find k (map_update k f l) = Some (f e).
Proof.
  intros Hf. induction l as [|e' l IH]; simpl; [discriminate|].
  destruct (set_ltb k (e_set e')) eqn:E1; [discriminate|].
  destruct (set_ltb (e_set e') k) eqn:E2.
  - intros H. rewrite set_ltb_neq by exact E2. simpl. rewrite E1, E2. auto.
  - intros H. inversion H; subst.
    rewrite (set_ltb_total _ _ E2 E1), set_eqb_refl. simpl.
    rewrite Hf, (set_ltb_total _ _ E2 E1), set_ltb_irrefl. reflexivity.
Qed.

Lemma map_update_keys (k : SquareSet) (f : SetStoreElement -> SetStoreElement)
      (l : list SetStoreElement) :
  (forall a, e_set (f a) = e_set a) ->
  map e_set (map_update k f l) = map e_set l.
Proof.
  intros Hf. induction l as [|e' l IH]; simpl; [reflexivity|].
  destruct (set_eqb (e_set e') k); simpl; [rewrite Hf | rewrite IH];
    reflexivity.
Qed.

(** Sortedness and the mask bound only depend on the keys. *)
Lemma sorted_keys (l l' : list SetStoreElement) :
  map e_set l' = map e_set l ->
  StronglySorted elem_lt l -> StronglySorted elem_lt l'.
Proof.
  revert l'. induction l as [|a l IH]; intros [|a' l'] Hk Hs;
    simpl in Hk; try discriminate; [constructor|].
  inversion Hk as [[Ha Hl]]. inversion Hs as [|? ? Hs' Hall]; subst.
  constructor; [apply IH; assumption|].
  clear - Ha Hl Hall. revert l' Hl.
  induction Hall as [|b l Hb Hall IH]; intros [|b' l'] Hl;
    simpl in Hl; try discriminate; constructor.
  - inversion Hl as [[Hb' _]]. unfold elem_lt in *. congruence.
  - inversion Hl. apply IH. assumption.
Qed.

Lemma mask9_keys (l l' : list SetStoreElement) :
  map e_set l' = map e_set l ->
  Forall (fun e => mask9 (set_mask (e_set e))) l ->
  Forall (fun e => mask9 (set_mask (e_set e))) l'.
Proof.
  revert l'. induction l as [|a l IH]; intros [|a' l'] Hk Hall;
    simpl in Hk; try discriminate; constructor;
    inversion Hk as [[Ha Hl]]; inversion Hall; subst.
  - rewrite Ha. assumption.
  - apply IH; assumption.
Qed.

Lemma store_ok_keys (ss ss' : SetStore) :
  map e_set (m_elements ss') = map e_set (m_elements ss) ->
  store_ok ss -> store_ok ss'.
Proof.
  intros Hk [Hs Hm]. split; [eapply sorted_keys | eapply mask9_keys]; eassumption.
Qed.

(* ===================================================================== *)
(** * SetStore::add *)
(* ===================================================================== *)

Lemma add_present (fuel : nat) (ss : SetStore) (x y mask mines : Z)
      (k : SquareSet) :
  normalize fuel (mkSquareSet x y mask) = Ret k ->
  map_find k (m_elements ss) <> None ->
  add fuel ss x y mask mines = Ret ss.
Proof.
  intros Hn Hf. unfold add. rewrite Hn. cbn [bind].
  rewrite map_insert_present by exact Hf. reflexivity.
Qed.

Lemma add_absent (fuel : nat) (ss : SetStore) (x y mask mines : Z)
      (k : SquareSet) :
  normalize fuel (mkSquareSet x y mask) = Ret k ->
  map_find k (m_elements ss) = None ->
  add fuel ss x y mask mines
  = Ret (mkSetStore
           (map_update k set_todo
              (fst (map_insert (mkElement k mines false) (m_elements ss))))
           (m_todolist ss ++ [k])).
Proof.
  intros Hn Hf. unfold add. rewrite Hn. cbn [bind].
  destruct (map_insert_absent (mkElement k mines false) (m_elements ss) Hf)
    as [Hb Hfind].
  destruct (map_insert (mkElement k mines false) (m_elements ss)) as [r b].
  cbn [fst snd] in *. subst b.
  unfold add_todo, deref. cbn [m_elements m_todolist e_set] in *.
  rewrite Hfind. reflexivity.
Qed.

Lemma add_store_ok (fuel : nat) (ss ss' : SetStore) (x y mask mines : Z) :
  (3 <= fuel)%nat -> mask9 mask -> store_ok ss ->
  add fuel ss x y mask mines = Ret ss' -> store_ok ss'.
Proof.
  intros Hfuel Hm Hok Hadd.
  destruct (normalize_origin mask Hm) as [r [Hr [_ [_ [_ [_ Hr9]]]]]].
  pose proof (normalize_shape fuel (mkSquareSet x y mask)) as Hshape.
  cbn [set_x set_y set_mask] in Hshape.
  rewrite (normalize_mono _ _ _ _ Hr Hfuel) in Hshape. cbn [shift_res] in Hshape.
  set (k := mkSquareSet (x + set_x r) (y + set_y r) (set_mask r)) in *.
  destruct (map_find k (m_elements ss)) eqn:Hf.
  - rewrite (add_present fuel ss x y mask mines k Hshape) in Hadd
      by congruence.
    inversion Hadd; subst. exact Hok.
  - rewrite (add_absent fuel ss x y mask mines k Hshape Hf) in Hadd.
    inversion Hadd; subst. clear Hadd.
    destruct Hok as [Hs Hall].
    eapply (store_ok_keys
              (mkSetStore
                 (fst (map_insert (mkElement k mines false) (m_elements ss)))
                 [])).
    + cbn [m_elements]. apply map_update_keys. reflexivity.
    + split; cbn [m_elements].
      * apply map_insert_sorted, Hs.
      * apply Forall_forall. intros a Ha.
        apply map_insert_In in Ha. destruct Ha as [->|Ha].
        -- exact Hr9.
        -- rewrite Forall_forall in Hall. apply Hall, Ha.
Qed.

Lemma add_all_present (fuel : nat) (ss : SetStore) (k : SquareSet)
      (calls : list (Z * Z * Z * Z)) :
  map_find k (m_elements ss) <> None ->
  Forall (fun '(x, y, m, _) => normalize fuel (mkSquareSet x y m) = Ret k)
         calls ->
  add_all fuel ss calls = Ret ss.
Proof.
  intros Hf Hall. unfold add_all.
  induction Hall as [|[[[x y] m] c] calls Hn Hall IH]; [reflexivity|].
  cbn [for_each].
  rewrite (add_present fuel ss x y m c k Hn Hf). cbn [bind]. exact IH.
Qed.

(** C5 (amended). Starting from a well-formed store without the key [k],
    after any sequence of [add] calls whose sets all normalize to [k] the
    store is the one the first call produced: it has exactly one entry for
    [k], carrying the first mine count, and every later call, whatever its
    mine count, returns normally and leaves the store unchanged. *)
Theorem add_same_key_first_wins (fuel : nat) (ss : SetStore) (k : SquareSet)
        (x1 y1 m1 c1 : Z) (later : list (Z * Z * Z * Z)) :
  (3 <= fuel)%nat -> store_ok ss -> mask9 m1 ->
  normalize fuel (mkSquareSet x1 y1 m1) = Ret k ->
  Forall (fun '(x, y, m, _) => normalize fuel (mkSquareSet x y m) = Ret k)
         later ->
  map_find k (m_elements ss) = None ->
  exists ss1,
    add fuel ss x1 y1 m1 c1 = Ret ss1
    /\ add_all fuel ss ((x1, y1, m1, c1) :: later) = Ret ss1
    /\ store_ok ss1
    /\ map_find k (m_elements ss1) = Some (mkElement k c1 true)
    /\ entries_with_key ss1 k = 1%nat.
Proof.
  intros Hfuel Hok Hm1 Hn1 Hlater Hf.
  pose proof (add_absent fuel ss x1 y1 m1 c1 k Hn1 Hf) as Hadd.
  set (ss1 := mkSetStore
                (map_update k set_todo
                   (fst (map_insert (mkElement k c1 false) (m_elements ss))))
                (m_todolist ss ++ [k])) in *.
  assert (map_find k (m_elements ss1) = Some (mkElement k c1 true)) as Hfind.
  { unfold ss1. cbn [m_elements].
    destruct (map_insert_absent (mkElement k c1 false) (m_elements ss) Hf)
      as [_ Hfi]. cbn [e_set] in Hfi.
    rewrite (map_update_find k set_todo _ _ (fun a => eq_refl) Hfi).
    reflexivity. }
  assert (store_ok ss1) as Hok1
      by (eapply add_store_ok; eassumption).
  exists ss1. split; [exact Hadd|]. split; [|split; [exact Hok1|split]].
  - unfold add_all. cbn [for_each]. rewrite Hadd. cbn [bind].
    apply (add_all_present fuel ss1 k later); [congruence | exact Hlater].
  - exact Hfind.
  - unfold entries_with_key.
    pose proof (sorted_key_count k _ (proj1 Hok1)) as Hle.
    apply map_find_In in Hfind. destruct Hfind as [Hin _].
    assert (In (mkElement k c1 true)
              (filter (fun e => set_eqb (e_set e) k) (m_elements ss1))) as Hin'.
    { apply filter_In. split; [exact Hin | apply set_eqb_refl]. }
    destruct (filter (fun e => set_eqb (e_set e) k) (m_elements ss1));
      [destruct Hin' | simpl in *; lia].
Qed.

Lemma store_ok_empty : store_ok SetStore_empty.
Proof. split; constructor. Qed.

Lemma add_same_key_first_wins_witness :
  exists ss1,
    add_all 3 SetStore_empty [(0, 0, 0x120, 2); (1, 0, 0x090, 5); (2, 1, 0x009, 1)]
    = Ret ss1
    /\ map_find (mkSquareSet 2 1 0x009) (m_elements ss1)
       = Some (mkElement (mkSquareSet 2 1 0x009) 2 true)
    /\ entries_with_key ss1 (mkSquareSet 2 1 0x009) = 1%nat.
Proof.
  destruct (add_same_key_first_wins 3 SetStore_empty (mkSquareSet 2 1 0x009)
              0 0 0x120 2 [(1, 0, 0x090, 5); (2, 1, 0x009, 1)])
    as [ss1 [_ [H2 [_ [H4 H5]]]]].
  - lia.
  - exact store_ok_empty.
  - unfold mask9. lia.
  - reflexivity.
  - repeat constructor.
  - reflexivity.
  - exists ss1. auto.
Defined.

(** C5, the claim as stated: a later [add] with the same key and another
    mine count does not fail an assertion; it returns, and the store is
    unchanged. *)
Lemma add_inconsistent_count_returns :
  exists ss1,
    add 3 SetStore_empty 0 0 TOP_LEFT 0 = Ret ss1
    /\ add 3 ss1 0 0 TOP_LEFT 1 = Ret ss1
    /\ add 3 ss1 0 0 TOP_LEFT 1 <> Abort.
Proof.
  eexists. split; [reflexivity|]. split; [reflexivity | discriminate].
Qed.

(* ===================================================================== *)
(** * SetStore::overlap *)
(* ===================================================================== *)

Lemma mask9_nonzero_bits :
  forallb (fun m => (m =? 0) || existsb (Z.testbit m) (zrange 9)) (zrange 512)
  = true.
Proof. vm_compute. reflexivity. Qed.

Lemma mask9_nonzero_bit (m : Z) :
  mask9 m -> m <> 0 -> exists i, 0 <= i < 9 /\ Z.testbit m i = true.
Proof.
  intros Hm Hne.
  pose proof (zrange_forallb _ _ mask9_nonzero_bits m) as H.
  change (Z.of_nat 512) with (2 ^ 9) in H. specialize (H Hm).
  cbv beta in H. apply orb_true_iff in H. destruct H as [H|H];
    [apply Z.eqb_eq in H; contradiction|].
  apply existsb_exists in H. destruct H as [i [Hi Hb]].
  exists i. split; [|exact Hb]. apply in_zrange in Hi.
  change (Z.of_nat 9) with 9 in Hi. exact Hi.
Qed.

(** A mask is non-empty exactly when the set has a square. *)
Lemma mask_nonzero_member (s : SquareSet) :
  mask9 (set_mask s) ->
  (set_mask s <> 0 <-> exists px py, member s px py = true).
Proof.
  intros Hm. split.
  - intros Hne. destruct (mask9_nonzero_bit _ Hm Hne) as [i [Hi Hb]].
    exists (set_x s + i mod 3), (set_y s + i / 3).
    pose proof (Z.mod_pos_bound i 3 ltac:(lia)).
    assert (0 <= i / 3 < 3)
      by (split; [apply Z.div_pos; lia | apply Z.div_lt_upper_bound; lia]).
    rewrite member_intro by lia.
    replace (3 * (set_y s + i / 3 - set_y s) + (set_x s + i mod 3 - set_x s))
      with (3 * (i / 3) + i mod 3) by lia.
    rewrite <- Z.div_mod by lia. exact Hb.
  - intros [px [py H]] H0. apply member_bounds in H.
    rewrite H0, Z.bits_0 in H. destruct H as [_ [_ H]]. discriminate.
Qed.

Lemma set_and_nonzero_iff (a b : SquareSet) :
  mask9 (set_mask a) -> mask9 (set_mask b) ->
  (set_mask (set_and a b) <> 0 <->
   exists px py, member a px py = true /\ member b px py = true).
Proof.
  intros Ha Hb.
  rewrite (mask_nonzero_member (set_and a b))
    by (apply mask9_set_and; assumption).
  split; intros [px [py H]]; exists px, py.
  - rewrite member_set_and in H by exact Hb. apply andb_true_iff, H.
  - rewrite member_set_and by exact Hb. apply andb_true_iff, H.
Qed.

Lemma set_and_nonzero_sym (a b : SquareSet) :
  mask9 (set_mask a) -> mask9 (set_mask b) ->
  set_mask (set_and a b) <> 0 -> set_mask (set_and b a) <> 0.
Proof.
  intros Ha Hb H.
  apply (set_and_nonzero_iff a b Ha Hb) in H.
  apply (set_and_nonzero_iff b a Hb Ha).
  destruct H as [px [py [H1 H2]]]. exists px, py. auto.
Qed.

Lemma mask_nonzero_true (m : Z) : mask_nonzero m = true <-> m <> 0.
Proof.
  unfold mask_nonzero. rewrite negb_true_iff. apply Z.eqb_neq.
Qed.

Lemma lower_bound_In (k : SquareSet) (l : list SetStoreElement)
      (e : SetStoreElement) :
  In e (lower_bound k l) -> In e l.
Proof.
  induction l as [|a l IH]; simpl; [tauto|].
  destruct (set_ltb (e_set a) k); simpl; tauto.
Qed.

Lemma overlap_scan_In (xx yy : Z) (input k : SquareSet)
      (l : list SetStoreElement) :
  In k (overlap_scan xx yy input l) ->
  exists e, In e l /\ e_set e = k /\ set_x k = xx /\ set_y k = yy
            /\ set_mask (set_and k input) <> 0.
Proof.
  induction l as [|a l IH]; cbn [overlap_scan]; [intros []|].
  destruct (Z.eqb_spec (set_x (e_set a)) xx) as [Hx|]; [|intros []].
  destruct (Z.eqb_spec (set_y (e_set a)) yy) as [Hy|]; [|intros []].
  cbn [andb]. rewrite in_app_iff. intros [H|H].
  - destruct (mask_nonzero (set_mask (set_and (e_set a) input))) eqn:E;
      [|destruct H].
    destruct H as [<-|[]]. exists a.
    apply mask_nonzero_true in E. cbn [In]. auto.
  - destruct (IH H) as [e [Hin He]]. exists e. cbn [In]. auto.
Qed.

(** Once past the lower bound, the scan reaches every entry anchored at
    [(xx, yy)]. *)
Lemma overlap_scan_complete (xx yy : Z) (input : SquareSet)
      (l : list SetStoreElement) (e : SetStoreElement) :
  StronglySorted elem_lt l ->
  Forall (fun a => set_ltb (e_set a) (mkSquareSet xx yy NONE) = false) l ->
  In e l -> set_x (e_set e) = xx -> set_y (e_set e) = yy ->
  set_mask (set_and (e_set e) input) <> 0 ->
  In (e_set e) (overlap_scan xx yy input l).
Proof.
  intros Hs Hge Hin Hx Hy Hne.
  induction Hs as [|a l Hs IH Hall]; [destruct Hin|].
  inversion Hge as [|? ? Ha Hge']; subst. cbn [overlap_scan].
  destruct Hin as [->|Hin].
  - rewrite !Z.eqb_refl. cbn [andb].
    apply in_app_iff. left.
    rewrite (proj2 (mask_nonzero_true _) Hne). cbn [In]. auto.
  - rewrite Forall_forall in Hall. pose proof (Hall e Hin) as Hlt.
    unfold elem_lt in Hlt. apply set_ltb_spec in Hlt.
    assert (~ (set_ltb (e_set a) (mkSquareSet (set_x (e_set e))
                                   (set_y (e_set e)) NONE) = true)) as Hnlt
        by congruence.
    rewrite set_ltb_spec in Hnlt. cbn [set_x set_y set_mask] in Hnlt.
    assert (set_x (e_set a) = set_x (e_set e)) as -> by lia.
    assert (set_y (e_set a) = set_y (e_set e)) as -> by lia.
    rewrite !Z.eqb_refl. cbn [andb].
    apply in_app_iff. right. apply IH; assumption.
Qed.

Lemma lower_bound_complete (k : SquareSet) (l : list SetStoreElement) :
  StronglySorted elem_lt l ->
  StronglySorted elem_lt (lower_bound k l)
  /\ Forall (fun a => set_ltb (e_set a) k = false) (lower_bound k l)
  /\ (forall e, In e l -> set_ltb (e_set e) k = false ->
                In e (lower_bound k l)).
Proof.
  induction 1 as [|a l Hs IH Hall]; simpl.
  - split; [constructor|]. split; [constructor | tauto].
  - destruct IH as [IH1 [IH2 IH3]].
    destruct (set_ltb (e_set a) k) eqn:E.
    + split; [exact IH1|]. split; [exact IH2|].
      intros e [->|Hin] He; [congruence | auto].
    + split; [constructor; assumption|]. split.
      * constructor; [exact E|].
        apply Forall_forall. intros b Hb.
        rewrite Forall_forall in Hall. specialize (Hall b Hb).
        unfold elem_lt in Hall.
        destruct (set_ltb (e_set b) k) eqn:F; [|reflexivity].
        rewrite (set_ltb_trans _ _ _ Hall F) in E. discriminate.
      * intros e He _. exact He.
Qed.

Lemma In_window5 (x xx : Z) :
  In xx (map (fun d => x + d) [-2; -1; 0; 1; 2]) <-> Z.abs (xx - x) < 3.
Proof. simpl. lia. Qed.

(** The entries [overlap] returns: those anchored within 2 of the query
    in both axes whose intersection with the query is not empty. *)
Lemma overlap_In (ss : SetStore) (x y mask : Z) (k : SquareSet) :
  store_ok ss ->
  (In k (overlap ss x y mask) <->
   exists e, In e (m_elements ss) /\ e_set e = k
             /\ Z.abs (set_x k - x) < 3 /\ Z.abs (set_y k - y) < 3
             /\ set_mask (set_and k (mkSquareSet x y mask)) <> 0).
Proof.
  intros [Hs Hm9]. unfold overlap. rewrite in_flat_map. split.
  - intros [xx [Hxx H]]. apply in_flat_map in H. destruct H as [yy [Hyy H]].
    apply overlap_scan_In in H. destruct H as [e [Hin [He [Hx [Hy Hne]]]]].
    apply lower_bound_In in Hin. apply In_window5 in Hxx, Hyy.
    exists e. subst xx yy. auto.
  - intros [e [Hin [He [Hx [Hy Hne]]]]]. subst k.
    exists (set_x (e_set e)). split; [apply In_window5, Hx|].
    apply in_flat_map. exists (set_y (e_set e)).
    split; [apply In_window5, Hy|].
    destruct (lower_bound_complete
                (mkSquareSet (set_x (e_set e)) (set_y (e_set e)) NONE)
                _ Hs) as [Hs' [Hge Hall]].
    assert (set_ltb (e_set e)
              (mkSquareSet (set_x (e_set e)) (set_y (e_set e)) NONE) = false)
      as Hnlt.
    { destruct (set_ltb _ _) eqn:E; [|reflexivity].
      apply set_ltb_spec in E. cbn [set_x set_y set_mask] in E.
      rewrite Forall_forall in Hm9. specialize (Hm9 e Hin).
      unfold mask9, NONE in *. lia. }
    apply overlap_scan_complete; auto.
Qed.

(** C7. In a well-formed store, for a query set [s1] with a 9-bit mask:
    every stored entry whose intersection with [s1] is not empty is among
    the iterators that [overlap] returns, and every iterator returned is a
    stored entry whose intersection with [s1] is not empty. *)
Theorem overlap_complete_sound (ss : SetStore) (s1 : SquareSet) :
  store_ok ss -> mask9 (set_mask s1) ->
  (forall e2, In e2 (m_elements ss) ->
              set_mask (set_and s1 (e_set e2)) <> 0 ->
              In (e_set e2)
                 (overlap ss (set_x s1) (set_y s1) (set_mask s1)))
  /\ (forall k, In k (overlap ss (set_x s1) (set_y s1) (set_mask s1)) ->
                exists e2, In e2 (m_elements ss) /\ e_set e2 = k
                           /\ set_mask (set_and s1 k) <> 0
                           /\ set_mask (set_and k s1) <> 0).
Proof.
  intros Hok H1.
  assert (s1 = mkSquareSet (set_x s1) (set_y s1) (set_mask s1)) as Hs1
      by (destruct s1; reflexivity).
  assert (forall e, In e (m_elements ss) -> mask9 (set_mask (e_set e)))
    as Hm9 by (destruct Hok as [_ H]; rewrite Forall_forall in H; exact H).
  split.
  - intros e2 Hin Hne. apply (overlap_In ss _ _ _ _ Hok).
    exists e2. split; [exact Hin|]. split; [reflexivity|].
    destruct (Z_lt_ge_dec (Z.abs (set_x (e_set e2) - set_x s1)) 3) as [Hx|Hx];
      [destruct (Z_lt_ge_dec (Z.abs (set_y (e_set e2) - set_y s1)) 3)
        as [Hy|Hy]|].
    + split; [exact Hx|]. split; [exact Hy|]. rewrite <- Hs1.
      apply set_and_nonzero_sym; auto.
    + exfalso. apply Hne, set_and_far. lia.
    + exfalso. apply Hne, set_and_far. lia.
  - intros k Hk. apply (overlap_In ss _ _ _ _ Hok) in Hk.
    destruct Hk as [e [Hin [He [_ [_ Hne]]]]]. rewrite <- Hs1 in Hne.
    exists e. split; [exact Hin|]. split; [exact He|]. subst k.
    split; [|exact Hne]. apply set_and_nonzero_sym; auto.
Qed.

Lemma overlap_complete_sound_witness :
  exists ss,
    add_all 3 SetStore_empty [(0, 0, 0x1B0, 1); (5, 5, 0x003, 1); (2, 1, 0x00B, 2)]
    = Ret ss
    /\ In (mkSquareSet 2 1 0x00B) (overlap ss 2 2 0x011)
    /\ forall k, In k (overlap ss 2 2 0x011) ->
                 set_mask (set_and (mkSquareSet 2 2 0x011) k) <> 0.
Proof.
  eexists. split; [vm_compute; reflexivity|].
  set (ss := mkSetStore _ _).
  assert (store_ok ss) as Hok.
  { split; repeat constructor; unfold mask9; simpl; lia. }
  destruct (overlap_complete_sound ss (mkSquareSet 2 2 0x011) Hok
              ltac:(unfold mask9; simpl; lia)) as [Hc Hs].
  split.
  - apply (Hc (mkElement (mkSquareSet 2 1 0x00B) 2 true)).
    + simpl. auto.
    + vm_compute. discriminate.
  - intros k Hk. destruct (Hs k Hk) as [e2 [_ [_ [H _]]]]. exact H.
Defined.

(* ===================================================================== *)
(** * Loops over containers *)
(* ===================================================================== *)

(** Inversion of a computation that returned: every [bind] on the way
    returned, every [assert] passed. *)
Ltac split_pairs :=
  repeat match goal with
         | x : (_ * _)%type |- _ => destruct x
         end.

Ltac inv_ret H :=
  repeat match type of H with
         | bind ?m _ = Ret _ =>
             let a := fresh "a" in
             let Ha := fresh "Hr" in
             apply bind_Ret_inv in H; destruct H as [a [Ha H]];
             split_pairs; cbv beta iota in H
         end.

(** The equation of a returned value. *)
Ltac ret_eq H := inversion H; subst; clear H.

Lemma for_each_app {A S : Type} (l1 l2 : list A) (body : A -> S -> res S)
      (s : S) :
  for_each (l1 ++ l2) body s
  = bind (for_each l1 body s) (for_each l2 body).
Proof.
  revert s. induction l1 as [|a l1 IH]; intros s; simpl; [reflexivity|].
  destruct (body a s) as [s1| |]; simpl; auto.
Qed.

Lemma for_each_map_pair {A B S : Type} (a : A) (l2 : list B)
      (body : A -> B -> S -> res S) (s0 : S) :
  for_each l2 (fun b s1 => body a b s1) s0
  = for_each (map (fun b => (a, b)) l2) (fun '(a0, b) s1 => body a0 b s1) s0.
Proof.
  revert s0. induction l2 as [|b l2 IH2]; intros s0; simpl; [reflexivity|].
  destruct (body a b s0); simpl; auto.
Qed.

(** Nested loops are one loop over the pairs, in the same order. *)
Lemma for_each_nested {A B S : Type} (l1 : list A) (l2 : list B)
      (body : A -> B -> S -> res S) (s : S) :
  for_each l1 (fun a s => for_each l2 (fun b s => body a b s) s) s
  = for_each (flat_map (fun a => map (fun b => (a, b)) l2) l1)
      (fun '(a, b) s => body a b s) s.
Proof.
  revert s. induction l1 as [|a l1 IH]; intros s; [reflexivity|].
  cbn [for_each flat_map]. rewrite for_each_app, <- for_each_map_pair.
  destruct (for_each l2 _ s); simpl; auto.
Qed.

Lemma for_each_ext {A S : Type} (l : list A) (body1 body2 : A -> S -> res S) :
  (forall a s, body1 a s = body2 a s) ->
  forall s, for_each l body1 s = for_each l body2 s.
Proof.
  intros E. induction l as [|a l IH]; intros s; simpl; [reflexivity|].
  rewrite E. destruct (body2 a s); simpl; auto.
Qed.

Lemma for_each_map {A B S : Type} (f : A -> B) (l : list A)
      (body : B -> S -> res S) (s : S) :
  for_each (map f l) body s = for_each l (fun a => body (f a)) s.
Proof.
  revert s. induction l as [|a l IH]; intros s; simpl; [reflexivity|].
  destruct (body (f a) s); simpl; auto.
Qed.

(** A property kept by every iteration holds at the end. *)
Lemma for_each_invariant {A S : Type} (I : S -> Prop) (l : list A)
      (body : A -> S -> res S) :
  (forall a s s1, In a l -> I s -> body a s = Ret s1 -> I s1) ->
  forall s s', I s -> for_each l body s = Ret s' -> I s'.
Proof.
  induction l as [|a l IH]; intros Hstep s s' Hs H; simpl in H.
  - inversion H; subst. exact Hs.
  - apply bind_Ret_inv in H. destruct H as [s1 [H1 H]].
    apply (IH (fun b t t1 Hb => Hstep b t t1 (or_intror Hb)) s1 s');
      [|exact H].
    apply (Hstep a s s1); simpl; auto.
Qed.

(** The same with a property that follows the elements still to come. *)
Lemma for_each_remaining {A S : Type} (I : list A -> S -> Prop) (l : list A)
      (body : A -> S -> res S) :
  (forall a rest s s1, I (a :: rest) s -> body a s = Ret s1 -> I rest s1) ->
  forall s s', I l s -> for_each l body s = Ret s' -> I [] s'.
Proof.
  intros Hstep. induction l as [|a l IH]; intros s s' Hs H; simpl in H.
  - inversion H; subst. exact Hs.
  - apply bind_Ret_inv in H. destruct H as [s1 [H1 H]].
    apply (IH s1 s'); [|exact H]. eapply Hstep; eassumption.
Qed.

(* ===================================================================== *)
(** * Grids *)
(* ===================================================================== *)

Lemma list_update_length {T : Type} (l : list T) (n : nat) (v : T) :
  length (list_update l n v) = length l.
Proof.
  revert n. induction l as [|a l IH]; intros [|n]; simpl; auto.
Qed.

Lemma list_update_nth_same {T : Type} (l : list T) (n : nat) (v d : T) :
  (n < length l)%nat -> nth n (list_update l n v) d = v.
Proof.
  revert n. induction l as [|a l IH]; intros [|n] H; simpl in *;
    try lia; [reflexivity|]. apply IH. lia.
Qed.

Lemma list_update_nth_other {T : Type} (l : list T) (n m : nat) (v d : T) :
  n <> m -> nth m (list_update l n v) d = nth m l d.
Proof.
  revert n m. induction l as [|a l IH]; intros [|n] [|m] H; simpl;
    try reflexivity; try congruence. apply IH. congruence.
Qed.

Lemma grid_at_idx_Ret {T : Type} (g : Grid T) (i : Z) (v d : T) :
  grid_at_idx g i = Ret v ->
  0 <= i < grid_size g /\ v = nth (Z.to_nat i) (g_data g) d.
Proof.
  unfold grid_at_idx.
  destruct (Z.leb_spec 0 i); destruct (Z.ltb_spec i (grid_size g));
    cbn [andb]; try discriminate.
  destruct (nth_error (g_data g) (Z.to_nat i)) as [u|] eqn:E;
    [|discriminate].
  intros Hv. inversion Hv; subst. split; [lia|].
  symmetry. apply nth_error_nth, E.
Qed.

Lemma grid_at_idx_in {T : Type} (g : Grid T) (i : Z) (d : T) :
  0 <= i < grid_size g ->
  grid_at_idx g i = Ret (nth (Z.to_nat i) (g_data g) d).
Proof.
  intros Hi. unfold grid_at_idx.
  destruct (Z.leb_spec 0 i); destruct (Z.ltb_spec i (grid_size g));
    cbn [andb]; try lia.
  unfold grid_size in Hi.
  rewrite (nth_error_nth' (g_data g) d) by lia. reflexivity.
Qed.

Lemma grid_set_idx_Ret {T : Type} (g g' : Grid T) (i : Z) (v : T) :
  grid_set_idx g i v = Ret g' ->
  0 <= i < grid_size g
  /\ g' = mkGrid (g_width g) (g_height g)
            (list_update (g_data g) (Z.to_nat i) v).
Proof.
  unfold grid_set_idx.
  destruct (Z.leb_spec 0 i); destruct (Z.ltb_spec i (grid_size g));
    cbn [andb]; try discriminate.
  intros Hv. inversion Hv. split; [lia | reflexivity].
Qed.

Lemma grid_set_idx_shape {T : Type} (g g' : Grid T) (i : Z) (v : T) :
  grid_set_idx g i v = Ret g' -> shape g' = shape g.
Proof.
  intros H. apply grid_set_idx_Ret in H. destruct H as [_ ->].
  unfold shape. cbn [g_width g_height g_data].
  rewrite list_update_length. reflexivity.
Qed.

Lemma grid_set_shape {T : Type} (g g' : Grid T) (x y : Z) (v : T) :
  grid_set g x y v = Ret g' -> shape g' = shape g.
Proof. apply grid_set_idx_shape. Qed.

Lemma grid_fill_shape {T : Type} (g : Grid T) (v : T) :
  shape (grid_fill g v) = shape g.
Proof. unfold shape, grid_fill. cbn. rewrite length_map. reflexivity. Qed.

Lemma shape_contains {T U : Type} (g : Grid T) (g' : Grid U) (x y : Z) :
  shape g' = shape g -> grid_contains g' x y = grid_contains g x y.
Proof.
  unfold shape, grid_contains. intros H. inversion H as [[Hw Hh Hl]].
  rewrite Hw, Hh. reflexivity.
Qed.

(* ===================================================================== *)
(** * What the solver leaves unchanged *)
(* ===================================================================== *)

Lemma same_frame_refl (game : GameData) : same_frame game game.
Proof. repeat split. Qed.

Lemma same_frame_trans (g1 g2 g3 : GameData) :
  same_frame g1 g2 -> same_frame g2 g3 -> same_frame g1 g3.
Proof.
  intros [A1 [A2 [A3 A4]]] [B1 [B2 [B3 B4]]].
  repeat split; congruence.
Qed.

Lemma same_frame_with_grid (game : GameData) (grid : Grid Z) :
  shape grid = shape (gd_grid game) -> same_frame game (with_grid game grid).
Proof. intros H. repeat split. exact H. Qed.

Lemma same_frame_shapes (g1 g2 : GameData) :
  same_frame g1 g2 -> same_shapes g1 g2.
Proof. intros [A1 [A2 [A3 A4]]]. repeat split; congruence. Qed.

Lemma same_shapes_refl (game : GameData) : same_shapes game game.
Proof. repeat split. Qed.

Lemma same_shapes_trans (g1 g2 g3 : GameData) :
  same_shapes g1 g2 -> same_shapes g2 g3 -> same_shapes g1 g3.
Proof.
  intros [A1 [A2 [A3 A4]]] [B1 [B2 [B3 B4]]].
  repeat split; congruence.
Qed.

Lemma mark_known_squares_frame (thegame game' : GameData)
      (std std' : SquareTodo) (x y mask : Z) (mine : bool) :
  mark_known_squares thegame std x y mask mine = Ret (game', std') ->
  same_frame thegame game'.
Proof.
  unfold mark_known_squares. intros H.
  apply (for_each_invariant (fun st => same_frame thegame (fst st)))
    in H; [exact H | | apply same_frame_refl].
  intros [xx yy] [game s] [game1 s1] _ Hi Hb. cbn [fst] in *.
  inv_ret Hb.
  destruct (negb (_ =? Unknown)); [ret_eq Hb; exact Hi|].
  inv_ret Hb. ret_eq Hb.
  eapply same_frame_trans; [exact Hi|]. apply same_frame_with_grid.
  destruct mine.
  - eapply grid_set_shape; eassumption.
  - match goal with H : bind _ _ = Ret _ |- _ => inv_ret H end.
    eapply grid_set_shape; eassumption.
Qed.

Lemma process_next_todo_frame (fuel : nat) (s : SetStoreElement)
      (thegame game' : GameData) (stodo stodo' : SquareTodo)
      (ss ss' : SetStore) :
  process_next_todo fuel s thegame stodo ss = Ret (game', stodo', ss') ->
  same_frame thegame game'.
Proof.
  unfold process_next_todo. intros H.
  destruct ((e_mines s =? 0) || (e_mines s =? count (set_mask (e_set s)))).
  - inv_ret H. ret_eq H.
    eapply mark_known_squares_frame; eassumption.
  - apply (for_each_invariant
             (fun st => same_frame thegame (fst (fst st)))) in H;
      [exact H | | apply same_frame_refl].
    intros it [[g1 s1] ss1] [[g2 s2] ss2] _ Hi Hb. cbn [fst] in *.
    inv_ret Hb.
    repeat match type of Hb with
           | (if ?c then _ else _) = _ => destruct c
           end; inv_ret Hb; ret_eq Hb; try exact Hi.
    eapply same_frame_trans; [exact Hi|].
    eapply same_frame_trans; eapply mark_known_squares_frame; eassumption.
Qed.

Lemma mark_outside_frame (sets : list SetStoreElement) (nsets : Z)
      (setused : list bool) (minesleft : Z) (thegame game' : GameData)
      (stodo stodo' : SquareTodo) :
  mark_outside sets nsets setused minesleft thegame stodo
  = Ret (game', stodo') ->
  same_frame thegame game'.
Proof.
  unfold mark_outside. intros H.
  apply (for_each_invariant (fun st => same_frame thegame (fst st)))
    in H; [exact H | | apply same_frame_refl].
  intros i [g1 s1] [g2 s2] _ Hi Hb. cbn [fst] in *.
  inv_ret Hb.
  repeat match type of Hb with
         | (if ?c then _ else _) = _ => destruct c
         end; try (ret_eq Hb; exact Hi).
  eapply same_frame_trans; [exact Hi|].
  eapply mark_known_squares_frame. exact Hb.
Qed.

Lemma global_loop_frame (fuel : nat) (sets : list SetStoreElement)
      (nsets : Z) (thegame : GameData) (stodo : SquareTodo) :
  forall (cursor : Z) (setused : list bool) (minesleft squaresleft : Z)
         (b : bool) (game' : GameData) (stodo' : SquareTodo),
    global_loop fuel sets nsets thegame stodo cursor setused minesleft
      squaresleft = Ret (b, game', stodo') ->
    same_frame thegame game'
    /\ (b = false -> game' = thegame /\ stodo' = stodo).
Proof.
  induction fuel as [|fuel IH]; intros cursor setused minesleft squaresleft
    b game' stodo' H; cbn [global_loop] in H; [discriminate|].
  destruct (cursor <? nsets); [eapply IH; exact H|].
  destruct ((0 <? squaresleft)
            && ((minesleft =? 0) || (minesleft =? squaresleft))).
  - inv_ret H. ret_eq H.
    split; [|discriminate]. eapply mark_outside_frame; eassumption.
  - destruct (0 <=? backtrack (Z.to_nat cursor) setused).
    + inv_ret H. eapply IH; exact H.
    + ret_eq H. split; [apply same_frame_refl | auto].
Qed.

Lemma attempt_global_deduction_frame (fuel : nat) (n squaresleft minesleft : Z)
      (thegame game' : GameData) (stodo stodo' : SquareTodo) (ss : SetStore)
      (b : bool) :
  attempt_global_deduction fuel n squaresleft minesleft thegame stodo ss
  = Ret (b, game', stodo') ->
  same_frame thegame game'
  /\ (b = false -> game' = thegame /\ stodo' = stodo).
Proof.
  unfold attempt_global_deduction. intros H.
  destruct ((minesleft =? 0) || (minesleft =? squaresleft)).
  - inv_ret H. ret_eq H.
    split; [|discriminate].
    match goal with
    | Hr : for_each _ _ _ = Ret _ |- _ =>
        apply (for_each_invariant (fun st => same_frame thegame (fst st)))
          in Hr; [exact Hr | | apply same_frame_refl]
    end.
    intros i [g2 s2] [g3 s3] _ Hi Hb. cbn [fst] in *.
    inv_ret Hb. destruct (_ =? Unknown).
    + eapply same_frame_trans; [exact Hi|].
      eapply mark_known_squares_frame. exact Hb.
    + ret_eq Hb. exact Hi.
  - destruct (setused_size <? setstore_size ss).
    + ret_eq H. split; [apply same_frame_refl | auto].
    + eapply global_loop_frame; exact H.
Qed.

Section SolverFrames.

Context {R : RNG}.

Lemma apply_change_shape (p : Perturbation) (grid grid' : Grid Z)
      (mines mines' : Grid bool) :
  apply_change p (grid, mines) = Ret (grid', mines') ->
  shape grid' = shape grid /\ shape mines' = shape mines.
Proof.
  unfold apply_change. intros H. inv_ret H. ret_eq H.
  split; [|eapply grid_set_shape; eassumption].
  match goal with
  | Hr : for_each deltas _ grid = Ret _ |- _ =>
      apply (for_each_invariant (fun g => shape g = shape grid)) in Hr;
        [exact Hr | | reflexivity]
  end.
  intros dy g1 g2 _ Hi Hb.
  apply (for_each_invariant (fun g => shape g = shape grid)) in Hb;
    [exact Hb | | exact Hi].
  clear. intros dx g1 g2 _ Hi Hb.
  repeat match type of Hb with
         | (if ?c then _ else _) = _ => destruct c
         | bind _ _ = _ => inv_ret Hb
         end;
    try (ret_eq Hb; exact Hi);
    rewrite <- Hi; eapply grid_set_shape; eassumption.
Qed.

Lemma apply_changes_shape (perturbations : list Perturbation)
      (grid grid' : Grid Z) (mines mines' : Grid bool) :
  apply_changes grid mines perturbations = Ret (grid', mines') ->
  shape grid' = shape grid /\ shape mines' = shape mines.
Proof.
  unfold apply_changes. intros H.
  apply (for_each_invariant
           (fun st => shape (fst st) = shape grid
                      /\ shape (snd st) = shape mines)) in H;
    [exact H | | split; reflexivity].
  intros p [g1 m1] [g2 m2] _ [Hg Hm] Hb. cbn [fst snd] in *.
  apply apply_change_shape in Hb. destruct Hb. split; congruence.
Qed.

(** What [mineperturb] returns: a game of the same shapes, which is the
    game it was given when no perturbation is reported. *)
Lemma mineperturb_shapes (ctx ctx' : GameData) (setx sety mask : Z)
      (rng rng' : RandomEngine) (big : bool) (ret : list Perturbation) :
  mineperturb ctx setx sety mask rng big = Ret (ret, ctx', rng') ->
  same_shapes ctx ctx' /\ (ret = [] -> ctx' = ctx).
Proof.
  unfold mineperturb. intros H.
  destruct (mask_is_zero mask && negb big).
  { ret_eq H. split; [apply same_shapes_refl | reflexivity]. }
  cbv zeta in H. inv_ret H.
  destruct (zlength _ =? _); inv_ret H; ret_eq H.
  all: match goal with
       | Ha : apply_changes _ _ ?l = Ret _ |- _ =>
           split;
           [ apply apply_changes_shape in Ha; destruct Ha;
             repeat split; assumption
           | intros E; rewrite E in Ha; cbn in Ha; ret_eq Ha;
             destruct ctx; reflexivity ]
       end.
Qed.

Lemma perturb_spec (pb pb' : Perturbator) (rng rng' : RandomEngine)
      (ctx ctx' : GameData) (x y mask : Z) (ret : list Perturbation) :
  perturb pb rng ctx x y mask = Ret (ret, ctx', pb', rng') ->
  m_use_count pb' = m_use_count pb + 1
  /\ m_allow_big_perturbs pb' = m_allow_big_perturbs pb
  /\ mineperturb ctx x y mask rng (m_allow_big_perturbs pb)
     = Ret (ret, ctx', rng').
Proof.
  unfold perturb. cbv zeta. cbn [m_allow_big_perturbs]. intros H.
  inv_ret H. ret_eq H. cbn. auto.
Qed.

Lemma perturb_ss_spec (pb pb' : Perturbator) (rng rng' : RandomEngine)
      (ctx ctx' : GameData) (ss : SetStore) (ret : list Perturbation) :
  perturb_ss pb rng ctx ss = Ret (ret, ctx', pb', rng') ->
  m_use_count pb' = m_use_count pb + 1
  /\ same_shapes ctx ctx' /\ (ret = [] -> ctx' = ctx).
Proof.
  unfold perturb_ss. cbv zeta. intros H.
  destruct (setstore_size ss =? 0).
  - apply perturb_spec in H. destruct H as [Hc [_ H]].
    split; [exact Hc|]. eapply mineperturb_shapes; exact H.
  - destruct (uniform_int 0 (setstore_size ss - 1) rng) as [i rng1].
    inv_ret H.
    apply perturb_spec in H. destruct H as [Hc [_ H]].
    split; [exact Hc|]. eapply mineperturb_shapes; exact H.
Qed.

Lemma perturb_grid_spec (pb pb' : Perturbator) (rng rng' : RandomEngine)
      (thegame game' : GameData) (stodo stodo' : SquareTodo)
      (ss ss' : SetStore) (b : bool) :
  perturb_grid pb rng thegame stodo ss
  = Ret (b, pb', rng', game', stodo', ss') ->
  m_use_count pb' = m_use_count pb + 1
  /\ same_shapes thegame game'
  /\ (b = false -> game' = thegame).
Proof.
  unfold perturb_grid. intros H. inv_ret H.
  match goal with
  | Hp : perturb_ss _ _ _ _ = Ret _ |- _ =>
      apply perturb_ss_spec in Hp; destruct Hp as [Hc [Hs Hnil]]
  end.
  match type of H with
  | match ?l with _ => _ end = _ => destruct l
  end.
  - ret_eq H. auto.
  - inv_ret H. ret_eq H. split; [exact Hc|]. split; [exact Hs|].
    discriminate.
Qed.

(** Along the main loop the use count of the perturbator never goes
    down, the shapes stay, and without a perturbator the mines stay. *)
Lemma solve_loop_spec (fuel : nat) (n : Z) :
  forall (steps : nat) (perturbator perturbator' : option (Perturbator * RandomEngine))
         (thegame game' : GameData) (stodo : SquareTodo) (ss : SetStore),
    solve_loop fuel steps n perturbator thegame stodo ss
    = Ret (game', perturbator') ->
    same_shapes thegame game'
    /\ match perturbator, perturbator' with
       | Some (pb, _), Some (pb', _) => m_use_count pb <= m_use_count pb'
       | None, None => same_frame thegame game'
       | _, _ => False
       end.
Proof.
  induction steps as [|steps IH]; intros perturbator perturbator' thegame
    game' stodo ss H; cbn [solve_loop] in H; [discriminate|].
  destruct (process_newly_known_squares fuel stodo (gd_grid thegame) ss)
    as [ss1| |]; cbn [bind] in H; try discriminate.
  destruct (next_todo ss1) as [[todo ss2]| |]; cbn [bind] in H;
    try discriminate.
  destruct todo as [elem|].
  - destruct (process_next_todo fuel elem thegame [] ss2)
      as [[[g1 st1] ss3]| |] eqn:Hp; cbn [bind] in H; try discriminate.
    apply process_next_todo_frame in Hp.
    apply IH in H. destruct H as [Hs Hm]. split.
    + eapply same_shapes_trans; [apply same_frame_shapes|]; eassumption.
    + destruct perturbator as [[pb rng]|], perturbator' as [[pb' rng']|];
        try assumption.
      eapply same_frame_trans; eassumption.
  - destruct (count_if _ _ =? 0).
    + destruct (assert _); cbn [bind] in H; try discriminate.
      ret_eq H. split; [apply same_shapes_refl|].
      destruct perturbator' as [[pb rng]|]; [lia | apply same_frame_refl].
    + destruct (if 0 <=? n then _ else _) as [[[b g1] st1]| |] eqn:Hg;
        cbn [bind] in H; try discriminate.
      assert (same_frame thegame g1) as Hf.
      { destruct (0 <=? n).
        - apply attempt_global_deduction_frame in Hg. apply Hg.
        - ret_eq Hg. apply same_frame_refl. }
      destruct b.
      * apply IH in H. destruct H as [Hs Hm]. split.
        -- eapply same_shapes_trans; [apply same_frame_shapes|]; eassumption.
        -- destruct perturbator as [[pb rng]|], perturbator' as [[pb' rng']|];
             try assumption.
           eapply same_frame_trans; eassumption.
      * destruct perturbator as [[pb rng]|].
        -- destruct (perturb_grid pb rng g1 st1 ss2)
             as [[[[[[b2 pb2] rng2] g2] st2] ss3]| |] eqn:Hp;
             cbn [bind] in H; try discriminate.
           apply perturb_grid_spec in Hp. destruct Hp as [Hc [Hs _]].
           destruct b2.
           ++ apply IH in H. destruct H as [Hs' Hm]. split.
              ** eapply same_shapes_trans; [apply same_frame_shapes, Hf|].
                 eapply same_shapes_trans; eassumption.
              ** destruct perturbator' as [[pb' rng']|]; [lia | exact Hm].
           ++ ret_eq H. split; [|lia].
              eapply same_shapes_trans; [apply same_frame_shapes, Hf|].
              exact Hs.
        -- ret_eq H. split; [apply same_frame_shapes|]; exact Hf.
Qed.

(** A run that called no perturbation is a run of the solver without
    perturbator. *)
Lemma solve_loop_no_perturbation (fuel : nat) (n : Z) :
  forall (steps : nat) (pb pb' : Perturbator) (rng rng' : RandomEngine)
         (thegame game' : GameData) (stodo : SquareTodo) (ss : SetStore),
    solve_loop fuel steps n (Some (pb, rng)) thegame stodo ss
    = Ret (game', Some (pb', rng')) ->
    m_use_count pb' = m_use_count pb ->
    solve_loop fuel steps n None thegame stodo ss = Ret (game', None).
Proof.
  induction steps as [|steps IH]; intros pb pb' rng rng' thegame game'
    stodo ss H Hc; cbn [solve_loop] in *; [discriminate|].
  destruct (process_newly_known_squares fuel stodo (gd_grid thegame) ss)
    as [ss1| |]; cbn [bind] in *; try discriminate.
  destruct (next_todo ss1) as [[todo ss2]| |]; cbn [bind] in *;
    try discriminate.
  destruct todo as [s|].
  - destruct (process_next_todo fuel s thegame [] ss2) as [[[g1 st1] ss3]| |];
      cbn [bind] in *; try discriminate.
    eapply IH; eassumption.
  - destruct (count_if _ _ =? 0).
    + destruct (assert _); cbn [bind] in *; try discriminate.
      ret_eq H. reflexivity.
    + destruct (if 0 <=? n then _ else _) as [[[b g1] st1]| |];
        cbn [bind] in *; try discriminate.
      destruct b; [eapply IH; eassumption|].
      destruct (perturb_grid pb rng g1 st1 ss2)
        as [[[[[[b2 pb2] rng2] g2] st2] ss3]| |] eqn:Hp;
        cbn [bind] in *; try discriminate.
      apply perturb_grid_spec in Hp. destruct Hp as [Hp _].
      exfalso. destruct b2.
      * apply solve_loop_spec in H. destruct H as [_ H]. lia.
      * ret_eq H. lia.
Qed.

End SolverFrames.

(* ===================================================================== *)
(** * The generator: accepted boards and determinism *)
(* ===================================================================== *)

Lemma grid_set_at {T : Type} (g g' : Grid T) (x y : Z) (v : T) :
  grid_set g x y v = Ret g' -> grid_at g' x y = Ret v.
Proof.
  intros H. pose proof (grid_set_shape _ _ _ _ _ H) as Hs.
  apply grid_set_idx_Ret in H. destruct H as [Hi ->].
  unfold grid_at. cbn [g_width].
  rewrite (grid_at_idx_in _ _ v)
    by (unfold grid_size; cbn [g_data]; rewrite list_update_length; exact Hi).
  cbn [g_data]. rewrite list_update_nth_same; [reflexivity|].
  unfold grid_size in Hi. lia.
Qed.

Lemma grid_fill_new {T : Type} (g : Grid T) (w h : Z) (u v : T) :
  shape g = shape (Grid_new w h u) -> grid_fill g v = Grid_new w h v.
Proof.
  unfold shape, grid_fill, Grid_new. cbn [g_width g_height g_data].
  intros H. inversion H as [[Hw Hh Hl]]. f_equal.
  rewrite repeat_length in Hl. rewrite <- Hl.
  clear. induction (g_data g) as [|a l IH]; simpl; [reflexivity|].
  f_equal. exact IH.
Qed.

Section GeneratorFacts.

Context {R : RNG}.

Lemma solve_no_perturbation (fuel : nat) (pb pb' : Perturbator)
      (rng rng' : RandomEngine) (thegame game' : GameData) (b : bool) :
  solve fuel (Some (pb, rng)) thegame = Ret (b, game', Some (pb', rng')) ->
  m_use_count pb' = m_use_count pb ->
  solve fuel None thegame = Ret (b, game', None)
  /\ gd_mines game' = gd_mines thegame.
Proof.
  unfold solve. cbv zeta. intros H Hc.
  destruct (build_square_todolist (gd_grid thegame)) as [stodo| |];
    cbn [bind] in *; try discriminate.
  destruct (solve_loop fuel fuel _ (Some (pb, rng)) thegame stodo
              SetStore_empty) as [[g1 p1]| |] eqn:Hl;
    cbn [bind] in *; try discriminate.
  ret_eq H.
  pose proof (solve_loop_no_perturbation _ _ _ _ _ _ _ _ _ _ _ Hl Hc) as Hn.
  rewrite Hn. cbn [bind]. split; [reflexivity|].
  apply solve_loop_spec in Hn. destruct Hn as [_ [_ [_ [Hm _]]]]. exact Hm.
Qed.

Lemma solve_shapes (fuel : nat) (perturbator perturbator' : option (Perturbator * RandomEngine))
      (thegame game' : GameData) (b : bool) :
  solve fuel perturbator thegame = Ret (b, game', perturbator') ->
  same_shapes thegame game'.
Proof.
  unfold solve. cbv zeta. intros H.
  destruct (build_square_todolist (gd_grid thegame)) as [stodo| |];
    cbn [bind] in *; try discriminate.
  destruct (solve_loop fuel fuel _ perturbator thegame stodo SetStore_empty)
    as [[g1 p1]| |] eqn:Hl; cbn [bind] in *; try discriminate.
  ret_eq H. apply solve_loop_spec in Hl. apply Hl.
Qed.

(** An accepted board is one on which the last run of the solver, from
    the fresh grid, called no perturbation. *)
Lemma verify_loop_accepts (fuel : nat) (ntries x y : Z) :
  forall (steps : nat) (game : GameData) (nbperturbs : Z)
         (pb pb' : Perturbator) (rng rng' : RandomEngine)
         (own own' : option RandomEngine) (mines : Grid bool),
    verify_loop fuel steps ntries x y game nbperturbs pb rng own
    = Ret (Some mines, pb', rng', own') ->
    exists game1 grid0 game',
      same_shapes game game1
      /\ gd_mines game1 = mines
      /\ grid_set (grid_fill (gd_grid game1) Unknown) x y Mine0 = Ret grid0
      /\ solve fuel None (with_grid game1 grid0) = Ret (true, game', None).
Proof.
  induction steps as [|steps IH];
    intros game nb pb pb' rng rng' own own' mines H;
    cbn [verify_loop] in H; [discriminate|].
  cbv zeta in H.
  destruct (mineLookup _ x y) as [k| |]; cbn [bind] in H; try discriminate.
  destruct (grid_set (grid_fill (gd_grid game) Unknown) x y k)
    as [grid| |] eqn:Hset; cbn [bind] in H; try discriminate.
  rewrite (grid_set_at _ _ _ _ _ Hset) in H. cbn [bind] in H.
  destruct (Z.eqb_spec k Mine0) as [->|]; cbn [assert bind] in H;
    [|discriminate].
  destruct (solve fuel (Some (_, perturbator_engine rng own))
              (with_grid game grid))
    as [[[solved game2] [[pb2 rng2]|]]| |] eqn:Hsolve;
    cbn [bind] in H; try discriminate.
  pose proof (solve_shapes _ _ _ _ _ _ Hsolve) as Hsh.
  assert (same_shapes game game2) as Hsh'.
  { eapply same_shapes_trans; [|exact Hsh].
    destruct game as [gx gy gm gg]. repeat split. cbn.
    rewrite (grid_set_shape _ _ _ _ _ Hset). apply grid_fill_shape. }
  destruct (negb solved || (0 <=? nb) && (nb <=? m_use_count pb2)) eqn:Hrej;
    [discriminate|].
  apply orb_false_iff in Hrej. destruct Hrej as [Hsolved _].
  apply negb_false_iff in Hsolved. subst solved.
  destruct (Z.eqb_spec (m_use_count pb2) 0) as [Hz|_].
  - ret_eq H.
    destruct (solve_no_perturbation _ _ _ _ _ _ _ _ Hsolve) as [Hn Hm];
      [rewrite Hz; destruct own; reflexivity|].
    exists game, grid, game2.
    split; [apply same_shapes_refl|]. split; [symmetry; exact Hm|].
    split; [exact Hset | exact Hn].
  - apply IH in H. destruct H as [game1 [grid0 [game' [Hs H]]]].
    exists game1, grid0, game'. split; [|exact H].
    eapply same_shapes_trans; eassumption.
Qed.

Lemma place_mines_shape (ret ret' : Grid bool) (n x y : Z)
      (rng rng' : RandomEngine) :
  place_mines ret n x y rng = Ret (ret', rng') -> shape ret' = shape ret.
Proof.
  unfold place_mines. cbv zeta. intros H.
  destruct (shuffle Z _ rng) as [minespos rng1].
  inv_ret H. ret_eq H.
  match goal with
  | Hr : for_each _ _ _ = Ret _ |- _ =>
      apply (for_each_invariant (fun g => shape g = shape ret)) in Hr;
        [exact Hr | | apply grid_fill_shape]
  end.
  intros i g1 g2 _ Hi Hb. rewrite <- Hi. eapply grid_set_idx_shape, Hb.
Qed.

Lemma minegen_loop_accepts (fuel : nat) (n x y : Z) :
  forall (steps : nat) (ret board : Grid bool) (ntries : Z)
         (pb pb' : Perturbator) (rng rng' : RandomEngine)
         (own own' : option RandomEngine),
    minegen_loop fuel steps ret n x y true ntries pb rng own
    = Ret (board, pb', rng', own') ->
    exists grid0 game',
      grid_set (Grid_new (g_width board) (g_height board) Unknown) x y Mine0
      = Ret grid0
      /\ solve fuel None (mkGameData x y board grid0)
         = Ret (true, game', None).
Proof.
  induction steps as [|steps IH];
    intros ret board ntries pb pb' rng rng' own own' H;
    cbn [minegen_loop] in H; [discriminate|].
  cbv zeta in H.
  destruct (place_mines ret n x y rng) as [[ret1 rng1]| |] eqn:Hp;
    cbn [bind] in H; try discriminate.
  destruct (verify_loop fuel fuel (ntries + 1) x y _ (-1) pb rng1 own)
    as [[[[[mines|] pb2] rng2] own2]| |] eqn:Hv; cbn [bind] in H;
    try discriminate.
  - ret_eq H. apply verify_loop_accepts in Hv.
    destruct Hv as [game1 [grid0 [game' [Hs [Hm [Hset Hsolve]]]]]].
    destruct Hs as [Hx [Hy [Hsm Hsg]]]. cbn in Hx, Hy, Hsm, Hsg.
    assert (g_width board = g_width ret1 /\ g_height board = g_height ret1)
      as [Hw Hh].
    { rewrite <- Hm. unfold shape in Hsm. inversion Hsm. auto. }
    rewrite (grid_fill_new _ (g_width ret1) (g_height ret1) Unknown Unknown)
      in Hset by exact Hsg.
    exists grid0, game'. rewrite Hw, Hh. split; [exact Hset|].
    destruct game1 as [gx gy gm gg]. cbn in *. subst. exact Hsolve.
  - eapply IH; exact H.
Qed.

(** C2. A board that [generate] returns with [unique] set is solved by the
    solver without perturbator, run with the same fuel on the game whose
    grid is all [Unknown] except [Revealed(0)] at the start square: [solve]
    returns [true]. *)
Theorem generate_unique_solvable (fuel : nat) (entropy : Z) (gen gen' : Generator)
        (params : GameParams) (board : Grid bool) :
  p_unique params = true ->
  generate fuel entropy gen params = Ret (board, gen') ->
  exists grid0 game',
    grid_set (Grid_new (g_width board) (g_height board) Unknown)
      (p_sx params) (p_sy params) Mine0 = Ret grid0
    /\ solve fuel None (mkGameData (p_sx params) (p_sy params) board grid0)
       = Ret (true, game', None).
Proof.
  intros Hu H. unfold generate, minegen in H. cbv zeta in H.
  rewrite Hu in H.
  destruct (minegen_loop _ _ _ _ _ _ _ _ _ _ _)
    as [[[[b pb] rng] own]| |] eqn:Hm;
    cbn [bind] in H; try discriminate.
  ret_eq H. eapply minegen_loop_accepts; exact Hm.
Qed.






End GeneratorFacts.

Lemma test_generate :
  @generate test_rng 60 0 test_generator test_params
  = Ret (test_board, test_generator1).
Proof. vm_compute. reflexivity. Qed.

Lemma generate_unique_solvable_witness :
  exists grid0 game',
    grid_set (Grid_new 5 5 Unknown) 0 0 Mine0 = Ret grid0
    /\ @solve test_rng 60 None (mkGameData 0 0 test_board grid0)
       = Ret (true, game', None).
Proof.
  exact (@generate_unique_solvable test_rng 60 0 test_generator
           test_generator1 test_params test_board eq_refl test_generate).
Defined.



(* ===================================================================== *)
(** * Cells and indices *)
(* ===================================================================== *)

Lemma contains_bounds {T : Type} (g : Grid T) (x y : Z) :
  grid_contains g x y = true <->
  0 <= x < g_width g /\ 0 <= y < g_height g.
Proof.
  unfold grid_contains. rewrite !andb_true_iff, !Z.leb_le, !Z.ltb_lt. lia.
Qed.

Lemma idx_in_grid {T : Type} (g : Grid T) (x y : Z) :
  grid_wf g -> grid_contains g x y = true ->
  0 <= y * g_width g + x < grid_size g.
Proof.
  intros [Hw [Hh Hs]] Hc. apply contains_bounds in Hc. rewrite Hs. nia.
Qed.

Lemma idx_inj (w x y x' y' : Z) :
  0 <= x < w -> 0 <= x' < w -> y * w + x = y' * w + x' -> x = x' /\ y = y'.
Proof. intros Hx Hx' H. assert (y = y') by nia. subst. lia. Qed.

Lemma idx2pt_in {T : Type} (g : Grid T) (i : Z) :
  grid_wf g -> 0 <= i < grid_size g ->
  grid_contains g (fst (idx2pt g i)) (snd (idx2pt g i)) = true
  /\ snd (idx2pt g i) * g_width g + fst (idx2pt g i) = i.
Proof.
  intros [Hw [Hh Hs]] Hi. unfold idx2pt. cbn [fst snd].
  rewrite Z.rem_mod_nonneg, Z.quot_div_nonneg by lia.
  pose proof (Z.mod_pos_bound i (g_width g) Hw).
  pose proof (Z.div_mod i (g_width g) ltac:(lia)).
  assert (0 <= i / g_width g) by (apply Z.div_pos; lia).
  assert (i / g_width g < g_height g)
    by (apply Z.div_lt_upper_bound; lia).
  split; [apply contains_bounds|]; lia.
Qed.

Lemma idx2pt_pt2idx {T : Type} (g : Grid T) (x y : Z) :
  grid_wf g -> grid_contains g x y = true ->
  idx2pt g (y * g_width g + x) = (x, y).
Proof.
  intros Hwf Hc. pose proof (idx_in_grid g x y Hwf Hc) as Hi.
  destruct (idx2pt_in g _ Hwf Hi) as [Hc' He].
  apply contains_bounds in Hc, Hc'.
  destruct (idx2pt g (y * g_width g + x)) as [a b]. cbn [fst snd] in *.
  destruct (idx_inj (g_width g) a b x y) as [-> ->]; [lia | lia | lia|].
  reflexivity.
Qed.

Lemma in_grid_indices {T : Type} (g : Grid T) (i : Z) :
  In i (grid_indices g) <-> 0 <= i < grid_size g.
Proof. unfold grid_indices, grid_size. apply in_zrange. Qed.

Lemma grid_at_cell (grid : Grid Z) (x y : Z) :
  grid_wf grid -> grid_contains grid x y = true ->
  grid_at grid x y = Ret (cell grid x y).
Proof.
  intros Hwf Hc. unfold grid_at, cell.
  apply grid_at_idx_in, idx_in_grid; assumption.
Qed.

Lemma grid_at_mine (mines : Grid bool) (x y : Z) :
  grid_wf mines -> grid_contains mines x y = true ->
  grid_at mines x y = Ret (mine_at mines x y).
Proof.
  intros Hwf Hc. unfold grid_at, mine_at. rewrite Hc. cbn [andb].
  apply grid_at_idx_in, idx_in_grid; assumption.
Qed.

Lemma mine_at_outside (mines : Grid bool) (x y : Z) :
  grid_contains mines x y = false -> mine_at mines x y = false.
Proof. unfold mine_at. intros ->. reflexivity. Qed.

Lemma grid_wf_shape {T U : Type} (g : Grid T) (g' : Grid U) :
  shape g' = shape g -> grid_wf g -> grid_wf g'.
Proof.
  unfold shape, grid_wf, grid_size. intros H. inversion H as [[Hw Hh Hl]].
  rewrite Hw, Hh, Hl. tauto.
Qed.

(** The cells of a grid after [set(x, y, v)]. *)
Lemma grid_set_cell (grid grid' : Grid Z) (x y v a b : Z) :
  grid_wf grid -> grid_contains grid x y = true ->
  grid_set grid x y v = Ret grid' ->
  grid_contains grid a b = true ->
  cell grid' a b = if (a =? x) && (b =? y) then v else cell grid a b.
Proof.
  intros Hwf Hc Hset Hab.
  pose proof (idx_in_grid grid x y Hwf Hc) as Hi.
  pose proof (idx_in_grid grid a b Hwf Hab) as Hj.
  apply grid_set_idx_Ret in Hset. destruct Hset as [_ ->].
  unfold cell. cbn [g_width g_data].
  apply contains_bounds in Hc, Hab. unfold grid_size in Hi.
  destruct (Z.eqb_spec a x) as [->|Hne];
    [destruct (Z.eqb_spec b y) as [->|Hne]|]; cbn [andb].
  - apply list_update_nth_same. lia.
  - apply list_update_nth_other. intros E.
    apply Z2Nat.inj in E; try lia.
    destruct (idx_inj (g_width grid) x y x b); lia.
  - apply list_update_nth_other. intros E.
    apply Z2Nat.inj in E; try lia.
    destruct (idx_inj (g_width grid) x y a b); lia.
Qed.

Lemma grid_set_mine (mines mines' : Grid bool) (x y a b : Z) (v : bool) :
  grid_wf mines -> grid_contains mines x y = true ->
  grid_set mines x y v = Ret mines' ->
  mine_at mines' a b
  = if (a =? x) && (b =? y) then v else mine_at mines a b.
Proof.
  intros Hwf Hc Hset.
  pose proof (grid_set_shape _ _ _ _ _ Hset) as Hsh.
  unfold mine_at. rewrite (shape_contains mines mines' a b Hsh).
  destruct (grid_contains mines a b) eqn:Hab; cbn [andb].
  - pose proof (idx_in_grid mines x y Hwf Hc) as Hi.
    pose proof (idx_in_grid mines a b Hwf Hab) as Hj.
    apply grid_set_idx_Ret in Hset. destruct Hset as [_ ->].
    cbn [g_width g_data].
    apply contains_bounds in Hc, Hab. unfold grid_size in Hi.
    destruct (Z.eqb_spec a x) as [->|Hne];
      [destruct (Z.eqb_spec b y) as [->|Hne]|]; cbn [andb].
    + apply list_update_nth_same. lia.
    + apply list_update_nth_other. intros E.
      apply Z2Nat.inj in E; try lia.
      destruct (idx_inj (g_width mines) x y x b); lia.
    + apply list_update_nth_other. intros E.
      apply Z2Nat.inj in E; try lia.
      destruct (idx_inj (g_width mines) x y a b); lia.
  - destruct (Z.eqb_spec a x) as [->|]; [|reflexivity].
    destruct (Z.eqb_spec b y) as [->|]; [congruence | reflexivity].
Qed.

(* ===================================================================== *)
(** * Game::mineLookup *)
(* ===================================================================== *)

(** A loop that counts the mines among a list of cells. *)
Lemma count_loop (mines : Grid bool) (skip : Z * Z -> bool)
      (l : list (Z * Z)) :
  grid_wf mines ->
  (forall c, In c l -> skip c = false ->
             grid_contains mines (fst c) (snd c) = true) ->
  forall n,
    for_each l (fun c n =>
      if skip c then Ret n
      else m <- grid_at mines (fst c) (snd c) ;;
           Ret (if (m : bool) then n + 1 else n)) n
    = Ret (n + fold_right Z.add 0
                 (map (fun c => if skip c then 0
                                else Z.b2z (mine_at mines (fst c) (snd c))) l)).
Proof.
  intros Hwf. induction l as [|c l IH]; intros Hin n; cbn [for_each map fold_right].
  - rewrite Z.add_0_r. reflexivity.
  - destruct (skip c) eqn:Hs; cbn [bind].
    + rewrite IH by (intros; apply Hin; simpl; auto). f_equal; lia.
    + rewrite grid_at_mine by (auto; apply Hin; simpl; auto). cbn [bind].
      rewrite IH by (intros; apply Hin; simpl; auto).
      destruct (mine_at mines (fst c) (snd c)); cbn [Z.b2z]; f_equal; lia.
Qed.

Lemma mineLookup_spec (game : GameData) (x y : Z) :
  grid_wf (gd_mines game) ->
  grid_contains (gd_mines game) x y = true ->
  mineLookup game x y
  = Ret (if mine_at (gd_mines game) x y then -1
         else neighbor_mines (gd_mines game) x y).
Proof.
  intros Hwf Hc. unfold mineLookup.
  rewrite grid_at_mine by assumption. cbn [bind].
  destruct (mine_at (gd_mines game) x y); [reflexivity|].
  rewrite (for_each_nested deltas deltas
             (fun i j n =>
                if negb (grid_contains (gd_mines game) (x + i) (y + j))
                   || ((i =? 0) && (j =? 0))
                then Ret n
                else m <- grid_at (gd_mines game) (x + i) (y + j) ;;
                     Ret (if (m : bool) then n + 1 else n)) 0).
  set (skip := fun c : Z * Z =>
                 negb (grid_contains (gd_mines game) (fst c) (snd c))
                 || ((fst c =? x) && (snd c =? y))).
  set (cells := map (fun d : Z * Z => (x + fst d, y + snd d))
                    (flat_map (fun a => map (fun b => (a, b)) deltas) deltas)).
  transitivity
    (for_each cells (fun c n =>
       if skip c then Ret n
       else m <- grid_at (gd_mines game) (fst c) (snd c) ;;
            Ret (if (m : bool) then n + 1 else n)) 0).
  { unfold cells, skip, deltas.
    cbn [flat_map map app for_each fst snd].
    repeat match goal with
           | |- context [?a + ?d =? ?a] =>
               match d with
               | 0 => replace (a + d =? a) with true
                   by (symmetry; apply Z.eqb_eq; lia)
               | _ => replace (a + d =? a) with false
                   by (symmetry; apply Z.eqb_neq; lia)
               end
           end.
    reflexivity. }
  rewrite count_loop.
  - f_equal. unfold cells, skip, neighbor_mines, neighbor_offsets, deltas.
    cbn [flat_map map app fold_right fst snd].
    repeat match goal with
           | |- context [?a + ?d =? ?a] =>
               match d with
               | 0 => replace (a + d =? a) with true
                   by (symmetry; apply Z.eqb_eq; lia)
               | _ => replace (a + d =? a) with false
                   by (symmetry; apply Z.eqb_neq; lia)
               end
           end.
    cbn [andb orb].
    rewrite !orb_false_r.
    repeat match goal with
           | |- context [if negb (grid_contains ?g ?a ?b) then 0 else ?t] =>
               replace (if negb (grid_contains g a b) then 0 else t) with t
                 by (destruct (grid_contains g a b) eqn:E; cbn [negb];
                     [reflexivity | rewrite (mine_at_outside _ _ _ E);
                                    reflexivity])
           end.
    rewrite !orb_true_r. lia.
  - exact Hwf.
  - intros c _ Hs. unfold skip in Hs. apply orb_false_iff in Hs.
    destruct Hs as [Hs _]. apply negb_false_iff in Hs. exact Hs.
Qed.

(* ===================================================================== *)
(** * Marking squares keeps the invariant of the game *)
(* ===================================================================== *)

Lemma neighbor_mines_nonneg (mines : Grid bool) (x y : Z) :
  0 <= neighbor_mines mines x y.
Proof.
  unfold neighbor_mines.
  induction neighbor_offsets as [|d l IH]; cbn [map fold_right]; [lia|].
  destruct (mine_at mines (x + fst d) (y + snd d)); cbn [Z.b2z]; lia.
Qed.

Lemma game_wf_contains (game : GameData) (x y : Z) :
  game_wf game ->
  grid_contains (gd_mines game) x y = grid_contains (gd_grid game) x y.
Proof.
  intros [_ [_ [Hw Hh]]]. unfold grid_contains. rewrite Hw, Hh. reflexivity.
Qed.

Lemma game_wf_frame (game game' : GameData) :
  same_shapes game game' -> game_wf game -> game_wf game'.
Proof.
  intros [_ [_ [Hm Hg]]] [W1 [W2 [Hw Hh]]].
  split; [eapply grid_wf_shape; eassumption|].
  split; [eapply grid_wf_shape; eassumption|].
  unfold shape in Hm, Hg. inversion Hm. inversion Hg. split; congruence.
Qed.

(** Writing into one cell a value that suits it. *)
Lemma set_cell_inv (safe : bool) (game : GameData) (grid' : Grid Z)
      (x y k : Z) :
  game_inv safe game ->
  grid_contains (gd_grid game) x y = true ->
  grid_set (gd_grid game) x y k = Ret grid' ->
  cell_ok safe (gd_mines game) x y k -> Unknown <= k ->
  game_inv safe (with_grid game grid').
Proof.
  intros [Hwf [Hok Hval]] Hc Hset Hk Hk2.
  pose proof (grid_set_shape _ _ _ _ _ Hset) as Hsh.
  assert (game_wf (with_grid game grid')) as Hwf'.
  { eapply game_wf_frame; [|exact Hwf].
    apply same_frame_shapes, same_frame_with_grid, Hsh. }
  destruct Hwf as [W1 [W2 W3]].
  split; [exact Hwf'|]. split.
  - intros a b Hab. cbn [gd_grid gd_mines with_grid] in *.
    rewrite (shape_contains _ _ a b Hsh) in Hab.
    rewrite (grid_set_cell _ _ _ _ _ a b W2 Hc Hset Hab).
    destruct (Z.eqb_spec a x) as [->|]; [destruct (Z.eqb_spec b y) as [->|]|];
      cbn [andb]; auto.
  - intros a b Hab. cbn [gd_grid with_grid] in *.
    rewrite (shape_contains _ _ a b Hsh) in Hab.
    rewrite (grid_set_cell _ _ _ _ _ a b W2 Hc Hset Hab).
    destruct ((a =? x) && (b =? y)); auto.
Qed.

Lemma mark_known_squares_inv (safe : bool) (thegame game' : GameData)
      (std std' : SquareTodo) (x y mask : Z) (mine : bool) :
  game_inv safe thegame ->
  (forall px py, In (px, py) (squares (mkSquareSet x y mask)) ->
                 grid_contains (gd_grid thegame) px py = true) ->
  mark_known_squares thegame std x y mask mine = Ret (game', std') ->
  game_inv safe game'.
Proof.
  unfold mark_known_squares. intros Hinv Hin H.
  apply (for_each_invariant
           (fun st => game_inv safe (fst st)
                      /\ shape (gd_grid (fst st)) = shape (gd_grid thegame)))
    in H; [apply H | | split; [exact Hinv | reflexivity]].
  intros [xx yy] [game s] [game1 s1] Hsq [Hi Hsh] Hb. cbn [fst] in *.
  specialize (Hin xx yy Hsq).
  rewrite <- (shape_contains _ _ xx yy Hsh) in Hin.
  inv_ret Hb.
  destruct (negb (_ =? Unknown)); [ret_eq Hb; auto|].
  inv_ret Hb. ret_eq Hb.
  assert (exists k, grid_set (gd_grid game) xx yy k = Ret a0
                    /\ cell_ok safe (gd_mines game) xx yy k /\ Unknown <= k)
    as [k [Hset [Hk Hk2]]].
  { destruct mine.
    - exists MarkedAsMine. split; [assumption|].
      split; [intros F; unfold MarkedAsMine in F; lia
             | unfold Unknown, MarkedAsMine; lia].
    - match goal with Hm : bind _ _ = Ret _ |- _ => inv_ret Hm end.
      rewrite mineLookup_spec in Hr1.
      + ret_eq Hr1. eexists. split; [eassumption|].
        pose proof (neighbor_mines_nonneg (gd_mines game) xx yy).
        destruct (mine_at (gd_mines game) xx yy) eqn:E.
        * split; [intros F; lia | unfold Unknown; lia].
        * split; [intros _; auto | unfold Unknown; lia].
      + apply Hi.
      + rewrite game_wf_contains by apply Hi. exact Hin. }
  split.
  - eapply set_cell_inv; eassumption.
  - cbn [gd_grid with_grid]. rewrite <- Hsh.
    eapply grid_set_shape; eassumption.
Qed.

(* ===================================================================== *)
(** * One perturbation: the mines *)
(* ===================================================================== *)

Lemma count_if_update (l : list bool) (i : nat) (v : bool) :
  (i < length l)%nat ->
  count_if (fun m : bool => m) (list_update l i v)
  = count_if (fun m : bool => m) l - Z.b2z (nth i l false) + Z.b2z v.
Proof.
  unfold count_if. revert i. induction l as [|a l IH]; intros [|i] H;
    simpl in H; try lia.
  - cbn [list_update nth filter]. destruct a, v; cbn [length Z.b2z]; lia.
  - cbn [list_update nth filter]. specialize (IH i ltac:(lia)).
    destruct a; cbn [length]; lia.
Qed.

(** The neighbour count of [(cx, cy)] after the square [(x0, y0)] has
    changed from [negb v] to [v]. *)
Lemma flip_neighbor_mines (mines mines' : Grid bool) (x0 y0 cx cy : Z)
      (v : bool) :
  grid_wf mines -> grid_contains mines x0 y0 = true ->
  mine_at mines x0 y0 = negb v ->
  grid_set mines x0 y0 v = Ret mines' ->
  neighbor_mines mines' cx cy
  = neighbor_mines mines cx cy
    + (if (Z.abs (x0 - cx) <=? 1) && (Z.abs (y0 - cy) <=? 1)
          && negb ((x0 =? cx) && (y0 =? cy))
       then (if v then 1 else -1) else 0).
Proof.
  intros Hwf Hc Hold Hset.
  unfold neighbor_mines, neighbor_offsets. cbn [map fold_right fst snd].
  rewrite !(grid_set_mine _ _ _ _ _ _ _ Hwf Hc Hset).
  destruct (Z.eqb_spec (cx + -1) x0) as [E1|E1];
    destruct (Z.eqb_spec (cx + 0) x0) as [E2|E2];
    destruct (Z.eqb_spec (cx + 1) x0) as [E3|E3]; try lia;
    destruct (Z.eqb_spec (cy + -1) y0) as [F1|F1];
    destruct (Z.eqb_spec (cy + 0) y0) as [F2|F2];
    destruct (Z.eqb_spec (cy + 1) y0) as [F3|F3]; try lia;
    cbn [andb];
    try (rewrite <- ?E1, <- ?E2, <- ?E3, <- ?F1, <- ?F2, <- ?F3 in Hold;
         rewrite ?Hold);
    destruct (Z.leb_spec (Z.abs (x0 - cx)) 1);
    destruct (Z.leb_spec (Z.abs (y0 - cy)) 1);
    destruct (Z.eqb_spec x0 cx); destruct (Z.eqb_spec y0 cy);
    try lia; cbn [andb negb]; destruct v; cbn [negb Z.b2z]; lia.
Qed.

Lemma flip_mine_count (mines mines' : Grid bool) (x0 y0 : Z) (v : bool) :
  grid_wf mines -> grid_contains mines x0 y0 = true ->
  mine_at mines x0 y0 = negb v ->
  grid_set mines x0 y0 v = Ret mines' ->
  mine_count mines' = mine_count mines + (if v then 1 else -1).
Proof.
  intros Hwf Hc Hold Hset.
  pose proof (idx_in_grid mines x0 y0 Hwf Hc) as Hi.
  unfold mine_at in Hold. rewrite Hc in Hold. cbn [andb] in Hold.
  apply grid_set_idx_Ret in Hset. destruct Hset as [_ ->].
  unfold mine_count. cbn [g_data].
  rewrite count_if_update by (unfold grid_size in Hi; lia).
  rewrite Hold. destruct v; cbn [negb Z.b2z]; lia.
Qed.

(* ===================================================================== *)
(** * One perturbation: the grid *)
(* ===================================================================== *)

Lemma In_all9 (u v : Z) : In (u, v) all9 <-> -1 <= u <= 1 /\ -1 <= v <= 1.
Proof.
  unfold all9, deltas. cbn [flat_map map app In].
  rewrite !pair_equal_spec. lia.
Qed.

Lemma NoDup_all9 : NoDup all9.
Proof.
  unfold all9, deltas. cbn [flat_map map app].
  repeat constructor; cbn [In]; rewrite ?pair_equal_spec; lia.
Qed.

Lemma recount_spec (grid : Grid Z) (mines : Grid bool) (x y : Z) :
  grid_wf mines ->
  (forall a b, grid_contains grid a b = grid_contains mines a b) ->
  recount grid mines x y
  = Ret (neighbor_mines mines x y + Z.b2z (mine_at mines x y)).
Proof.
  intros Hwf Hdim. unfold recount.
  rewrite (for_each_nested deltas deltas
             (fun dy2 dx2 minecount =>
                if grid_contains grid (x + dx2) (y + dy2)
                then m <- grid_at mines (x + dx2) (y + dy2) ;;
                     Ret (if (m : bool) then minecount + 1 else minecount)
                else Ret minecount) 0).
  set (skip := fun c : Z * Z => negb (grid_contains grid (fst c) (snd c))).
  set (cells := map (fun d : Z * Z => (x + snd d, y + fst d)) all9).
  transitivity
    (for_each cells (fun c n =>
       if skip c then Ret n
       else m <- grid_at mines (fst c) (snd c) ;;
            Ret (if (m : bool) then n + 1 else n)) 0).
  { unfold cells. rewrite for_each_map. apply for_each_ext.
    intros [dy2 dx2] n. unfold skip. cbn [fst snd].
    destruct (grid_contains grid (x + dx2) (y + dy2)); reflexivity. }
  rewrite count_loop.
  - f_equal. unfold cells, skip, neighbor_mines, neighbor_offsets, all9, deltas.
    cbn [flat_map map app fold_right fst snd].
    repeat match goal with
           | |- context [if negb (grid_contains ?g ?a ?b) then 0 else ?t] =>
               replace (if negb (grid_contains g a b) then 0 else t) with t
                 by (destruct (grid_contains g a b) eqn:E; cbn [negb];
                     [reflexivity
                     | rewrite Hdim in E; rewrite (mine_at_outside _ _ _ E);
                       reflexivity])
           end.
    rewrite !Z.add_0_r. lia.
  - exact Hwf.
  - intros c _ Hs. unfold skip in Hs. apply negb_false_iff in Hs.
    rewrite <- Hdim. exact Hs.
Qed.

(** The grid after [change_cell]: the visited cell holds its new value,
    the other cells are as before. *)
Lemma change_cell_spec (x y delta : Z) (mines : Grid bool) (dy dx : Z)
      (grid grid1 : Grid Z) :
  grid_wf grid -> grid_wf mines ->
  (forall a b, grid_contains grid a b = grid_contains mines a b) ->
  grid_contains grid (x + dx) (y + dy) = true ->
  change_cell x y delta mines dy dx grid = Ret grid1 ->
  shape grid1 = shape grid
  /\ forall a b, grid_contains grid a b = true ->
       cell grid1 a b
       = if (a =? x + dx) && (b =? y + dy)
         then new_value x y delta mines dy dx (cell grid (x + dx) (y + dy))
         else cell grid a b.
Proof.
  intros Hwf Hwm Hdim Hc H. unfold change_cell in H. rewrite Hc in H.
  rewrite (grid_at_cell _ _ _ Hwf Hc) in H. cbn [bind] in H.
  unfold new_value.
  set (v := cell grid (x + dx) (y + dy)) in *.
  assert (forall k, grid_set grid (x + dx) (y + dy) k = Ret grid1 ->
            shape grid1 = shape grid
            /\ forall a b, grid_contains grid a b = true ->
                 cell grid1 a b
                 = if (a =? x + dx) && (b =? y + dy) then k
                   else cell grid a b) as Hset.
  { intros k Hk. split; [eapply grid_set_shape; exact Hk|].
    intros a b Hab. eapply grid_set_cell; eassumption. }
  assert (Ret grid = Ret grid1 ->
          forall k, k = v ->
            shape grid1 = shape grid
            /\ forall a b, grid_contains grid a b = true ->
                 cell grid1 a b
                 = if (a =? x + dx) && (b =? y + dy) then k
                   else cell grid a b) as Hsame.
  { intros E k ->. ret_eq E. split; [reflexivity|]. intros a b _.
    destruct (Z.eqb_spec a (x + dx)) as [->|]; [|reflexivity].
    destruct (Z.eqb_spec b (y + dy)) as [->|]; reflexivity. }
  destruct (v =? Unknown); cbn [negb] in H; [apply Hsame; auto|].
  destruct (Z.eqb_spec dx 0) as [->|]; [destruct (Z.eqb_spec dy 0) as [->|]|];
    cbn [andb] in *.
  - rewrite !Z.add_0_r in *.
    destruct (delta =? ChangedToMine); [apply Hset, H|].
    rewrite (recount_spec _ _ _ _ Hwm Hdim) in H. cbn [bind] in H.
    apply Hset, H.
  - destruct (Mine0 <=? v); [apply Hset, H | apply Hsame; auto].
  - destruct (Mine0 <=? v); [apply Hset, H | apply Hsame; auto].
Qed.

(** The new value suits the cell, for the new mines. *)
Lemma new_value_ok (safe : bool) (mines mines' : Grid bool)
      (x y delta dy dx v : Z) :
  grid_wf mines -> grid_contains mines x y = true ->
  delta = 1 \/ delta = -1 ->
  mine_at mines x y = negb (delta =? ChangedToMine) ->
  grid_set mines x y (delta =? ChangedToMine) = Ret mines' ->
  -1 <= dy <= 1 -> -1 <= dx <= 1 ->
  cell_ok safe mines (x + dx) (y + dy) v -> Unknown <= v ->
  cell_ok safe mines' (x + dx) (y + dy)
    (new_value x y delta mines' dy dx v)
  /\ Unknown <= new_value x y delta mines' dy dx v.
Proof.
  intros Hwf Hc Hd Hold Hset Hdy Hdx Hok Hv.
  pose proof (flip_neighbor_mines _ _ _ _ (x + dx) (y + dy) _ Hwf Hc Hold Hset)
    as Hnm.
  pose proof (grid_set_mine _ _ _ _ (x + dx) (y + dy) _ Hwf Hc Hset) as Hm.
  pose proof (grid_set_mine _ _ _ _ x y _ Hwf Hc Hset) as Hm0.
  rewrite !Z.eqb_refl in Hm0. cbn [andb] in Hm0.
  unfold new_value, cell_ok in *.
  unfold ChangedToMine, MarkedAsMine, Mine0, Unknown in *.
  destruct (Z.eqb_spec v (-2)); [split; [intros; lia | lia]|].
  destruct (Z.eqb_spec dx 0) as [->|Hdx0];
    [destruct (Z.eqb_spec dy 0) as [->|Hdy0]|]; cbn [andb] in *.
  - rewrite !Z.add_0_r in *.
    destruct (Z.eqb_spec delta 1) as [->|].
    + split; [intros; lia | lia].
    + rewrite Hm0. cbn [Z.b2z].
      pose proof (neighbor_mines_nonneg mines' x y).
      split; [intros _; split; [reflexivity | lia] | lia].
  - destruct (Z.leb_spec 0 v); [|split; [intros; lia | lia]].
    destruct (Hok ltac:(lia)) as [Hs Hcnt].
    split; [|lia]. intros _. split.
    + intros E. rewrite Hm.
      destruct (Z.eqb_spec (x + 0) x); destruct (Z.eqb_spec (y + dy) y);
        try lia; cbn [andb]; auto.
    + rewrite Hnm, <- Hcnt.
      destruct (Z.leb_spec (Z.abs (x - (x + 0))) 1);
        destruct (Z.leb_spec (Z.abs (y - (y + dy))) 1);
        destruct (Z.eqb_spec x (x + 0)); destruct (Z.eqb_spec y (y + dy));
        try lia; cbn [andb negb].
      destruct Hd as [-> | ->]; cbn [Z.eqb Pos.eqb]; lia.
  - destruct (Z.leb_spec 0 v); [|split; [intros; lia | lia]].
    destruct (Hok ltac:(lia)) as [Hs Hcnt].
    split; [|lia]. intros _. split.
    + intros E. rewrite Hm.
      destruct (Z.eqb_spec (x + dx) x); try lia; cbn [andb]; auto.
    + rewrite Hnm, <- Hcnt.
      destruct (Z.leb_spec (Z.abs (x - (x + dx))) 1);
        destruct (Z.leb_spec (Z.abs (y - (y + dy))) 1);
        destruct (Z.eqb_spec x (x + dx)); try lia; cbn [andb negb].
      destruct Hd as [-> | ->]; cbn [Z.eqb Pos.eqb]; lia.
Qed.

(** A cell away from the changed square is not affected by the change. *)
Lemma cell_ok_far (safe : bool) (mines mines' : Grid bool)
      (x y a b v : Z) (nv : bool) :
  grid_wf mines -> grid_contains mines x y = true ->
  mine_at mines x y = negb nv ->
  grid_set mines x y nv = Ret mines' ->
  ~ (-1 <= b - y <= 1 /\ -1 <= a - x <= 1) ->
  cell_ok safe mines a b v -> cell_ok safe mines' a b v.
Proof.
  intros Hwf Hc Hold Hset Hfar Hok Hv.
  destruct (Hok Hv) as [Hs Hcnt].
  rewrite (flip_neighbor_mines _ _ _ _ a b _ Hwf Hc Hold Hset).
  rewrite (grid_set_mine _ _ _ _ a b _ Hwf Hc Hset).
  destruct (Z.eqb_spec a x); destruct (Z.eqb_spec b y); try lia;
    cbn [andb];
    destruct (Z.leb_spec (Z.abs (x - a)) 1);
    destruct (Z.leb_spec (Z.abs (y - b)) 1);
    destruct (Z.eqb_spec x a); destruct (Z.eqb_spec y b);
    try lia; cbn [andb negb]; (split; [exact Hs | lia]).
Qed.

(** The two loops around a changed square re-establish invariant 3. *)
Lemma change_loop_ok (safe : bool) (grid0 grid' : Grid Z)
      (mines mines' : Grid bool) (x y delta : Z) :
  grid_wf grid0 -> grid_wf mines ->
  (forall a b, grid_contains grid0 a b = grid_contains mines a b) ->
  grid_contains mines x y = true ->
  delta = 1 \/ delta = -1 ->
  mine_at mines x y = negb (delta =? ChangedToMine) ->
  grid_set mines x y (delta =? ChangedToMine) = Ret mines' ->
  (forall a b, grid_contains grid0 a b = true ->
               cell_ok safe mines a b (cell grid0 a b)
               /\ Unknown <= cell grid0 a b) ->
  for_each all9 (fun '(dy, dx) g => change_cell x y delta mines' dy dx g) grid0
  = Ret grid' ->
  shape grid' = shape grid0
  /\ forall a b, grid_contains grid0 a b = true ->
                 cell_ok safe mines' a b (cell grid' a b)
                 /\ Unknown <= cell grid' a b.
Proof.
  intros Hwf Hwm Hdim Hc Hd Hold Hset Hok H.
  pose proof (grid_set_shape _ _ _ _ _ Hset) as Hshm.
  assert (grid_wf mines') as Hwm' by (eapply grid_wf_shape; eassumption).
  apply (for_each_remaining
           (fun rest g =>
              NoDup rest /\ (forall q, In q rest -> In q all9)
              /\ shape g = shape grid0
              /\ forall a b, grid_contains grid0 a b = true ->
                   (In (b - y, a - x) rest -> cell g a b = cell grid0 a b)
                   /\ (~ In (b - y, a - x) rest ->
                       cell_ok safe mines' a b (cell g a b)
                       /\ Unknown <= cell g a b))) in H.
  - destruct H as [_ [_ [Hsh Hall]]]. split; [exact Hsh|].
    intros a b Hab. apply (Hall a b Hab). intros [].
  - clear H grid'. intros [dy dx] rest g g1 [Hnd [Hsub [Hsh Hall]]] Hb.
    inversion Hnd as [|? ? Hnotin Hnd']; subst.
    assert (In (dy, dx) all9) as Hin9 by (apply Hsub; left; reflexivity).
    apply In_all9 in Hin9.
    assert (grid_wf g) as Hwg by (eapply grid_wf_shape; eassumption).
    assert (forall a b, grid_contains g a b = grid_contains mines' a b)
      as Hdim'.
    { intros a b. rewrite (shape_contains _ _ a b Hsh), Hdim.
      symmetry. apply shape_contains, Hshm. }
    destruct (grid_contains g (x + dx) (y + dy)) eqn:Hcg.
    + destruct (change_cell_spec _ _ _ _ _ _ _ _ Hwg Hwm' Hdim' Hcg Hb)
        as [Hsh1 Hcells].
      split; [exact Hnd'|]. split; [intros q Hq; apply Hsub; right; exact Hq|].
      split; [congruence|].
      intros a b Hab.
      assert (grid_contains g a b = true) as Hab'
          by (rewrite (shape_contains _ _ a b Hsh); exact Hab).
      rewrite (Hcells a b Hab').
      destruct (Z.eqb_spec a (x + dx)) as [->|Hne];
        [destruct (Z.eqb_spec b (y + dy)) as [->|Hne]|]; cbn [andb].
      * replace (y + dy - y) with dy by lia.
        replace (x + dx - x) with dx by lia.
        split; [intros F; contradiction|]. intros _.
        destruct (Hall (x + dx) (y + dy) Hab) as [Hsame _].
        rewrite Hsame
          by (replace (y + dy - y) with dy by lia;
              replace (x + dx - x) with dx by lia; left; reflexivity).
        destruct (Hok (x + dx) (y + dy) Hab) as [Ho Hv].
        apply (new_value_ok safe mines mines'); auto; lia.
      * destruct (Hall (x + dx) b Hab) as [H1 H2]. split.
        -- intros Hin. apply H1. right. exact Hin.
        -- intros Hnin. apply H2. intros [E|Hin]; [|contradiction].
           inversion E. lia.
      * destruct (Hall a b Hab) as [H1 H2]. split.
        -- intros Hin. apply H1. right. exact Hin.
        -- intros Hnin. apply H2. intros [E|Hin]; [|contradiction].
           inversion E. lia.
    + unfold change_cell in Hb. rewrite Hcg in Hb. ret_eq Hb.
      split; [exact Hnd'|]. split; [intros q Hq; apply Hsub; right; exact Hq|].
      split; [exact Hsh|].
      intros a b Hab. destruct (Hall a b Hab) as [H1 H2]. split.
      * intros Hin. apply H1. right. exact Hin.
      * intros Hnin. apply H2. intros [E|Hin]; [|contradiction].
        inversion E. subst dy dx.
        replace (x + (a - x)) with a in Hcg by lia.
        replace (y + (b - y)) with b in Hcg by lia.
        rewrite (shape_contains _ _ a b Hsh) in Hcg. congruence.
  - split; [apply NoDup_all9|]. split; [auto|]. split; [reflexivity|].
    intros a b Hab. split; [reflexivity|].
    intros Hnin. destruct (Hok a b Hab) as [Ho Hv]. split; [|exact Hv].
    apply (cell_ok_far safe mines mines' x y a b _ (delta =? ChangedToMine));
      auto.
    intros F. apply Hnin, In_all9. lia.
Qed.

Lemma apply_change_unfold (p : Perturbation) (grid : Grid Z) (mines : Grid bool) :
  apply_change p (grid, mines)
  = (here <- grid_at mines (pt_x p) (pt_y p) ;;
     _ <- assert (xorb (pt_delta p =? Cleared) (Bool.eqb here false)) ;;
     mines' <- grid_set mines (pt_x p) (pt_y p) (pt_delta p =? ChangedToMine) ;;
     grid' <- for_each all9
                (fun '(dy, dx) g =>
                   change_cell (pt_x p) (pt_y p) (pt_delta p) mines' dy dx g)
                grid ;;
     Ret (grid', mines')).
Proof.
  unfold apply_change. cbv zeta.
  destruct (grid_at mines (pt_x p) (pt_y p)) as [here| |]; cbn [bind];
    try reflexivity.
  destruct (assert _); cbn [bind]; try reflexivity.
  destruct (grid_set mines _ _ _) as [mines'| |]; cbn [bind];
    try reflexivity.
  unfold all9.
  rewrite <- (for_each_nested deltas deltas
                (fun dy dx g =>
                   change_cell (pt_x p) (pt_y p) (pt_delta p) mines' dy dx g)).
  reflexivity.
Qed.

(** One perturbation, of a square of the grid, keeps the invariant of the
    game, moves the mine count by [delta], and changes the mines at that
    square only. *)
Lemma apply_change_inv (safe : bool) (sx sy : Z) (p : Perturbation)
      (grid grid' : Grid Z) (mines mines' : Grid bool) :
  game_inv safe (mkGameData sx sy mines grid) ->
  grid_contains grid (pt_x p) (pt_y p) = true ->
  pt_delta p = 1 \/ pt_delta p = -1 ->
  apply_change p (grid, mines) = Ret (grid', mines') ->
  game_inv safe (mkGameData sx sy mines' grid')
  /\ mine_count mines' = mine_count mines + pt_delta p
  /\ forall a b, mine_at mines' a b
                 = if (a =? pt_x p) && (b =? pt_y p)
                   then (pt_delta p =? ChangedToMine)
                   else mine_at mines a b.
Proof.
  intros [Hwf [Hok Hval]] Hc Hd H.
  pose proof Hwf as [Wm [Wg [Hw Hh]]]. cbn [gd_mines gd_grid] in *.
  assert (forall a b, grid_contains grid a b = grid_contains mines a b)
    as Hdim by (intros; unfold grid_contains; rewrite Hw, Hh; reflexivity).
  rewrite apply_change_unfold in H.
  rewrite Hdim in Hc.
  rewrite (grid_at_mine _ _ _ Wm Hc) in H. cbn [bind] in H.
  destruct (xorb _ _) eqn:Hx; cbn [assert bind] in H; [|discriminate].
  destruct (grid_set mines (pt_x p) (pt_y p) (pt_delta p =? ChangedToMine))
    as [m1| |] eqn:Hset; cbn [bind] in H; try discriminate.
  destruct (for_each all9 _ grid) as [g1| |] eqn:Hloop; cbn [bind] in H;
    try discriminate.
  ret_eq H.
  assert (mine_at mines (pt_x p) (pt_y p)
          = negb (pt_delta p =? ChangedToMine)) as Hold.
  { unfold Cleared, ChangedToMine in *.
    destruct Hd as [E|E]; rewrite E in *; cbn in Hx |- *;
      destruct (mine_at mines (pt_x p) (pt_y p)); cbn in Hx; congruence. }
  destruct (change_loop_ok safe grid grid' mines mines' _ _ _
              Wg Wm Hdim Hc Hd Hold Hset) as [Hsh Hcells]; [|exact Hloop|].
  { intros a b Hab. split; [apply (Hok a b Hab) | apply (Hval a b Hab)]. }
  pose proof (grid_set_shape _ _ _ _ _ Hset) as Hshm.
  split; [|split].
  - split; [|split].
    + eapply (game_wf_frame (mkGameData sx sy mines grid)); [|exact Hwf].
      repeat split; assumption.
    + intros a b Hab. cbn [gd_mines gd_grid] in *.
      rewrite (shape_contains _ _ a b Hsh) in Hab. apply Hcells, Hab.
    + intros a b Hab. cbn [gd_mines gd_grid] in *.
      rewrite (shape_contains _ _ a b Hsh) in Hab. apply Hcells, Hab.
  - rewrite (flip_mine_count _ _ _ _ _ Wm Hc Hold Hset).
    unfold ChangedToMine. destruct Hd as [-> | ->]; reflexivity.
  - intros a b. eapply grid_set_mine; eassumption.
Qed.

Ltac bind_step H x E :=
  match type of H with
  | bind ?m _ = Ret _ =>
      destruct m as [x| |] eqn:E; cbn [bind] in H; try discriminate
  end.

(* ===================================================================== *)
(** * A list of perturbations *)
(* ===================================================================== *)

Lemma apply_changes_inv (safe : bool) (sx sy : Z) (ret : list Perturbation) :
  forall (grid grid' : Grid Z) (mines mines' : Grid bool),
    game_inv safe (mkGameData sx sy mines grid) ->
    Forall (pert_ok grid) ret ->
    apply_changes grid mines ret = Ret (grid', mines') ->
    game_inv safe (mkGameData sx sy mines' grid')
    /\ mine_count mines' = mine_count mines + delta_sum ret
    /\ forall a b,
         (forall p, In p ret -> ~ (pt_x p = a /\ pt_y p = b)) ->
         mine_at mines' a b = mine_at mines a b.
Proof.
  unfold apply_changes.
  induction ret as [|p ret IH]; intros grid grid' mines mines' Hinv Hall H;
    cbn [for_each] in H.
  - ret_eq H. split; [exact Hinv|]. split; [unfold delta_sum; simpl; lia|].
    reflexivity.
  - destruct (apply_change p (grid, mines)) as [[g1 m1]| |] eqn:Hp;
      cbn [bind] in H; try discriminate.
    inversion Hall as [|? ? [Hc Hd] Hall']; subst.
    destruct (apply_change_inv safe sx sy p grid g1 mines m1 Hinv Hc Hd Hp)
      as [Hinv1 [Hcnt1 Hm1]].
    pose proof (apply_change_shape _ _ _ _ _ Hp) as [Hsh _].
    assert (Forall (pert_ok g1) ret) as Hall1.
    { eapply Forall_impl; [|exact Hall']. intros q [Hq1 Hq2].
      split; [|exact Hq2]. rewrite (shape_contains _ _ _ _ Hsh). exact Hq1. }
    destruct (IH g1 grid' m1 mines' Hinv1 Hall1 H) as [Hinv' [Hcnt' Hm']].
    split; [exact Hinv'|]. split.
    + rewrite Hcnt', Hcnt1. unfold delta_sum. cbn [map fold_right]. lia.
    + intros a b Hfar. rewrite Hm' by (intros q Hq; apply Hfar; right; exact Hq).
      rewrite Hm1.
      destruct (Z.eqb_spec a (pt_x p)) as [->|]; [|reflexivity].
      destruct (Z.eqb_spec b (pt_y p)) as [->|]; [|reflexivity].
      exfalso. apply (Hfar p); [left; reflexivity | auto].
Qed.

Lemma delta_sum_app (l1 l2 : list Perturbation) :
  delta_sum (l1 ++ l2) = delta_sum l1 + delta_sum l2.
Proof.
  unfold delta_sum. induction l1 as [|p l1 IH]; cbn [app map fold_right];
    [reflexivity|]. rewrite IH. lia.
Qed.

Lemma delta_sum_const (c : Z) (l : list Perturbation) :
  Forall (fun p => pt_delta p = c) l -> delta_sum l = c * zlength l.
Proof.
  unfold delta_sum, zlength. induction 1 as [|p l Hp Hall IH];
    cbn [map fold_right length]; [lia|]. rewrite IH, Hp. lia.
Qed.

Lemma zlength_app {A : Type} (l1 l2 : list A) :
  zlength (l1 ++ l2) = zlength l1 + zlength l2.
Proof. unfold zlength. rewrite length_app. lia. Qed.

Lemma zlength_map {A B : Type} (f : A -> B) (l : list A) :
  zlength (map f l) = zlength l.
Proof. unfold zlength. rewrite length_map. reflexivity. Qed.

(* ===================================================================== *)
(** * The squares that mineperturb uses *)
(* ===================================================================== *)

Lemma sq_insert_In (a b : PerturbSquare) (l : list PerturbSquare) :
  In b (sq_insert a l) -> b = a \/ In b l.
Proof.
  induction l as [|c l IH]; cbn [sq_insert In]; [intuition auto|].
  destruct (sq_ltb c a); cbn [In]; intuition auto.
Qed.

Lemma sq_sort_In (b : PerturbSquare) (l : list PerturbSquare) :
  In b (sq_sort l) -> In b l.
Proof.
  unfold sq_sort. induction l as [|a l IH]; cbn [fold_right In]; [tauto|].
  intros H. apply sq_insert_In in H. destruct H as [->|H]; auto.
Qed.

Lemma span_type_app (t : Z) (l : list PerturbSquare) :
  fst (span_type t l) ++ snd (span_type t l) = l.
Proof.
  induction l as [|a l IH]; cbn [span_type]; [reflexivity|].
  destruct (t <? sq_type a); [reflexivity|].
  destruct (span_type t l) as [run rest]. cbn [fst snd app] in *.
  rewrite IH. reflexivity.
Qed.

Section PerturbatorFacts.

Context {R : RNG}.

Hypothesis shuffle_law : shuffle_permutes R.

Lemma shuffle_In {A : Type} (l : list A) (rng : RandomEngine) (a : A) :
  In a (fst (shuffle A l rng)) -> In a l.
Proof.
  intros H. eapply Permutation_in; [|exact H].
  apply Permutation_sym, shuffle_law.
Qed.

Lemma shuffle_groups_In (n : nat) :
  forall (l : list PerturbSquare) (rng : RandomEngine) (a : PerturbSquare),
    In a (fst (shuffle_groups n l rng)) -> In a l.
Proof.
  induction n as [|n IH]; intros l rng a; destruct l as [|b l];
    cbn [shuffle_groups fst]; try tauto.
  pose proof (span_type_app (sq_type b) (b :: l)) as Happ.
  destruct (span_type (sq_type b) (b :: l)) as [run rest].
  pose proof (shuffle_In run rng) as Hrun.
  destruct (shuffle PerturbSquare run rng) as [run' rng1].
  pose proof (IH rest rng1) as Hrest.
  destruct (shuffle_groups n rest rng1) as [rest' rng2].
  cbn [fst snd] in *. intros H. rewrite <- Happ.
  apply in_app_iff in H. apply in_app_iff. destruct H; auto.
Qed.

(** Every square of the list that [build_squarelist] returns lies in the
    grid. *)
Lemma build_squarelist_in_grid (ctx : GameData) (grid : Grid Z)
      (setx sety mask : Z) (rng rng' : RandomEngine)
      (sqlist : list PerturbSquare) :
  grid_wf grid ->
  build_squarelist ctx grid setx sety mask rng = Ret (sqlist, rng') ->
  forall sq, In sq sqlist -> grid_contains grid (sq_x sq) (sq_y sq) = true.
Proof.
  intros Hwf H sq Hin. unfold build_squarelist in H.
  destruct (for_each (grid_indices grid) _ []) as [l| |] eqn:Hl;
    cbn [bind] in H; try discriminate.
  cbv zeta in H.
  assert (In sq (fst (shuffle_groups (length (sq_sort l)) (sq_sort l) rng)))
    as Hin' by (injection H as H; rewrite H; exact Hin).
  apply shuffle_groups_In, sq_sort_In in Hin'.
  match type of Hl with
  | for_each ?l0 ?body ?s0 = _ =>
      pose proof (for_each_invariant
                    (fun acc => forall q, In q acc ->
                       grid_contains grid (sq_x q) (sq_y q) = true)
                    l0 body) as Hinv
  end.
  refine (Hinv _ _ _ _ Hl sq Hin'); [|intros q []].
  clear - Hwf. intros i acc acc1 Hi Hacc Hb.
  apply in_grid_indices in Hi.
  destruct (idx2pt_in grid i Hwf Hi) as [Hc _].
  repeat match type of Hb with
         | (if ?c then _ else _) = _ => destruct c
         | bind _ _ = _ => inv_ret Hb
         end; ret_eq Hb; auto;
    intros q Hq; apply in_app_iff in Hq; destruct Hq as [Hq|[<-|[]]]; auto.
Qed.

Lemma collect_squares_In (mines : Grid bool) (nfull nempty : Z)
      (sqlist : list PerturbSquare) :
  forall (tofill toempty tofill' toempty' : list PerturbSquare),
    collect_squares mines nfull nempty sqlist tofill toempty
    = Ret (tofill', toempty') ->
    forall sq, In sq tofill' \/ In sq toempty' ->
               In sq sqlist \/ In sq tofill \/ In sq toempty.
Proof.
  induction sqlist as [|a l IH]; intros tofill toempty tofill' toempty' H sq Hsq;
    cbn [collect_squares] in H.
  - ret_eq H. tauto.
  - destruct (grid_at mines (sq_x a) (sq_y a)) as [m| |]; cbn [bind] in H;
      try discriminate.
    cbv zeta in H.
    destruct ((zlength _ =? nfull) || (zlength _ =? nempty)).
    + ret_eq H. destruct m; destruct Hsq as [Hsq|Hsq];
        try apply in_app_iff in Hsq; cbn [In] in *; intuition auto.
    + specialize (IH _ _ _ _ H sq Hsq).
      destruct m; destruct IH as [IH|[IH|IH]];
        try apply in_app_iff in IH; cbn [In] in *; intuition auto.
Qed.

Lemma firstn_In_incl {A : Type} (n : nat) (l : list A) (a : A) :
  In a (firstn n l) -> In a l.
Proof.
  intros H. rewrite <- (firstn_skipn n l). apply in_app_iff. auto.
Qed.

Lemma window_bit_In (setx sety mask dx dy : Z) :
  In (dx, dy) window_offsets ->
  mask_nonzero (mask_and mask (pt2mf dx dy)) = true ->
  In (setx + dx, sety + dy) (squares (mkSquareSet setx sety mask)).
Proof.
  intros Hin Hbit.
  assert (0 <= dx < 3 /\ 0 <= dy < 3) as [Hdx Hdy].
  { unfold window_offsets in Hin. cbn [In] in Hin.
    rewrite !pair_equal_spec in Hin. lia. }
  unfold pt2mf in Hbit. rewrite mask_flag_testbit in Hbit by lia.
  apply In_squares. rewrite member_intro by (cbn [set_x set_y]; lia).
  cbn [set_x set_y set_mask].
  replace (3 * (sety + dy - sety) + (setx + dx - setx)) with (dy * 3 + dx)
    by lia.
  exact Hbit.
Qed.

(** Every index of the list that [build_fill_list] returns is a valid
    index of the grid. *)
Lemma build_fill_list_valid (grid : Grid Z) (mines : Grid bool)
      (inputset : SquareSet) (size : Z) (rng rng' : RandomEngine)
      (filllist : list Z) :
  grid_wf grid ->
  (forall px py, In (px, py) (squares inputset) ->
                 grid_contains grid px py = true) ->
  build_fill_list grid mines inputset size rng = Ret (filllist, rng') ->
  forall i, In i filllist -> 0 <= i < grid_size grid.
Proof.
  intros Hwf Hin H i Hi. unfold build_fill_list in H.
  destruct (assert (negb (size =? 0))); cbn [bind] in H; try discriminate.
  match type of H with
  | bind ?m _ = _ => destruct m as [fl| |] eqn:Hfl; cbn [bind] in H;
                     try discriminate
  end.
  destruct (assert (size <=? zlength fl)); cbn [bind] in H; try discriminate.
  destruct (assert (size <? zlength fl)); cbn [bind] in H; try discriminate.
  pose proof (shuffle_In fl rng) as Hsh.
  destruct (shuffle Z fl rng) as [fl' rng1]. cbn [fst] in Hsh.
  injection H as H _. subst filllist.
  apply firstn_In_incl, Hsh in Hi.
  assert (forall j, In j fl -> 0 <= j < grid_size grid) as Hall; [|auto].
  clear - Hwf Hin Hfl.
  destruct (mask_nonzero (set_mask inputset)).
  - match type of Hfl with
    | for_each ?l0 ?body ?s0 = _ =>
        pose proof (for_each_invariant
                      (fun acc => forall j, In j acc ->
                                            0 <= j < grid_size grid)
                      l0 body) as Hinv
    end.
    refine (Hinv _ _ _ _ Hfl); [|intros j []].
    clear - Hwf Hin. intros [dx dy] acc acc1 Hd Hacc Hb.
    destruct (mask_nonzero (mask_and (set_mask inputset) (pt2mf dx dy)))
      eqn:Hbit; [|ret_eq Hb; exact Hacc].
    inv_ret Hb. ret_eq Hb.
    match goal with |- context [if ?c then _ else _] => destruct c end;
      [exact Hacc|].
    intros j Hj. apply in_app_iff in Hj. destruct Hj as [Hj|[<-|[]]];
      [auto|].
    apply idx_in_grid; [exact Hwf|]. apply Hin.
    destruct inputset as [ix iy im]. cbn [set_x set_y set_mask] in *.
    apply window_bit_In; assumption.
  - match type of Hfl with
    | for_each ?l0 ?body ?s0 = _ =>
        pose proof (for_each_invariant
                      (fun acc => forall j, In j acc ->
                                            0 <= j < grid_size grid)
                      l0 body) as Hinv
    end.
    refine (Hinv _ _ _ _ Hfl); [|intros j []].
    clear. intros i acc acc1 Hi Hacc Hb. apply in_grid_indices in Hi.
    inv_ret Hb.
    destruct (_ =? Unknown); [|ret_eq Hb; exact Hacc].
    inv_ret Hb. ret_eq Hb.
    match goal with |- context [if ?c then _ else _] => destruct c end;
      [exact Hacc|].
    intros j Hj. apply in_app_iff in Hj. destruct Hj as [Hj|[<-|[]]]; auto.
Qed.

(** The perturbations planned inside the input set: squares of the grid,
    all with the same delta. *)
Lemma inside_mask_ok (mines : Grid bool) (grid : Grid Z)
      (setx sety mask change : Z) (inside : list Perturbation) :
  (forall px py, In (px, py) (squares (mkSquareSet setx sety mask)) ->
                 grid_contains grid px py = true) ->
  for_each window_offsets (fun '(dx, dy) acc =>
    if mask_nonzero (mask_and mask (pt2mf dx dy))
    then
      m <- grid_at mines (setx + dx) (sety + dy) ;;
      Ret (if change =? change_for m
           then acc ++ [mkPerturbation (setx + dx) (sety + dy) change]
           else acc)
    else Ret acc) [] = Ret inside ->
  Forall (fun p => grid_contains grid (pt_x p) (pt_y p) = true
                   /\ pt_delta p = change) inside.
Proof.
  intros Hin H.
  match type of H with
  | for_each ?l0 ?body ?s0 = _ =>
      pose proof (for_each_invariant
                    (Forall (fun p => grid_contains grid (pt_x p) (pt_y p)
                                      = true /\ pt_delta p = change))
                    l0 body) as Hinv
  end.
  refine (Hinv _ _ _ _ H); [|constructor].
  clear - Hin. intros [dx dy] acc acc1 Hd Hacc Hb.
  destruct (mask_nonzero (mask_and mask (pt2mf dx dy))) eqn:Hbit;
    [|ret_eq Hb; exact Hacc].
  inv_ret Hb. ret_eq Hb.
  match goal with |- context [if ?c then _ else _] => destruct c end;
    [|exact Hacc].
  apply Forall_app. split; [exact Hacc|]. constructor; [|constructor].
  cbn [pt_x pt_y pt_delta]. split; [|reflexivity].
  apply Hin, window_bit_In; assumption.
Qed.

Lemma inside_big_ok (mines : Grid bool) (grid : Grid Z) (change : Z)
      (inside : list Perturbation) :
  grid_wf grid ->
  for_each (grid_indices grid) (fun i acc =>
    v <- grid_at_idx grid i ;;
    if v =? Unknown
    then
      m <- grid_at_idx mines i ;;
      Ret (if change =? change_for m
           then acc ++ [mkPerturbation (fst (idx2pt grid i))
                          (snd (idx2pt grid i)) change]
           else acc)
    else Ret acc) [] = Ret inside ->
  Forall (fun p => grid_contains grid (pt_x p) (pt_y p) = true
                   /\ pt_delta p = change) inside.
Proof.
  intros Hwf H.
  match type of H with
  | for_each ?l0 ?body ?s0 = _ =>
      pose proof (for_each_invariant
                    (Forall (fun p => grid_contains grid (pt_x p) (pt_y p)
                                      = true /\ pt_delta p = change))
                    l0 body) as Hinv
  end.
  refine (Hinv _ _ _ _ H); [|constructor].
  clear - Hwf. intros i acc acc1 Hi Hacc Hb. apply in_grid_indices in Hi.
  inv_ret Hb.
  destruct (_ =? Unknown); [|ret_eq Hb; exact Hacc].
  inv_ret Hb. ret_eq Hb.
  match goal with |- context [if ?c then _ else _] => destruct c end;
    [|exact Hacc].
  apply Forall_app. split; [exact Hacc|]. constructor; [|constructor].
  cbn [pt_x pt_y pt_delta]. split; [|reflexivity].
  apply idx2pt_in; assumption.
Qed.

(** What [mineperturb] returns: the list of changes is made of squares of
    the grid, adds as many mines as it removes, stays away from the start
    square, and the new grids are the old ones with the changes applied. *)
Lemma mineperturb_facts (ctx ctx' : GameData) (setx sety mask : Z)
      (rng rng' : RandomEngine) (big : bool) (ret : list Perturbation) :
  grid_wf (gd_grid ctx) ->
  (forall px py, In (px, py) (squares (mkSquareSet setx sety mask)) ->
                 grid_contains (gd_grid ctx) px py = true) ->
  mineperturb ctx setx sety mask rng big = Ret (ret, ctx', rng') ->
  gd_sx ctx' = gd_sx ctx /\ gd_sy ctx' = gd_sy ctx
  /\ apply_changes (gd_grid ctx) (gd_mines ctx) ret
     = Ret (gd_grid ctx', gd_mines ctx')
  /\ Forall (pert_ok (gd_grid ctx)) ret
  /\ delta_sum ret = 0
  /\ existsb (near_start ctx) ret = false.
Proof.
  unfold mineperturb. intros Hwf Hin H.
  destruct (mask_is_zero mask && negb big).
  { ret_eq H. repeat split; constructor. }
  cbv zeta in H.
  bind_step H c Hc. destruct c as [nfull nempty].
  bind_step H q Hq. destruct q as [sqlist rng1].
  bind_step H t Ht. destruct t as [tofill toempty].
  bind_step H f Hf. destruct f as [filllist rng2].
  assert (forall sq, In sq tofill \/ In sq toempty ->
                     grid_contains (gd_grid ctx) (sq_x sq) (sq_y sq) = true)
    as Hsq.
  { intros sq Hs. eapply build_squarelist_in_grid; [exact Hwf|exact Hq|].
    destruct (collect_squares_In _ _ _ _ _ _ _ _ Ht sq Hs) as [Hs'|[[]|[]]].
    exact Hs'. }
  assert (forall i, In i filllist -> 0 <= i < grid_size (gd_grid ctx))
    as Hfill.
  { destruct (negb (zlength tofill =? nfull)
              && negb (zlength toempty =? nempty)).
    - eapply build_fill_list_valid; [exact Hwf|exact Hin|exact Hf].
    - ret_eq Hf. intros i []. }
  clear Hc Hq Ht Hf.
  remember (if zlength tofill =? nfull then (tofill, ChangedToMine)
            else (toempty, Cleared)) as tc eqn:Htc.
  destruct tc as [todo change].
  assert ((forall sq, In sq todo ->
             grid_contains (gd_grid ctx) (sq_x sq) (sq_y sq) = true)
          /\ (change = 1 \/ change = -1)) as [Htodo Hchange].
  { destruct (zlength tofill =? nfull); injection Htc as -> ->;
      (split; [intros sq Hs; apply Hsq; auto|]);
      unfold ChangedToMine, Cleared; auto. }
  clear Htc Hsq.
  bind_step H inside Hi.
  bind_step H u1 Hlen. apply assert_Ret_inv in Hlen.
  bind_step H u2 Hnear. apply assert_Ret_inv in Hnear.
  bind_step H gm Hap. destruct gm as [grid' mines'].
  ret_eq H. cbn [gd_sx gd_sy gd_grid gd_mines].
  assert (Forall (fun p => grid_contains (gd_grid ctx) (pt_x p) (pt_y p)
                           = true /\ pt_delta p = opposite change) inside)
    as Hinside.
  { destruct filllist as [|i0 fl].
    - destruct (mask_nonzero mask).
      + eapply inside_mask_ok; [exact Hin|exact Hi].
      + eapply inside_big_ok; [exact Hwf|exact Hi].
    - set (l := i0 :: fl) in *. clearbody l.
      bind_step Hi u3 Hu3. injection Hi as Hi. rewrite <- Hi.
      apply Forall_forall. intros p Hp. apply in_map_iff in Hp.
      destruct Hp as [i [<- Hi']]. cbn [pt_x pt_y pt_delta].
      split; [|reflexivity]. apply idx2pt_in; auto. }
  assert (Forall (fun p => grid_contains (gd_grid ctx) (pt_x p) (pt_y p)
                           = true /\ pt_delta p = change)
            (map (fun sq => mkPerturbation (sq_x sq) (sq_y sq) change) todo))
    as Hout.
  { apply Forall_forall. intros p Hp. apply in_map_iff in Hp.
    destruct Hp as [sq [<- Hs]]. cbn [pt_x pt_y pt_delta]. auto. }
  split; [reflexivity|]. split; [reflexivity|]. split; [exact Hap|].
  split; [|split].
  - apply Forall_app. split.
    + eapply Forall_impl; [|exact Hout]. intros p [Hp Hd]. split; [exact Hp|].
      rewrite Hd. exact Hchange.
    + eapply Forall_impl; [|exact Hinside]. intros p [Hp Hd].
      split; [exact Hp|]. rewrite Hd. unfold opposite. lia.
  - rewrite delta_sum_app.
    rewrite (delta_sum_const change), (delta_sum_const (opposite change)).
    + apply Z.eqb_eq in Hlen. rewrite zlength_app, !zlength_map in *.
      unfold opposite. nia.
    + eapply Forall_impl; [|exact Hinside]. intros p [_ Hd]. exact Hd.
    + eapply Forall_impl; [|exact Hout]. intros p [_ Hd]. exact Hd.
  - apply negb_true_iff in Hnear. exact Hnear.
Qed.

End PerturbatorFacts.

(* ===================================================================== *)
(** * Checking the invariant of a concrete game *)
(* ===================================================================== *)

Lemma grid_wfb_ok {T : Type} (g : Grid T) : grid_wfb g = true -> grid_wf g.
Proof.
  unfold grid_wfb, grid_wf. rewrite !andb_true_iff, Z.ltb_lt, Z.leb_le,
    Z.eqb_eq. tauto.
Qed.

Lemma game_invb_ok (safe : bool) (game : GameData) :
  game_invb safe game = true -> game_inv safe game.
Proof.
  unfold game_invb, game_wfb. rewrite !andb_true_iff, !Z.eqb_eq.
  intros [[[[Hm Hg] Hw] Hh] Hall].
  apply grid_wfb_ok in Hm. apply grid_wfb_ok in Hg.
  assert (forall x y,
             grid_contains (gd_grid game) x y = true ->
             cell_okb safe (gd_mines game) x y (cell (gd_grid game) x y)
             = true
             /\ Unknown <= cell (gd_grid game) x y) as Hc.
  { intros x y Hc. rewrite forallb_forall in Hall.
    specialize (Hall (y * g_width (gd_grid game) + x)).
    rewrite idx2pt_pt2idx in Hall by assumption. cbn [fst snd] in Hall.
    rewrite andb_true_iff, Z.leb_le in Hall. apply Hall.
    apply in_grid_indices, idx_in_grid; assumption. }
  split; [repeat split; tauto || apply Hm || apply Hg|]. split.
  - intros x y Hxy. destruct (Hc x y Hxy) as [Hok _].
    unfold cell_okb in Hok. intros Hv.
    apply orb_true_iff in Hok. destruct Hok as [Hok|Hok];
      [apply Z.ltb_lt in Hok; lia|].
    apply andb_true_iff in Hok. destruct Hok as [Hs He].
    apply Z.eqb_eq in He. split; [|exact He].
    intros ->. cbn [negb orb] in Hs. apply negb_true_iff in Hs. exact Hs.
  - intros x y Hxy. apply Hc, Hxy.
Qed.

Lemma rotate_Permutation {A : Type} (k : nat) (l : list A) :
  Permutation l (rotate k l).
Proof.
  unfold rotate. rewrite <- (firstn_skipn k l) at 1.
  apply Permutation_app_comm.
Qed.

Lemma test_rng_permutes : shuffle_permutes test_rng.
Proof. intros A l rng. cbn. apply rotate_Permutation. Qed.

Lemma existsb_near_start (ctx : GameData) (ret : list Perturbation) :
  existsb (near_start ctx) ret = false ->
  forall p, In p ret ->
            ~ near (gd_sx ctx) (gd_sy ctx) (pt_x p) (pt_y p).
Proof.
  intros H p Hp [Hx Hy].
  assert (existsb (near_start ctx) ret = true) as Ht; [|congruence].
  apply existsb_exists. exists p. split; [exact Hp|].
  unfold near_start. apply andb_true_iff. split; apply Z.leb_le; assumption.
Qed.

Section PerturbatorInvariance.

Context {R : RNG}.

Hypothesis shuffle_law : shuffle_permutes R.

(** [mineperturb] keeps the invariant of the game, the number of mines and
    the mines around the start square. *)
Lemma mineperturb_inv (safe : bool) (ctx ctx' : GameData)
      (setx sety mask : Z) (rng rng' : RandomEngine) (big : bool)
      (ret : list Perturbation) :
  game_inv safe ctx ->
  (forall px py, In (px, py) (squares (mkSquareSet setx sety mask)) ->
                 grid_contains (gd_grid ctx) px py = true) ->
  mineperturb ctx setx sety mask rng big = Ret (ret, ctx', rng') ->
  game_inv safe ctx'
  /\ mine_count (gd_mines ctx') = mine_count (gd_mines ctx)
  /\ (forall p, In p ret ->
                ~ near (gd_sx ctx) (gd_sy ctx) (pt_x p) (pt_y p))
  /\ (forall x y, near (gd_sx ctx) (gd_sy ctx) x y ->
                  mine_at (gd_mines ctx') x y = mine_at (gd_mines ctx) x y)
  /\ gd_sx ctx' = gd_sx ctx /\ gd_sy ctx' = gd_sy ctx.
Proof.
  intros Hinv Hin H.
  destruct (mineperturb_facts shuffle_law ctx ctx' setx sety mask rng rng'
              big ret) as [Hsx [Hsy [Hap [Hok [Hsum Hnear]]]]];
    [apply Hinv|exact Hin|exact H|].
  destruct ctx as [sx sy mines grid], ctx' as [sx' sy' mines' grid'].
  cbn [gd_sx gd_sy gd_mines gd_grid] in *. subst sx' sy'.
  destruct (apply_changes_inv safe sx sy ret grid grid' mines mines'
              Hinv Hok Hap) as [Hinv' [Hcnt Hsame]].
  pose proof (existsb_near_start _ _ Hnear) as Hfar.
  cbn [gd_sx gd_sy] in Hfar.
  split; [exact Hinv'|]. split; [lia|]. split; [exact Hfar|].
  split; [|split; reflexivity].
  intros x y Hxy. apply Hsame. intros p Hp [Hx Hy]. subst x y.
  exact (Hfar p Hp Hxy).
Qed.

(** C3. Perturbator invariance: in a well-formed game whose revealed
    squares show the right counts, a call of [mineperturb] on a set of
    squares of the grid that returns a list of perturbations (a) changes
    no square within Chebyshev distance 1 of the start square, whose mines
    are as before, (b) leaves every revealed square with the count of the
    mines around it after the change, (c) leaves the total number of
    mines unchanged.  [std::shuffle] is assumed to permute its range. *)
Theorem mineperturb_invariance (ctx ctx' : GameData) (setx sety mask : Z)
        (rng rng' : RandomEngine) (big : bool) (ret : list Perturbation) :
  game_inv false ctx ->
  (forall px py, In (px, py) (squares (mkSquareSet setx sety mask)) ->
                 grid_contains (gd_grid ctx) px py = true) ->
  mineperturb ctx setx sety mask rng big = Ret (ret, ctx', rng') ->
  ((forall p, In p ret ->
              ~ near (gd_sx ctx) (gd_sy ctx) (pt_x p) (pt_y p))
   /\ (forall x y, near (gd_sx ctx) (gd_sy ctx) x y ->
                   mine_at (gd_mines ctx') x y = mine_at (gd_mines ctx) x y))
  /\ (forall x y n,
        grid_contains (gd_grid ctx') x y = true ->
        cell (gd_grid ctx') x y = n -> Mine0 <= n ->
        n = neighbor_mines (gd_mines ctx') x y)
  /\ mine_count (gd_mines ctx') = mine_count (gd_mines ctx).
Proof.
  intros Hinv Hin H.
  destruct (mineperturb_inv false ctx ctx' setx sety mask rng rng' big ret
              Hinv Hin H) as [[_ [Hok _]] [Hcnt [Hfar [Hsame _]]]].
  split; [split; assumption|]. split; [|exact Hcnt].
  intros x y n Hc Hn Hpos. subst n.
  apply (Hok x y Hc). exact Hpos.
Qed.

End PerturbatorInvariance.

Lemma test_mineperturb :
  @mineperturb test_rng test_ctx 2 2 TOP_LEFT 0 false
  = Ret (test_perturbation, test_ctx1, 3).
Proof. vm_compute. reflexivity. Qed.

Lemma mineperturb_invariance_witness :
  test_perturbation <> []
  /\ ((forall p, In p test_perturbation ->
                 ~ near 0 0 (pt_x p) (pt_y p))
      /\ (forall x y, near 0 0 x y ->
                      mine_at (gd_mines test_ctx1) x y
                      = mine_at (gd_mines test_ctx) x y))
  /\ (forall x y n,
        grid_contains (gd_grid test_ctx1) x y = true ->
        cell (gd_grid test_ctx1) x y = n -> Mine0 <= n ->
        n = neighbor_mines (gd_mines test_ctx1) x y)
  /\ mine_count (gd_mines test_ctx1) = mine_count (gd_mines test_ctx).
Proof.
  split; [discriminate|].
  apply (@mineperturb_invariance test_rng test_rng_permutes test_ctx
           test_ctx1 2 2 TOP_LEFT 0 3 false test_perturbation).
  - apply game_invb_ok. vm_compute. reflexivity.
  - intros px py Hp. vm_compute in Hp. destruct Hp as [Hp|[]].
    injection Hp as <- <-. reflexivity.
  - exact test_mineperturb.
Defined.

(* ===================================================================== *)
(** * The sets of the store lie in the grid *)
(* ===================================================================== *)

Lemma store_in_grid_sets (grid : Grid Z) (ss : SetStore) :
  store_in_grid grid ss
  <-> forall e, In e (m_elements ss) -> set_in_grid grid (e_set e).
Proof. reflexivity. Qed.

Lemma set_in_grid_shape {T U : Type} (g : Grid T) (g' : Grid U)
      (s : SquareSet) :
  shape g' = shape g -> set_in_grid g s -> set_in_grid g' s.
Proof.
  intros Hs [Hm H]. split; [exact Hm|]. intros px py Hp.
  specialize (H px py Hp). unfold grid_contains in *.
  unfold shape in Hs. inversion Hs as [[Hw Hh Hl]]. rewrite Hw, Hh. exact H.
Qed.

Lemma store_in_grid_shape (g g' : Grid Z) (ss : SetStore) :
  shape g' = shape g -> store_in_grid g ss -> store_in_grid g' ss.
Proof.
  intros Hs H e He. apply (set_in_grid_shape g g' _ Hs). apply H, He.
Qed.

Lemma store_in_grid_empty (g : Grid Z) : store_in_grid g SetStore_empty.
Proof. intros e []. Qed.

(** [normalize] keeps the squares of a set. *)
Lemma normalize_member (fuel : nat) (x y m : Z) (k : SquareSet) :
  mask9 m ->
  normalize fuel (mkSquareSet x y m) = Ret k ->
  mask9 (set_mask k)
  /\ forall px py, member k px py = member (mkSquareSet x y m) px py.
Proof.
  intros Hm Hk.
  destruct (normalize_origin m Hm) as [r [Hr [_ [_ [_ [Hsq Hr9]]]]]].
  rewrite normalize_shape in Hk. cbn [set_x set_y set_mask] in Hk.
  destruct (normalize fuel (mkSquareSet 0 0 m)) as [r0| |] eqn:Hr0;
    cbn [shift_res] in Hk; try discriminate.
  assert (r0 = r) as ->.
  { destruct (Nat.le_ge_cases fuel 3) as [Hle|Hge].
    - pose proof (normalize_mono _ _ _ _ Hr0 Hle) as H3. congruence.
    - pose proof (normalize_mono _ _ _ _ Hr Hge) as H3. congruence. }
  injection Hk as <-. cbn [set_mask]. split; [exact Hr9|].
  intros px py. apply eq_true_iff_eq.
  rewrite (member_shift (mkSquareSet x y m) x y px py).
  cbn [set_x set_y set_mask]. rewrite !Z.sub_diag.
  rewrite <- In_rel_squares, <- Hsq, in_map_iff.
  rewrite (member_shift _ (x + set_x r) (y + set_y r) px py).
  cbn [set_x set_y set_mask]. rewrite !Z.sub_diag, <- In_rel_squares.
  split.
  - intros H. exists (px - (x + set_x r), py - (y + set_y r)).
    split; [|exact H]. cbn [fst snd]. f_equal; lia.
  - intros [[dx dy] [He H]]. cbn [fst snd] in He. injection He as Hx Hy.
    replace (px - (x + set_x r)) with dx by lia.
    replace (py - (y + set_y r)) with dy by lia. exact H.
Qed.

Lemma map_update_In (k : SquareSet) (f : SetStoreElement -> SetStoreElement)
      (l : list SetStoreElement) (a : SetStoreElement) :
  In a (map_update k f l) -> exists b, In b l /\ (a = b \/ a = f b).
Proof.
  induction l as [|e l IH]; cbn [map_update In]; [intros []|].
  destruct (set_eqb (e_set e) k); cbn [In].
  - intros [Heq|H]; [exists e|exists a]; auto.
  - intros [Heq|H]; [exists e; auto|].
    destruct (IH H) as [b [Hb Hab]]. exists b. auto.
Qed.

Lemma map_erase_In (k : SquareSet) (l : list SetStoreElement)
      (a : SetStoreElement) :
  In a (map_erase k l) -> In a l.
Proof.
  induction l as [|e l IH]; cbn [map_erase In]; [intros []|].
  destruct (set_eqb (e_set e) k); cbn [In]; intuition auto.
Qed.

Lemma map_update_in_grid (grid : Grid Z) (k : SquareSet)
      (f : SetStoreElement -> SetStoreElement) (ss : SetStore)
      (todo : list SquareSet) :
  (forall a, e_set (f a) = e_set a) ->
  store_in_grid grid ss ->
  store_in_grid grid (mkSetStore (map_update k f (m_elements ss)) todo).
Proof.
  intros Hf H e He. cbn [m_elements] in He.
  apply map_update_In in He. destruct He as [b [Hb [->| ->]]].
  - apply H, Hb.
  - rewrite Hf. apply H, Hb.
Qed.

Lemma deref_in_grid (grid : Grid Z) (ss : SetStore) (it : SquareSet)
      (s : SetStoreElement) :
  store_in_grid grid ss -> deref ss it = Ret s ->
  set_in_grid grid (e_set s).
Proof.
  unfold deref. intros H Hd.
  destruct (map_find it (m_elements ss)) as [e|] eqn:Hf; [|discriminate].
  injection Hd as <-. apply map_find_In in Hf. apply H, Hf.
Qed.

Lemma add_todo_in_grid (grid : Grid Z) (ss ss' : SetStore) (it : SquareSet) :
  store_in_grid grid ss -> add_todo ss it = Ret ss' ->
  store_in_grid grid ss'.
Proof.
  unfold add_todo. intros H Ha.
  destruct (deref ss it) as [e| |]; cbn [bind] in Ha; try discriminate.
  destruct (e_todo e); injection Ha as <-; [exact H|].
  apply map_update_in_grid; [reflexivity|exact H].
Qed.

Lemma add_in_grid (grid : Grid Z) (fuel : nat) (ss ss' : SetStore)
      (x y mask mines : Z) :
  store_in_grid grid ss ->
  set_in_grid grid (mkSquareSet x y mask) ->
  add fuel ss x y mask mines = Ret ss' ->
  store_in_grid grid ss'.
Proof.
  unfold add. intros H [Hm Hin] Ha. cbn [set_mask] in Hm.
  destruct (normalize fuel (mkSquareSet x y mask)) as [k| |] eqn:Hk;
    cbn [bind] in Ha; try discriminate.
  destruct (normalize_member _ _ _ _ _ Hm Hk) as [Hk9 Hkm].
  pose proof (map_insert_In (mkElement k mines false)) as Hins.
  destruct (map_insert (mkElement k mines false) (m_elements ss))
    as [elements inserted] eqn:Hi.
  destruct inserted; [|injection Ha as <-; exact H].
  eapply add_todo_in_grid; [|exact Ha].
  intros e He. cbn [m_elements] in He.
  specialize (Hins e (m_elements ss)). rewrite Hi in Hins. cbn [fst] in Hins.
  destruct (Hins He) as [->|He']; [|apply H, He'].
  cbn [e_set]. split; [exact Hk9|]. intros px py Hp. apply Hin.
  rewrite <- Hkm. exact Hp.
Qed.

Lemma erase_in_grid (grid : Grid Z) (ss ss' : SetStore) (it : SquareSet) :
  store_in_grid grid ss -> erase ss it = Ret ss' -> store_in_grid grid ss'.
Proof.
  unfold erase. intros H He.
  destruct (deref ss it) as [e| |]; cbn [bind] in He; try discriminate.
  injection He as <-. intros a Ha. cbn [m_elements] in Ha.
  apply map_erase_In in Ha. apply H, Ha.
Qed.

Lemma next_todo_in_grid (grid : Grid Z) (ss ss' : SetStore)
      (todo : option SetStoreElement) :
  store_in_grid grid ss -> next_todo ss = Ret (todo, ss') ->
  store_in_grid grid ss'
  /\ forall s, todo = Some s -> set_in_grid grid (e_set s).
Proof.
  unfold next_todo. intros H Hn.
  destruct (m_todolist ss) as [|head rest].
  - injection Hn as <- <-. split; [exact H|discriminate].
  - destruct (deref ss head) as [e| |] eqn:Hd; cbn [bind] in Hn;
      try discriminate.
    injection Hn as <- <-. split.
    + apply map_update_in_grid; [reflexivity|exact H].
    + intros s Hs. injection Hs as <-. cbn [e_set].
      eapply deref_in_grid; eassumption.
Qed.

Lemma set_minus_in_grid {T : Type} (grid : Grid T) (a b : SquareSet) :
  set_in_grid grid a -> mask9 (set_mask b) ->
  set_in_grid grid
    (mkSquareSet (set_x a) (set_y a) (set_mask (set_minus a b))).
Proof.
  intros [Ha Hin] Hb.
  change (mkSquareSet (set_x a) (set_y a) (set_mask (set_minus a b)))
    with (set_minus a b).
  split.
  - unfold set_minus, mask_and. cbn [set_mask]. apply mask9_land; [exact Ha|].
    unfold mask_not. apply Z.lxor_nonneg.
    pose proof (mask9_SquareSet_at (set_x a) (set_y a) b Hb) as H9.
    unfold mask9 in H9. split; intros _; [vm_compute; discriminate|lia].
  - intros px py Hp. rewrite member_set_minus_at in Hp.
    apply andb_true_iff in Hp. apply Hin, Hp.
Qed.

Lemma single_in_grid {T : Type} (grid : Grid T) (x y : Z) :
  grid_contains grid x y = true ->
  forall px py, In (px, py) (squares (mkSquareSet x y TOP_LEFT)) ->
                grid_contains grid px py = true.
Proof.
  intros Hc px py Hp. vm_compute in Hp. destruct Hp as [Hp|[]].
  injection Hp as <- <-. destruct x, y; exact Hc.
Qed.

Lemma set_in_grid_squares {T : Type} (grid : Grid T) (s : SquareSet) :
  set_in_grid grid s ->
  forall px py, In (px, py) (squares s) -> grid_contains grid px py = true.
Proof. intros [_ H] px py Hp. apply H, In_squares, Hp. Qed.

(* ===================================================================== *)
(** * The solver keeps its sets in the grid *)
(* ===================================================================== *)

Lemma mask9_land_ones (m : Z) : mask9 m <-> Z.land m 511 = m.
Proof.
  change 511 with (Z.ones 9). rewrite Z.land_ones by lia. unfold mask9.
  split; intros H.
  - apply Z.mod_small, H.
  - rewrite <- H. apply Z.mod_pos_bound. lia.
Qed.

Lemma mask9_lor (a b : Z) : mask9 a -> mask9 b -> mask9 (Z.lor a b).
Proof.
  rewrite !mask9_land_ones. intros Ha Hb.
  rewrite Z.land_lor_distr_l, Ha, Hb. reflexivity.
Qed.

Lemma neighbor_flag_mask9 (flag dx dy : Z) :
  In (flag, (dx, dy)) neighbors -> mask9 flag.
Proof.
  unfold neighbors. cbn [In]. intros H.
  repeat (destruct H as [H|H]; [injection H as <- <- <-; vm_compute;
                                split; [discriminate|reflexivity]|]).
  destruct H.
Qed.

Lemma neighbor_flag_bit (flag dx dy ddx ddy : Z) :
  In (flag, (dx, dy)) neighbors ->
  0 <= ddx < 3 -> 0 <= ddy < 3 ->
  Z.testbit flag (3 * ddy + ddx) = true ->
  ddx = dx + 1 /\ ddy = dy + 1.
Proof.
  intros Hin Hx Hy Hb.
  assert (ddx = 0 \/ ddx = 1 \/ ddx = 2) as Hx' by lia.
  assert (ddy = 0 \/ ddy = 1 \/ ddy = 2) as Hy' by lia.
  unfold neighbors in Hin. cbn [In] in Hin.
  destruct Hx' as [->|[->| ->]]; destruct Hy' as [->|[->| ->]];
    repeat (destruct Hin as [Hin|Hin];
            [injection Hin as <- <- <-; vm_compute in Hb;
             try discriminate; lia|]);
    destruct Hin.
Qed.

Lemma neighbor_flag_in_grid (grid : Grid Z) (x y flag dx dy mask : Z) :
  In (flag, (dx, dy)) neighbors ->
  grid_contains grid (x + dx) (y + dy) = true ->
  set_in_grid grid (mkSquareSet (x - 1) (y - 1) mask) ->
  set_in_grid grid (mkSquareSet (x - 1) (y - 1) (mask_or mask flag)).
Proof.
  intros Hin Hc [Hm Hall]. cbn [set_mask] in Hm. split.
  - cbn [set_mask]. apply mask9_lor; [exact Hm|].
    eapply neighbor_flag_mask9, Hin.
  - intros px py Hp. apply member_bounds in Hp.
    cbn [set_x set_y set_mask] in Hp. destruct Hp as [Hx [Hy Hb]].
    unfold mask_or in Hb. rewrite Z.lor_spec in Hb.
    apply orb_true_iff in Hb. destruct Hb as [Hb|Hb].
    + apply Hall. rewrite member_intro by (cbn [set_x set_y]; lia).
      exact Hb.
    + destruct (neighbor_flag_bit _ _ _ _ _ Hin Hx Hy Hb) as [Ex Ey].
      replace px with (x + dx) by lia. replace py with (y + dy) by lia.
      exact Hc.
Qed.

Lemma empty_in_grid {T : Type} (grid : Grid T) (x y : Z) :
  set_in_grid grid (mkSquareSet x y NONE).
Proof.
  split; [vm_compute; split; [discriminate|reflexivity]|].
  intros px py Hp. apply member_bounds in Hp. destruct Hp as [_ [_ Hb]].
  cbn [set_mask] in Hb. unfold NONE in Hb. rewrite Z.testbit_0_l in Hb.
  discriminate.
Qed.

Lemma top_left_mask9 : mask9 TOP_LEFT.
Proof. vm_compute. split; [discriminate|reflexivity]. Qed.

Lemma process_known_square_in_grid (fuel : nat) (grid : Grid Z) (i : Z)
      (ss ss' : SetStore) :
  grid_wf grid -> store_in_grid grid ss ->
  process_known_square fuel grid i ss = Ret ss' ->
  store_in_grid grid ss'.
Proof.
  unfold process_known_square. intros Hwf Hst H. cbv zeta in H.
  bind_step H v Hv. apply (grid_at_idx_Ret _ _ _ 0) in Hv.
  destruct Hv as [Hi _].
  set (x := fst (idx2pt grid i)) in *. set (y := snd (idx2pt grid i)) in *.
  bind_step H ss1 Hss1.
  assert (store_in_grid grid ss1) as Hst1.
  { destruct (Mine0 <=? v); [|injection Hss1 as <-; exact Hst].
    bind_step Hss1 mm Hmm. destruct mm as [mines mask].
    assert (set_in_grid grid (mkSquareSet (x - 1) (y - 1) mask)) as Hset.
    { match type of Hmm with
      | for_each ?l0 ?body ?s0 = _ =>
          pose proof (for_each_invariant
                        (fun st => set_in_grid grid
                                     (mkSquareSet (x - 1) (y - 1) (snd st)))
                        l0 body) as Hinv
      end.
      refine (Hinv _ _ _ _ Hmm); [|apply empty_in_grid].
      clear - Hwf. intros [flag [dx dy]] [mines0 mask0] [mines1 mask1] Hin.
      cbn [snd]. intros Hs Hb.
      destruct (grid_contains grid (x + dx) (y + dy)) eqn:Hc;
        cbn [negb] in Hb; [|injection Hb as <- <-; exact Hs].
      bind_step Hb nv Hnv.
      destruct (nv =? MarkedAsMine); [injection Hb as <- <-; exact Hs|].
      destruct (nv =? Unknown); injection Hb as <- <-; [|exact Hs].
      eapply neighbor_flag_in_grid; eassumption. }
    destruct (mask_nonzero mask); [|injection Hss1 as <-; exact Hst].
    eapply add_in_grid; eassumption. }
  match type of H with
  | for_each ?l0 ?body ?s0 = _ =>
      pose proof (for_each_invariant (store_in_grid grid) l0 body) as Hinv
  end.
  refine (Hinv _ _ _ Hst1 H).
  clear. intros it s s1 _ Hs Hb.
  bind_step Hb e He. bind_step Hb s2 Hs2.
  eapply erase_in_grid; [|exact Hb].
  pose proof (deref_in_grid _ _ _ _ Hs He) as Hset.
  destruct (mask_nonzero _); [|injection Hs2 as <-; exact Hs].
  eapply add_in_grid; [exact Hs| |exact Hs2].
  apply set_minus_in_grid; [exact Hset|apply top_left_mask9].
Qed.

Lemma process_newly_known_squares_in_grid (fuel : nat)
      (squareTodo : SquareTodo) (grid : Grid Z) (ss ss' : SetStore) :
  grid_wf grid -> store_in_grid grid ss ->
  process_newly_known_squares fuel squareTodo grid ss = Ret ss' ->
  store_in_grid grid ss'.
Proof.
  unfold process_newly_known_squares. intros Hwf Hst H.
  refine (for_each_invariant (store_in_grid grid) _ _ _ _ _ Hst H).
  intros i s s1 _ Hs Hb. eapply process_known_square_in_grid; eassumption.
Qed.

(* ===================================================================== *)
(** * The solver keeps the invariant of the game *)
(* ===================================================================== *)

Lemma set_eta (s : SquareSet) :
  mkSquareSet (set_x s) (set_y s) (set_mask s) = s.
Proof. destruct s; reflexivity. Qed.

(** [mark_known_squares] on a set of squares of the grid. *)
Lemma mark_known_squares_step (safe : bool) (game0 thegame game' : GameData)
      (std std' : SquareTodo) (x y mask : Z) (mine : bool) :
  game_inv safe thegame ->
  shape (gd_grid thegame) = shape (gd_grid game0) ->
  set_in_grid (gd_grid game0) (mkSquareSet x y mask) ->
  mark_known_squares thegame std x y mask mine = Ret (game', std') ->
  game_inv safe game' /\ shape (gd_grid game') = shape (gd_grid game0).
Proof.
  intros Hinv Hsh Hset H. split.
  - eapply mark_known_squares_inv; [exact Hinv| |exact H].
    apply set_in_grid_squares.
    eapply set_in_grid_shape; [|exact Hset]. exact Hsh.
  - apply mark_known_squares_frame in H. destruct H as [_ [_ [_ H]]].
    congruence.
Qed.

Lemma process_next_todo_inv (safe : bool) (fuel : nat) (s : SetStoreElement)
      (thegame game' : GameData) (stodo stodo' : SquareTodo)
      (ss ss' : SetStore) :
  game_inv safe thegame ->
  store_in_grid (gd_grid thegame) ss ->
  set_in_grid (gd_grid thegame) (e_set s) ->
  process_next_todo fuel s thegame stodo ss = Ret (game', stodo', ss') ->
  game_inv safe game' /\ store_in_grid (gd_grid game') ss'.
Proof.
  unfold process_next_todo. intros Hinv Hst Hs H. cbv zeta in H.
  destruct ((e_mines s =? 0) || (e_mines s =? count (set_mask (e_set s)))).
  - bind_step H gs Hgs. destruct gs as [game1 stodo1].
    injection H as <- <- <-.
    destruct (mark_known_squares_step safe thegame thegame game1 _ _ _ _ _ _
                Hinv eq_refl ltac:(rewrite set_eta; exact Hs) Hgs)
      as [Hinv1 Hsh1].
    split; [exact Hinv1|]. eapply store_in_grid_shape; eassumption.
  - match type of H with
    | for_each ?l0 ?body ?s0 = _ =>
        pose proof (for_each_invariant
                      (fun st =>
                         game_inv safe (fst (fst st))
                         /\ shape (gd_grid (fst (fst st)))
                            = shape (gd_grid thegame)
                         /\ store_in_grid (gd_grid thegame) (snd st))
                      l0 body) as Hl
    end.
    refine ((fun P => _) (Hl _ _ _ _ H)); cbn [fst snd] in *.
    + destruct P as [P1 [P2 P3]]. split; [exact P1|].
      eapply store_in_grid_shape; eassumption.
    + clear - Hs. intros it [[g0 t0] s0] [[g1 t1] s1] _.
      cbn [fst snd]. intros [I1 [I2 I3]] Hb.
      bind_step Hb s2 Hs2.
      pose proof (deref_in_grid _ _ _ _ I3 Hs2) as Hset2.
      cbv zeta in Hb.
      pose proof (set_minus_in_grid (gd_grid thegame) _ _ Hs (proj1 Hset2))
        as Hwing.
      pose proof (set_minus_in_grid (gd_grid thegame) _ _ Hset2 (proj1 Hs))
        as Hwing2.
      destruct ((count _ =? e_mines s - e_mines s2)
                || (count _ =? e_mines s2 - e_mines s)).
      { bind_step Hb ga Hga. destruct ga as [ga ta].
        bind_step Hb gb Hgb. destruct gb as [gb tb].
        injection Hb as <- <- <-.
        destruct (mark_known_squares_step safe thegame g0 ga _ _ _ _ _ _
                    I1 I2 Hwing Hga) as [Ia Sa].
        destruct (mark_known_squares_step safe thegame ga gb _ _ _ _ _ _
                    Ia Sa Hwing2 Hgb) as [Ib Sb].
        auto. }
      destruct ((count _ =? 0) && negb (count _ =? 0)).
      { bind_step Hb u Hu. bind_step Hb sa Hsa. injection Hb as <- <- <-.
        split; [exact I1|]. split; [exact I2|].
        eapply add_in_grid; [exact I3|exact Hwing2|exact Hsa]. }
      destruct ((count _ =? 0) && negb (count _ =? 0)).
      { bind_step Hb u Hu. bind_step Hb sa Hsa. injection Hb as <- <- <-.
        split; [exact I1|]. split; [exact I2|].
        eapply add_in_grid; [exact I3|exact Hwing|exact Hsa]. }
      injection Hb as <- <- <-. auto.
    + auto.
Qed.

Lemma mark_known_square_step (safe : bool) (game0 thegame game' : GameData)
      (std std' : SquareTodo) (i : Z) (mine : bool) :
  game_inv safe thegame ->
  shape (gd_grid thegame) = shape (gd_grid game0) ->
  In i (grid_indices (gd_grid game0)) ->
  mark_known_square thegame std (fst (idx2pt (gd_grid thegame) i))
    (snd (idx2pt (gd_grid thegame) i)) mine = Ret (game', std') ->
  game_inv safe game' /\ shape (gd_grid game') = shape (gd_grid game0).
Proof.
  intros Hinv Hsh Hi H. unfold mark_known_square in H.
  eapply mark_known_squares_step; [exact Hinv|exact Hsh| |exact H].
  assert (grid_contains (gd_grid thegame) (fst (idx2pt (gd_grid thegame) i))
            (snd (idx2pt (gd_grid thegame) i)) = true) as Hc.
  { apply idx2pt_in; [apply Hinv|].
    apply in_grid_indices in Hi. unfold grid_size in *.
    unfold shape in Hsh. inversion Hsh as [[Hw Hh Hl]]. rewrite Hl.
    exact Hi. }
  rewrite (shape_contains (gd_grid game0) (gd_grid thegame)) in Hc
    by exact Hsh.
  split; [apply top_left_mask9|]. intros px py Hp.
  apply In_squares in Hp. eapply single_in_grid; eassumption.
Qed.

Lemma mark_outside_inv (safe : bool) (sets : list SetStoreElement)
      (nsets : Z) (setused : list bool) (minesleft : Z)
      (thegame game' : GameData) (stodo stodo' : SquareTodo) :
  game_inv safe thegame ->
  mark_outside sets nsets setused minesleft thegame stodo
  = Ret (game', stodo') ->
  game_inv safe game'.
Proof.
  unfold mark_outside. intros Hinv H.
  match type of H with
  | for_each ?l0 ?body ?s0 = _ =>
      pose proof (for_each_invariant
                    (fun st =>
                       game_inv safe (fst st)
                       /\ shape (gd_grid (fst st)) = shape (gd_grid thegame))
                    l0 body) as Hl
  end.
  refine (proj1 (Hl _ _ _ _ H)); cbn [fst]; [|auto].
  clear. intros i [g0 t0] [g1 t1] Hi. cbn [fst]. intros [I1 I2] Hb.
  bind_step Hb v Hv.
  destruct (v =? Unknown); [|injection Hb as <- <-; auto].
  cbv zeta in Hb.
  destruct (negb (existsb _ _)); [|injection Hb as <- <-; auto].
  eapply mark_known_square_step; eassumption.
Qed.

Lemma global_loop_inv (safe : bool) (fuel : nat)
      (sets : list SetStoreElement) (nsets : Z) (thegame : GameData)
      (stodo : SquareTodo) :
  game_inv safe thegame ->
  forall (cursor : Z) (setused : list bool) (minesleft squaresleft : Z)
         (b : bool) (game' : GameData) (stodo' : SquareTodo),
    global_loop fuel sets nsets thegame stodo cursor setused minesleft
      squaresleft = Ret (b, game', stodo') ->
    game_inv safe game'.
Proof.
  intros Hinv. induction fuel as [|fuel IH];
    intros cursor setused minesleft squaresleft b game' stodo' H;
    cbn [global_loop] in H; [discriminate|].
  destruct (cursor <? nsets).
  - cbv zeta in H. eapply IH; exact H.
  - destruct ((0 <? squaresleft)
              && ((minesleft =? 0) || (minesleft =? squaresleft))).
    + bind_step H gs Hgs. destruct gs as [g1 t1]. injection H as _ <- _.
      eapply mark_outside_inv; eassumption.
    + cbv zeta in H. destruct (0 <=? backtrack _ _).
      * bind_step H u Hu. eapply IH; exact H.
      * injection H as _ <- _. exact Hinv.
Qed.

Lemma attempt_global_deduction_inv (safe : bool) (fuel : nat)
      (n squaresleft minesleft : Z) (thegame game' : GameData)
      (stodo stodo' : SquareTodo) (ss : SetStore) (b : bool) :
  game_inv safe thegame ->
  attempt_global_deduction fuel n squaresleft minesleft thegame stodo ss
  = Ret (b, game', stodo') ->
  game_inv safe game'.
Proof.
  unfold attempt_global_deduction. intros Hinv H.
  destruct ((minesleft =? 0) || (minesleft =? squaresleft)).
  - bind_step H gs Hgs. destruct gs as [g1 t1]. injection H as _ <- _.
    match type of Hgs with
    | for_each ?l0 ?body ?s0 = _ =>
        pose proof (for_each_invariant
                      (fun st =>
                         game_inv safe (fst st)
                         /\ shape (gd_grid (fst st))
                            = shape (gd_grid thegame))
                      l0 body) as Hl
    end.
    refine (proj1 (Hl _ _ _ _ Hgs)); cbn [fst]; [|auto].
    clear. intros i [g0 t0] [g2 t2] Hi. cbn [fst]. intros [I1 I2] Hb.
    bind_step Hb v Hv.
    destruct (v =? Unknown); [|injection Hb as <- <-; auto].
    cbv zeta in Hb. eapply mark_known_square_step; eassumption.
  - cbv zeta in H. destruct (setused_size <? setstore_size ss).
    + injection H as _ <- _. exact Hinv.
    + eapply global_loop_inv; eassumption.
Qed.

(* ===================================================================== *)
(** * The invariant of the main loop of the solver *)
(* ===================================================================== *)

Lemma keeps_mines_refl (game : GameData) : keeps_mines game game.
Proof. repeat split. Qed.

Lemma keeps_mines_trans (g1 g2 g3 : GameData) :
  keeps_mines g1 g2 -> keeps_mines g2 g3 -> keeps_mines g1 g3.
Proof.
  intros [X1 [Y1 [C1 M1]]] [X2 [Y2 [C2 M2]]].
  split; [congruence|]. split; [congruence|]. split; [congruence|].
  intros x y Hn. rewrite M2, M1; [reflexivity|exact Hn|].
  rewrite X1, Y1. exact Hn.
Qed.

Lemma same_frame_keeps_mines (g1 g2 : GameData) :
  same_frame g1 g2 -> keeps_mines g1 g2.
Proof.
  intros [X [Y [M _]]]. unfold keeps_mines. rewrite X, Y, M. repeat split.
Qed.

Lemma count_if_existsb {T : Type} (f : T -> bool) (l : list T) :
  (count_if f l =? 0) = negb (existsb f l).
Proof.
  unfold count_if. induction l as [|a l IH]; cbn [filter existsb];
    [reflexivity|].
  destruct (f a); cbn [length orb negb]; [|exact IH].
  apply Z.eqb_neq. lia.
Qed.

Section SolverInvariant.

Context {R : RNG}.

Hypothesis shuffle_law : shuffle_permutes R.

Lemma setstore_at_in_grid (grid : Grid Z) (ss : SetStore) (i : Z)
      (s : SquareSet) :
  store_in_grid grid ss -> setstore_at ss i = Ret s -> set_in_grid grid s.
Proof.
  unfold setstore_at. intros Hst H.
  destruct ((0 <=? i) && (i <? setstore_size ss)); [|discriminate].
  destruct (nth_error (m_elements ss) (Z.to_nat i)) as [e|] eqn:He;
    [|discriminate].
  injection H as <-. apply Hst. eapply nth_error_In, He.
Qed.

Lemma perturb_ss_inv (safe : bool) (pb pb' : Perturbator)
      (rng rng' : RandomEngine) (ctx ctx' : GameData) (ss : SetStore)
      (ret : list Perturbation) :
  game_inv safe ctx -> store_in_grid (gd_grid ctx) ss ->
  perturb_ss pb rng ctx ss = Ret (ret, ctx', pb', rng') ->
  game_inv safe ctx' /\ keeps_mines ctx ctx'.
Proof.
  unfold perturb_ss. cbv zeta. intros Hinv Hst H.
  assert (forall x y mask rng0,
             set_in_grid (gd_grid ctx) (mkSquareSet x y mask) ->
             perturb pb rng0 ctx x y mask = Ret (ret, ctx', pb', rng') ->
             game_inv safe ctx' /\ keeps_mines ctx ctx') as Hp.
  { intros x y mask rng0 Hset Hp. apply perturb_spec in Hp.
    destruct Hp as [_ [_ Hp]].
    destruct (mineperturb_inv shuffle_law safe _ _ _ _ _ _ _ _ _ Hinv
                (set_in_grid_squares _ _ Hset) Hp)
      as [Hinv' [Hcnt [_ [Hsame [Hsx Hsy]]]]].
    split; [exact Hinv'|]. repeat split; assumption. }
  destruct (setstore_size ss =? 0).
  - eapply Hp; [|exact H]. apply empty_in_grid.
  - destruct (uniform_int 0 (setstore_size ss - 1) rng) as [i rng1].
    bind_step H s Hs. eapply Hp; [|exact H]. rewrite set_eta.
    eapply setstore_at_in_grid; eassumption.
Qed.

Lemma perturb_grid_inv (safe : bool) (pb pb' : Perturbator)
      (rng rng' : RandomEngine) (thegame game' : GameData)
      (stodo stodo' : SquareTodo) (ss ss' : SetStore) (b : bool) :
  game_inv safe thegame -> store_in_grid (gd_grid thegame) ss ->
  perturb_grid pb rng thegame stodo ss
  = Ret (b, pb', rng', game', stodo', ss') ->
  game_inv safe game' /\ store_in_grid (gd_grid game') ss'
  /\ keeps_mines thegame game'.
Proof.
  intros Hinv Hst H.
  pose proof (perturb_grid_spec _ _ _ _ _ _ _ _ _ _ _ H) as [_ [Hsh _]].
  unfold perturb_grid in H.
  bind_step H r Hr. destruct r as [[[ret game1] pb1] rng1].
  destruct (perturb_ss_inv safe _ _ _ _ _ _ _ _ Hinv Hst Hr) as [Hinv1 Hk].
  assert (shape (gd_grid game') = shape (gd_grid thegame)) as Hg
    by apply Hsh.
  destruct ret as [|p ret].
  - injection H as _ _ _ <- _ <-.
    split; [exact Hinv1|]. split; [|exact Hk].
    eapply store_in_grid_shape; eassumption.
  - set (l := p :: ret) in *. clearbody l.
    bind_step H ts Hts. destruct ts as [stodo1 ss1].
    injection H as _ _ _ <- _ <-.
    split; [exact Hinv1|]. split; [|exact Hk].
    eapply store_in_grid_shape; [exact Hg|].
    match type of Hts with
    | for_each ?l0 ?body ?s0 = _ =>
        pose proof (for_each_invariant
                      (fun st => store_in_grid (gd_grid thegame) (snd st))
                      l0 body) as Hl
    end.
    refine (Hl _ (stodo, ss) (stodo1, ss1) Hst Hts). clear.
    intros q [t0 s0] [t1 s1] _. cbn [snd]. intros Hs Hb.
    bind_step Hb v Hv. cbv zeta in Hb. bind_step Hb s2 Hs2.
    injection Hb as _ <-.
    match type of Hs2 with
    | for_each ?l0 ?body ?s0 = _ =>
        pose proof (for_each_invariant
                      (store_in_grid (gd_grid thegame)) l0 body) as Hl
    end.
    refine (Hl _ _ _ Hs Hs2). clear.
    intros it s s' _ Hs Hb. bind_step Hb e He.
    eapply add_todo_in_grid; [|exact Hb].
    apply map_update_in_grid; [reflexivity|exact Hs].
Qed.

(** The main loop keeps the invariant of the game and the mines; when it
    ends with no unknown square, it went through the assertion that no
    mine is left: the squares marked as mines are as many as the mines. *)
Lemma solve_loop_inv (safe : bool) (fuel : nat) (n : Z) :
  forall (steps : nat)
         (perturbator perturbator' : option (Perturbator * RandomEngine))
         (thegame game' : GameData) (stodo : SquareTodo) (ss : SetStore),
    game_inv safe thegame -> store_in_grid (gd_grid thegame) ss ->
    solve_loop fuel steps n perturbator thegame stodo ss
    = Ret (game', perturbator') ->
    game_inv safe game' /\ keeps_mines thegame game'
    /\ (has_unknown (gd_grid game') = false ->
        count_if (fun v => v =? MarkedAsMine) (g_data (gd_grid game')) = n).
Proof.
  induction steps as [|steps IH];
    intros pert pert' thegame game' stodo ss Hinv Hst H;
    cbn [solve_loop] in H; [discriminate|].
  bind_step H ss1 Hss1.
  pose proof (process_newly_known_squares_in_grid _ _ _ _ _
                (proj1 (proj2 (proj1 Hinv))) Hst Hss1) as Hst1.
  bind_step H ts Hts. destruct ts as [todo ss2].
  destruct (next_todo_in_grid _ _ _ _ Hst1 Hts) as [Hst2 Htodo].
  destruct todo as [s|].
  { bind_step H r Hr. destruct r as [[game1 stodo1] ss3].
    destruct (process_next_todo_inv safe _ _ _ _ _ _ _ _ Hinv Hst2
                (Htodo s eq_refl) Hr) as [Hinv1 Hst3].
    apply process_next_todo_frame in Hr.
    destruct (IH _ _ _ _ _ _ Hinv1 Hst3 H) as [Hinv' [Hk' Hend]].
    split; [exact Hinv'|]. split; [|exact Hend].
    eapply keeps_mines_trans; [|exact Hk'].
    apply same_frame_keeps_mines, Hr. }
  cbv zeta in H.
  destruct (count_if (fun v => v =? Unknown) (g_data (gd_grid thegame)) =? 0)
    eqn:Hleft.
  { bind_step H u Hu. apply assert_Ret_inv in Hu. injection H as <- _.
    split; [exact Hinv|]. split; [apply keeps_mines_refl|].
    intros _. apply Z.eqb_eq in Hu. lia. }
  assert (has_unknown (gd_grid thegame) = true) as Hunk.
  { rewrite count_if_existsb in Hleft. apply negb_false_iff in Hleft.
    exact Hleft. }
  bind_step H r Hr. destruct r as [[success game1] stodo1].
  assert (game_inv safe game1 /\ same_frame thegame game1
          /\ (success = false -> game1 = thegame)) as [Hinv1 [Hf1 Hsame1]].
  { destruct (0 <=? n).
    - split; [eapply attempt_global_deduction_inv; eassumption|].
      apply attempt_global_deduction_frame in Hr. destruct Hr as [Hf Hs].
      split; [exact Hf|]. intros E. apply Hs, E.
    - injection Hr as _ <- _. split; [exact Hinv|].
      split; [apply same_frame_refl|reflexivity]. }
  assert (store_in_grid (gd_grid game1) ss2) as Hst3.
  { eapply store_in_grid_shape; [|exact Hst2]. apply Hf1. }
  apply same_frame_keeps_mines in Hf1.
  destruct success.
  { destruct (IH _ _ _ _ _ _ Hinv1 Hst3 H) as [Hinv' [Hk' Hend]].
    split; [exact Hinv'|]. split; [|exact Hend].
    eapply keeps_mines_trans; eassumption. }
  specialize (Hsame1 eq_refl). subst game1.
  destruct pert as [[pb rng]|].
  - bind_step H r2 Hr2.
    destruct r2 as [[[[[success2 pb2] rng2] game2] stodo2] ss4].
    destruct (perturb_grid_inv safe _ _ _ _ _ _ _ _ _ _ _ Hinv Hst3 Hr2)
      as [Hinv2 [Hst4 Hk2]].
    apply perturb_grid_spec in Hr2. destruct Hr2 as [_ [_ Hsame2]].
    destruct success2.
    + destruct (IH _ _ _ _ _ _ Hinv2 Hst4 H) as [Hinv' [Hk' Hend]].
      split; [exact Hinv'|]. split; [|exact Hend].
      eapply keeps_mines_trans; eassumption.
    + injection H as <- _. specialize (Hsame2 eq_refl). subst game2.
      split; [exact Hinv|]. split; [apply keeps_mines_refl|].
      intros E. congruence.
  - injection H as <- _.
    split; [exact Hinv|]. split; [apply keeps_mines_refl|].
    intros E. congruence.
Qed.

End SolverInvariant.

(* ===================================================================== *)
(** * Soundness of the solver *)
(* ===================================================================== *)

Lemma count_marked_le (vs : list Z) :
  forall ms : list bool,
    length vs = length ms ->
    (forall i, (i < length ms)%nat ->
               nth i ms false = true -> nth i vs Unknown = MarkedAsMine) ->
    count_if (fun m : bool => m) ms
    <= count_if (fun v => v =? MarkedAsMine) vs.
Proof.
  unfold count_if.
  induction vs as [|v vs IH]; intros [|m ms] Hlen H;
    try (cbn in Hlen; discriminate); cbn [filter length]; try lia.
  assert (Z.of_nat (length (filter (fun m : bool => m) ms))
          <= Z.of_nat (length (filter (fun v => v =? MarkedAsMine) vs)))
    as Hle.
  { apply IH; [cbn in Hlen; lia|]. intros i Hi Hm.
    apply (H (S i)); [cbn; lia|exact Hm]. }
  destruct m.
  - rewrite (H 0%nat ltac:(cbn; lia) eq_refl : v = MarkedAsMine).
    cbn [Z.eqb MarkedAsMine Pos.eqb length]. lia.
  - destruct (v =? MarkedAsMine); cbn [length]; lia.
Qed.

Lemma count_marked_all (vs : list Z) :
  forall ms : list bool,
    length vs = length ms ->
    (forall i, (i < length ms)%nat ->
               nth i ms false = true -> nth i vs Unknown = MarkedAsMine) ->
    count_if (fun v => v =? MarkedAsMine) vs
    = count_if (fun m : bool => m) ms ->
    forall i, (i < length ms)%nat ->
              nth i vs Unknown = MarkedAsMine -> nth i ms false = true.
Proof.
  induction vs as [|v vs IH]; intros [|m ms] Hlen H Hcnt i Hi Hv;
    try (cbn in Hlen; discriminate); [cbn in Hi; lia|].
  assert (length vs = length ms) as Hlen' by (cbn in Hlen; lia).
  assert (forall i, (i < length ms)%nat ->
                    nth i ms false = true ->
                    nth i vs Unknown = MarkedAsMine) as H'.
  { intros j Hj Hm. apply (H (S j)); [cbn; lia|exact Hm]. }
  pose proof (count_marked_le vs ms Hlen' H') as Hle.
  unfold count_if in *. cbn [filter] in Hcnt.
  destruct m.
  - rewrite (H 0%nat ltac:(cbn; lia) eq_refl : v = MarkedAsMine) in Hcnt.
    cbn [Z.eqb MarkedAsMine Pos.eqb length] in Hcnt.
    destruct i as [|i]; [reflexivity|]. cbn [nth] in *.
    apply IH; [exact Hlen'|exact H'|unfold count_if; lia|cbn in Hi; lia|
               exact Hv].
  - destruct (v =? MarkedAsMine) eqn:E; cbn [length] in Hcnt; [lia|].
    destruct i as [|i]; cbn [nth] in *.
    + apply Z.eqb_neq in E. contradiction.
    + apply IH; [exact Hlen'|exact H'|unfold count_if; lia|cbn in Hi; lia|
                 exact Hv].
Qed.

(** No unknown value in the data of a grid: no unknown cell. *)
Lemma has_unknown_cells (grid : Grid Z) :
  grid_wf grid ->
  (has_unknown grid = false
   <-> forall x y, grid_contains grid x y = true ->
                   cell grid x y <> Unknown).
Proof.
  intros Hwf. unfold has_unknown. split.
  - intros H x y Hc Hv.
    assert (existsb (fun v => v =? Unknown) (g_data grid) = true) as Ht;
      [|congruence].
    apply existsb_exists. exists (cell grid x y). split.
    + unfold cell. apply nth_In.
      pose proof (idx_in_grid grid x y Hwf Hc) as Hi.
      unfold grid_size in Hi. lia.
    + rewrite Hv. reflexivity.
  - intros H. destruct (existsb _ _) eqn:E; [|reflexivity].
    apply existsb_exists in E. destruct E as [v [Hin Hv]].
    apply Z.eqb_eq in Hv. subst v.
    destruct (In_nth _ _ Unknown Hin) as [i [Hi Hn]].
    assert (0 <= Z.of_nat i < grid_size grid) as Hi'
        by (unfold grid_size; lia).
    destruct (idx2pt_in grid _ Hwf Hi') as [Hc He].
    exfalso. apply (H _ _ Hc). unfold cell. rewrite He, Nat2Z.id. exact Hn.
Qed.

Section SolverSoundness.

Context {R : RNG}.

Hypothesis shuffle_law : shuffle_permutes R.

Lemma solve_inv (safe : bool) (fuel : nat)
      (perturbator perturbator' : option (Perturbator * RandomEngine))
      (thegame game' : GameData) (b : bool) :
  game_inv safe thegame ->
  solve fuel perturbator thegame = Ret (b, game', perturbator') ->
  b = negb (has_unknown (gd_grid game'))
  /\ game_inv safe game' /\ keeps_mines thegame game'
  /\ (b = true ->
      count_if (fun v => v =? MarkedAsMine) (g_data (gd_grid game'))
      = mine_count (gd_mines game')).
Proof.
  unfold solve. intros Hinv H. cbv zeta in H.
  bind_step H stodo Hstodo. bind_step H r Hr. destruct r as [game1 pert1].
  injection H as <- <- <-.
  destruct (solve_loop_inv shuffle_law safe _ _ _ _ _ _ _ _ _ Hinv
              (store_in_grid_empty _) Hr) as [Hinv' [Hk Hend]].
  split; [reflexivity|]. split; [exact Hinv'|]. split; [exact Hk|].
  intros Hb. apply negb_true_iff in Hb. rewrite (Hend Hb).
  destruct Hk as [_ [_ [Hc _]]]. symmetry. exact Hc.
Qed.

(** C1. Solver soundness and return condition: on a well-formed game whose
    revealed squares are safe and show the right counts, [solve] returns
    true if and only if no square of the final grid is unknown; and when
    it returns true, a square is marked as a mine exactly when it holds a
    mine, and every revealed square shows the number of mines among its
    neighbours in the grid.  [std::shuffle], which a perturbator calls, is
    assumed to permute its range. *)
Theorem solve_sound (fuel : nat)
        (perturbator perturbator' : option (Perturbator * RandomEngine))
        (thegame game' : GameData) (b : bool) :
  game_inv true thegame ->
  solve fuel perturbator thegame = Ret (b, game', perturbator') ->
  (b = true <->
   forall x y, grid_contains (gd_grid game') x y = true ->
               cell (gd_grid game') x y <> Unknown)
  /\ (b = true ->
      forall x y,
        grid_contains (gd_grid game') x y = true ->
        (cell (gd_grid game') x y = MarkedAsMine
         <-> mine_at (gd_mines game') x y = true)
        /\ (forall n, Mine0 <= n -> cell (gd_grid game') x y = n ->
                      n = neighbor_mines (gd_mines game') x y)).
Proof.
  intros Hinv H.
  destruct (solve_inv true _ _ _ _ _ _ Hinv H)
    as [Hb [[Hwf [Hok Hval]] [_ Hcnt]]].
  pose proof Hwf as [Wm [Wg [Ew Eh]]].
  pose proof (has_unknown_cells (gd_grid game') Wg) as Hunk.
  assert (b = true <-> has_unknown (gd_grid game') = false) as Hb'.
  { rewrite Hb. apply negb_true_iff. }
  split; [rewrite Hb'; exact Hunk|].
  intros Ht. specialize (Hcnt Ht). rewrite Hb', Hunk in Ht.
  assert (forall x y, grid_contains (gd_grid game') x y = true ->
                      mine_at (gd_mines game') x y = true ->
                      cell (gd_grid game') x y = MarkedAsMine) as Hmine.
  { intros x y Hc Hm. specialize (Ht x y Hc). specialize (Hval x y Hc).
    destruct (Z.le_gt_cases 0 (cell (gd_grid game') x y)) as [Hpos|Hneg].
    - destruct (Hok x y Hc Hpos) as [Hsafe _].
      rewrite (Hsafe eq_refl) in Hm. discriminate.
    - unfold Unknown, MarkedAsMine in *. lia. }
  assert (length (g_data (gd_grid game'))
          = length (g_data (gd_mines game'))) as Hlen.
  { destruct Wm as [_ [_ Sm]], Wg as [_ [_ Sg]]. unfold grid_size in *.
    rewrite Ew, Eh, <- Sm in Sg. lia. }
  intros x y Hc. split; [|intros n Hn Hv; subst n; apply (Hok x y Hc Hn)].
  split; [|apply Hmine, Hc].
  intros Hv.
  pose proof (idx_in_grid _ x y Wg Hc) as Hi. unfold grid_size in Hi.
  unfold mine_at. rewrite (game_wf_contains _ _ _ Hwf), Hc. cbn [andb].
  rewrite <- Ew.
  apply (count_marked_all (g_data (gd_grid game'))
           (g_data (gd_mines game')) Hlen); [|exact Hcnt|lia|exact Hv].
  intros i Hlt Hm.
  assert (0 <= Z.of_nat i < grid_size (gd_grid game')) as Hi'
      by (unfold grid_size; lia).
  destruct (idx2pt_in (gd_grid game') _ Wg Hi') as [Hc' He].
  specialize (Hmine _ _ Hc'). unfold cell, mine_at in Hmine.
  rewrite (game_wf_contains _ _ _ Hwf), Hc', <- Ew, He, Nat2Z.id in Hmine.
  apply Hmine. exact Hm.
Qed.

End SolverSoundness.

Lemma test_solve :
  @solve test_rng 60 None test_game = Ret (true, test_solved, None).
Proof. vm_compute. reflexivity. Qed.

Lemma solve_sound_witness :
  (true = true <->
   forall x y, grid_contains (gd_grid test_solved) x y = true ->
               cell (gd_grid test_solved) x y <> Unknown)
  /\ (true = true ->
      forall x y,
        grid_contains (gd_grid test_solved) x y = true ->
        (cell (gd_grid test_solved) x y = MarkedAsMine
         <-> mine_at (gd_mines test_solved) x y = true)
        /\ (forall n, Mine0 <= n -> cell (gd_grid test_solved) x y = n ->
                      n = neighbor_mines (gd_mines test_solved) x y)).
Proof.
  apply (@solve_sound test_rng test_rng_permutes 60 None None test_game
           test_solved true).
  - apply game_invb_ok. vm_compute. reflexivity.
  - exact test_solve.
Defined.

(* ===================================================================== *)
(** * The random placement of the mines *)
(* ===================================================================== *)

Lemma zrange_NoDup (n : nat) : NoDup (zrange n).
Proof.
  unfold zrange. apply Finite.Injective_map_NoDup; [|apply seq_NoDup].
  intros a b H. lia.
Qed.

Lemma zrange_length (n : nat) : length (zrange n) = n.
Proof. unfold zrange. rewrite length_map, length_seq. reflexivity. Qed.

Lemma NoDup_flat_map {A B : Type} (f : A -> list B) (l : list A) :
  NoDup l ->
  (forall a, In a l -> NoDup (f a)) ->
  (forall a a' b, In a l -> In a' l -> In b (f a) -> In b (f a') -> a = a') ->
  NoDup (flat_map f l).
Proof.
  induction 1 as [|a l Ha Hl IH]; intros Hf Hd; cbn [flat_map];
    [constructor|].
  apply NoDup_app.
  - apply Hf. left. reflexivity.
  - apply IH.
    + intros a' Ha'. apply Hf. right. exact Ha'.
    + intros a1 a2 b H1 H2. apply Hd; right; assumption.
  - intros b Hb Hb'. apply in_flat_map in Hb'.
    destruct Hb' as [a' [Ha' Hb']].
    assert (a = a') as <-; [|contradiction].
    apply (Hd a a' b); [left; reflexivity|right; exact Ha'|exact Hb|exact Hb'].
Qed.

Lemma In_mine_candidates (ret : Grid bool) (w h x y k : Z) :
  In k (mine_candidates ret w h x y)
  <-> exists i j, 0 <= i < h /\ 0 <= j < w
                  /\ (1 < Z.abs (i - y) \/ 1 < Z.abs (j - x))
                  /\ k = i * g_width ret + j.
Proof.
  unfold mine_candidates, pt2idx. rewrite in_flat_map. split.
  - intros [i [Hi H]]. apply in_flat_map in H. destruct H as [j [Hj H]].
    apply in_zrange in Hi. apply in_zrange in Hj.
    destruct ((1 <? Z.abs (i - y)) || (1 <? Z.abs (j - x))) eqn:E;
      [|destruct H].
    destruct H as [<-|[]]. exists i, j.
    apply orb_true_iff in E. rewrite !Z.ltb_lt in E.
    repeat split; try lia.
  - intros [i [j [Hi [Hj [Hfar ->]]]]]. exists i.
    split; [apply in_zrange; lia|]. apply in_flat_map. exists j.
    split; [apply in_zrange; lia|].
    replace ((1 <? Z.abs (i - y)) || (1 <? Z.abs (j - x))) with true.
    + left. reflexivity.
    + symmetry. apply orb_true_iff. rewrite !Z.ltb_lt. exact Hfar.
Qed.

Lemma NoDup_mine_candidates (ret : Grid bool) (w h x y : Z) :
  g_width ret = w -> NoDup (mine_candidates ret w h x y).
Proof.
  intros Hw. unfold mine_candidates, pt2idx. rewrite Hw.
  apply NoDup_flat_map; [apply zrange_NoDup| |].
  - intros i _. apply NoDup_flat_map; [apply zrange_NoDup| |].
    + intros j _. destruct (_ || _); repeat constructor. intros [].
    + intros j j' b _ _ Hb Hb'.
      destruct (_ || _); [|destruct Hb].
      destruct (_ || _); [|destruct Hb'].
      destruct Hb as [<-|[]]. destruct Hb' as [Hb'|[]]. lia.
  - intros i i' b Hi Hi' Hb Hb'.
    apply in_flat_map in Hb. destruct Hb as [j [Hj Hb]].
    apply in_flat_map in Hb'. destruct Hb' as [j' [Hj' Hb']].
    apply in_zrange in Hj. apply in_zrange in Hj'.
    destruct (_ || _); [|destruct Hb].
    destruct (_ || _); [|destruct Hb'].
    destruct Hb as [<-|[]]. destruct Hb' as [Hb'|[]].
    symmetry. eapply (idx_inj w j' i' j i); [lia|lia|exact Hb'].
Qed.

(** All the squares but the nine around the start are candidates. *)
Lemma mine_candidates_length (ret : Grid bool) (w h x y : Z) :
  g_width ret = w -> 0 < w -> 0 <= h ->
  w * h - 9 <= Z.of_nat (length (mine_candidates ret w h x y)).
Proof.
  intros Hw Hpos Hh.
  assert (incl (zrange (Z.to_nat (w * h)))
               (mine_candidates ret w h x y ++ near_indices w x y)) as Hincl.
  { intros k Hk. apply in_zrange in Hk. apply in_app_iff.
    assert (0 <= k mod w < w) as Hj by (apply Z.mod_pos_bound; lia).
    assert (0 <= k / w < h) as Hi.
    { split; [apply Z.div_pos; lia|].
      apply Z.div_lt_upper_bound; lia. }
    pose proof (Z.div_mod k w ltac:(lia)) as Hk'.
    destruct (Z_lt_dec 1 (Z.abs (k / w - y))) as [Hfar|Hn1];
      [left; apply In_mine_candidates; exists (k / w), (k mod w);
       rewrite Hw; repeat split; try lia|].
    destruct (Z_lt_dec 1 (Z.abs (k mod w - x))) as [Hfar|Hn2];
      [left; apply In_mine_candidates; exists (k / w), (k mod w);
       rewrite Hw; repeat split; try lia|].
    right. unfold near_indices. apply in_map_iff.
    exists (k / w - y, k mod w - x). cbn [fst snd].
    split; [lia|]. apply In_all9. lia. }
  apply NoDup_incl_length in Hincl; [|apply zrange_NoDup].
  rewrite zrange_length, length_app in Hincl.
  unfold near_indices in Hincl. rewrite length_map in Hincl.
  change (length all9) with 9%nat in Hincl. lia.
Qed.

(** Setting distinct cells of a grid of booleans to [true]. *)
Lemma set_true_all (l : list Z) :
  forall g g' : Grid bool,
    NoDup l -> (forall i, In i l -> 0 <= i) ->
    (forall i, In i l -> nth (Z.to_nat i) (g_data g) false = false) ->
    for_each l (fun i ret => grid_set_idx ret i true) g = Ret g' ->
    shape g' = shape g
    /\ mine_count g' = mine_count g + Z.of_nat (length l)
    /\ forall k, 0 <= k ->
                 nth (Z.to_nat k) (g_data g') false = true ->
                 In k l \/ nth (Z.to_nat k) (g_data g) false = true.
Proof.
  induction l as [|i l IH]; intros g g' Hnd Hpos Hfalse H;
    cbn [for_each] in H.
  - injection H as <-. split; [reflexivity|].
    split; [cbn [length]; lia|]. auto.
  - bind_step H g1 Hg1. inversion Hnd as [|? ? Hni Hnd']; subst.
    pose proof (grid_set_idx_shape _ _ _ _ Hg1) as Hs1.
    apply grid_set_idx_Ret in Hg1. destruct Hg1 as [Hi ->].
    unfold grid_size in Hi.
    match type of H with
    | for_each _ _ ?g1 = _ =>
        destruct (IH g1 g' Hnd') as [Hs [Hc Hk]];
        [intros j Hj; apply Hpos; right; exact Hj| |exact H|]
    end.
    { intros j Hj. cbn [g_data].
      rewrite list_update_nth_other; [apply Hfalse; right; exact Hj|].
      intros E. apply Hni. pose proof (Hpos j (or_intror Hj)) as Hj0.
      replace i with j by lia. exact Hj. }
    split; [congruence|]. split.
    + rewrite Hc. unfold mine_count. cbn [g_data length].
      rewrite count_if_update by lia.
      rewrite (Hfalse i (or_introl eq_refl)). cbn [Z.b2z]. lia.
    + intros k Hk0 Hkt. destruct (Hk k Hk0 Hkt) as [Hin|Hold];
        [left; right; exact Hin|].
      cbn [g_data] in Hold.
      destruct (Z.eq_dec i k) as [->|Hne]; [left; left; reflexivity|].
      right. rewrite list_update_nth_other in Hold by lia. exact Hold.
Qed.

Lemma nth_map_const {A B : Type} (c : B) (l : list A) (k : nat) :
  nth k (map (fun _ => c) l) c = c.
Proof.
  revert k. induction l as [|a l IH]; intros [|k]; cbn [map nth]; auto.
Qed.

Lemma mine_count_fill (g : Grid bool) : mine_count (grid_fill g false) = 0.
Proof.
  unfold mine_count, grid_fill, count_if. cbn [g_data].
  induction (g_data g) as [|a l IH]; cbn [map filter]; auto.
Qed.

Lemma game_inv_fill (safe : bool) (game : GameData) :
  game_wf game -> game_inv safe (with_grid game (grid_fill (gd_grid game) Unknown)).
Proof.
  intros Hwf.
  assert (forall x y,
             cell (grid_fill (gd_grid game) Unknown) x y = Unknown) as Hcell.
  { intros x y. unfold cell, grid_fill. cbn [g_data g_width].
    apply nth_map_const. }
  split; [|split].
  - eapply game_wf_frame; [|exact Hwf].
    unfold same_shapes, with_grid. cbn [gd_sx gd_sy gd_mines gd_grid].
    repeat split. apply grid_fill_shape.
  - intros x y _. unfold with_grid. cbn [gd_grid gd_mines].
    rewrite Hcell. intros Hv. unfold Unknown in Hv. lia.
  - intros x y _. unfold with_grid. cbn [gd_grid]. rewrite Hcell. lia.
Qed.

Section GeneratorInvariants.

Context {R : RNG}.

Hypothesis shuffle_law : shuffle_permutes R.

Lemma place_mines_ok (ret ret' : Grid bool) (n x y : Z)
      (rng rng' : RandomEngine) :
  grid_wf ret -> n <= g_width ret * g_height ret - 9 ->
  place_mines ret n x y rng = Ret (ret', rng') ->
  shape ret' = shape ret /\ mine_count ret' = n
  /\ forall a b, near x y a b -> mine_at ret' a b = false.
Proof.
  intros Hwf Hn H. pose proof Hwf as [Hw [Hh Hsize]].
  unfold place_mines in H. cbv zeta in H.
  set (ret0 := grid_fill ret false) in *.
  set (cands := mine_candidates ret0 (g_width ret) (g_height ret) x y) in *.
  pose proof (shuffle_law Z cands rng) as Hperm.
  destruct (shuffle Z cands rng) as [mp rng1]. cbn [fst] in Hperm.
  bind_step H u Hu. apply assert_Ret_inv in Hu. apply Z.leb_le in Hu.
  bind_step H ret1 Hret1. injection H as <- _.
  assert (g_width ret0 = g_width ret) as Hw0 by reflexivity.
  pose proof (mine_candidates_length ret0 _ _ x y Hw0 Hw Hh) as Hlen.
  fold cands in Hlen. rewrite (Permutation_length Hperm) in Hlen.
  unfold resize_indices in Hret1.
  replace (Z.to_nat n - length mp)%nat with 0%nat in Hret1 by lia.
  cbn [repeat] in Hret1. rewrite app_nil_r in Hret1.
  set (l := firstn (Z.to_nat n) mp) in *.
  assert (NoDup l) as Hnd.
  { apply (NoDup_app_remove_r l (skipn (Z.to_nat n) mp)).
    unfold l. rewrite firstn_skipn.
    eapply Permutation_NoDup; [exact Hperm|].
    apply NoDup_mine_candidates, Hw0. }
  assert (forall k, In k l -> In k cands) as Hin.
  { intros k Hk. apply firstn_In_incl in Hk.
    eapply Permutation_in; [apply Permutation_sym; exact Hperm|exact Hk]. }
  assert (length l = Z.to_nat n) as Hll.
  { unfold l. rewrite length_firstn. lia. }
  destruct (set_true_all l ret0 ret1 Hnd) as [Hs [Hc Hk]]; [| |exact Hret1|].
  { intros k Hk. apply Hin, In_mine_candidates in Hk.
    destruct Hk as [i [j [Hi [Hj [_ ->]]]]]. rewrite Hw0. nia. }
  { intros k _. unfold ret0, grid_fill. cbn [g_data].
    apply nth_map_const. }
  assert (shape ret1 = shape ret) as Hs'.
  { rewrite Hs. apply grid_fill_shape. }
  split; [exact Hs'|]. split.
  { rewrite Hc. unfold ret0. rewrite mine_count_fill. lia. }
  intros a b [Ha Hb]. destruct (mine_at ret1 a b) eqn:Hm; [|reflexivity].
  exfalso. unfold mine_at in Hm. apply andb_true_iff in Hm.
  destruct Hm as [Hcont Hm]. apply contains_bounds in Hcont.
  unfold shape in Hs'. inversion Hs' as [[Ew Eh El]].
  rewrite Ew, Eh in Hcont. rewrite Ew in Hm.
  destruct (Hk (b * g_width ret + a) ltac:(nia) Hm) as [Hl|Hold].
  - apply Hin, In_mine_candidates in Hl.
    destruct Hl as [i [j [Hi [Hj [Hfar He]]]]]. rewrite Hw0 in He.
    destruct (idx_inj (g_width ret) a b j i) as [-> ->]; [lia|lia|exact He|].
    lia.
  - unfold ret0, grid_fill in Hold. cbn [g_data] in Hold.
    rewrite nth_map_const in Hold. discriminate.
Qed.

(** The verification loop of [minegen] returns the mines of a game that
    has as many mines as the one it started from, and the same mines
    around the start. *)
Lemma verify_loop_ok (fuel : nat) (ntries x y : Z) :
  forall (steps : nat) (game : GameData) (nbperturbs : Z)
         (pb pb' : Perturbator) (rng rng' : RandomEngine)
         (own own' : option RandomEngine) (mines : Grid bool),
    game_wf game -> gd_sx game = x -> gd_sy game = y ->
    grid_contains (gd_grid game) x y = true ->
    verify_loop fuel steps ntries x y game nbperturbs pb rng own
    = Ret (Some mines, pb', rng', own') ->
    mine_count mines = mine_count (gd_mines game)
    /\ forall a b, near x y a b ->
                   mine_at mines a b = mine_at (gd_mines game) a b.
Proof.
  induction steps as [|steps IH];
    intros game nb pb pb' rng rng' own own' mines Hwf Hsx Hsy Hc H;
    cbn [verify_loop] in H; [discriminate|].
  cbv zeta in H.
  pose proof (game_inv_fill true game Hwf) as Hinv0.
  set (game0 := with_grid game (grid_fill (gd_grid game) Unknown)) in *.
  assert (grid_contains (gd_grid game0) x y = true) as Hc0.
  { unfold game0, with_grid. cbn [gd_grid].
    rewrite (shape_contains (gd_grid game)); [exact Hc|].
    apply grid_fill_shape. }
  bind_step H k Hk.
  rewrite mineLookup_spec in Hk;
    [|apply Hinv0|rewrite (game_wf_contains _ _ _ (proj1 Hinv0)); exact Hc0].
  injection Hk as Hk.
  bind_step H grid1 Hgrid1. bind_step H v Hv.
  bind_step H u Hu. apply assert_Ret_inv in Hu. apply Z.eqb_eq in Hu.
  rewrite (grid_set_at _ _ _ _ _ Hgrid1) in Hv. injection Hv as Hv.
  subst v. unfold Mine0 in Hu.
  assert (game_inv true (with_grid game grid1)) as Hinv1.
  { apply (set_cell_inv true game0 grid1 x y k Hinv0 Hc0 Hgrid1).
    - intros _. unfold game0, with_grid in *. cbn [gd_mines] in *.
      destruct (mine_at (gd_mines game) x y); [lia|].
      split; [reflexivity|]. symmetry. exact Hk.
    - unfold Unknown. lia. }
  bind_step H r Hr. destruct r as [[solved game2] pert2].
  destruct pert2 as [[pb2 rng2]|]; [|discriminate].
  destruct (solve_inv shuffle_law true _ _ _ _ _ _ Hinv1 Hr)
    as [_ [Hinv2 [[Kx [Ky [Kc Km]]] _]]].
  unfold with_grid in Kx, Ky, Kc, Km. cbn [gd_sx gd_sy gd_mines] in *.
  destruct (negb solved || _); [discriminate|].
  destruct (m_use_count pb2 =? 0).
  - injection H as <- _ _ _. split; [exact Kc|].
    intros a b Hn. apply Km. rewrite Hsx, Hsy. exact Hn.
  - apply solve_shapes in Hr. destruct Hr as [_ [_ [_ Hg]]].
    unfold with_grid in Hg. cbn [gd_grid] in Hg.
    destruct (IH game2 _ _ _ _ _ _ _ _ (proj1 Hinv2) ltac:(congruence)
                ltac:(congruence)
                ltac:(rewrite (shape_contains grid1 (gd_grid game2) x y Hg);
                      rewrite (shape_contains (gd_grid game0) grid1 x y
                                 (grid_set_shape _ _ _ _ _ Hgrid1));
                      exact Hc0) H) as [Hcnt Hnear].
    split; [congruence|].
    intros a b Hn. rewrite (Hnear a b Hn). apply Km.
    rewrite Hsx, Hsy. exact Hn.
Qed.

Lemma minegen_loop_ok (fuel : nat) (n x y : Z) (unique : bool) :
  forall (steps : nat) (ret board : Grid bool) (ntries : Z)
         (pb pb' : Perturbator) (rng rng' : RandomEngine)
         (own own' : option RandomEngine),
    grid_wf ret -> n <= g_width ret * g_height ret - 9 ->
    grid_contains ret x y = true ->
    minegen_loop fuel steps ret n x y unique ntries pb rng own
    = Ret (board, pb', rng', own') ->
    mine_count board = n
    /\ forall a b, near x y a b -> mine_at board a b = false.
Proof.
  induction steps as [|steps IH];
    intros ret board ntries pb pb' rng rng' own own' Hwf Hn Hc H;
    cbn [minegen_loop] in H; [discriminate|].
  cbv zeta in H. bind_step H r Hr. destruct r as [ret1 rng1].
  destruct (place_mines_ok _ _ _ _ _ _ _ Hwf Hn Hr) as [Hs [Hcnt Hnear]].
  pose proof (grid_wf_shape ret ret1 Hs Hwf) as Hwf1.
  pose proof Hwf1 as [Hw1 [Hh1 Hsize1]].
  unfold shape in Hs. inversion Hs as [[Ew Eh El]].
  destruct unique; [|injection H as <- _ _ _; auto].
  bind_step H v Hv. destruct v as [[[result pb1] rng2] own2].
  destruct result as [mines|].
  - injection H as <- _ _ _.
    set (game := mkGameData x y ret1
                   (Grid_new (g_width ret1) (g_height ret1) Unknown)) in *.
    assert (game_wf game) as Hgwf.
    { split; [exact Hwf1|].
      split; [|cbn [game gd_grid gd_mines Grid_new g_width g_height];
               split; reflexivity].
      unfold grid_wf, grid_size. cbn [game gd_grid Grid_new g_width g_height
                                       g_data].
      rewrite repeat_length. nia. }
    assert (grid_contains (gd_grid game) x y = true) as Hgc.
    { unfold grid_contains in *.
      cbn [game gd_grid Grid_new g_width g_height]. rewrite Ew, Eh.
      exact Hc. }
    destruct (verify_loop_ok _ _ _ _ _ game _ _ _ _ _ _ _ _ Hgwf eq_refl
                eq_refl Hgc Hv) as [Hcnt' Hnear'].
    cbn [game gd_mines] in Hcnt', Hnear'. split; [lia|].
    intros a b Hab. rewrite (Hnear' a b Hab). apply Hnear, Hab.
  - eapply IH; [exact Hwf1| | |exact H].
    + rewrite Ew, Eh. exact Hn.
    + unfold grid_contains in *. rewrite Ew, Eh. exact Hc.
Qed.

(** C4. Generator board invariants: for parameters in range (width and
    height at least 1, between 0 and width * height - 9 mines, a start
    square in the grid), with [unique] set or not, the mines grid that
    [generate] returns holds exactly [minecount] mines and no mine within
    Chebyshev distance 1 of the start square.  [std::shuffle] is assumed
    to permute its range. *)
Theorem generate_board_invariants (fuel : nat) (entropy : Z)
        (gen gen' : Generator) (params : GameParams) (board : Grid bool) :
  1 <= p_width params -> 1 <= p_height params ->
  0 <= p_minecount params <= p_width params * p_height params - 9 ->
  0 <= p_sx params < p_width params ->
  0 <= p_sy params < p_height params ->
  generate fuel entropy gen params = Ret (board, gen') ->
  mine_count board = p_minecount params
  /\ forall x y, near (p_sx params) (p_sy params) x y ->
                 mine_at board x y = false.
Proof.
  intros Hw Hh Hn Hx Hy H. unfold generate in H. cbv zeta in H.
  bind_step H r Hr. destruct r as [[[ret pb] rng] own]. injection H as <- _.
  unfold minegen in Hr. cbv zeta in Hr.
  eapply minegen_loop_ok; [| | |exact Hr].
  - unfold grid_wf, grid_size, Grid_new. cbn [g_width g_height g_data].
    rewrite repeat_length. nia.
  - cbn [Grid_new g_width g_height]. lia.
  - apply contains_bounds. cbn [Grid_new g_width g_height]. lia.
Qed.

End GeneratorInvariants.

Lemma generate_board_invariants_witness :
  mine_count test_board = 6
  /\ forall x y, near 0 0 x y -> mine_at test_board x y = false.
Proof.
  apply (@generate_board_invariants test_rng test_rng_permutes 60 0
           test_generator test_generator1 test_params test_board);
    try (cbn; lia).
  exact test_generate.
Defined.

(* ===================================================================== *)
(** * Flags, positions and the extent of a set *)
(* ===================================================================== *)

Lemma extent_all_masks : forallb extent_check (zrange 512) = true.
Proof. vm_compute. reflexivity. Qed.

Lemma xmax_shift (x y m : Z) :
  xmax (mkSquareSet x y m) = x + xmax (mkSquareSet 0 0 m).
Proof.
  unfold xmax. cbn [set_x set_mask].
  repeat destruct (mask_nonzero _); lia.
Qed.

Lemma ymax_shift (x y m : Z) :
  ymax (mkSquareSet x y m) = y + ymax (mkSquareSet 0 0 m).
Proof.
  unfold ymax. cbn [set_y set_mask].
  repeat destruct (mask_nonzero _); lia.
Qed.

Lemma member_origin (x y m px py : Z) :
  member (mkSquareSet x y m) px py
  = member (mkSquareSet 0 0 m) (px - x) (py - y).
Proof.
  rewrite (member_shift (mkSquareSet x y m) x y px py).
  cbn [set_x set_y set_mask]. rewrite !Z.sub_diag. reflexivity.
Qed.

Lemma in_012 (k : Z) : 0 <= k < 3 -> In k [0; 1; 2].
Proof. intros H. cbn [In]. lia. Qed.

(** X1. [pt2mf] and [mf2pt] are inverse of each other: for a position
    [(x, y)] of the 3x3 window, [pt2mf x y] is one of the nine flags and
    [mf2pt] gives the position back; and each of the nine flags is the
    [pt2mf] of its [mf2pt], a position of the window. *)
Theorem mf2pt_pt2mf_round_trip :
  (forall x y, 0 <= x < 3 -> 0 <= y < 3 ->
               In (pt2mf x y) enumerateSquareSetMaskFlags
               /\ mf2pt (pt2mf x y) = (x, y))
  /\ (forall flag, In flag enumerateSquareSetMaskFlags ->
                   0 <= fst (mf2pt flag) < 3 /\ 0 <= snd (mf2pt flag) < 3
                   /\ pt2mf (fst (mf2pt flag)) (snd (mf2pt flag)) = flag).
Proof.
  split.
  - intros x y Hx Hy.
    assert (x = 0 \/ x = 1 \/ x = 2) as Hx' by lia.
    assert (y = 0 \/ y = 1 \/ y = 2) as Hy' by lia.
    destruct Hx' as [->|[->| ->]]; destruct Hy' as [->|[->| ->]];
      vm_compute; intuition congruence.
  - intros flag Hin. unfold enumerateSquareSetMaskFlags in Hin.
    cbn [In] in Hin.
    repeat (destruct Hin as [<-|Hin];
            [vm_compute; intuition congruence|]).
    destruct Hin.
Qed.

(** X2. [foreachSquare] calls its function on the square [(px, py)]
    exactly when [(px, py)] lies in the 3x3 window anchored at the set and
    the test [mask & pt2mf(px - x, py - y)] of the perturbator succeeds. *)
Theorem foreachSquare_pt2mf (s : SquareSet) (px py : Z) :
  In (px, py) (squares s)
  <-> 0 <= px - set_x s < 3 /\ 0 <= py - set_y s < 3
      /\ mask_nonzero
           (mask_and (set_mask s) (pt2mf (px - set_x s) (py - set_y s)))
         = true.
Proof.
  rewrite In_squares. split.
  - intros H. destruct (member_bounds _ _ _ H) as [Hx [Hy Hb]].
    split; [exact Hx|]. split; [exact Hy|].
    unfold pt2mf. rewrite mask_flag_testbit by lia.
    rewrite <- Hb. f_equal. lia.
  - intros [Hx [Hy Hb]]. rewrite member_intro by assumption.
    unfold pt2mf in Hb. rewrite mask_flag_testbit in Hb by lia.
    rewrite <- Hb. f_equal. lia.
Qed.

(** X3. The re-anchoring constructor [SquareSet(x, y, other)], for a set
    with a 9-bit mask: the result is anchored at [(x, y)], its mask is a
    9-bit mask, and its squares are the squares of [other] that lie in the
    3x3 window at [(x, y)]; none when the anchors are 3 or more apart. *)
Theorem SquareSet_at_squares (x y : Z) (other : SquareSet) :
  mask9 (set_mask other) ->
  set_x (SquareSet_at x y other) = x
  /\ set_y (SquareSet_at x y other) = y
  /\ mask9 (set_mask (SquareSet_at x y other))
  /\ (forall px py,
         In (px, py) (squares (SquareSet_at x y other))
         <-> In (px, py) (squares other)
             /\ 0 <= px - x < 3 /\ 0 <= py - y < 3)
  /\ (3 <= Z.abs (set_x other - x) \/ 3 <= Z.abs (set_y other - y) ->
      squares (SquareSet_at x y other) = []).
Proof.
  intros Hm.
  split; [rewrite SquareSet_at_shape; reflexivity|].
  split; [rewrite SquareSet_at_shape; reflexivity|].
  split; [apply mask9_SquareSet_at, Hm|]. split.
  - intros px py. rewrite !In_squares, member_SquareSet_at by exact Hm.
    rewrite andb_true_iff. unfold in_window.
    rewrite !andb_true_iff, !Z.leb_le, !Z.ltb_lt. tauto.
  - intros Hfar. unfold SquareSet_at.
    replace ((3 <=? Z.abs (set_x other - x))
             || (3 <=? Z.abs (set_y other - y))) with true.
    + reflexivity.
    + symmetry. apply orb_true_iff. rewrite !Z.leb_le. exact Hfar.
Qed.

Lemma SquareSet_at_squares_witness :
  In (1, 1) (squares (SquareSet_at 1 1 (mkSquareSet 0 0 CENTER)))
  <-> In (1, 1) (squares (mkSquareSet 0 0 CENTER))
      /\ 0 <= 1 - 1 < 3 /\ 0 <= 1 - 1 < 3.
Proof.
  apply (SquareSet_at_squares 1 1 (mkSquareSet 0 0 CENTER)).
  vm_compute. split; [discriminate|reflexivity].
Defined.

(** X4. [xmax] and [ymax]: for a set with a non-empty 9-bit mask, [xmax]
    is the largest x-coordinate of a square of the set and [ymax] the
    largest y-coordinate; for an empty mask they are the anchor. *)
Theorem xmax_ymax_extent (s : SquareSet) :
  mask9 (set_mask s) ->
  (set_mask s = 0 -> xmax s = set_x s /\ ymax s = set_y s)
  /\ (set_mask s <> 0 ->
      (exists py, In (xmax s, py) (squares s))
      /\ (exists px, In (px, ymax s) (squares s))
      /\ forall px py, In (px, py) (squares s) ->
                       px <= xmax s /\ py <= ymax s).
Proof.
  intros Hm. destruct s as [x y m]. cbn [set_mask set_x set_y] in *.
  pose proof (zrange_forallb _ _ extent_all_masks m) as H.
  assert (0 <= m < Z.of_nat 512) as Hm'
      by (unfold mask9 in Hm; change (Z.of_nat 512) with (2 ^ 9); exact Hm).
  specialize (H Hm').
  unfold extent_check in H.
  rewrite xmax_shift, ymax_shift. split.
  - intros ->. change (xmax (mkSquareSet 0 0 0)) with 0.
    change (ymax (mkSquareSet 0 0 0)) with 0. lia.
  - intros Hne. destruct (Z.eqb_spec m 0) as [|_]; [contradiction|].
    apply andb_true_iff in H. destruct H as [H Hall].
    apply andb_true_iff in H. destruct H as [Hex Hey].
    apply existsb_exists in Hex. destruct Hex as [py [_ Hpy]].
    apply existsb_exists in Hey. destruct Hey as [px [_ Hpx]].
    split; [|split].
    + exists (y + py). apply In_squares. rewrite member_origin.
      replace (x + xmax (mkSquareSet 0 0 m) - x)
        with (xmax (mkSquareSet 0 0 m)) by lia.
      replace (y + py - y) with py by lia. exact Hpy.
    + exists (x + px). apply In_squares. rewrite member_origin.
      replace (y + ymax (mkSquareSet 0 0 m) - y)
        with (ymax (mkSquareSet 0 0 m)) by lia.
      replace (x + px - x) with px by lia. exact Hpx.
    + intros qx qy Hq. apply In_squares in Hq. rewrite member_origin in Hq.
      pose proof (member_bounds _ _ _ Hq) as [Bx [By _]].
      cbn [set_x set_y] in Bx, By.
      rewrite forallb_forall in Hall.
      specialize (Hall (qx - x) (in_012 (qx - x) ltac:(lia))).
      rewrite forallb_forall in Hall.
      specialize (Hall (qy - y) (in_012 (qy - y) ltac:(lia))).
      rewrite Hq in Hall. cbn [negb orb] in Hall.
      apply andb_true_iff in Hall. rewrite !Z.leb_le in Hall. lia.
Qed.

Lemma xmax_ymax_extent_witness :
  xmax (mkSquareSet 4 7 (Z.lor TOP CENTER)) = 5
  /\ ymax (mkSquareSet 4 7 (Z.lor TOP CENTER)) = 8
  /\ forall px py, In (px, py) (squares (mkSquareSet 4 7 (Z.lor TOP CENTER)))
                   -> px <= 5 /\ py <= 8.
Proof.
  split; [reflexivity|]. split; [reflexivity|].
  apply (xmax_ymax_extent (mkSquareSet 4 7 (Z.lor TOP CENTER))).
  - vm_compute. split; [discriminate|reflexivity].
  - vm_compute. discriminate.
Defined.

(** X5. [operator<] on square sets is a strict total order, as [std::map]
    requires of its keys: irreflexive, transitive, and any two different
    sets are ordered one way or the other. *)
Theorem set_ltb_strict_total_order :
  (forall a, set_ltb a a = false)
  /\ (forall a b c, set_ltb a b = true -> set_ltb b c = true ->
                    set_ltb a c = true)
  /\ (forall a b, set_ltb a b = true -> set_ltb b a = false)
  /\ (forall a b, a <> b -> set_ltb a b = true \/ set_ltb b a = true).
Proof.
  split; [exact set_ltb_irrefl|]. split; [exact set_ltb_trans|].
  split; [exact set_ltb_asym|].
  intros a b Hne. destruct (set_ltb a b) eqn:E1; [left; reflexivity|].
  destruct (set_ltb b a) eqn:E2; [right; reflexivity|].
  exfalso. apply Hne. apply set_ltb_total; assumption.
Qed.

(* ===================================================================== *)
(** * Grids and the mine count of a square *)
(* ===================================================================== *)

Lemma Grid_new_wf {T : Type} (w h : Z) (v : T) :
  0 < w -> 0 <= h -> grid_wf (Grid_new w h v).
Proof.
  intros Hw Hh. unfold grid_wf, grid_size, Grid_new.
  cbn [g_width g_height g_data]. rewrite repeat_length. nia.
Qed.

Lemma neighbor_mines_le8 (mines : Grid bool) (x y : Z) :
  neighbor_mines mines x y <= 8.
Proof.
  unfold neighbor_mines, neighbor_offsets. cbn [map fold_right fst snd].
  repeat match goal with
         | |- context [Z.b2z ?b] =>
             let H := fresh "H" in
             assert (Z.b2z b <= 1) as H by (destruct b; cbn; lia);
             generalize dependent (Z.b2z b); intros
         end.
  lia.
Qed.

(** X6. [pt2idx] and [idx2pt] are inverse of each other on a grid of
    positive width whose vector has [width * height] cells: the index of a
    square of the grid is a valid index and [idx2pt] gives the square
    back; the point of a valid index is a square of the grid and [pt2idx]
    gives the index back. *)
Theorem pt2idx_idx2pt_round_trip {T : Type} (g : Grid T) :
  grid_wf g ->
  (forall x y, grid_contains g x y = true ->
               0 <= pt2idx g x y < grid_size g
               /\ idx2pt g (pt2idx g x y) = (x, y))
  /\ (forall i, 0 <= i < grid_size g ->
                grid_contains g (fst (idx2pt g i)) (snd (idx2pt g i)) = true
                /\ pt2idx g (fst (idx2pt g i)) (snd (idx2pt g i)) = i).
Proof.
  intros Hwf. split.
  - intros x y Hc. split.
    + apply idx_in_grid; assumption.
    + apply idx2pt_pt2idx; assumption.
  - intros i Hi. apply idx2pt_in; assumption.
Qed.

Lemma pt2idx_idx2pt_round_trip_witness :
  (forall x y, grid_contains test_grid x y = true ->
               0 <= pt2idx test_grid x y < grid_size test_grid
               /\ idx2pt test_grid (pt2idx test_grid x y) = (x, y))
  /\ (forall i, 0 <= i < grid_size test_grid ->
                grid_contains test_grid (fst (idx2pt test_grid i))
                  (snd (idx2pt test_grid i)) = true
                /\ pt2idx test_grid (fst (idx2pt test_grid i))
                     (snd (idx2pt test_grid i)) = i).
Proof.
  apply (pt2idx_idx2pt_round_trip test_grid).
  apply Grid_new_wf; lia.
Defined.

(** X7. [Grid::set] then [Grid::at]: on a grid of positive width whose
    vector has [width * height] cells, setting a square of the grid
    succeeds, keeps the dimensions, makes [at] return the value at that
    square, and leaves what [at] returns at every other square of the
    grid. *)
Theorem grid_set_then_at {T : Type} (g : Grid T) (x y : Z) (v : T) :
  grid_wf g -> grid_contains g x y = true ->
  exists g',
    grid_set g x y v = Ret g'
    /\ shape g' = shape g
    /\ grid_at g' x y = Ret v
    /\ forall a b, grid_contains g a b = true -> (a, b) <> (x, y) ->
                   grid_at g' a b = grid_at g a b.
Proof.
  intros Hwf Hc.
  pose proof (idx_in_grid g x y Hwf Hc) as Hi.
  unfold grid_set, grid_set_idx.
  replace ((0 <=? y * g_width g + x) && (y * g_width g + x <? grid_size g))
    with true by (symmetry; apply andb_true_iff;
                  rewrite Z.leb_le, Z.ltb_lt; lia).
  eexists. split; [reflexivity|].
  split; [unfold shape; cbn [g_width g_height g_data];
          rewrite list_update_length; reflexivity|].
  split.
  - unfold grid_at. cbn [g_width].
    rewrite (grid_at_idx_in _ _ v)
      by (unfold grid_size in *; cbn [g_data];
          rewrite list_update_length; exact Hi).
    cbn [g_data]. rewrite list_update_nth_same; [reflexivity|].
    unfold grid_size in Hi. lia.
  - intros a b Hab Hne.
    pose proof (idx_in_grid g a b Hwf Hab) as Hj.
    unfold grid_at. cbn [g_width].
    rewrite (grid_at_idx_in _ _ v)
      by (unfold grid_size in *; cbn [g_data];
          rewrite list_update_length; exact Hj).
    rewrite (grid_at_idx_in _ _ v) by exact Hj.
    cbn [g_data]. rewrite list_update_nth_other; [reflexivity|].
    intros E. apply Hne.
    apply contains_bounds in Hc. apply contains_bounds in Hab.
    destruct (idx_inj (g_width g) a b x y) as [-> ->];
      [lia|lia|lia|reflexivity].
Qed.

Lemma grid_set_then_at_witness :
  exists g',
    grid_set test_grid 2 1 Mine0 = Ret g'
    /\ shape g' = shape test_grid
    /\ grid_at g' 2 1 = Ret Mine0
    /\ forall a b, grid_contains test_grid a b = true -> (a, b) <> (2, 1) ->
                   grid_at g' a b = grid_at test_grid a b.
Proof.
  apply (grid_set_then_at test_grid 2 1 Mine0).
  - apply Grid_new_wf; lia.
  - reflexivity.
Defined.

(** X8. [Game::mineLookup(x, y)] at a square of a mines grid of positive
    width whose vector has [width * height] cells: it returns -1 when the
    square holds a mine, and otherwise the number of mines among the
    neighbours of the square that lie in the grid, a number between 0 and
    8. *)
Theorem mineLookup_counts_neighbors (game : GameData) (x y : Z) :
  grid_wf (gd_mines game) ->
  grid_contains (gd_mines game) x y = true ->
  exists n,
    mineLookup game x y = Ret n
    /\ (mine_at (gd_mines game) x y = true -> n = -1)
    /\ (mine_at (gd_mines game) x y = false ->
        n = neighbor_mines (gd_mines game) x y /\ 0 <= n <= 8).
Proof.
  intros Hwf Hc. eexists. split; [apply mineLookup_spec; assumption|].
  split; intros ->; [reflexivity|].
  split; [reflexivity|]. split.
  - apply neighbor_mines_nonneg.
  - apply neighbor_mines_le8.
Qed.

Lemma mineLookup_counts_neighbors_witness :
  exists n,
    mineLookup test_ctx 2 1 = Ret n
    /\ (mine_at (gd_mines test_ctx) 2 1 = true -> n = -1)
    /\ (mine_at (gd_mines test_ctx) 2 1 = false ->
        n = neighbor_mines (gd_mines test_ctx) 2 1 /\ 0 <= n <= 8).
Proof.
  apply (mineLookup_counts_neighbors test_ctx 2 1).
  - apply grid_wfb_ok. reflexivity.
  - reflexivity.
Defined.

(* ===================================================================== *)
(** * The set store: lookups, erasure and the todo list *)
(* ===================================================================== *)

Lemma set_ltb_cases (a b : SquareSet) :
  set_ltb a b = true \/ a = b \/ set_ltb b a = true.
Proof.
  destruct (set_ltb a b) eqn:E1; [auto|].
  destruct (set_ltb b a) eqn:E2; [auto|].
  right. left. apply set_ltb_total; assumption.
Qed.

Lemma map_find_above (k : SquareSet) (l : list SetStoreElement) :
  StronglySorted elem_lt l ->
  Forall (fun e => set_ltb k (e_set e) = true) l -> map_find k l = None.
Proof.
  intros _ Hall. destruct Hall as [|e l He _]; cbn [map_find];
    [reflexivity|]. rewrite He. reflexivity.
Qed.

Lemma map_find_update_other (k k' : SquareSet)
      (f : SetStoreElement -> SetStoreElement) (l : list SetStoreElement) :
  (forall a, e_set (f a) = e_set a) -> k' <> k ->
  map_find k' (map_update k f l) = map_find k' l.
Proof.
  intros Hf Hne. induction l as [|e l IH]; cbn [map_update map_find];
    [reflexivity|].
  destruct (set_eqb (e_set e) k) eqn:E; cbn [map_find].
  - apply set_eqb_eq in E. rewrite Hf.
    destruct (set_ltb k' (e_set e)) eqn:E1; [reflexivity|].
    destruct (set_ltb (e_set e) k') eqn:E2; [reflexivity|].
    exfalso. apply Hne. rewrite <- E. apply set_ltb_total; assumption.
  - rewrite IH. reflexivity.
Qed.

Lemma map_find_insert_other (e : SetStoreElement) (k' : SquareSet)
      (l : list SetStoreElement) :
  k' <> e_set e -> map_find k' (fst (map_insert e l)) = map_find k' l.
Proof.
  intros Hne. induction l as [|a l IH]; cbn [map_insert fst map_find].
  - destruct (set_ltb k' (e_set e)) eqn:E1; [reflexivity|].
    destruct (set_ltb (e_set e) k') eqn:E2; [reflexivity|].
    exfalso. apply Hne. apply set_ltb_total; assumption.
  - destruct (set_ltb (e_set e) (e_set a)) eqn:Ea; cbn [fst map_find].
    + destruct (set_ltb k' (e_set e)) eqn:E1.
      * rewrite (set_ltb_trans _ _ _ E1 Ea). reflexivity.
      * destruct (set_ltb (e_set e) k') eqn:E2; [reflexivity|].
        exfalso. apply Hne. apply set_ltb_total; assumption.
    + destruct (set_ltb (e_set a) (e_set e)); [|reflexivity].
      destruct (map_insert e l) as [r b]. cbn [fst map_find] in *.
      rewrite IH. reflexivity.
Qed.

Lemma Forall_above_erase (k k0 : SquareSet) (l : list SetStoreElement) :
  Forall (fun e => set_ltb k0 (e_set e) = true) l ->
  Forall (fun e => set_ltb k0 (e_set e) = true) (map_erase k l).
Proof.
  induction 1 as [|e l He Hall IH]; cbn [map_erase]; [constructor|].
  destruct (set_eqb (e_set e) k); [exact Hall|]. constructor; assumption.
Qed.

Lemma map_erase_sorted (k : SquareSet) (l : list SetStoreElement) :
  StronglySorted elem_lt l -> StronglySorted elem_lt (map_erase k l).
Proof.
  induction 1 as [|e l Hs IH Hall]; cbn [map_erase]; [constructor|].
  destruct (set_eqb (e_set e) k); [exact Hs|].
  constructor; [exact IH|]. apply (Forall_above_erase k (e_set e)), Hall.
Qed.

Lemma map_find_erase_same (k : SquareSet) (l : list SetStoreElement) :
  StronglySorted elem_lt l -> map_find k (map_erase k l) = None.
Proof.
  induction 1 as [|e l Hs IH Hall]; cbn [map_erase]; [reflexivity|].
  destruct (set_eqb (e_set e) k) eqn:E.
  - apply set_eqb_eq in E. subst k. apply map_find_above; assumption.
  - cbn [map_find]. destruct (set_ltb k (e_set e)) eqn:E1; [reflexivity|].
    destruct (set_ltb (e_set e) k) eqn:E2; [exact IH|].
    rewrite (set_ltb_total _ _ E2 E1), set_eqb_refl in E. discriminate.
Qed.

Lemma map_find_erase_other (k k' : SquareSet) (l : list SetStoreElement) :
  StronglySorted elem_lt l -> k' <> k ->
  map_find k' (map_erase k l) = map_find k' l.
Proof.
  intros Hs Hne. induction Hs as [|e l Hs IH Hall]; cbn [map_erase];
    [reflexivity|].
  destruct (set_eqb (e_set e) k) eqn:E.
  - apply set_eqb_eq in E. subst k. cbn [map_find].
    destruct (set_ltb_cases k' (e_set e)) as [H1|[H1|H1]].
    + rewrite H1. apply map_find_above; [exact Hs|].
      eapply Forall_impl; [|exact Hall]. intros a Ha.
      eapply set_ltb_trans; [exact H1|exact Ha].
    + contradiction.
    + rewrite (set_ltb_asym _ _ H1), H1. reflexivity.
  - cbn [map_find]. rewrite IH. reflexivity.
Qed.

Lemma map_erase_length (k : SquareSet) (l : list SetStoreElement)
      (e : SetStoreElement) :
  map_find k l = Some e -> length l = S (length (map_erase k l)).
Proof.
  induction l as [|a l IH]; cbn [map_find map_erase]; [discriminate|].
  destruct (set_ltb k (e_set a)) eqn:E1; [discriminate|].
  destruct (set_ltb (e_set a) k) eqn:E2.
  - intros H. rewrite (set_ltb_neq _ _ E2). cbn [length]. rewrite (IH H).
    reflexivity.
  - intros _. rewrite (set_ltb_total _ _ E2 E1), set_eqb_refl. reflexivity.
Qed.

Lemma store_ok_erase (k : SquareSet) (ss : SetStore)
      (todo : list SquareSet) :
  store_ok ss -> store_ok (mkSetStore (map_erase k (m_elements ss)) todo).
Proof.
  intros [Hs Hm]. split; cbn [m_elements].
  - apply map_erase_sorted, Hs.
  - apply Forall_forall. intros a Ha. apply map_erase_In in Ha.
    rewrite Forall_forall in Hm. apply Hm, Ha.
Qed.

Lemma store_ok_update (k : SquareSet)
      (f : SetStoreElement -> SetStoreElement) (ss : SetStore)
      (todo : list SquareSet) :
  (forall a, e_set (f a) = e_set a) -> store_ok ss ->
  store_ok (mkSetStore (map_update k f (m_elements ss)) todo).
Proof.
  intros Hf Hok. eapply store_ok_keys; [|exact Hok].
  cbn [m_elements]. apply map_update_keys, Hf.
Qed.

Lemma deref_find (ss : SetStore) (it : SquareSet) (e : SetStoreElement) :
  deref ss it = Ret e <-> map_find it (m_elements ss) = Some e.
Proof.
  unfold deref. destruct (map_find it (m_elements ss)); split; intros H;
    try discriminate; congruence.
Qed.

Lemma add_todo_inv (ss ss' : SetStore) (it : SquareSet) :
  store_ok ss -> todo_ok ss -> add_todo ss it = Ret ss' ->
  store_ok ss' /\ todo_ok ss'.
Proof.
  unfold add_todo. intros Hok [Hnd Hiff] H.
  destruct (deref ss it) as [elem| |] eqn:Hd; cbn [bind] in H;
    try discriminate.
  apply deref_find in Hd.
  destruct (e_todo elem) eqn:Ht; injection H as <-; [split; [|split]; auto|].
  split; [apply store_ok_update; [reflexivity|exact Hok]|].
  split; cbn [m_todolist m_elements].
  - apply NoDup_app; [exact Hnd|repeat constructor; intros []|].
    intros k Hk [<-|[]]. apply Hiff in Hk. destruct Hk as [e [He Hte]].
    congruence.
  - intros k. rewrite in_app_iff. cbn [In].
    destruct (set_ltb_cases k it) as [H1|[->|H1]].
    + assert (k <> it) as Hne
          by (intros ->; rewrite set_ltb_irrefl in H1; discriminate).
      rewrite map_find_update_other by (reflexivity || exact Hne).
      rewrite Hiff. split; [intros [H|[H|[]]]; [exact H|congruence]|auto].
    + rewrite (map_update_find _ _ _ elem) by (reflexivity || exact Hd).
      split; [|auto]. intros _. eexists. split; reflexivity.
    + assert (k <> it) as Hne
          by (intros ->; rewrite set_ltb_irrefl in H1; discriminate).
      rewrite map_find_update_other by (reflexivity || exact Hne).
      rewrite Hiff. split; [intros [H|[H|[]]]; [exact H|congruence]|auto].
Qed.

Lemma add_inv (fuel : nat) (ss ss' : SetStore) (x y mask mines : Z) :
  store_ok ss -> todo_ok ss -> mask9 mask ->
  add fuel ss x y mask mines = Ret ss' ->
  store_ok ss' /\ todo_ok ss'.
Proof.
  unfold add. intros Hok Htodo Hm H.
  destruct (normalize fuel (mkSquareSet x y mask)) as [k| |] eqn:Hk;
    cbn [bind] in H; try discriminate.
  destruct (normalize_member _ _ _ _ _ Hm Hk) as [Hk9 _].
  pose proof (map_insert_sorted (mkElement k mines false) (m_elements ss)
                (proj1 Hok)) as Hsorted.
  pose proof (fun a => map_insert_In (mkElement k mines false) a
                         (m_elements ss)) as Hins.
  pose proof (fun k' => map_find_insert_other (mkElement k mines false) k'
                          (m_elements ss)) as Hother.
  pose proof (map_insert_find (mkElement k mines false) (m_elements ss))
    as Hfind.
  pose proof (map_insert_absent (mkElement k mines false) (m_elements ss))
    as Habsent.
  destruct (map_insert (mkElement k mines false) (m_elements ss))
    as [elements inserted] eqn:Hi.
  cbn [fst snd e_set] in *.
  destruct inserted; [|injection H as <-; auto].
  assert (map_find k (m_elements ss) = None) as Hnone.
  { destruct (map_find k (m_elements ss)) eqn:E; [|reflexivity].
    assert (true = false) as F by (apply Hfind; congruence). discriminate. }
  destruct (Habsent Hnone) as [_ Hnew].
  eapply (add_todo_inv (mkSetStore elements (m_todolist ss))); [| |exact H].
  - split; cbn [m_elements]; [exact Hsorted|].
    apply Forall_forall. intros a Ha.
    destruct (Hins a Ha) as [->|Ha']; [exact Hk9|].
    destruct Hok as [_ H9]. rewrite Forall_forall in H9. apply H9, Ha'.
  - destruct Htodo as [Hnd Hiff]. split; cbn [m_todolist m_elements];
      [exact Hnd|].
    intros k'. rewrite Hiff.
    destruct (set_ltb_cases k' k) as [H1|[->|H1]].
    + rewrite Hother; [reflexivity|].
      intros ->. rewrite set_ltb_irrefl in H1. discriminate.
    + rewrite Hnone, Hnew. split; intros [e [He Ht]]; [discriminate|].
      injection He as <-. discriminate.
    + rewrite Hother; [reflexivity|].
      intros ->. rewrite set_ltb_irrefl in H1. discriminate.
Qed.

Lemma In_remove_key (k it : SquareSet) (l : list SquareSet) :
  In k (remove_key it l) <-> In k l /\ k <> it.
Proof.
  unfold remove_key. rewrite filter_In, negb_true_iff.
  split; intros [H1 H2]; (split; [exact H1|]).
  - intros ->. rewrite set_eqb_refl in H2. discriminate.
  - destruct (set_eqb k it) eqn:E; [|reflexivity].
    apply set_eqb_eq in E. contradiction.
Qed.

Lemma erase_inv (ss ss' : SetStore) (it : SquareSet) :
  store_ok ss -> todo_ok ss -> erase ss it = Ret ss' ->
  store_ok ss' /\ todo_ok ss'.
Proof.
  unfold erase. intros Hok [Hnd Hiff] H.
  destruct (deref ss it) as [elem| |] eqn:Hd; cbn [bind] in H;
    try discriminate.
  apply deref_find in Hd. injection H as <-.
  split; [apply store_ok_erase, Hok|].
  assert (forall k, In k (if e_todo elem
                          then remove_key it (m_todolist ss)
                          else m_todolist ss)
                    <-> In k (m_todolist ss) /\ k <> it) as Hin.
  { intros k. destruct (e_todo elem) eqn:Ht; [apply In_remove_key|].
    split; [|tauto]. intros Hk. split; [exact Hk|]. intros ->.
    apply Hiff in Hk. destruct Hk as [e [He Hte]]. congruence. }
  split; cbn [m_todolist m_elements].
  - destruct (e_todo elem); [|exact Hnd]. apply NoDup_filter, Hnd.
  - intros k. rewrite Hin.
    destruct (set_ltb_cases k it) as [H1|[->|H1]].
    + assert (k <> it) as Hne
          by (intros ->; rewrite set_ltb_irrefl in H1; discriminate).
      rewrite map_find_erase_other by (apply Hok || exact Hne).
      rewrite Hiff. tauto.
    + rewrite map_find_erase_same by apply Hok.
      split; [tauto|]. intros [e [He _]]. discriminate.
    + assert (k <> it) as Hne
          by (intros ->; rewrite set_ltb_irrefl in H1; discriminate).
      rewrite map_find_erase_other by (apply Hok || exact Hne).
      rewrite Hiff. tauto.
Qed.

Lemma next_todo_inv (ss ss' : SetStore) (todo : option SetStoreElement) :
  store_ok ss -> todo_ok ss -> next_todo ss = Ret (todo, ss') ->
  store_ok ss' /\ todo_ok ss'
  /\ match todo with
     | None => ss' = ss
               /\ forall e, In e (m_elements ss) -> e_todo e = false
     | Some s =>
         exists rest,
           m_todolist ss = e_set s :: rest /\ m_todolist ss' = rest
           /\ map_find (e_set s) (m_elements ss)
              = Some (mkElement (e_set s) (e_mines s) true)
           /\ map_find (e_set s) (m_elements ss') = Some s
           /\ e_todo s = false
     end.
Proof.
  unfold next_todo. intros Hok [Hnd Hiff] H.
  destruct (m_todolist ss) as [|head rest] eqn:Hl.
  - injection H as <- <-. split; [exact Hok|].
    split; [split; [rewrite Hl; exact Hnd|rewrite Hl; exact Hiff]|].
    split; [reflexivity|]. intros e He.
    destruct (e_todo e) eqn:Ht; [|reflexivity].
    exfalso. apply (proj2 (Hiff (e_set e))).
    exists e. split; [|exact Ht].
    apply map_find_sorted_In; [apply Hok|exact He].
  - destruct (deref ss head) as [ret| |] eqn:Hd; cbn [bind] in H;
      try discriminate.
    apply deref_find in Hd. injection H as <- <-.
    destruct (map_find_In _ _ _ Hd) as [_ Hkey].
    destruct (proj1 (Hiff head) (or_introl eq_refl)) as [e [He Ht]].
    assert (e = ret) by congruence. subst e.
    inversion Hnd as [|? ? Hnotin Hnd']; subst.
    split; [apply store_ok_update; [reflexivity|exact Hok]|].
    split; [split; cbn [m_todolist m_elements]; [exact Hnd'|]|].
    + intros k. destruct (set_ltb_cases k (e_set ret)) as [H1|[->|H1]].
      * assert (k <> e_set ret) as Hne
            by (intros ->; rewrite set_ltb_irrefl in H1; discriminate).
        rewrite map_find_update_other by (reflexivity || exact Hne).
        rewrite <- Hiff. cbn [In]. split; [auto|].
        intros [E|Hk]; [congruence|exact Hk].
      * rewrite (map_update_find _ _ _ ret) by (reflexivity || exact Hd).
        split; [contradiction|]. intros [e [He' Hte]].
        injection He' as <-. discriminate.
      * assert (k <> e_set ret) as Hne
            by (intros ->; rewrite set_ltb_irrefl in H1; discriminate).
        rewrite map_find_update_other by (reflexivity || exact Hne).
        rewrite <- Hiff. cbn [In]. split; [auto|].
        intros [E|Hk]; [congruence|exact Hk].
    + exists rest. cbn [e_set e_mines e_todo m_todolist m_elements].
      split; [reflexivity|]. split; [reflexivity|]. split.
      * rewrite Hd. destruct ret as [rs rm rt]. cbn in *. subst rt.
        reflexivity.
      * split; [|reflexivity].
        exact (map_update_find _
                 (fun e => mkElement (e_set e) (e_mines e) false) _ ret
                 (fun _ => eq_refl) Hd).
Qed.

Lemma todo_ok_empty : todo_ok SetStore_empty.
Proof.
  split; [constructor|]. intros k. cbn. split; [intros []|].
  intros [e [He _]]. discriminate.
Qed.

Lemma test_store_ok : store_ok test_store /\ todo_ok test_store.
Proof.
  split; [split|split].
  - repeat constructor.
  - repeat constructor; vm_compute; intuition discriminate.
  - repeat constructor. intros [].
  - intros k. cbn [test_store m_todolist m_elements In]. split.
    + intros [<-|[]]. eexists. split; reflexivity.
    + intros [e [He Ht]]. cbn [map_find e_set] in He.
      destruct (set_ltb k (mkSquareSet 0 0 TOP_LEFT)); [discriminate|].
      destruct (set_ltb (mkSquareSet 0 0 TOP_LEFT) k).
      * destruct (set_ltb k (mkSquareSet 2 1 (Z.lor TOP_LEFT LEFT))) eqn:E1;
          [discriminate|].
        destruct (set_ltb (mkSquareSet 2 1 (Z.lor TOP_LEFT LEFT)) k) eqn:E2;
          [discriminate|].
        left. symmetry. apply set_ltb_total; assumption.
      * injection He as <-. discriminate.
Qed.

Lemma map_update_length (k : SquareSet)
      (f : SetStoreElement -> SetStoreElement) (l : list SetStoreElement) :
  length (map_update k f l) = length l.
Proof.
  induction l as [|e l IH]; cbn [map_update]; [reflexivity|].
  destruct (set_eqb (e_set e) k); cbn [length]; congruence.
Qed.

Lemma map_insert_length (e : SetStoreElement) (l : list SetStoreElement) :
  map_find (e_set e) l = None ->
  length (fst (map_insert e l)) = S (length l).
Proof.
  induction l as [|a l IH]; cbn [map_insert map_find fst]; [reflexivity|].
  destruct (set_ltb (e_set e) (e_set a)); [reflexivity|].
  destruct (set_ltb (e_set a) (e_set e)); [|discriminate].
  intros H. specialize (IH H). destruct (map_insert e l) as [r b].
  cbn [fst length] in *. congruence.
Qed.

Lemma sorted_nth (l : list SetStoreElement) :
  StronglySorted elem_lt l ->
  forall i j a b, (i < j)%nat ->
                  nth_error l i = Some a -> nth_error l j = Some b ->
                  set_ltb (e_set a) (e_set b) = true.
Proof.
  induction 1 as [|e l Hs IH Hall]; intros i j a b Hij Ha Hb.
  - destruct i; discriminate.
  - destruct j as [|j]; [lia|]. cbn [nth_error] in Hb.
    destruct i as [|i]; cbn [nth_error] in Ha.
    + injection Ha as <-. rewrite Forall_forall in Hall.
      apply Hall. eapply nth_error_In, Hb.
    + eapply (IH i j); [lia|exact Ha|exact Hb].
Qed.

(** X9. The todo list of the set store agrees with the [todo] flags of
    the entries: if the entries are in key order with 9-bit masks and the
    todo list holds, once each, the keys of the flagged entries, then the
    same is true after [add], [add_todo], [erase] and [next_todo]. *)
Theorem setstore_todo_invariant (ss : SetStore) :
  store_ok ss -> todo_ok ss ->
  (forall fuel x y mask mines ss',
      mask9 mask -> add fuel ss x y mask mines = Ret ss' ->
      store_ok ss' /\ todo_ok ss')
  /\ (forall it ss', add_todo ss it = Ret ss' -> store_ok ss' /\ todo_ok ss')
  /\ (forall it ss', erase ss it = Ret ss' -> store_ok ss' /\ todo_ok ss')
  /\ (forall todo ss', next_todo ss = Ret (todo, ss') ->
                       store_ok ss' /\ todo_ok ss').
Proof.
  intros Hok Htodo. split; [|split; [|split]].
  - intros fuel x y mask mines ss' Hm H. eapply add_inv; eassumption.
  - intros it ss' H. eapply add_todo_inv; eassumption.
  - intros it ss' H. eapply erase_inv; eassumption.
  - intros todo ss' H.
    destruct (next_todo_inv _ _ _ Hok Htodo H) as [H1 [H2 _]]. auto.
Qed.

Lemma setstore_todo_invariant_witness :
  (forall fuel x y mask mines ss',
      mask9 mask -> add fuel test_store x y mask mines = Ret ss' ->
      store_ok ss' /\ todo_ok ss')
  /\ (forall it ss',
         add_todo test_store it = Ret ss' -> store_ok ss' /\ todo_ok ss')
  /\ (forall it ss',
         erase test_store it = Ret ss' -> store_ok ss' /\ todo_ok ss')
  /\ (forall todo ss', next_todo test_store = Ret (todo, ss') ->
                       store_ok ss' /\ todo_ok ss').
Proof.
  apply (setstore_todo_invariant test_store); apply test_store_ok.
Defined.

(** X10. [next_todo] on a store that keeps its invariants always returns:
    [nullptr], with the store unchanged, exactly when no entry is flagged;
    otherwise the entry at the head of the todo list, which was flagged,
    with its flag cleared in the store and its key removed from the
    list. *)
Theorem next_todo_hands_out_head (ss : SetStore) :
  store_ok ss -> todo_ok ss ->
  exists todo ss',
    next_todo ss = Ret (todo, ss')
    /\ match todo with
       | None => ss' = ss
                 /\ forall e, In e (m_elements ss) -> e_todo e = false
       | Some s =>
           exists rest,
             m_todolist ss = e_set s :: rest /\ m_todolist ss' = rest
             /\ map_find (e_set s) (m_elements ss)
                = Some (mkElement (e_set s) (e_mines s) true)
             /\ map_find (e_set s) (m_elements ss') = Some s
             /\ e_todo s = false
       end.
Proof.
  intros Hok Htodo.
  destruct (next_todo ss) as [[todo ss']| |] eqn:H.
  - exists todo, ss'. split; [reflexivity|].
    apply (next_todo_inv _ _ _ Hok Htodo H).
  - exfalso. unfold next_todo in H.
    destruct (m_todolist ss) as [|head rest] eqn:Hl; [discriminate|].
    destruct (proj1 (proj2 Htodo head)) as [e [He _]];
      [rewrite Hl; left; reflexivity|].
    unfold deref in H. rewrite He in H. discriminate.
  - exfalso. unfold next_todo in H.
    destruct (m_todolist ss) as [|head rest] eqn:Hl; [discriminate|].
    destruct (proj1 (proj2 Htodo head)) as [e [He _]];
      [rewrite Hl; left; reflexivity|].
    unfold deref in H. rewrite He in H. discriminate.
Qed.

Lemma next_todo_hands_out_head_witness :
  exists todo ss',
    next_todo test_store = Ret (todo, ss')
    /\ match todo with
       | None => ss' = test_store
                 /\ forall e, In e (m_elements test_store) ->
                              e_todo e = false
       | Some s =>
           exists rest,
             m_todolist test_store = e_set s :: rest
             /\ m_todolist ss' = rest
             /\ map_find (e_set s) (m_elements test_store)
                = Some (mkElement (e_set s) (e_mines s) true)
             /\ map_find (e_set s) (m_elements ss') = Some s
             /\ e_todo s = false
       end.
Proof.
  apply (next_todo_hands_out_head test_store); apply test_store_ok.
Defined.

(** X11. [erase] then [find]: erasing the entry an iterator points to
    succeeds and removes exactly that entry: the size drops by one, and
    afterwards [find] finds nothing where it found that entry and finds
    what it found before everywhere else. *)
Theorem erase_then_find (fuel : nat) (ss : SetStore) (it : SquareSet)
        (e : SetStoreElement) :
  store_ok ss -> deref ss it = Ret e ->
  exists ss',
    erase ss it = Ret ss'
    /\ setstore_size ss' = setstore_size ss - 1
    /\ forall s,
         find fuel ss' s
         = (r <- find fuel ss s ;;
            Ret (match r with
                 | Some e' => if set_eqb (e_set e') it then None else Some e'
                 | None => None
                 end)).
Proof.
  intros Hok Hd. unfold erase. rewrite Hd. cbn [bind].
  eexists. split; [reflexivity|]. apply deref_find in Hd.
  split.
  - unfold setstore_size. cbn [m_elements].
    rewrite (map_erase_length _ _ _ Hd). lia.
  - intros s. unfold find.
    destruct (normalize fuel s) as [k| |]; cbn [bind m_elements];
      try reflexivity.
    f_equal. destruct (set_ltb_cases k it) as [H1|[->|H1]].
    + assert (k <> it) as Hne
          by (intros ->; rewrite set_ltb_irrefl in H1; discriminate).
      rewrite map_find_erase_other by (apply Hok || exact Hne).
      destruct (map_find k (m_elements ss)) as [e'|] eqn:E; [|reflexivity].
      destruct (map_find_In _ _ _ E) as [_ ->].
      rewrite (set_ltb_neq _ _ H1). reflexivity.
    + rewrite map_find_erase_same by apply Hok. rewrite Hd.
      destruct (map_find_In _ _ _ Hd) as [_ ->].
      rewrite set_eqb_refl. reflexivity.
    + assert (k <> it) as Hne
          by (intros ->; rewrite set_ltb_irrefl in H1; discriminate).
      rewrite map_find_erase_other by (apply Hok || exact Hne).
      destruct (map_find k (m_elements ss)) as [e'|] eqn:E; [|reflexivity].
      destruct (map_find_In _ _ _ E) as [_ ->].
      destruct (set_eqb k it) eqn:F; [|reflexivity].
      apply set_eqb_eq in F. contradiction.
Qed.

Lemma erase_then_find_witness :
  exists ss',
    erase test_store (mkSquareSet 0 0 TOP_LEFT) = Ret ss'
    /\ setstore_size ss' = setstore_size test_store - 1
    /\ forall s,
         find 3 ss' s
         = (r <- find 3 test_store s ;;
            Ret (match r with
                 | Some e' =>
                     if set_eqb (e_set e') (mkSquareSet 0 0 TOP_LEFT)
                     then None else Some e'
                 | None => None
                 end)).
Proof.
  apply (erase_then_find 3 test_store (mkSquareSet 0 0 TOP_LEFT)
           (mkElement (mkSquareSet 0 0 TOP_LEFT) 1 false)).
  - apply test_store_ok.
  - reflexivity.
Defined.

(** X12. [add] then [contains]: after [add(x, y, mask, mines)] on a
    well-formed store, [contains] holds of the set just added, and of
    every set it held of before; the call changes nothing when the set
    was there, and otherwise the store has one entry more. *)
Theorem add_then_contains (fuel : nat) (ss ss' : SetStore)
        (x y mask mines : Z) :
  store_ok ss -> mask9 mask ->
  add fuel ss x y mask mines = Ret ss' ->
  setstore_contains fuel ss' (mkSquareSet x y mask) = Ret true
  /\ (forall s, setstore_contains fuel ss s = Ret true ->
                setstore_contains fuel ss' s = Ret true)
  /\ (setstore_contains fuel ss (mkSquareSet x y mask) = Ret true ->
      ss' = ss)
  /\ (setstore_contains fuel ss (mkSquareSet x y mask) = Ret false ->
      setstore_size ss' = setstore_size ss + 1).
Proof.
  intros Hok Hm Hadd.
  assert (exists k, normalize fuel (mkSquareSet x y mask) = Ret k)
    as [k Hk].
  { unfold add in Hadd.
    destruct (normalize fuel (mkSquareSet x y mask)) as [k| |];
      cbn [bind] in Hadd; try discriminate. eauto. }
  unfold setstore_contains, find. rewrite Hk. cbn [bind].
  destruct (map_find k (m_elements ss)) as [e0|] eqn:Hf.
  - rewrite (add_present fuel ss x y mask mines k Hk) in Hadd
      by congruence.
    injection Hadd as <-. rewrite Hf.
    split; [reflexivity|]. split; [auto|]. split; [reflexivity|].
    discriminate.
  - rewrite (add_absent fuel ss x y mask mines k Hk Hf) in Hadd.
    injection Hadd as <-. cbn [m_elements].
    destruct (map_insert_absent (mkElement k mines false) (m_elements ss) Hf)
      as [_ Hnew]. cbn [e_set] in Hnew.
    rewrite (map_update_find _ set_todo _ _ (fun _ => eq_refl) Hnew).
    split; [reflexivity|]. split; [|split; [discriminate|]].
    + intros s Hs.
      destruct (normalize fuel s) as [k'| |]; cbn [bind] in *;
        try discriminate.
      destruct (map_find k' (m_elements ss)) as [e'|] eqn:Hf';
        [|discriminate].
      assert (k' <> k) as Hne by (intros ->; congruence).
      rewrite map_find_update_other by (reflexivity || exact Hne).
      rewrite (map_find_insert_other (mkElement k mines false))
        by exact Hne.
      rewrite Hf'. reflexivity.
    + intros _. unfold setstore_size. cbn [m_elements].
      rewrite map_update_length.
      rewrite (map_insert_length (mkElement k mines false)) by exact Hf.
      lia.
Qed.

Lemma add_then_contains_witness :
  exists ss',
    add 3 test_store 5 5 CENTER 1 = Ret ss'
    /\ setstore_contains 3 ss' (mkSquareSet 5 5 CENTER) = Ret true
    /\ setstore_size ss' = setstore_size test_store + 1.
Proof.
  eexists. split; [vm_compute; reflexivity|].
  destruct (add_then_contains 3 test_store _ 5 5 CENTER 1
              (proj1 test_store_ok)
              ltac:(vm_compute; split; [discriminate|reflexivity])
              eq_refl) as [H1 [_ [_ H4]]].
  split; [exact H1|]. apply H4. reflexivity.
Defined.

(** X13. [setstore_at] enumerates a well-formed store in key order: every
    index below the size gives the key of an entry of the store, and the
    key at a smaller index is less, by [operator<], than the key at a
    larger one. *)
Theorem setstore_at_in_key_order (ss : SetStore) :
  store_ok ss ->
  (forall i, 0 <= i < setstore_size ss ->
             exists s e, setstore_at ss i = Ret s
                         /\ deref ss s = Ret e /\ e_set e = s)
  /\ (forall i j a b, i < j ->
                      setstore_at ss i = Ret a -> setstore_at ss j = Ret b ->
                      set_ltb a b = true).
Proof.
  intros [Hs _]. split.
  - intros i Hi. unfold setstore_at.
    replace ((0 <=? i) && (i <? setstore_size ss)) with true
      by (symmetry; apply andb_true_iff; rewrite Z.leb_le, Z.ltb_lt; lia).
    destruct (nth_error (m_elements ss) (Z.to_nat i)) as [e|] eqn:He.
    + exists (e_set e), e. split; [reflexivity|]. split; [|reflexivity].
      apply deref_find. apply map_find_sorted_In; [exact Hs|].
      eapply nth_error_In, He.
    + apply nth_error_None in He. unfold setstore_size in Hi. lia.
  - intros i j a b Hij Ha Hb. unfold setstore_at in Ha, Hb.
    destruct ((0 <=? i) && (i <? setstore_size ss)) eqn:Ei; [|discriminate].
    destruct ((0 <=? j) && (j <? setstore_size ss)) eqn:Ej; [|discriminate].
    destruct (nth_error (m_elements ss) (Z.to_nat i)) as [ea|] eqn:Hea;
      [|discriminate].
    destruct (nth_error (m_elements ss) (Z.to_nat j)) as [eb|] eqn:Heb;
      [|discriminate].
    injection Ha as <-. injection Hb as <-.
    apply andb_true_iff in Ei. rewrite Z.leb_le in Ei.
    eapply (sorted_nth _ Hs (Z.to_nat i) (Z.to_nat j));
      [lia|exact Hea|exact Heb].
Qed.

Lemma setstore_at_in_key_order_witness :
  (forall i, 0 <= i < setstore_size test_store ->
             exists s e, setstore_at test_store i = Ret s
                         /\ deref test_store s = Ret e /\ e_set e = s)
  /\ (forall i j a b, i < j ->
                      setstore_at test_store i = Ret a ->
                      setstore_at test_store j = Ret b ->
                      set_ltb a b = true).
Proof.
  apply (setstore_at_in_key_order test_store). apply test_store_ok.
Defined.

(* ===================================================================== *)
(** * The solver: what it writes and what it keeps *)
(* ===================================================================== *)

Lemma learns_refl (game : GameData) : learns game game.
Proof. split; [apply same_frame_refl|]. split; auto. Qed.

Lemma learns_trans (g1 g2 g3 : GameData) :
  learns g1 g2 -> learns g2 g3 -> learns g1 g3.
Proof.
  intros [F1 [S1 H1]] [F2 [S2 H2]].
  split; [eapply same_frame_trans; eassumption|].
  split; [congruence|]. intros i Hi.
  rewrite H2; [apply H1, Hi|]. rewrite (H1 i Hi). exact Hi.
Qed.

Lemma mark_known_squares_learns (thegame game' : GameData)
      (std std' : SquareTodo) (x y mask : Z) (mine : bool) :
  mark_known_squares thegame std x y mask mine = Ret (game', std') ->
  learns thegame game'.
Proof.
  intros H. split; [eapply mark_known_squares_frame; exact H|].
  unfold mark_known_squares in H.
  match type of H with
  | for_each ?l0 ?body ?s0 = _ =>
      pose proof (for_each_invariant
                    (fun st => grows (gd_grid thegame) (gd_grid (fst st)))
                    l0 body) as Hinv
  end.
  refine (Hinv _ (thegame, std) (game', std') _ H);
    [|split; [reflexivity|auto]].
  clear. intros [xx yy] [g0 t0] [g1 t1] _. cbn [fst].
  intros [Hs Hg] Hb. bind_step Hb v Hv.
  destruct (negb (v =? Unknown)) eqn:Hv';
    [injection Hb as <- _; split; assumption|].
  apply negb_false_iff, Z.eqb_eq in Hv'. subst v.
  bind_step Hb grid Hgrid. injection Hb as <- _.
  unfold with_grid. cbn [gd_grid].
  assert (grid_set (gd_grid g0) xx yy
            (nth (Z.to_nat (yy * g_width (gd_grid g0) + xx))
               (g_data grid) Unknown) = Ret grid) as Hset.
  { destruct mine; [|bind_step Hgrid k Hk];
      pose proof Hgrid as Hgrid';
      apply grid_set_idx_Ret in Hgrid; destruct Hgrid as [Hi ->];
      cbn [g_data]; unfold grid_size in Hi;
      rewrite list_update_nth_same by lia; exact Hgrid'. }
  clear Hgrid.
  pose proof (grid_set_shape _ _ _ _ _ Hset) as Hs1.
  apply grid_set_idx_Ret in Hset. destruct Hset as [Hi Hset].
  apply (grid_at_idx_Ret _ _ _ Unknown) in Hv. destruct Hv as [_ Hv].
  split; [congruence|]. intros i Hne.
  rewrite <- (Hg i Hne). rewrite Hset at 1. cbn [g_data].
  apply list_update_nth_other. intros E. subst i.
  apply Hne. rewrite <- (Hg _ Hne). symmetry. exact Hv.
Qed.

Lemma process_next_todo_learns (fuel : nat) (s : SetStoreElement)
      (thegame game' : GameData) (stodo stodo' : SquareTodo)
      (ss ss' : SetStore) :
  process_next_todo fuel s thegame stodo ss = Ret (game', stodo', ss') ->
  learns thegame game'.
Proof.
  unfold process_next_todo. intros H.
  destruct ((e_mines s =? 0) || (e_mines s =? count (set_mask (e_set s)))).
  - inv_ret H. ret_eq H.
    eapply mark_known_squares_learns; eassumption.
  - apply (for_each_invariant
             (fun st => learns thegame (fst (fst st)))) in H;
      [exact H | | apply learns_refl].
    intros it [[g1 s1] ss1] [[g2 s2] ss2] _ Hi Hb. cbn [fst] in *.
    inv_ret Hb.
    repeat match type of Hb with
           | (if ?c then _ else _) = _ => destruct c
           end; inv_ret Hb; ret_eq Hb; try exact Hi.
    eapply learns_trans; [exact Hi|].
    eapply learns_trans; eapply mark_known_squares_learns; eassumption.
Qed.

Lemma mark_outside_learns (sets : list SetStoreElement) (nsets : Z)
      (setused : list bool) (minesleft : Z) (thegame game' : GameData)
      (stodo stodo' : SquareTodo) :
  mark_outside sets nsets setused minesleft thegame stodo
  = Ret (game', stodo') ->
  learns thegame game'.
Proof.
  unfold mark_outside. intros H.
  apply (for_each_invariant (fun st => learns thegame (fst st)))
    in H; [exact H | | apply learns_refl].
  intros i [g1 s1] [g2 s2] _ Hi Hb. cbn [fst] in *.
  inv_ret Hb.
  repeat match type of Hb with
         | (if ?c then _ else _) = _ => destruct c
         end; try (ret_eq Hb; exact Hi).
  eapply learns_trans; [exact Hi|].
  eapply mark_known_squares_learns. exact Hb.
Qed.

Lemma global_loop_learns (fuel : nat) (sets : list SetStoreElement)
      (nsets : Z) (thegame : GameData) (stodo : SquareTodo) :
  forall (cursor : Z) (setused : list bool) (minesleft squaresleft : Z)
         (b : bool) (game' : GameData) (stodo' : SquareTodo),
    global_loop fuel sets nsets thegame stodo cursor setused minesleft
      squaresleft = Ret (b, game', stodo') ->
    learns thegame game'.
Proof.
  induction fuel as [|fuel IH]; intros cursor setused minesleft squaresleft
    b game' stodo' H; cbn [global_loop] in H; [discriminate|].
  destruct (cursor <? nsets); [eapply IH; exact H|].
  destruct ((0 <? squaresleft)
            && ((minesleft =? 0) || (minesleft =? squaresleft))).
  - inv_ret H. ret_eq H. eapply mark_outside_learns; eassumption.
  - destruct (0 <=? backtrack (Z.to_nat cursor) setused).
    + inv_ret H. eapply IH; exact H.
    + ret_eq H. apply learns_refl.
Qed.

Lemma attempt_global_deduction_learns (fuel : nat)
      (n squaresleft minesleft : Z) (thegame game' : GameData)
      (stodo stodo' : SquareTodo) (ss : SetStore) (b : bool) :
  attempt_global_deduction fuel n squaresleft minesleft thegame stodo ss
  = Ret (b, game', stodo') ->
  learns thegame game'.
Proof.
  unfold attempt_global_deduction. intros H.
  destruct ((minesleft =? 0) || (minesleft =? squaresleft)).
  - inv_ret H. ret_eq H.
    match goal with
    | Hr : for_each _ _ _ = Ret _ |- _ =>
        apply (for_each_invariant (fun st => learns thegame (fst st)))
          in Hr; [exact Hr | | apply learns_refl]
    end.
    intros i [g2 s2] [g3 s3] _ Hi Hb. cbn [fst] in *.
    inv_ret Hb. destruct (_ =? Unknown).
    + eapply learns_trans; [exact Hi|].
      eapply mark_known_squares_learns. exact Hb.
    + ret_eq Hb. exact Hi.
  - destruct (setused_size <? setstore_size ss).
    + ret_eq H. apply learns_refl.
    + eapply global_loop_learns; exact H.
Qed.

Section SolverLearns.

Context {R : RNG}.

Lemma solve_loop_learns (fuel : nat) (n : Z) :
  forall (steps : nat) (perturbator' : option (Perturbator * RandomEngine))
         (thegame game' : GameData) (stodo : SquareTodo) (ss : SetStore),
    solve_loop fuel steps n None thegame stodo ss
    = Ret (game', perturbator') ->
    learns thegame game' /\ perturbator' = None.
Proof.
  induction steps as [|steps IH]; intros perturbator' thegame
    game' stodo ss H; cbn [solve_loop] in H; [discriminate|].
  destruct (process_newly_known_squares fuel stodo (gd_grid thegame) ss)
    as [ss1| |]; cbn [bind] in H; try discriminate.
  destruct (next_todo ss1) as [[todo ss2]| |]; cbn [bind] in H;
    try discriminate.
  destruct todo as [elem|].
  - destruct (process_next_todo fuel elem thegame [] ss2)
      as [[[g1 st1] ss3]| |] eqn:Hp; cbn [bind] in H; try discriminate.
    apply process_next_todo_learns in Hp.
    apply IH in H. destruct H as [Hs Hm]. split; [|exact Hm].
    eapply learns_trans; eassumption.
  - destruct (count_if _ _ =? 0).
    + destruct (assert _); cbn [bind] in H; try discriminate.
      ret_eq H. split; [apply learns_refl|reflexivity].
    + destruct (if 0 <=? n then _ else _) as [[[b g1] st1]| |] eqn:Hg;
        cbn [bind] in H; try discriminate.
      assert (learns thegame g1) as Hf.
      { destruct (0 <=? n).
        - eapply attempt_global_deduction_learns. exact Hg.
        - ret_eq Hg. apply learns_refl. }
      destruct b.
      * apply IH in H. destruct H as [Hs Hm]. split; [|exact Hm].
        eapply learns_trans; eassumption.
      * ret_eq H. split; [exact Hf|reflexivity].
Qed.

(** X16. A solver without perturbator only adds knowledge: after [solve]
    the mines and the start square are as before, the grid has the same
    dimensions, and every square whose value was not [Unknown] has kept
    its value. *)
Theorem solve_without_perturbator_only_reveals (fuel : nat)
        (thegame game' : GameData) (b : bool)
        (perturbator' : option (Perturbator * RandomEngine)) :
  solve fuel None thegame = Ret (b, game', perturbator') ->
  perturbator' = None
  /\ gd_mines game' = gd_mines thegame
  /\ gd_sx game' = gd_sx thegame /\ gd_sy game' = gd_sy thegame
  /\ shape (gd_grid game') = shape (gd_grid thegame)
  /\ forall x y, cell (gd_grid thegame) x y <> Unknown ->
                 cell (gd_grid game') x y = cell (gd_grid thegame) x y.
Proof.
  unfold solve. cbv zeta. intros H.
  bind_step H stodo Hstodo. bind_step H r Hr. destruct r as [g1 p1].
  injection H as _ <- <-.
  apply solve_loop_learns in Hr.
  destruct Hr as [[[Hx [Hy [Hm Hsh]]] [_ Hg]] Hp].
  split; [exact Hp|]. split; [exact Hm|]. split; [exact Hx|].
  split; [exact Hy|]. split; [exact Hsh|].
  intros x y Hc. unfold cell in *.
  unfold shape in Hsh. inversion Hsh as [[Hw Hh Hl]]. rewrite Hw.
  apply Hg, Hc.
Qed.

(** X17. The use count of the perturbator tells whether it was used:
    [solve] with a perturbator returns the perturbator with a use count
    that is not smaller; and when the count has not changed, the mines
    are untouched and the solver without perturbator returns the same
    answer and the same game. *)
Theorem solve_unused_perturbator (fuel : nat) (pb : Perturbator)
        (rng : RandomEngine) (thegame game' : GameData) (b : bool)
        (perturbator' : option (Perturbator * RandomEngine)) :
  solve fuel (Some (pb, rng)) thegame = Ret (b, game', perturbator') ->
  exists pb' rng',
    perturbator' = Some (pb', rng')
    /\ m_use_count pb <= m_use_count pb'
    /\ (m_use_count pb' = m_use_count pb ->
        solve fuel None thegame = Ret (b, game', None)
        /\ gd_mines game' = gd_mines thegame).
Proof.
  intros H. pose proof H as H0. unfold solve in H. cbv zeta in H.
  bind_step H stodo Hstodo. bind_step H r Hr. destruct r as [g1 p1].
  injection H as Eb Eg Ep. subst g1 p1.
  apply solve_loop_spec in Hr. destruct Hr as [_ Hr].
  destruct perturbator' as [[pb' rng']|]; [|contradiction].
  exists pb', rng'. split; [reflexivity|]. split; [exact Hr|].
  intros Hc. eapply solve_no_perturbation; eassumption.
Qed.

End SolverLearns.

Lemma test_solve_with_perturbator :
  @solve test_rng 60 (Some (mkPerturbator 0 false, 0)) test_game
  = Ret (true, test_solved, Some (mkPerturbator 0 false, 0)).
Proof. vm_compute. reflexivity. Qed.

Lemma solve_without_perturbator_only_reveals_witness :
  @None (Perturbator * @RandomEngine test_rng) = None
  /\ gd_mines test_solved = gd_mines test_game
  /\ gd_sx test_solved = gd_sx test_game
  /\ gd_sy test_solved = gd_sy test_game
  /\ shape (gd_grid test_solved) = shape (gd_grid test_game)
  /\ forall x y, cell (gd_grid test_game) x y <> Unknown ->
                 cell (gd_grid test_solved) x y
                 = cell (gd_grid test_game) x y.
Proof.
  exact (@solve_without_perturbator_only_reveals test_rng 60 test_game
           test_solved true None test_solve).
Defined.

Lemma solve_unused_perturbator_witness :
  exists pb' rng',
    Some (mkPerturbator 0 false, 0) = Some (pb', rng')
    /\ m_use_count (mkPerturbator 0 false) <= m_use_count pb'
    /\ (m_use_count pb' = m_use_count (mkPerturbator 0 false) ->
        @solve test_rng 60 None test_game = Ret (true, test_solved, None)
        /\ gd_mines test_solved = gd_mines test_game).
Proof.
  exact (@solve_unused_perturbator test_rng 60 (mkPerturbator 0 false) 0
           test_game test_solved true _ test_solve_with_perturbator).
Defined.

Lemma zrange_sorted (n : nat) : StronglySorted Z.lt (zrange n).
Proof.
  unfold zrange. generalize 0%nat.
  induction n as [|n IH]; intros s; cbn [seq map]; constructor.
  - apply IH.
  - apply Forall_forall. intros z Hz. apply in_map_iff in Hz.
    destruct Hz as [k [<- Hk]]. apply in_seq in Hk. lia.
Qed.

Lemma sorted_filter (f : Z -> bool) (l : list Z) :
  StronglySorted Z.lt l -> StronglySorted Z.lt (filter f l).
Proof.
  induction 1 as [|a l Hs IH Hall]; cbn [filter]; [constructor|].
  destruct (f a); [|exact IH]. constructor; [exact IH|].
  apply Forall_forall. intros z Hz. apply filter_In in Hz.
  rewrite Forall_forall in Hall. apply Hall, Hz.
Qed.

Lemma build_loop_filter (grid : Grid Z) (l : list Z) :
  (forall i, In i l -> 0 <= i < grid_size grid) ->
  forall acc,
    for_each l (fun i list =>
      v <- grid_at_idx grid i ;;
      Ret (if negb (v =? Unknown) then list ++ [i] else list)) acc
    = Ret (acc ++ filter (fun i =>
             negb (nth (Z.to_nat i) (g_data grid) Unknown =? Unknown)) l).
Proof.
  induction l as [|i l IH]; intros Hl acc; cbn [for_each filter].
  - rewrite app_nil_r. reflexivity.
  - rewrite (grid_at_idx_in grid i Unknown) by (apply Hl; left; reflexivity).
    cbn [bind]. rewrite IH by (intros j Hj; apply Hl; right; exact Hj).
    destruct (negb (_ =? Unknown)); [|reflexivity].
    rewrite <- app_assoc. reflexivity.
Qed.

(** X14. [build_square_todolist] always returns, and returns the indices
    of the squares whose value is not [Unknown], each once and in
    increasing order. *)
Theorem build_square_todolist_known_squares (grid : Grid Z) :
  exists l,
    build_square_todolist grid = Ret l
    /\ StronglySorted Z.lt l
    /\ forall i, In i l
                 <-> 0 <= i < grid_size grid
                     /\ nth (Z.to_nat i) (g_data grid) Unknown <> Unknown.
Proof.
  unfold build_square_todolist.
  rewrite build_loop_filter by (intros i Hi; apply in_grid_indices, Hi).
  eexists. split; [reflexivity|]. cbn [app]. split.
  - apply sorted_filter, zrange_sorted.
  - intros i. rewrite filter_In, in_grid_indices, negb_true_iff, Z.eqb_neq.
    reflexivity.
Qed.

Lemma grid_set_total {T : Type} (g : Grid T) (x y : Z) (v : T) :
  grid_wf g -> grid_contains g x y = true ->
  exists g', grid_set g x y v = Ret g'.
Proof.
  intros Hwf Hc. pose proof (idx_in_grid g x y Hwf Hc) as Hi.
  unfold grid_set, grid_set_idx.
  replace ((0 <=? y * g_width g + x) && (y * g_width g + x <? grid_size g))
    with true by (symmetry; apply andb_true_iff;
                  rewrite Z.leb_le, Z.ltb_lt; lia).
  eexists. reflexivity.
Qed.

Lemma shape_eq_contains {T U : Type} (g : Grid T) (g' : Grid U) :
  shape g' = shape g ->
  g_width g' = g_width g /\ g_height g' = g_height g
  /\ length (g_data g') = length (g_data g).
Proof. unfold shape. intros H. inversion H. auto. Qed.

Lemma in_list_cons (p : Z * Z) (l : list (Z * Z)) (a b : Z) :
  in_list (p :: l) a b = ((fst p =? a) && (snd p =? b)) || in_list l a b.
Proof. reflexivity. Qed.

Lemma in_list_In (l : list (Z * Z)) (a b : Z) :
  in_list l a b = true <-> In (a, b) l.
Proof.
  unfold in_list. rewrite existsb_exists. split.
  - intros [[qa qb] [Hin Hq]]. cbn [fst snd] in Hq.
    apply andb_true_iff in Hq. rewrite !Z.eqb_eq in Hq.
    destruct Hq as [-> ->]. exact Hin.
  - intros Hin. exists (a, b). split; [exact Hin|]. cbn [fst snd].
    rewrite !Z.eqb_refl. reflexivity.
Qed.

Lemma marked_value_known (mines : Grid bool) (mine : bool) (a b : Z) :
  marked_value mines mine a b <> Unknown.
Proof.
  unfold marked_value, MarkedAsMine, Unknown.
  pose proof (neighbor_mines_nonneg mines a b).
  destruct mine; [lia|]. destruct (mine_at mines a b); lia.
Qed.

Lemma mark_loop_spec (mine : bool) (l : list (Z * Z)) :
  forall (game : GameData) (std : SquareTodo),
    game_wf game ->
    (forall p, In p l -> grid_contains (gd_grid game) (fst p) (snd p) = true) ->
    exists game' std',
      for_each l (fun '(xx, yy) '(game, std) =>
        v <- grid_at (gd_grid game) xx yy ;;
        if negb (v =? Unknown) then Ret (game, std)
        else
          grid <-
            (if mine then grid_set (gd_grid game) xx yy MarkedAsMine
             else k <- mineLookup game xx yy ;;
                  grid_set (gd_grid game) xx yy k) ;;
          Ret (with_grid game grid, std ++ [pt2idx grid xx yy]))
        (game, std) = Ret (game', std')
      /\ same_frame game game'
      /\ forall a b, grid_contains (gd_grid game) a b = true ->
           cell (gd_grid game') a b
           = if (cell (gd_grid game) a b =? Unknown) && in_list l a b
             then marked_value (gd_mines game) mine a b
             else cell (gd_grid game) a b.
Proof.
  induction l as [|[xx yy] l IH]; intros game std Hwf Hin; cbn [for_each].
  - exists game, std. split; [reflexivity|].
    split; [apply same_frame_refl|]. intros a b _.
    unfold in_list. cbn [existsb]. rewrite andb_false_r. reflexivity.
  - pose proof (Hin (xx, yy) (or_introl eq_refl)) as Hc.
    cbn [fst snd] in Hc.
    pose proof Hwf as [Wm [Wg [Ew Eh]]].
    rewrite (grid_at_cell _ _ _ Wg Hc). cbn [bind].
    destruct (cell (gd_grid game) xx yy =? Unknown) eqn:Hv; cbn [negb].
    + destruct (grid_set_total (gd_grid game) xx yy
                  (marked_value (gd_mines game) mine xx yy) Wg Hc)
        as [grid Hset].
      assert ((if mine then grid_set (gd_grid game) xx yy MarkedAsMine
               else k <- mineLookup game xx yy ;;
                    grid_set (gd_grid game) xx yy k) = Ret grid) as Hg.
      { unfold marked_value in Hset. destruct mine; [exact Hset|].
        rewrite mineLookup_spec
          by (try exact Wm; rewrite (game_wf_contains _ _ _ Hwf); exact Hc).
        cbn [bind]. exact Hset. }
      rewrite Hg. cbn [bind].
      pose proof (grid_set_shape _ _ _ _ _ Hset) as Hs.
      assert (same_frame game (with_grid game grid)) as Hf
          by (apply same_frame_with_grid; exact Hs).
      destruct (IH (with_grid game grid) (std ++ [pt2idx grid xx yy]))
        as [game' [std' [Hr [Hf' Hcells]]]].
      { eapply game_wf_frame; [apply same_frame_shapes; exact Hf|exact Hwf]. }
      { intros p Hp. unfold with_grid. cbn [gd_grid].
        rewrite (shape_contains (gd_grid game)) by exact Hs.
        apply Hin. right. exact Hp. }
      exists game', std'. split; [exact Hr|].
      split; [eapply same_frame_trans; eassumption|].
      intros a b Hab. unfold with_grid in Hcells. cbn [gd_grid gd_mines] in *.
      rewrite Hcells
        by (rewrite (shape_contains (gd_grid game)) by exact Hs; exact Hab).
      rewrite (grid_set_cell _ _ _ _ _ a b Wg Hc Hset Hab).
      rewrite in_list_cons. cbn [fst snd].
      rewrite (Z.eqb_sym xx a), (Z.eqb_sym yy b).
      destruct ((a =? xx) && (b =? yy)) eqn:E.
      * apply andb_true_iff in E. rewrite !Z.eqb_eq in E.
        destruct E as [-> ->]. rewrite Hv. cbn [andb orb].
        destruct (marked_value (gd_mines game) mine xx yy =? Unknown) eqn:F;
          [|reflexivity].
        apply Z.eqb_eq in F. exfalso. eapply marked_value_known, F.
      * cbn [orb]. reflexivity.
    + destruct (IH game std Hwf) as [game' [std' [Hr [Hf' Hcells]]]].
      { intros p Hp. apply Hin. right. exact Hp. }
      exists game', std'. split; [exact Hr|]. split; [exact Hf'|].
      intros a b Hab. rewrite (Hcells a b Hab).
      rewrite in_list_cons. cbn [fst snd].
      destruct ((xx =? a) && (yy =? b)) eqn:E; [|reflexivity].
      apply andb_true_iff in E. rewrite !Z.eqb_eq in E.
      destruct E as [<- <-]. rewrite Hv. reflexivity.
Qed.

(** X15. [mark_known_squares] on a set of squares of the grid of a
    well-formed game always returns; it leaves the mines and the start
    square alone, writes only into the squares of the set that were
    [Unknown], and leaves none of them [Unknown]: such a square is marked
    as a mine when [mine] is set, and otherwise gets what [mineLookup]
    returns, which is the value of [MarkedAsMine] when the square holds a
    mine and the number of mines around it when it does not. *)
Theorem mark_known_squares_writes (thegame : GameData) (std : SquareTodo)
        (x y mask : Z) (mine : bool) :
  game_wf thegame ->
  (forall px py, In (px, py) (squares (mkSquareSet x y mask)) ->
                 grid_contains (gd_grid thegame) px py = true) ->
  exists game' std',
    mark_known_squares thegame std x y mask mine = Ret (game', std')
    /\ same_frame thegame game'
    /\ forall a b,
         grid_contains (gd_grid thegame) a b = true ->
         cell (gd_grid game') a b
         = if (cell (gd_grid thegame) a b =? Unknown)
              && member (mkSquareSet x y mask) a b
           then (if mine then MarkedAsMine
                 else if mine_at (gd_mines thegame) a b then MarkedAsMine
                      else neighbor_mines (gd_mines thegame) a b)
           else cell (gd_grid thegame) a b.
Proof.
  intros Hwf Hin. unfold mark_known_squares.
  destruct (mark_loop_spec mine (squares (mkSquareSet x y mask)) thegame std
              Hwf) as [game' [std' [Hr [Hf Hcells]]]].
  { intros [px py] Hp. apply Hin, Hp. }
  exists game', std'. split; [exact Hr|]. split; [exact Hf|].
  intros a b Hab. rewrite (Hcells a b Hab).
  replace (in_list (squares (mkSquareSet x y mask)) a b)
    with (member (mkSquareSet x y mask) a b); [reflexivity|].
  apply eq_true_iff_eq. rewrite in_list_In, In_squares. reflexivity.
Qed.

Lemma mark_known_squares_writes_witness :
  exists game' std',
    mark_known_squares test_game [] 1 0 (Z.lor TOP_LEFT LEFT) false
    = Ret (game', std')
    /\ same_frame test_game game'
    /\ forall a b,
         grid_contains (gd_grid test_game) a b = true ->
         cell (gd_grid game') a b
         = if (cell (gd_grid test_game) a b =? Unknown)
              && member (mkSquareSet 1 0 (Z.lor TOP_LEFT LEFT)) a b
           then (if false then MarkedAsMine
                 else if mine_at (gd_mines test_game) a b then MarkedAsMine
                      else neighbor_mines (gd_mines test_game) a b)
           else cell (gd_grid test_game) a b.
Proof.
  apply (mark_known_squares_writes test_game [] 1 0 (Z.lor TOP_LEFT LEFT)
           false).
  - apply game_invb_ok with (safe := true). reflexivity.
  - intros px py Hp. vm_compute in Hp.
    destruct Hp as [Hp|[Hp|[]]]; injection Hp as <- <-; reflexivity.
Defined.

(* ===================================================================== *)
(** * The generator: seed and dimensions; the changes of a perturbation *)
(* ===================================================================== *)


Lemma test_apply_changes :
  @apply_changes (gd_grid test_ctx) (gd_mines test_ctx) test_perturbation
  = Ret (gd_grid test_ctx1, gd_mines test_ctx1).
Proof. vm_compute. reflexivity. Qed.

Section GeneratorSeed.

Context {R : RNG}.

Lemma verify_loop_shape (fuel : nat) (ntries x y : Z) :
  forall (steps : nat) (game : GameData) (nbperturbs : Z)
         (pb pb' : Perturbator) (rng rng' : RandomEngine)
         (own own' : option RandomEngine) (mines : Grid bool),
    verify_loop fuel steps ntries x y game nbperturbs pb rng own
    = Ret (Some mines, pb', rng', own') ->
    shape mines = shape (gd_mines game).
Proof.
  intros steps game nb pb pb' rng rng' own own' mines H.
  destruct (verify_loop_accepts _ _ _ _ _ _ _ _ _ _ _ _ _ _ H)
    as [game1 [grid0 [game' [Hs [Hm _]]]]].
  subst mines. apply Hs.
Qed.

Lemma minegen_loop_shape (fuel : nat) (n x y : Z) (unique : bool) :
  forall (steps : nat) (ret board : Grid bool) (ntries : Z)
         (pb pb' : Perturbator) (rng rng' : RandomEngine)
         (own own' : option RandomEngine),
    minegen_loop fuel steps ret n x y unique ntries pb rng own
    = Ret (board, pb', rng', own') ->
    shape board = shape ret.
Proof.
  induction steps as [|steps IH];
    intros ret board ntries pb pb' rng rng' own own' H;
    cbn [minegen_loop] in H; [discriminate|].
  cbv zeta in H. bind_step H r Hr. destruct r as [ret1 rng1].
  pose proof (place_mines_shape _ _ _ _ _ _ _ Hr) as Hs.
  destruct unique; [|injection H as <- _ _ _; exact Hs].
  bind_step H v Hv. destruct v as [[[result pb1] rng2] own2].
  destruct result as [mines|].
  - injection H as <- _ _ _. apply verify_loop_shape in Hv.
    cbn [gd_mines] in Hv. congruence.
  - apply IH in H. congruence.
Qed.


(** X19. The grid that [generate] returns has the width and the height
    of the parameters, and a vector of [width * height] cells. *)
Theorem generate_dimensions (fuel : nat) (entropy : Z)
        (gen gen' : Generator) (params : GameParams) (board : Grid bool) :
  generate fuel entropy gen params = Ret (board, gen') ->
  g_width board = p_width params
  /\ g_height board = p_height params
  /\ length (g_data board)
     = Z.to_nat (p_width params * p_height params).
Proof.
  intros H. unfold generate in H. cbv zeta in H.
  bind_step H r Hr. destruct r as [[[ret pb] rng] own]. injection H as <- _.
  unfold minegen in Hr. apply minegen_loop_shape in Hr.
  unfold shape, Grid_new in Hr. cbn [g_width g_height g_data] in Hr.
  rewrite repeat_length in Hr. inversion Hr. auto.
Qed.

End GeneratorSeed.


Lemma generate_dimensions_witness :
  g_width test_board = p_width test_params
  /\ g_height test_board = p_height test_params
  /\ length (g_data test_board)
     = Z.to_nat (p_width test_params * p_height test_params).
Proof.
  exact (@generate_dimensions test_rng 60 0 test_generator test_generator1
           test_params test_board test_generate).
Defined.

(** X21. [apply_changes] with any list of changes of squares of the
    grid, each by +1 or -1: when it returns, the game is still well
    formed, every revealed square shows the number of mines around it,
    the number of mines has changed by the sum of the deltas, and the
    squares that the list does not name hold a mine exactly when they
    did. *)
Theorem apply_changes_keeps_counts (safe : bool) (sx sy : Z)
        (ret : list Perturbation) (grid grid' : Grid Z)
        (mines mines' : Grid bool) :
  game_inv safe (mkGameData sx sy mines grid) ->
  Forall (pert_ok grid) ret ->
  apply_changes grid mines ret = Ret (grid', mines') ->
  game_inv safe (mkGameData sx sy mines' grid')
  /\ mine_count mines' = mine_count mines + delta_sum ret
  /\ forall a b,
       (forall p, In p ret -> ~ (pt_x p = a /\ pt_y p = b)) ->
       mine_at mines' a b = mine_at mines a b.
Proof. apply apply_changes_inv. Qed.

Lemma apply_changes_keeps_counts_witness :
  game_inv false (mkGameData 0 0 (gd_mines test_ctx1) (gd_grid test_ctx1))
  /\ mine_count (gd_mines test_ctx1)
     = mine_count (gd_mines test_ctx) + delta_sum test_perturbation
  /\ forall a b,
       (forall p, In p test_perturbation -> ~ (pt_x p = a /\ pt_y p = b)) ->
       mine_at (gd_mines test_ctx1) a b = mine_at (gd_mines test_ctx) a b.
Proof.
  apply (apply_changes_keeps_counts false 0 0 test_perturbation
           (gd_grid test_ctx) (gd_grid test_ctx1)
           (gd_mines test_ctx) (gd_mines test_ctx1)).
  - apply game_invb_ok. reflexivity.
  - unfold test_perturbation.
    repeat (apply Forall_cons || apply Forall_nil);
      (split; [reflexivity|cbn; auto]).
  - exact test_apply_changes.
Defined.

(* ===================================================================== *)
(** * The squares that a perturbation may change *)
(* ===================================================================== *)

Lemma sq_insert_Permutation (a : PerturbSquare) (l : list PerturbSquare) :
  Permutation (a :: l) (sq_insert a l).
Proof.
  induction l as [|b l IH]; cbn [sq_insert]; [reflexivity|].
  destruct (sq_ltb b a); [|reflexivity].
  rewrite perm_swap. apply perm_skip, IH.
Qed.

Lemma sq_sort_Permutation (l : list PerturbSquare) :
  Permutation l (sq_sort l).
Proof.
  unfold sq_sort. induction l as [|a l IH]; cbn [fold_right]; [reflexivity|].
  rewrite <- sq_insert_Permutation. apply perm_skip, IH.
Qed.

Lemma window_test_member (setx sety mask x y : Z) :
  (setx <=? x) && (x <? setx + 3) && (sety <=? y) && (y <? sety + 3)
  && mask_nonzero
       (mask_and mask (Z.shiftl 1 ((y - sety) * 3 + (x - setx))))
  = member (mkSquareSet setx sety mask) x y.
Proof.
  unfold member. cbn [set_x set_y set_mask].
  destruct (Z.leb_spec setx x), (Z.ltb_spec x (setx + 3)),
    (Z.leb_spec sety y), (Z.ltb_spec y (sety + 3));
    destruct (Z.leb_spec 0 (x - setx)), (Z.ltb_spec (x - setx) 3),
      (Z.leb_spec 0 (y - sety)), (Z.ltb_spec (y - sety) 3);
    cbn [andb]; try lia; try reflexivity.
  rewrite mask_flag_testbit by lia. f_equal. lia.
Qed.

Section SquareList.

Context {R : RNG}.

Hypothesis shuffle_law : shuffle_permutes R.

Lemma shuffle_groups_Permutation (n : nat) :
  forall (l : list PerturbSquare) (rng : RandomEngine),
    Permutation l (fst (shuffle_groups n l rng)).
Proof.
  induction n as [|n IH]; intros l rng; destruct l as [|b l];
    cbn [shuffle_groups fst]; try reflexivity.
  pose proof (span_type_app (sq_type b) (b :: l)) as Happ.
  destruct (span_type (sq_type b) (b :: l)) as [run rest].
  pose proof (shuffle_law _ run rng) as Hrun.
  destruct (shuffle PerturbSquare run rng) as [run' rng1].
  pose proof (IH rest rng1) as Hrest.
  destruct (shuffle_groups n rest rng1) as [rest' rng2].
  cbn [fst snd] in *. rewrite <- Happ.
  apply Permutation_app; assumption.
Qed.

Lemma squarelist_step (ctx : GameData) (grid : Grid Z)
      (setx sety mask i : Z) (acc acc1 : list PerturbSquare) :
  0 <= i < grid_size grid ->
  squarelist_body ctx grid setx sety mask i acc = Ret acc1 ->
  grid_wf grid ->
  if left_out ctx grid setx sety mask (fst (idx2pt grid i))
       (snd (idx2pt grid i))
  then acc1 = acc
  else exists ty,
      acc1 = acc ++ [mkPerturbSquare ty (fst (idx2pt grid i))
                       (snd (idx2pt grid i))].
Proof.
  intros Hi H Hwf. unfold squarelist_body in H. cbv zeta in H.
  unfold left_out.
  destruct (idx2pt_in grid i Hwf Hi) as [Hc He].
  set (x := fst (idx2pt grid i)) in *. set (y := snd (idx2pt grid i)) in *.
  destruct ((Z.abs (y - gd_sy ctx) <=? 1) && (Z.abs (x - gd_sx ctx) <=? 1));
    cbn [orb]; [injection H as <-; reflexivity|].
  rewrite (grid_at_idx_in grid i Unknown) in H by exact Hi.
  cbn [bind] in H. rewrite window_test_member in H.
  unfold cell. rewrite He.
  destruct ((mask_is_zero mask
             && (nth (Z.to_nat i) (g_data grid) Unknown =? Unknown))
            || member (mkSquareSet setx sety mask) x y);
    [injection H as <-; reflexivity|].
  bind_step H ty Hty. injection H as <-. exists ty. reflexivity.
Qed.

(** X20. The list that [build_squarelist] returns holds the squares that
    a perturbation may use outside its input set: every square of the
    list is a square of the grid that is not within one square of the
    start and not in the input set (not unknown, when the mask is empty,
    for then the input set is the unknown squares); and every such square
    of the grid is in the list. *)
Theorem build_squarelist_usable_squares (ctx : GameData) (grid : Grid Z)
        (setx sety mask : Z) (rng rng' : RandomEngine)
        (sqlist : list PerturbSquare) :
  grid_wf grid ->
  build_squarelist ctx grid setx sety mask rng = Ret (sqlist, rng') ->
  (forall sq, In sq sqlist ->
      grid_contains grid (sq_x sq) (sq_y sq) = true
      /\ ~ near (gd_sx ctx) (gd_sy ctx) (sq_x sq) (sq_y sq)
      /\ ~ In (sq_x sq, sq_y sq) (squares (mkSquareSet setx sety mask))
      /\ (mask = 0 -> cell grid (sq_x sq) (sq_y sq) <> Unknown))
  /\ (forall x y,
         grid_contains grid x y = true ->
         ~ near (gd_sx ctx) (gd_sy ctx) x y ->
         ~ In (x, y) (squares (mkSquareSet setx sety mask)) ->
         (mask = 0 -> cell grid x y <> Unknown) ->
         exists ty, In (mkPerturbSquare ty x y) sqlist).
Proof.
  intros Hwf H. unfold build_squarelist in H.
  change (for_each (grid_indices grid) _ [])
    with (for_each (grid_indices grid)
            (squarelist_body ctx grid setx sety mask) []) in H.
  destruct (for_each (grid_indices grid)
              (squarelist_body ctx grid setx sety mask) [])
    as [l| |] eqn:Hl; cbn [bind] in H; try discriminate.
  cbv zeta in H.
  assert (Permutation l sqlist) as Hperm.
  { injection H as H.
    pose proof (shuffle_groups_Permutation (length (sq_sort l)) (sq_sort l)
                  rng) as Hp.
    rewrite H in Hp. cbn [fst] in Hp.
    eapply Permutation_trans; [apply sq_sort_Permutation|exact Hp]. }
  clear H.
  assert (forall x y, left_out ctx grid setx sety mask x y = false <->
            ~ near (gd_sx ctx) (gd_sy ctx) x y
            /\ ~ In (x, y) (squares (mkSquareSet setx sety mask))
            /\ (mask = 0 -> cell grid x y <> Unknown)) as Hleft.
  { intros x y. unfold left_out, near, mask_is_zero.
    rewrite In_squares.
    destruct (Z.leb_spec (Z.abs (y - gd_sy ctx)) 1),
      (Z.leb_spec (Z.abs (x - gd_sx ctx)) 1), (Z.eqb_spec mask 0),
      (Z.eqb_spec (cell grid x y) Unknown),
      (member (mkSquareSet setx sety mask) x y);
      cbn [andb orb];
      (split;
       [ intros Hx; try discriminate;
         (split; [lia|split; [discriminate|intros; assumption || lia]])
       | intros [Hx1 [Hx2 Hx3]]; try reflexivity; exfalso;
         solve [apply Hx1; lia | apply Hx2; reflexivity
               | apply Hx3; assumption] ]). }
  split.
  - intros sq Hsq. apply (Permutation_in _ (Permutation_sym Hperm)) in Hsq.
    match type of Hl with
    | for_each ?l0 ?body ?s0 = _ =>
        pose proof (for_each_invariant
                      (fun acc => forall q, In q acc ->
                         grid_contains grid (sq_x q) (sq_y q) = true
                         /\ left_out ctx grid setx sety mask (sq_x q) (sq_y q)
                            = false)
                      l0 body) as Hinv
    end.
    assert (grid_contains grid (sq_x sq) (sq_y sq) = true
            /\ left_out ctx grid setx sety mask (sq_x sq) (sq_y sq) = false)
      as [Hc Hlo].
    { refine (Hinv _ _ _ _ Hl sq Hsq); [|intros q []].
      clear - Hwf. intros i acc acc1 Hi Hacc Hb.
      apply in_grid_indices in Hi.
      pose proof (squarelist_step ctx grid setx sety mask i acc acc1 Hi Hb
                    Hwf) as Hstep.
      destruct (idx2pt_in grid i Hwf Hi) as [Hc _].
      destruct (left_out ctx grid setx sety mask _ _) eqn:E.
      - subst acc1. exact Hacc.
      - destruct Hstep as [ty ->]. intros q Hq. apply in_app_iff in Hq.
        destruct Hq as [Hq|[<-|[]]]; [apply Hacc, Hq|].
        cbn [sq_x sq_y]. auto. }
    split; [exact Hc|]. apply Hleft, Hlo.
  - intros x y Hc Hn Hs Hm.
    assert (left_out ctx grid setx sety mask x y = false) as Hlo
        by (apply Hleft; auto).
    assert (exists ty, In (mkPerturbSquare ty x y) l) as [ty Hty].
    { match type of Hl with
      | for_each ?l0 ?body ?s0 = _ =>
          pose proof (for_each_remaining
                        (fun rest acc =>
                           (forall j, In j rest -> 0 <= j < grid_size grid)
                           /\ forall i, 0 <= i < grid_size grid ->
                                ~ In i rest ->
                                left_out ctx grid setx sety mask
                                  (fst (idx2pt grid i)) (snd (idx2pt grid i))
                                = false ->
                                exists ty,
                                  In (mkPerturbSquare ty
                                        (fst (idx2pt grid i))
                                        (snd (idx2pt grid i))) acc)
                        l0 body) as Hrem
      end.
      pose proof (idx_in_grid grid x y Hwf Hc) as Hi.
      pose proof (idx2pt_pt2idx grid x y Hwf Hc) as Hpt.
      assert (forall a rest acc acc1,
                 ((forall j, In j (a :: rest) -> 0 <= j < grid_size grid)
                  /\ forall i, 0 <= i < grid_size grid ->
                       ~ In i (a :: rest) ->
                       left_out ctx grid setx sety mask
                         (fst (idx2pt grid i)) (snd (idx2pt grid i))
                       = false ->
                       exists ty,
                         In (mkPerturbSquare ty (fst (idx2pt grid i))
                               (snd (idx2pt grid i))) acc) ->
                 squarelist_body ctx grid setx sety mask a acc = Ret acc1 ->
                 (forall j, In j rest -> 0 <= j < grid_size grid)
                 /\ forall i, 0 <= i < grid_size grid ->
                      ~ In i rest ->
                      left_out ctx grid setx sety mask
                        (fst (idx2pt grid i)) (snd (idx2pt grid i))
                      = false ->
                      exists ty,
                        In (mkPerturbSquare ty (fst (idx2pt grid i))
                              (snd (idx2pt grid i))) acc1) as Hstep.
      { clear - Hwf. intros a rest acc acc1 [Hvalid Hacc] Hb.
        split; [intros j Hj; apply Hvalid; right; exact Hj|].
        intros i Hi Hni Hlo.
        pose proof (squarelist_step ctx grid setx sety mask a acc acc1
                      (Hvalid a (or_introl eq_refl)) Hb Hwf) as Hstep.
        destruct (Z.eq_dec i a) as [->|Hne].
        - rewrite Hlo in Hstep. destruct Hstep as [ty ->].
          exists ty. apply in_app_iff. right. left. reflexivity.
        - assert (exists ty,
                     In (mkPerturbSquare ty (fst (idx2pt grid i))
                           (snd (idx2pt grid i))) acc) as [ty Hty].
          { apply Hacc; [exact Hi| |exact Hlo].
            intros [E|E]; [congruence|contradiction]. }
          exists ty.
          destruct (left_out ctx grid setx sety mask _ _) in Hstep.
          + subst acc1. exact Hty.
          + destruct Hstep as [ty' ->]. apply in_app_iff. auto. }
      destruct (Hrem Hstep [] l) as [_ Hall]; [|exact Hl|].
      - split; [intros j Hj; apply in_grid_indices, Hj|].
        intros i Hi' Hni. exfalso. apply Hni, in_grid_indices, Hi'.
      - destruct (Hall _ Hi ltac:(intros []))
          as [ty Hty]; [rewrite Hpt; exact Hlo|].
        rewrite Hpt in Hty. cbn [fst snd] in Hty. exists ty. exact Hty. }
    exists ty. eapply Permutation_in; eassumption.
Qed.

End SquareList.

Lemma test_build_squarelist :
  exists rng',
    @build_squarelist test_rng test_ctx (gd_grid test_ctx) 2 2 TOP_LEFT 0
    = Ret (test_sqlist, rng').
Proof. eexists. vm_compute. reflexivity. Qed.

Lemma build_squarelist_usable_squares_witness :
  (forall sq, In sq test_sqlist ->
      grid_contains (gd_grid test_ctx) (sq_x sq) (sq_y sq) = true
      /\ ~ near (gd_sx test_ctx) (gd_sy test_ctx) (sq_x sq) (sq_y sq)
      /\ ~ In (sq_x sq, sq_y sq) (squares (mkSquareSet 2 2 TOP_LEFT))
      /\ (TOP_LEFT = 0 -> cell (gd_grid test_ctx) (sq_x sq) (sq_y sq)
                          <> Unknown))
  /\ (forall x y,
         grid_contains (gd_grid test_ctx) x y = true ->
         ~ near (gd_sx test_ctx) (gd_sy test_ctx) x y ->
         ~ In (x, y) (squares (mkSquareSet 2 2 TOP_LEFT)) ->
         (TOP_LEFT = 0 -> cell (gd_grid test_ctx) x y <> Unknown) ->
         exists ty, In (mkPerturbSquare ty x y) test_sqlist).
Proof.
  destruct test_build_squarelist as [rng' H].
  apply (@build_squarelist_usable_squares test_rng test_rng_permutes
           test_ctx (gd_grid test_ctx) 2 2 TOP_LEFT 0 rng' test_sqlist).
  - apply grid_wfb_ok. reflexivity.
  - exact H.
Defined.

(* ===================================================================== *)
(** * The game: marks and mines *)
(* ===================================================================== *)

Lemma list_update_self {T : Type} (l : list T) (n : nat) (d : T) :
  list_update l n (nth n l d) = l.
Proof.
  revert n. induction l as [|a l IH]; intros [|n]; cbn [list_update nth];
    try reflexivity. rewrite IH. reflexivity.
Qed.

Lemma list_update_twice {T : Type} (l : list T) (n : nat) (v v2 : T) :
  list_update (list_update l n v) n v2 = list_update l n v2.
Proof.
  revert n. induction l as [|a l IH]; intros [|n]; cbn [list_update];
    try reflexivity. rewrite IH. reflexivity.
Qed.

Lemma count_if_list_update {T : Type} (f : T -> bool) (l : list T) (n : nat)
      (v d : T) :
  f v = f (nth n l d) ->
  count_if f (list_update l n v) = count_if f l.
Proof.
  unfold count_if. revert n. induction l as [|a l IH]; intros [|n] Hf;
    cbn [list_update nth filter] in *; try reflexivity.
  - rewrite Hf. destruct (f a); reflexivity.
  - specialize (IH n Hf). destruct (f a); cbn [length]; lia.
Qed.

Lemma set_grid_same (g : Game) : set_grid g (gm_grid g) = g.
Proof. destruct g; reflexivity. Qed.

Lemma grid_eta {T : Type} (g : Grid T) :
  mkGrid (g_width g) (g_height g) (g_data g) = g.
Proof. destruct g; reflexivity. Qed.

Lemma contains_nonempty {T : Type} (g : Grid T) (x y : Z) :
  grid_wf g -> grid_contains g x y = true -> grid_empty g = false.
Proof.
  intros Hwf Hc. pose proof (idx_in_grid g x y Hwf Hc) as Hi.
  unfold grid_size in Hi. unfold grid_empty.
  destruct (g_data g); [cbn in Hi; lia|reflexivity].
Qed.

Lemma grid_set_with {T : Type} (g : Grid T) (x y : Z) (v : T) :
  grid_wf g -> grid_contains g x y = true ->
  grid_set g x y v = Ret (grid_with g x y v).
Proof.
  intros Hwf Hc. pose proof (idx_in_grid g x y Hwf Hc) as Hi.
  unfold grid_set, grid_set_idx, grid_with.
  replace ((0 <=? y * g_width g + x) && (y * g_width g + x <? grid_size g))
    with true by (symmetry; apply andb_true_iff;
                  rewrite Z.leb_le, Z.ltb_lt; lia).
  reflexivity.
Qed.

Lemma grid_with_self (g : Grid Z) (x y : Z) :
  grid_with g x y (cell g x y) = g.
Proof.
  unfold grid_with, cell. rewrite list_update_self. apply grid_eta.
Qed.

Lemma grid_with_twice {T : Type} (g : Grid T) (x y : Z) (v v2 : T) :
  grid_with (grid_with g x y v) x y v2 = grid_with g x y v2.
Proof.
  unfold grid_with. cbn [g_width g_height g_data].
  rewrite list_update_twice. reflexivity.
Qed.

Lemma grid_with_shape {T : Type} (g : Grid T) (x y : Z) (v : T) :
  shape (grid_with g x y v) = shape g.
Proof.
  unfold shape, grid_with. cbn [g_width g_height g_data].
  rewrite list_update_length. reflexivity.
Qed.

Lemma grid_with_cell (g : Grid Z) (x y v a c : Z) :
  grid_wf g -> grid_contains g x y = true -> grid_contains g a c = true ->
  cell (grid_with g x y v) a c
  = if (a =? x) && (c =? y) then v else cell g a c.
Proof.
  intros Hwf Hc Hac.
  apply (grid_set_cell g _ x y v a c Hwf Hc); [|exact Hac].
  apply grid_set_with; assumption.
Qed.

Lemma toggled_involutive (v : Z) : toggled (toggled v) = v.
Proof.
  unfold toggled.
  destruct (Z.eqb_spec v MarkedAsMine) as [->|H1]; [reflexivity|].
  destruct (Z.eqb_spec v Unknown) as [->|H2]; [reflexivity|].
  destruct (Z.eqb_spec v MarkedAsMine); [contradiction|].
  destruct (Z.eqb_spec v Unknown); [contradiction|]. reflexivity.
Qed.

Lemma toggled_covered (v : Z) :
  (toggled v =? MarkedAsMine) || (toggled v =? Unknown)
  = (v =? MarkedAsMine) || (v =? Unknown).
Proof.
  unfold toggled.
  destruct (Z.eqb_spec v MarkedAsMine) as [->|H1]; [reflexivity|].
  destruct (Z.eqb_spec v Unknown) as [->|H2]; [reflexivity|].
  destruct (Z.eqb_spec v MarkedAsMine); [contradiction|].
  destruct (Z.eqb_spec v Unknown); [contradiction|]. reflexivity.
Qed.

Lemma toggled_uncovered (v : Z) :
  (0 <=? toggled v) && (toggled v <=? 8) = (0 <=? v) && (v <=? 8).
Proof.
  unfold toggled.
  destruct (Z.eqb_spec v MarkedAsMine) as [->|H1]; [reflexivity|].
  destruct (Z.eqb_spec v Unknown) as [->|H2]; reflexivity.
Qed.

(** What [toggleMark] computes at a square of the grid. *)
Lemma toggleMark_inside (g : Game) (x y : Z) :
  grid_wf (gm_grid g) -> grid_contains (gm_grid g) x y = true ->
  toggleMark g x y
  = Ret ((cell (gm_grid g) x y =? MarkedAsMine)
         || (cell (gm_grid g) x y =? Unknown),
         set_grid g (grid_with (gm_grid g) x y
                       (toggled (cell (gm_grid g) x y)))).
Proof.
  intros Hwf Hc. unfold toggleMark. rewrite Hc. cbn [negb].
  rewrite (grid_at_cell _ _ _ Hwf Hc). cbn [bind].
  set (v := cell (gm_grid g) x y).
  assert ((if v =? MarkedAsMine then grid_set (gm_grid g) x y Unknown
           else if v =? Unknown then grid_set (gm_grid g) x y MarkedAsMine
                else Ret (gm_grid g))
          = Ret (grid_with (gm_grid g) x y (toggled v))) as Hg.
  { unfold toggled.
    destruct (v =? MarkedAsMine); [apply grid_set_with; assumption|].
    destruct (v =? Unknown); [apply grid_set_with; assumption|].
    unfold v. rewrite grid_with_self. reflexivity. }
  rewrite Hg. cbn [bind].
  rewrite (grid_at_cell _ _ _
             (grid_wf_shape _ _ (grid_with_shape _ _ _ _) Hwf))
    by (rewrite (shape_contains (gm_grid g))
          by apply grid_with_shape; exact Hc).
  cbn [bind]. rewrite grid_with_cell by assumption.
  rewrite !Z.eqb_refl. cbn [andb]. rewrite toggled_covered. reflexivity.
Qed.

(** X22. [toggleMark] on a game whose grid has positive width and
    [width * height] cells always returns.  Outside the grid it returns
    false and changes nothing.  At a square of the grid it returns true
    exactly when the square was marked or unknown, and then swaps the
    two values; it changes no other square, nor the mines, the flags
    [dead] and [won] or the number of uncovered squares; and a second
    call at the same square gives the first game back. *)
Theorem toggleMark_toggles (g : Game) (x y : Z) :
  grid_wf (gm_grid g) ->
  exists b g',
    toggleMark g x y = Ret (b, g')
    /\ g' = set_grid g (gm_grid g')
    /\ shape (gm_grid g') = shape (gm_grid g)
    /\ countUncovered g' = countUncovered g
    /\ (grid_contains (gm_grid g) x y = false -> b = false /\ g' = g)
    /\ (grid_contains (gm_grid g) x y = true ->
        b = (cell (gm_grid g) x y =? MarkedAsMine)
            || (cell (gm_grid g) x y =? Unknown)
        /\ cell (gm_grid g') x y = toggled (cell (gm_grid g) x y)
        /\ forall a c, grid_contains (gm_grid g) a c = true ->
                       (a, c) <> (x, y) ->
                       cell (gm_grid g') a c = cell (gm_grid g) a c)
    /\ toggleMark g' x y = Ret (b, g).
Proof.
  intros Hwf.
  destruct (grid_contains (gm_grid g) x y) eqn:Hc.
  - rewrite (toggleMark_inside g x y Hwf Hc).
    set (v := cell (gm_grid g) x y).
    set (g1 := grid_with (gm_grid g) x y (toggled v)).
    assert (grid_wf g1) as Hwf1
        by (eapply grid_wf_shape; [apply grid_with_shape|exact Hwf]).
    assert (grid_contains g1 x y = true) as Hc1
        by (unfold g1; rewrite (shape_contains (gm_grid g))
              by apply grid_with_shape; exact Hc).
    assert (cell g1 x y = toggled v) as Hv1.
    { unfold g1. rewrite grid_with_cell by assumption.
      rewrite !Z.eqb_refl. reflexivity. }
    eexists. eexists. split; [reflexivity|]. cbn [set_grid gm_grid].
    split; [reflexivity|]. split; [apply grid_with_shape|]. split.
    { unfold countUncovered, g1, grid_with. cbn [gm_grid g_data].
      apply (count_if_list_update _ _ _ _ Unknown).
      apply toggled_uncovered. }
    split; [discriminate|]. split.
    { intros _. split; [reflexivity|]. split; [exact Hv1|].
      intros a c Hac Hne. unfold g1.
      rewrite grid_with_cell by assumption.
      destruct ((a =? x) && (c =? y)) eqn:E; [|reflexivity].
      apply andb_true_iff in E. rewrite !Z.eqb_eq in E.
      exfalso. apply Hne. f_equal; tauto. }
    rewrite (toggleMark_inside (set_grid g g1) x y Hwf1 Hc1).
    cbn [set_grid gm_grid gm_params gm_seed gm_mines gm_dead gm_won].
    rewrite Hv1, toggled_covered, toggled_involutive.
    unfold g1. rewrite grid_with_twice. unfold v.
    rewrite grid_with_self. f_equal. f_equal. destruct g; reflexivity.
  - exists false, g. unfold toggleMark. rewrite Hc. cbn [negb].
    split; [reflexivity|].
    split; [symmetry; apply set_grid_same|]. split; [reflexivity|].
    split; [reflexivity|]. split; [auto|]. split; [discriminate|].
    reflexivity.
Qed.

Lemma toggleMark_toggles_witness :
  exists b g',
    toggleMark test_play 2 1 = Ret (b, g')
    /\ g' = set_grid test_play (gm_grid g')
    /\ shape (gm_grid g') = shape (gm_grid test_play)
    /\ countUncovered g' = countUncovered test_play
    /\ (grid_contains (gm_grid test_play) 2 1 = false ->
        b = false /\ g' = test_play)
    /\ (grid_contains (gm_grid test_play) 2 1 = true ->
        b = (cell (gm_grid test_play) 2 1 =? MarkedAsMine)
            || (cell (gm_grid test_play) 2 1 =? Unknown)
        /\ cell (gm_grid g') 2 1 = toggled (cell (gm_grid test_play) 2 1)
        /\ forall a c, grid_contains (gm_grid test_play) a c = true ->
                       (a, c) <> (2, 1) ->
                       cell (gm_grid g') a c
                       = cell (gm_grid test_play) a c)
    /\ toggleMark g' 2 1 = Ret (b, test_play).
Proof.
  apply (toggleMark_toggles test_play 2 1).
  apply grid_wfb_ok. reflexivity.
Defined.

(** X23. [open_square] at a square that holds a mine, in a game with
    well-formed grids of the same dimensions: it returns [KilledByMine],
    sets [dead], writes [MineHit] at the square, and leaves every other
    square, the mines and [won] as they were. *)
Theorem open_square_on_a_mine (fuel : nat) (g : Game) (x y : Z) :
  game_wf (gameData g) ->
  mine_at (gm_mines g) x y = true ->
  exists g',
    open_square fuel g x y = Ret (KilledByMine, g')
    /\ gm_dead g' = true
    /\ gm_won g' = gm_won g
    /\ gm_mines g' = gm_mines g
    /\ cell (gm_grid g') x y = MineHit
    /\ forall a c, grid_contains (gm_grid g) a c = true ->
                   (a, c) <> (x, y) ->
                   cell (gm_grid g') a c = cell (gm_grid g) a c.
Proof.
  intros Hwf Hm. pose proof Hwf as [Wm [Wg [Ew Eh]]].
  cbn [gameData gd_mines gd_grid] in *.
  assert (grid_contains (gm_mines g) x y = true) as Hcm.
  { unfold mine_at in Hm. apply andb_true_iff in Hm. apply Hm. }
  assert (grid_contains (gm_grid g) x y = true) as Hc.
  { pose proof (game_wf_contains (gameData g) x y Hwf) as E.
    cbn [gameData gd_mines gd_grid] in E. rewrite <- E. exact Hcm. }
  unfold open_square. cbv zeta.
  rewrite (contains_nonempty _ _ _ Wm Hcm). cbn [negb assert bind].
  rewrite (grid_at_mine _ _ _ Wm Hcm), Hm. cbn [bind].
  rewrite (grid_set_with _ _ _ MineHit Wg Hc). cbn [bind].
  eexists. split; [reflexivity|]. cbn [gm_dead gm_won gm_mines gm_grid].
  split; [reflexivity|]. split; [reflexivity|]. split; [reflexivity|].
  split.
  - rewrite grid_with_cell by assumption. rewrite !Z.eqb_refl. reflexivity.
  - intros a c Hac Hne. rewrite grid_with_cell by assumption.
    destruct ((a =? x) && (c =? y)) eqn:E; [|reflexivity].
    apply andb_true_iff in E. rewrite !Z.eqb_eq in E.
    exfalso. apply Hne. f_equal; tauto.
Qed.

Lemma open_square_on_a_mine_witness :
  exists g',
    open_square 10 test_play 4 2 = Ret (KilledByMine, g')
    /\ gm_dead g' = true
    /\ gm_won g' = gm_won test_play
    /\ gm_mines g' = gm_mines test_play
    /\ cell (gm_grid g') 4 2 = MineHit
    /\ forall a c, grid_contains (gm_grid test_play) a c = true ->
                   (a, c) <> (4, 2) ->
                   cell (gm_grid g') a c = cell (gm_grid test_play) a c.
Proof.
  apply (open_square_on_a_mine 10 test_play 4 2).
  - apply (game_invb_ok false). reflexivity.
  - reflexivity.
Defined.

(* ===================================================================== *)
(** * The game: the flood fill of [open_square] *)
(* ===================================================================== *)

Lemma for_each_total {A S : Type} (I : list A -> S -> Prop) (l : list A)
      (body : A -> S -> res S) :
  (forall a rest s, I (a :: rest) s ->
                    exists s1, body a s = Ret s1 /\ I rest s1) ->
  forall s, I l s -> exists s', for_each l body s = Ret s' /\ I [] s'.
Proof.
  intros Hstep. induction l as [|a l IH]; intros s Hs.
  - exists s. split; [reflexivity|exact Hs].
  - destruct (Hstep a l s Hs) as [s1 [E1 H1]].
    destruct (IH s1 H1) as [s' [E' H']].
    exists s'. split; [|exact H']. cbn [for_each]. rewrite E1. exact E'.
Qed.

Lemma while_loop_total {S : Type} (I : S -> Prop) (m : S -> nat)
      (cond : S -> bool) (body : S -> res S) :
  (forall s, I s -> cond s = true ->
             exists s', body s = Ret s' /\ I s' /\ (m s' < m s)%nat) ->
  forall (fuel : nat) (s : S), I s -> (m s < fuel)%nat ->
    exists s', while_loop fuel cond body s = Ret s' /\ I s'
               /\ cond s' = false.
Proof.
  intros Hstep. induction fuel as [|fuel IH]; intros s Hs Hm; [lia|].
  cbn [while_loop]. destruct (cond s) eqn:Ec.
  - destruct (Hstep s Hs Ec) as [s1 [E1 [H1 Hlt]]]. rewrite E1. cbn [bind].
    apply IH; [exact H1|lia].
  - exists s. auto.
Qed.

Lemma filter_update_length {T : Type} (f : T -> bool) (l : list T) (n : nat)
      (v d : T) :
  (n < length l)%nat ->
  (length (filter f (list_update l n v)) + (if f (nth n l d) then 1 else 0)
   = length (filter f l) + (if f v then 1 else 0))%nat.
Proof.
  revert n. induction l as [|a l IH]; intros [|n] Hn;
    cbn [length list_update nth filter] in *; try lia.
  - destruct (f a), (f v); cbn [length]; lia.
  - specialize (IH n ltac:(lia)). destruct (f a); cbn [length]; lia.
Qed.

Lemma unknowns_open (grid : Grid Z) (x y v : Z) :
  grid_wf grid -> grid_contains grid x y = true -> v <> Unknown ->
  (unknowns (grid_with grid x y v)
   + (if (cell grid x y =? Unknown)%Z then 1 else 0) = unknowns grid)%nat.
Proof.
  intros Hwf Hc Hv. pose proof (idx_in_grid grid x y Hwf Hc) as Hi.
  unfold unknowns, grid_with, cell. cbn [g_data].
  pose proof (filter_update_length (fun k => k =? Unknown) (g_data grid)
                (Z.to_nat (y * g_width grid + x)) v Unknown) as H.
  unfold grid_size in Hi.
  assert (Z.to_nat (y * g_width grid + x) < length (g_data grid))%nat as Hlt
      by lia.
  specialize (H Hlt). cbv beta in H.
  destruct (Z.eqb_spec v Unknown); [contradiction|]. lia.
Qed.

Lemma unknowns_le (grid : Grid Z) :
  (unknowns grid <= length (g_data grid))%nat.
Proof. unfold unknowns. apply filter_length_le. Qed.

Lemma sum_b2z_zero {A : Type} (f : A -> bool) (l : list A) :
  fold_right Z.add 0 (map (fun d => Z.b2z (f d)) l) = 0 ->
  forall d, In d l -> f d = false.
Proof.
  induction l as [|a l IH]; cbn [map fold_right In]; intros H d Hd;
    [contradiction|].
  assert (0 <= fold_right Z.add 0 (map (fun d => Z.b2z (f d)) l)) as Hpos.
  { clear. induction l as [|a l IH]; cbn [map fold_right]; [lia|].
    destruct (f a); cbn [Z.b2z]; lia. }
  destruct Hd as [<-|Hd].
  - destruct (f a); cbn [Z.b2z] in H; [lia|reflexivity].
  - apply IH; [|exact Hd]. destruct (f a); cbn [Z.b2z] in H; lia.
Qed.

Lemma neighbor_mines_zero (mines : Grid bool) (x y dx dy : Z) :
  neighbor_mines mines x y = 0 -> In dx deltas -> In dy deltas ->
  (dx, dy) <> (0, 0) -> mine_at mines (x + dx) (y + dy) = false.
Proof.
  intros H Hdx Hdy Hne.
  apply (sum_b2z_zero (fun d => mine_at mines (x + fst d) (y + snd d))
           neighbor_offsets H (dx, dy)).
  unfold deltas in *. cbn [In] in Hdx, Hdy. unfold neighbor_offsets.
  cbn [In].
  destruct Hdx as [<-|[<-|[<-|[]]]]; destruct Hdy as [<-|[<-|[<-|[]]]];
    try (exfalso; apply Hne; reflexivity);
    repeat (first [left; reflexivity | right]).
Qed.

Lemma In_delta_pairs (dx dy : Z) :
  In (dx, dy) delta_pairs <-> In dx deltas /\ In dy deltas.
Proof.
  unfold delta_pairs. rewrite in_flat_map. split.
  - intros [a [Ha Hin]]. apply in_map_iff in Hin.
    destruct Hin as [b [E Hb]]. injection E as <- <-. auto.
  - intros [Hx Hy]. exists dx. split; [exact Hx|].
    apply in_map_iff. exists dy. auto.
Qed.

Lemma open_around_flat (xx yy : Z) (st : Game * list Z) :
  open_around xx yy st
  = for_each delta_pairs (fun '(dx, dy) st => open_step xx yy dx dy st) st.
Proof.
  unfold open_around, delta_pairs.
  exact (for_each_nested deltas deltas
           (fun dx dy st => open_step xx yy dx dy st) st).
Qed.

Lemma set_grid_twice (g : Game) (grid grid' : Grid Z) :
  set_grid (set_grid g grid) grid' = set_grid g grid'.
Proof. reflexivity. Qed.

Lemma flood_ext_refl (g : Game) (todo : list Z) : flood_ext g todo g todo.
Proof.
  split; [reflexivity|]. split; [auto|]. split; [auto|]. lia.
Qed.

Lemma flood_ext_trans (g g' g'' : Game) (todo todo' todo'' : list Z) :
  shape (gm_grid g') = shape (gm_grid g) ->
  flood_ext g todo g' todo' -> flood_ext g' todo' g'' todo'' ->
  flood_ext g todo g'' todo''.
Proof.
  intros Hs [K1 [T1 [Z1 M1]]] [K2 [T2 [Z2 M2]]].
  assert (g_width (gm_grid g') = g_width (gm_grid g)) as Ew
      by (unfold shape in Hs; congruence).
  split; [|split; [|split]].
  - intros a c Hc Hv. rewrite <- (K1 a c Hc Hv). apply K2.
    + rewrite (shape_contains (gm_grid g)) by exact Hs. exact Hc.
    + rewrite (K1 a c Hc Hv). exact Hv.
  - auto.
  - intros a c Hc H0.
    assert (grid_contains (gm_grid g') a c = true) as Hc'
        by (rewrite (shape_contains (gm_grid g)) by exact Hs; exact Hc).
    destruct (Z2 a c Hc' H0) as [H|H].
    + destruct (Z1 a c Hc H) as [H'|H']; [left; exact H'|].
      right. apply T2. exact H'.
    + right. rewrite <- Ew. exact H.
  - lia.
Qed.

Lemma flood_core_shape (g1 g : Game) (todo : list Z) :
  flood_core g1 g todo -> shape (gm_grid g) = shape (gm_grid g1).
Proof. intros [_ [[Hs _] _]]. exact Hs. Qed.

(** One square around a square that shows 0: it is opened if it is
    unknown; it is never a mine. *)
Lemma open_step_spec (g1 g : Game) (todo : list Z) (xx yy dx dy : Z) :
  flood_core g1 g todo ->
  grid_contains (gm_grid g) xx yy = true -> cell (gm_grid g) xx yy = 0 ->
  In dx deltas -> In dy deltas ->
  exists g' todo',
    open_step xx yy dx dy (g, todo) = Ret (g', todo')
    /\ flood_core g1 g' todo'
    /\ flood_ext g todo g' todo'
    /\ (grid_contains (gm_grid g) (xx + dx) (yy + dy) = true ->
        cell (gm_grid g') (xx + dx) (yy + dy) <> Unknown).
Proof.
  intros Hcore Hc H0 Hdx Hdy.
  pose proof Hcore as [Eg [[Hs Ho] [Hinv Htodo]]].
  pose proof Hinv as [[Wm [Wg [Ew Eh]]] [Hok Hval]].
  cbn [gameData gd_mines gd_grid] in *.
  unfold open_step. cbv zeta.
  destruct (grid_contains (gm_grid g) (xx + dx) (yy + dy)) eqn:Hc'.
  2: { exists g, todo. split; [reflexivity|]. split; [exact Hcore|].
       split; [apply flood_ext_refl|discriminate]. }
  rewrite (grid_at_cell _ _ _ Wg Hc'). cbn [bind].
  destruct (Z.eqb_spec (cell (gm_grid g) (xx + dx) (yy + dy)) Unknown)
    as [Hu|Hu].
  2: { exists g, todo. split; [reflexivity|]. split; [exact Hcore|].
       split; [apply flood_ext_refl|intros _; exact Hu]. }
  assert ((dx, dy) <> (0, 0)) as Hne.
  { intros E. injection E as -> ->. rewrite !Z.add_0_r in Hu.
    rewrite H0 in Hu. discriminate Hu. }
  pose proof (Hok xx yy Hc) as Hxy. unfold cell_ok in Hxy.
  cbn [gameData gd_mines gd_grid] in Hxy. rewrite H0 in Hxy.
  destruct (Hxy (Z.le_refl 0)) as [_ Hnb]. symmetry in Hnb.
  pose proof (neighbor_mines_zero _ _ _ _ _ Hnb Hdx Hdy Hne) as Hm.
  assert (grid_contains (gm_mines g) (xx + dx) (yy + dy) = true) as Hcm.
  { unfold grid_contains in *. rewrite <- Ew, <- Eh. exact Hc'. }
  rewrite (mineLookup_spec (gameData g) _ _ Wm Hcm).
  cbn [gameData gd_mines]. rewrite Hm. cbn [bind].
  set (tx := xx + dx) in *. set (ty := yy + dy) in *.
  set (nb := neighbor_mines (gm_mines g) tx ty).
  pose proof (neighbor_mines_nonneg (gm_mines g) tx ty) as Hnb0.
  fold nb in Hnb0.
  replace (nb =? -1) with false by (symmetry; apply Z.eqb_neq; lia).
  cbn [negb assert bind].
  rewrite (grid_set_with _ _ _ nb Wg Hc'). cbn [bind].
  set (grid' := grid_with (gm_grid g) tx ty nb).
  assert (shape grid' = shape (gm_grid g)) as Hs'
      by apply grid_with_shape.
  assert (forall a c, grid_contains (gm_grid g) a c = true ->
                      cell grid' a c
                      = if (a =? tx) && (c =? ty) then nb
                        else cell (gm_grid g) a c) as Hcell
      by (intros a c Hac; apply grid_with_cell; assumption).
  assert (g_width grid' = g_width (gm_grid g)) as Ew' by reflexivity.
  eexists. eexists. split; [reflexivity|]. split; [|split].
  - (* flood_core *)
    split; [|split; [|split]].
    + rewrite Eg. reflexivity.
    + cbn [set_grid gm_grid]. split; [congruence|].
      intros a c Hac.
      assert (grid_contains (gm_grid g) a c = true) as Hac'
          by (rewrite (shape_contains (gm_grid g1)) by exact Hs; exact Hac).
      rewrite (Hcell a c Hac').
      destruct ((a =? tx) && (c =? ty)) eqn:E; [|apply Ho, Hac].
      apply andb_true_iff in E. rewrite !Z.eqb_eq in E.
      destruct E as [-> ->]. right. split; [|exact Hnb0].
      destruct (Ho tx ty Hac) as [H|[H _]]; [|exact H].
      rewrite <- H. exact Hu.
    + apply (set_cell_inv true (gameData g) grid' tx ty nb Hinv Hc').
      * apply grid_set_with; assumption.
      * intros _. split; [intros _; exact Hm|reflexivity].
      * unfold Unknown. lia.
    + cbn [set_grid gm_grid]. intros i Hi.
      assert (In i todo
              \/ (nb = 0 /\ i = pt2idx grid' tx ty)) as Hi'.
      { destruct (Z.eqb_spec nb 0); [|left; exact Hi].
        destruct Hi as [<-|Hi]; [right; auto|left; exact Hi]. }
      destruct Hi' as [Hi'|[Hz ->]].
      * destruct (Htodo i Hi') as [a [c [Hac [Ei Hv]]]].
        exists a, c. rewrite (shape_contains (gm_grid g)) by exact Hs'.
        split; [exact Hac|]. split; [exact Ei|].
        rewrite (Hcell a c Hac).
        destruct ((a =? tx) && (c =? ty)) eqn:E; [|exact Hv].
        apply andb_true_iff in E. rewrite !Z.eqb_eq in E.
        destruct E as [-> ->]. rewrite Hv in Hu. discriminate Hu.
      * exists tx, ty. rewrite (shape_contains (gm_grid g)) by exact Hs'.
        split; [exact Hc'|]. split; [reflexivity|].
        rewrite (Hcell tx ty Hc'), !Z.eqb_refl. exact Hz.
  - (* flood_ext *)
    unfold flood_ext. cbn [set_grid gm_grid]. split; [|split; [|split]].
    + intros a c Hac Hv. rewrite (Hcell a c Hac).
      destruct ((a =? tx) && (c =? ty)) eqn:E; [|reflexivity].
      apply andb_true_iff in E. rewrite !Z.eqb_eq in E.
      destruct E as [-> ->]. contradiction.
    + intros i Hi. destruct (nb =? 0); [right; exact Hi|exact Hi].
    + intros a c Hac Hv. rewrite (Hcell a c Hac) in Hv.
      destruct ((a =? tx) && (c =? ty)) eqn:E; [|left; exact Hv].
      apply andb_true_iff in E. rewrite !Z.eqb_eq in E.
      destruct E as [-> ->]. right. rewrite Hv. cbn [Z.eqb].
      left. reflexivity.
    + pose proof (unknowns_open (gm_grid g) tx ty nb Wg Hc') as Hun.
      fold grid' in Hun. rewrite Hu in Hun. cbn [Z.eqb] in Hun.
      assert (nb <> Unknown) as Hnu by (unfold Unknown; lia).
      specialize (Hun Hnu). change (Unknown =? Unknown) with true in Hun.
      cbv iota in Hun.
      destruct (nb =? 0); cbn [length]; lia.
  - intros _. cbn [set_grid gm_grid]. rewrite (Hcell tx ty Hc').
    rewrite !Z.eqb_refl. cbn [andb]. unfold Unknown. lia.
Qed.

Lemma closed_ext (g g' : Game) (todo todo' : list Z) (a c : Z) :
  shape (gm_grid g') = shape (gm_grid g) ->
  flood_ext g todo g' todo' ->
  closed (gm_grid g) a c -> closed (gm_grid g') a c.
Proof.
  intros Hs [K _] Hcl dx dy Hdx Hdy Hc.
  rewrite (shape_contains (gm_grid g)) in Hc by exact Hs.
  rewrite (K _ _ Hc (Hcl dx dy Hdx Hdy Hc)). apply Hcl; assumption.
Qed.

(** The squares around a square that shows 0: afterwards all of them
    are known. *)
Lemma open_around_spec (g1 g : Game) (todo : list Z) (xx yy : Z) :
  flood_core g1 g todo ->
  grid_contains (gm_grid g) xx yy = true -> cell (gm_grid g) xx yy = 0 ->
  exists g' todo',
    open_around xx yy (g, todo) = Ret (g', todo')
    /\ flood_core g1 g' todo'
    /\ flood_ext g todo g' todo'
    /\ closed (gm_grid g') xx yy.
Proof.
  intros Hcore Hc H0. rewrite open_around_flat.
  set (J := fun (rest : list (Z * Z)) (st : Game * list Z) =>
     flood_core g1 (fst st) (snd st)
     /\ flood_ext g todo (fst st) (snd st)
     /\ (forall p, In p rest -> In p delta_pairs)
     /\ forall dx dy, In dx deltas -> In dy deltas -> ~ In (dx, dy) rest ->
          grid_contains (gm_grid g) (xx + dx) (yy + dy) = true ->
          cell (gm_grid (fst st)) (xx + dx) (yy + dy) <> Unknown).
  assert (forall p rest st, J (p :: rest) st ->
            exists s1, (let '(dx, dy) := p in
                        fun st => open_step xx yy dx dy st) st = Ret s1
                       /\ J rest s1) as Hstep.
  { intros [dx dy] rest [g2 todo2] [C2 [X2 [Hin Hdone]]].
    cbn [fst snd] in *.
    assert (In (dx, dy) delta_pairs) as Hp by (apply Hin; left; reflexivity).
    apply In_delta_pairs in Hp. destruct Hp as [Hdx Hdy].
    assert (shape (gm_grid g2) = shape (gm_grid g)) as Hs2.
    { rewrite (flood_core_shape _ _ _ C2), (flood_core_shape _ _ _ Hcore).
      reflexivity. }
    assert (grid_contains (gm_grid g2) xx yy = true) as Hc2
        by (rewrite (shape_contains (gm_grid g)) by exact Hs2; exact Hc).
    assert (cell (gm_grid g2) xx yy = 0) as H02.
    { destruct X2 as [K _]. rewrite (K xx yy Hc); [exact H0|].
      rewrite H0. discriminate. }
    destruct (open_step_spec g1 g2 todo2 xx yy dx dy C2 Hc2 H02 Hdx Hdy)
      as [g3 [todo3 [E3 [C3 [X3 Hk]]]]].
    exists (g3, todo3). split; [exact E3|]. unfold J; cbn [fst snd].
    split; [exact C3|].
    split; [apply (flood_ext_trans g g2 g3 todo todo2 todo3 Hs2 X2 X3)|].
    split; [intros p Hp; apply Hin; right; exact Hp|].
    intros ex ey Hex Hey Hnot Hce.
    assert (grid_contains (gm_grid g2) (xx + ex) (yy + ey) = true) as Hce2
        by (rewrite (shape_contains (gm_grid g)) by exact Hs2; exact Hce).
    destruct (Z.eq_dec ex dx) as [Ex|Nx];
      [destruct (Z.eq_dec ey dy) as [Ey|Ny]|].
    - subst ex ey. apply Hk. exact Hce2.
    - assert (cell (gm_grid g2) (xx + ex) (yy + ey) <> Unknown) as Hkn.
      { apply Hdone; try assumption. intros [E|Hr]; [|exact (Hnot Hr)].
        injection E as _ E. apply Ny. symmetry. exact E. }
      destruct X3 as [K3 _]. rewrite (K3 _ _ Hce2 Hkn). exact Hkn.
    - assert (cell (gm_grid g2) (xx + ex) (yy + ey) <> Unknown) as Hkn.
      { apply Hdone; try assumption. intros [E|Hr]; [|exact (Hnot Hr)].
        injection E as E _. apply Nx. symmetry. exact E. }
      destruct X3 as [K3 _]. rewrite (K3 _ _ Hce2 Hkn). exact Hkn. }
  destruct (for_each_total J delta_pairs
              (fun '(dx, dy) st => open_step xx yy dx dy st) Hstep (g, todo))
    as [[g' todo'] [E [C' [X' [_ Hall]]]]].
  { unfold J; cbn [fst snd]. split; [exact Hcore|].
    split; [apply flood_ext_refl|]. split; [auto|].
    intros dx dy Hdx Hdy Hnot _. exfalso. apply Hnot.
    apply In_delta_pairs. auto. }
  cbn [fst snd] in *. exists g', todo'. split; [exact E|].
  split; [exact C'|]. split; [exact X'|].
  intros dx dy Hdx Hdy Hcd. apply Hall; try assumption; [intros []|].
  rewrite <- Hcd. symmetry. apply shape_contains.
  rewrite (flood_core_shape _ _ _ C'), (flood_core_shape _ _ _ Hcore).
  reflexivity.
Qed.

(** The [while] loop of [open_square] returns, with an empty [todo]. *)
Lemma flood_fill_spec (fuel : nat) (g1 : Game) (fresh : Z -> Z -> Prop)
      (g : Game) (todo : list Z) :
  flood_inv g1 fresh g todo ->
  (length todo + unknowns (gm_grid g) < fuel)%nat ->
  exists gF, flood_fill fuel (g, todo) = Ret (gF, [])
             /\ flood_inv g1 fresh gF [].
Proof.
  intros Hinv Hm.
  assert (exists st, flood_fill fuel (g, todo) = Ret st
                     /\ flood_inv g1 fresh (fst st) (snd st)
                     /\ snd st = []) as [[gF tF] [E [HF Hnil]]].
  { unfold flood_fill.
    match goal with
    | |- exists st, while_loop _ ?c ?b _ = _ /\ _ =>
        assert (forall s,
                  flood_inv g1 fresh (fst s) (snd s) -> c s = true ->
                  exists s', b s = Ret s'
                             /\ flood_inv g1 fresh (fst s') (snd s')
                             /\ (length (snd s') + unknowns (gm_grid (fst s'))
                                 < length (snd s) + unknowns (gm_grid (fst s)))%nat)
          as Hstep;
        [|destruct (while_loop_total
                      (fun st => flood_inv g1 fresh (fst st) (snd st))
                      (fun st => (length (snd st)
                                  + unknowns (gm_grid (fst st)))%nat)
                      c b Hstep fuel (g, todo) Hinv Hm)
            as [st [E [HI Hc]]]]
    end.
    - intros [g2 [|i t]] [C2 Hcl2] Hcond; [discriminate Hcond|].
      cbn [fst snd] in *.
      pose proof C2 as [Eg2 [Ho2 [Hinv2 Htodo2]]].
      destruct (Htodo2 i (or_introl eq_refl)) as [a [c [Hac [Ei H0]]]].
      pose proof Hinv2 as [[_ [Wg _]] _]. cbn [gameData gd_grid] in Wg.
      rewrite Ei, (idx2pt_pt2idx _ _ _ Wg Hac). cbn [fst snd].
      assert (flood_core g1 g2 t) as C2'.
      { split; [exact Eg2|]. split; [exact Ho2|]. split; [exact Hinv2|].
        intros j Hj. apply Htodo2. right. exact Hj. }
      destruct (open_around_spec g1 g2 t a c C2' Hac H0)
        as [g3 [todo3 [E3 [C3 [X3 Hcl3]]]]].
      exists (g3, todo3). split; [exact E3|]. cbn [fst snd].
      assert (shape (gm_grid g3) = shape (gm_grid g2)) as Hs3.
      { rewrite (flood_core_shape _ _ _ C3), (flood_core_shape _ _ _ C2).
        reflexivity. }
      assert (g_width (gm_grid g3) = g_width (gm_grid g2)) as Ew3
          by (unfold shape in Hs3; congruence).
      split; [split; [exact C3|]|].
      + intros a' c' Hac' H0' Hfr.
        rewrite (shape_contains (gm_grid g2)) in Hac' by exact Hs3.
        pose proof X3 as [_ [T3 [Z3 _]]].
        rewrite Ew3.
        destruct (Z3 a' c' Hac' H0') as [Hz|Hz]; [|left; exact Hz].
        destruct (Hcl2 a' c' Hac' Hz Hfr) as [[Hi|Hi]|Hi].
        * right. apply contains_bounds in Hac, Hac'.
          destruct (idx_inj (g_width (gm_grid g2)) a c a' c') as [<- <-];
            [lia|lia|congruence|exact Hcl3].
        * left. apply T3. exact Hi.
        * right. apply (closed_ext g2 g3 t todo3 a' c' Hs3 X3 Hi).
      + destruct X3 as [_ [_ [_ M3]]]. cbn [length]. lia.
    - exists st. split; [exact E|]. split; [exact HI|].
      destruct st as [g' [|i t]]; [reflexivity|discriminate Hc]. }
  cbn [fst snd] in *. subst tF. exists gF. auto.
Qed.

(* ===================================================================== *)
(** * The game: counting and marking the covered squares *)
(* ===================================================================== *)

Lemma In_grid_pairs (w h yy xx : Z) :
  In (yy, xx) (grid_pairs w h) <-> 0 <= xx < w /\ 0 <= yy < h.
Proof.
  unfold grid_pairs. rewrite in_flat_map. split.
  - intros [a [Ha Hin]]. apply in_map_iff in Hin.
    destruct Hin as [b [E Hb]]. injection E as <- <-.
    apply in_zrange in Ha, Hb. lia.
  - intros [Hx Hy]. exists yy. split; [apply in_zrange; lia|].
    apply in_map_iff. exists xx. split; [reflexivity|].
    apply in_zrange. lia.
Qed.

Lemma grid_pairs_contains {T : Type} (grid : Grid T) (p : Z * Z) :
  In p (grid_pairs (g_width grid) (g_height grid))
  <-> grid_contains grid (snd p) (fst p) = true.
Proof.
  destruct p as [yy xx]. rewrite In_grid_pairs, contains_bounds.
  reflexivity.
Qed.

Lemma count_if_cons {A : Type} (f : A -> bool) (a : A) (l : list A) :
  count_if f (a :: l) = Z.b2z (f a) + count_if f l.
Proof.
  unfold count_if. cbn [filter]. destruct (f a); cbn [length Z.b2z]; lia.
Qed.

Lemma count_if_le {A : Type} (f h : A -> bool) (l : list A) :
  (forall p, In p l -> f p = true -> h p = true) ->
  count_if f l <= count_if h l.
Proof.
  induction l as [|a l IH]; intros H; [reflexivity|].
  rewrite !count_if_cons.
  assert (count_if f l <= count_if h l) as IH'
      by (apply IH; intros p Hp; apply H; right; exact Hp).
  pose proof (H a (or_introl eq_refl)) as Ha.
  destruct (f a), (h a); cbn [Z.b2z]; try lia;
    specialize (Ha eq_refl); discriminate Ha.
Qed.

Lemma count_if_eq_all {A : Type} (f h : A -> bool) (l : list A) :
  (forall p, In p l -> f p = true -> h p = true) ->
  count_if f l = count_if h l ->
  forall p, In p l -> h p = true -> f p = true.
Proof.
  induction l as [|a l IH]; intros H E p Hp Hh; [destruct Hp|].
  rewrite !count_if_cons in E.
  assert (count_if f l <= count_if h l) as Hle
      by (apply count_if_le; intros q Hq; apply H; right; exact Hq).
  pose proof (H a (or_introl eq_refl)) as Ha.
  destruct Hp as [<-|Hp].
  - destruct (f a); [reflexivity|]. rewrite Hh in E. cbn [Z.b2z] in E. lia.
  - apply IH; try assumption.
    + intros q Hq. apply H. right. exact Hq.
    + destruct (f a), (h a); cbn [Z.b2z] in E; try lia;
        specialize (Ha eq_refl); discriminate Ha.
Qed.

Lemma count_if_ext_in {A : Type} (f h : A -> bool) (l : list A) :
  (forall p, In p l -> f p = h p) -> count_if f l = count_if h l.
Proof.
  induction l as [|a l IH]; intros H; [reflexivity|].
  rewrite !count_if_cons, (H a (or_introl eq_refl)), IH; [reflexivity|].
  intros p Hp. apply H. right. exact Hp.
Qed.

Lemma count_covered_loop (g : Game) (l : list (Z * Z)) :
  grid_wf (gm_grid g) -> grid_wf (gm_mines g) ->
  (forall p, In p l -> grid_contains (gm_grid g) (snd p) (fst p) = true
                       /\ grid_contains (gm_mines g) (snd p) (fst p) = true) ->
  forall nm nc,
    for_each l (fun '(yy, xx) st => count_step g yy xx st) (nm, nc)
    = Ret (nm + count_if (is_mine (gm_mines g)) l,
           nc + count_if (is_covered (gm_grid g)) l).
Proof.
  intros Wg Wm. induction l as [|[yy xx] l IH]; intros H nm nc.
  - cbn [for_each]. unfold count_if. cbn. rewrite !Z.add_0_r. reflexivity.
  - destruct (H (yy, xx) (or_introl eq_refl)) as [Hc Hcm].
    cbn [fst snd] in Hc, Hcm.
    cbn [for_each]. unfold count_step at 1.
    rewrite (grid_at_cell _ _ _ Wg Hc). cbn [bind].
    rewrite (grid_at_mine _ _ _ Wm Hcm). cbn [bind].
    rewrite IH by (intros p Hp; apply H; right; exact Hp).
    rewrite !count_if_cons. unfold is_mine at 2, is_covered at 2.
    cbn [fst snd].
    destruct (mine_at (gm_mines g) xx yy),
      (cell (gm_grid g) xx yy <? 0); cbn [Z.b2z]; f_equal; f_equal; lia.
Qed.

Lemma count_covered_spec (g : Game) :
  game_wf (gameData g) ->
  count_covered g (g_width (gm_grid g)) (g_height (gm_grid g))
  = Ret (count_if (is_mine (gm_mines g))
           (grid_pairs (g_width (gm_grid g)) (g_height (gm_grid g))),
         count_if (is_covered (gm_grid g))
           (grid_pairs (g_width (gm_grid g)) (g_height (gm_grid g)))).
Proof.
  intros Hwf. pose proof Hwf as [Wm [Wg [Ew Eh]]].
  cbn [gameData gd_mines gd_grid] in *.
  unfold count_covered.
  transitivity
    (for_each (grid_pairs (g_width (gm_grid g)) (g_height (gm_grid g)))
       (fun '(yy, xx) st => count_step g yy xx st) (0, 0)).
  - exact (for_each_nested _ _ (fun yy xx st => count_step g yy xx st)
             (0, 0)).
  - rewrite (count_covered_loop g _ Wg Wm); [reflexivity|].
    intros p Hp. apply grid_pairs_contains in Hp. split; [exact Hp|].
    unfold grid_contains in *. rewrite <- Ew, <- Eh. exact Hp.
Qed.

Lemma marked_cell_idem (v : Z) :
  (if (if v <? 0 then MarkedAsMine else v) <? 0 then MarkedAsMine
   else (if v <? 0 then MarkedAsMine else v))
  = if v <? 0 then MarkedAsMine else v.
Proof.
  destruct (Z.ltb_spec v 0) as [H|H]; [reflexivity|].
  destruct (Z.ltb_spec v 0); [lia|reflexivity].
Qed.

Lemma mark_covered_spec (grid : Grid Z) :
  grid_wf grid ->
  exists grid',
    mark_covered grid (g_width grid) (g_height grid) = Ret grid'
    /\ shape grid' = shape grid
    /\ forall a c, grid_contains grid a c = true ->
                   cell grid' a c = marked_cell grid a c.
Proof.
  intros Hwf.
  set (J := fun (rest : list (Z * Z)) (gr : Grid Z) =>
     shape gr = shape grid
     /\ (forall p, In p rest -> grid_contains grid (snd p) (fst p) = true)
     /\ (forall a c, grid_contains grid a c = true ->
                     cell gr a c = cell grid a c
                     \/ cell gr a c = marked_cell grid a c)
     /\ forall a c, grid_contains grid a c = true -> ~ In (c, a) rest ->
                    cell gr a c = marked_cell grid a c).
  assert (forall p rest gr, J (p :: rest) gr ->
            exists gr1, (let '(yy, xx) := p in
                         fun gr => mark_step yy xx gr) gr = Ret gr1
                        /\ J rest gr1) as Hstep.
  { intros [yy xx] rest gr [Hs [Hin [Hor Hdone]]].
    pose proof (Hin (yy, xx) (or_introl eq_refl)) as Hc. cbn [fst snd] in Hc.
    assert (grid_wf gr) as Wgr by (eapply grid_wf_shape; eassumption).
    assert (grid_contains gr xx yy = true) as Hc'
        by (rewrite (shape_contains grid) by exact Hs; exact Hc).
    unfold mark_step. rewrite (grid_at_cell _ _ _ Wgr Hc'). cbn [bind].
    assert ((if cell gr xx yy <? 0 then MarkedAsMine else cell gr xx yy)
            = marked_cell grid xx yy) as Hfin.
    { unfold marked_cell in *.
      destruct (Hor xx yy Hc) as [E|E]; rewrite E; [reflexivity|].
      apply marked_cell_idem. }
    assert (forall v, v = marked_cell grid xx yy ->
                      J rest (grid_with gr xx yy v)) as Hnew.
    { intros v Hv. unfold J.
      split; [rewrite grid_with_shape; exact Hs|].
      split; [intros p Hp; apply Hin; right; exact Hp|].
      assert (forall a c, grid_contains grid a c = true ->
                cell (grid_with gr xx yy v) a c
                = if (a =? xx) && (c =? yy) then v else cell gr a c) as Hcl.
      { intros a c Hac. apply grid_with_cell; try assumption.
        rewrite (shape_contains grid) by exact Hs. exact Hac. }
      split.
      - intros a c Hac. rewrite (Hcl a c Hac).
        destruct ((a =? xx) && (c =? yy)) eqn:E; [|apply Hor, Hac].
        apply andb_true_iff in E. rewrite !Z.eqb_eq in E.
        destruct E as [-> ->]. right. exact Hv.
      - intros a c Hac Hnot. rewrite (Hcl a c Hac).
        destruct ((a =? xx) && (c =? yy)) eqn:E.
        + apply andb_true_iff in E. rewrite !Z.eqb_eq in E.
          destruct E as [-> ->]. exact Hv.
        + apply Hdone; [exact Hac|]. intros [Ep|Hr]; [|exact (Hnot Hr)].
          injection Ep as -> ->. rewrite !Z.eqb_refl in E. discriminate E. }
    destruct (cell gr xx yy <? 0) eqn:Elt.
    - rewrite (grid_set_with _ _ _ MarkedAsMine Wgr Hc').
      eexists. split; [reflexivity|]. apply Hnew. exact Hfin.
    - exists gr. split; [reflexivity|].
      rewrite <- (grid_with_self gr xx yy). apply Hnew. exact Hfin. }
  unfold mark_covered.
  destruct (for_each_total J (grid_pairs (g_width grid) (g_height grid))
              (fun '(yy, xx) gr => mark_step yy xx gr) Hstep grid)
    as [grid' [E [Hs [_ [_ Hall]]]]].
  { unfold J. split; [reflexivity|].
    split; [intros p Hp; apply grid_pairs_contains; exact Hp|].
    split; [auto|]. intros a c Hac Hnot. exfalso. apply Hnot.
    apply (grid_pairs_contains grid (c, a)). exact Hac. }
  exists grid'. split; [|split; [exact Hs|]].
  - rewrite <- E.
    exact (for_each_nested _ _ (fun yy xx gr => mark_step yy xx gr) grid).
  - intros a c Hac. apply Hall; [exact Hac|intros []].
Qed.

(* ===================================================================== *)
(** * The game: opening a safe square *)
(* ===================================================================== *)

Lemma filter_length_lt {T : Type} (f : T -> bool) (l : list T) (n : nat)
      (d : T) :
  (n < length l)%nat -> f (nth n l d) = false ->
  (length (filter f l) < length l)%nat.
Proof.
  revert n. induction l as [|a l IH]; intros [|n] Hn Hf;
    cbn [length nth filter] in *; try lia.
  - rewrite Hf. pose proof (filter_length_le f l). lia.
  - specialize (IH n ltac:(lia) Hf). destruct (f a); cbn [length]; lia.
Qed.

Lemma unknowns_lt (grid : Grid Z) (x y : Z) :
  grid_wf grid -> grid_contains grid x y = true ->
  cell grid x y <> Unknown ->
  (unknowns grid < length (g_data grid))%nat.
Proof.
  intros Hwf Hc Hv. pose proof (idx_in_grid grid x y Hwf Hc) as Hi.
  unfold grid_size in Hi. unfold unknowns.
  apply (filter_length_lt _ _ (Z.to_nat (y * g_width grid + x)) Unknown);
    [lia|].
  apply Z.eqb_neq. exact Hv.
Qed.

Lemma revealed_safe (g : Game) (a c : Z) :
  game_inv true (gameData g) ->
  grid_contains (gm_grid g) a c = true -> 0 <= cell (gm_grid g) a c ->
  mine_at (gm_mines g) a c = false
  /\ cell (gm_grid g) a c = neighbor_mines (gm_mines g) a c.
Proof.
  intros [_ [Hok _]] Hc Hv. destruct (Hok a c Hc Hv) as [H1 H2].
  split; [apply H1; reflexivity|exact H2].
Qed.

(** [open_square] at a square without a mine: the flood fill returns the
    game [gF]; the result is [gF], or [gF] with its covered squares marked
    and [won] set when they are as many as the mines. *)
Lemma open_square_safe_spec (fuel : nat) (g : Game) (x y : Z) :
  game_inv true (gameData g) ->
  p_width (gm_params g) = g_width (gm_grid g) ->
  p_height (gm_params g) = g_height (gm_grid g) ->
  gm_dead g = false ->
  grid_contains (gm_grid g) x y = true ->
  mine_at (gm_mines g) x y = false ->
  grid_size (gm_grid g) < Z.of_nat fuel ->
  exists gF g',
    open_square fuel g x y = Ret (OK, g')
    /\ gF = set_grid g (gm_grid gF)
    /\ opened_from
         (grid_with (gm_grid g) x y (neighbor_mines (gm_mines g) x y))
         (gm_grid gF)
    /\ game_inv true (gameData gF)
    /\ (forall a c, grid_contains (gm_grid g) a c = true ->
                    cell (gm_grid gF) a c = 0 ->
                    cell (gm_grid g) a c <> 0 \/ (a, c) = (x, y) ->
                    closed (gm_grid gF) a c)
    /\ ((all_safe_open (gm_mines g) (gm_grid gF)
         /\ exists gridM,
              g' = mkGame (gm_params g) (gm_seed g) (gm_mines g) gridM
                     false true
              /\ shape gridM = shape (gm_grid g)
              /\ forall a c, grid_contains (gm_grid g) a c = true ->
                             cell gridM a c = marked_cell (gm_grid gF) a c)
        \/ (~ all_safe_open (gm_mines g) (gm_grid gF) /\ g' = gF)).
Proof.
  intros Hinv Hpw Hph Hdead Hc Hm Hfuel.
  pose proof Hinv as [[Wm [Wg [Ew Eh]]] [Hok Hval]].
  cbn [gameData gd_mines gd_grid] in Wm, Wg, Ew, Eh.
  assert (grid_contains (gm_mines g) x y = true) as Hcm.
  { unfold grid_contains in *. rewrite <- Ew, <- Eh. exact Hc. }
  set (nb := neighbor_mines (gm_mines g) x y).
  pose proof (neighbor_mines_nonneg (gm_mines g) x y) as Hnb. fold nb in Hnb.
  set (grid1 := grid_with (gm_grid g) x y nb).
  set (g1 := set_grid g grid1).
  set (todo0 := if nb =? 0 then [pt2idx grid1 x y] else []).
  set (fresh := fun a c => cell (gm_grid g) a c <> 0 \/ (a, c) = (x, y)).
  assert (shape grid1 = shape (gm_grid g)) as Hs1 by apply grid_with_shape.
  assert (forall a c, grid_contains (gm_grid g) a c = true ->
                      cell grid1 a c
                      = if (a =? x) && (c =? y) then nb
                        else cell (gm_grid g) a c) as Hcell1
      by (intros a c Hac; apply grid_with_cell; assumption).
  assert (cell grid1 x y = nb) as Hxy1
      by (rewrite (Hcell1 x y Hc), !Z.eqb_refl; reflexivity).
  assert (game_inv true (gameData g1)) as Hinv1.
  { apply (set_cell_inv true (gameData g) grid1 x y nb Hinv Hc).
    - apply grid_set_with; assumption.
    - intros _. split; [intros _; exact Hm|reflexivity].
    - unfold Unknown. lia. }
  assert (flood_inv g1 fresh g1 todo0) as Hfl.
  { split; [split; [|split; [|split]]|].
    - reflexivity.
    - split; [reflexivity|]. intros a c _. left. reflexivity.
    - exact Hinv1.
    - intros i Hi. unfold todo0 in Hi.
      destruct (Z.eqb_spec nb 0) as [Hz|Hz]; [|destruct Hi].
      destruct Hi as [<-|[]]. exists x, y. cbn [g1 set_grid gm_grid].
      rewrite (shape_contains (gm_grid g)) by exact Hs1.
      split; [exact Hc|]. split; [reflexivity|]. rewrite Hxy1. exact Hz.
    - cbn [g1 set_grid gm_grid]. intros a c Hac H0 Hfr. left.
      rewrite (shape_contains (gm_grid g)) in Hac by exact Hs1.
      rewrite (Hcell1 a c Hac) in H0.
      destruct ((a =? x) && (c =? y)) eqn:E.
      + apply andb_true_iff in E. rewrite !Z.eqb_eq in E.
        destruct E as [-> ->]. unfold todo0. rewrite H0. cbn [Z.eqb].
        left. reflexivity.
      + destruct Hfr as [Hfr|Hfr]; [contradiction|].
        injection Hfr as -> ->. rewrite !Z.eqb_refl in E. discriminate E. }
  destruct (flood_fill_spec fuel g1 fresh g1 todo0 Hfl)
    as [gF [EF [[EgF [HoF [HinvF _]]] HclF]]].
  { cbn [g1 set_grid gm_grid].
    assert (unknowns grid1 < length (g_data grid1))%nat as Hlt.
    { apply (unknowns_lt grid1 x y).
      - eapply grid_wf_shape; [exact Hs1|exact Wg].
      - rewrite (shape_contains (gm_grid g)) by exact Hs1. exact Hc.
      - rewrite Hxy1. unfold Unknown. lia. }
    assert (length (g_data grid1) = length (g_data (gm_grid g))) as El
        by (unfold shape in Hs1; congruence).
    unfold grid_size in Hfuel.
    assert (length todo0 <= 1)%nat
        by (unfold todo0; destruct (nb =? 0); cbn [length]; lia).
    lia. }
  cbn [g1 set_grid gm_grid] in HoF.
  assert (gF = set_grid g (gm_grid gF)) as EgF' by (rewrite EgF; reflexivity).
  assert (gm_params gF = gm_params g) as Ep by (rewrite EgF; reflexivity).
  assert (gm_seed gF = gm_seed g) as Es by (rewrite EgF; reflexivity).
  assert (gm_mines gF = gm_mines g) as Em by (rewrite EgF; reflexivity).
  assert (gm_dead gF = false) as Ed by (rewrite EgF; exact Hdead).
  assert (shape (gm_grid gF) = shape (gm_grid g)) as HsF
      by (destruct HoF as [H _]; rewrite H; exact Hs1).
  assert (g_width (gm_grid gF) = g_width (gm_grid g)) as EwF
      by (unfold shape in HsF; congruence).
  assert (g_height (gm_grid gF) = g_height (gm_grid g)) as EhF
      by (unfold shape in HsF; congruence).
  pose proof HinvF as [HwfF _].
  pose proof HwfF as [_ [WgF _]]. cbn [gameData gd_grid] in WgF.
  set (L := grid_pairs (g_width (gm_grid gF)) (g_height (gm_grid gF))).
  assert (forall p, In p L ->
                    is_mine (gm_mines gF) p = true ->
                    is_covered (gm_grid gF) p = true) as Hmc.
  { intros [yy xx] Hp Hmine. apply grid_pairs_contains in Hp.
    unfold is_mine, is_covered in *. cbn [fst snd] in *.
    apply Z.ltb_lt. destruct (Z.lt_ge_cases (cell (gm_grid gF) xx yy) 0)
      as [Hlt|Hge]; [exact Hlt|].
    destruct (revealed_safe gF xx yy HinvF Hp Hge) as [Hsafe _].
    rewrite Hsafe in Hmine. discriminate Hmine. }
  assert (count_if (is_covered (gm_grid gF)) L
          = count_if (is_mine (gm_mines gF)) L
          <-> all_safe_open (gm_mines g) (gm_grid gF)) as Hwin.
  { split.
    - intros E a c Hac Hsafe.
      destruct (Z.lt_ge_cases (cell (gm_grid gF) a c) 0) as [Hlt|Hge];
        [|exact Hge].
      assert (is_mine (gm_mines gF) (c, a) = true) as Hmine.
      { apply (count_if_eq_all _ _ L Hmc (eq_sym E)).
        - apply grid_pairs_contains. exact Hac.
        - unfold is_covered. cbn [fst snd]. apply Z.ltb_lt. exact Hlt. }
      unfold is_mine in Hmine. cbn [fst snd] in Hmine.
      rewrite Em, Hsafe in Hmine. discriminate Hmine.
    - intros Hall. apply count_if_ext_in. intros [yy xx] Hp.
      apply grid_pairs_contains in Hp. cbn [fst snd] in Hp.
      unfold is_covered, is_mine. cbn [fst snd]. rewrite Em.
      destruct (mine_at (gm_mines g) xx yy) eqn:Emine.
      + specialize (Hmc (yy, xx)
                      ltac:(apply grid_pairs_contains; exact Hp)).
        unfold is_covered, is_mine in Hmc. cbn [fst snd] in Hmc.
        apply Hmc. rewrite Em. exact Emine.
      + apply Z.ltb_ge. apply Hall; assumption. }
  assert (exists g',
            open_square fuel g x y = Ret (OK, g')
            /\ ((all_safe_open (gm_mines g) (gm_grid gF)
                 /\ exists gridM,
                      g' = mkGame (gm_params g) (gm_seed g) (gm_mines g)
                             gridM false true
                      /\ shape gridM = shape (gm_grid g)
                      /\ forall a c,
                           grid_contains (gm_grid g) a c = true ->
                           cell gridM a c = marked_cell (gm_grid gF) a c)
                \/ (~ all_safe_open (gm_mines g) (gm_grid gF) /\ g' = gF)))
    as [g' [E' HD]].
  { unfold open_square. cbv zeta.
    rewrite (contains_nonempty _ _ _ Wm Hcm). cbn [negb assert bind].
    rewrite (grid_at_mine _ _ _ Wm Hcm), Hm. cbn [bind].
    rewrite (mineLookup_spec (gameData g) _ _ Wm Hcm).
    cbn [gameData gd_mines]. rewrite Hm. cbn [bind].
    rewrite (grid_set_with _ _ _ _ Wg Hc). cbn [bind].
    match goal with
    | |- context [flood_fill fuel ?s] => change s with (g1, todo0)
    end.
    rewrite EF. cbn [bind]. cbv beta iota. rewrite Ed.
    rewrite Hpw, Hph, <- EwF, <- EhF.
    rewrite (count_covered_spec gF HwfF). cbn [bind]. fold L.
    pose proof (count_if_le _ _ L Hmc) as Hle.
    replace (count_if (is_mine (gm_mines gF)) L
             <=? count_if (is_covered (gm_grid gF)) L) with true
      by (symmetry; apply Z.leb_le; exact Hle).
    cbn [assert bind].
    destruct (Z.eqb_spec (count_if (is_covered (gm_grid gF)) L)
                (count_if (is_mine (gm_mines gF)) L)) as [Eq|Ne].
    - destruct (mark_covered_spec (gm_grid gF) WgF)
        as [gridM [EM [HsM HcM]]].
      rewrite EM. cbn [bind]. eexists. split; [reflexivity|]. left.
      split; [apply Hwin; exact Eq|]. exists gridM.
      rewrite Ep, Es, Em. split; [reflexivity|].
      split; [congruence|]. intros a c Hac. apply HcM.
      rewrite (shape_contains (gm_grid g)) by exact HsF. exact Hac.
    - exists gF. split; [reflexivity|]. right. split; [|reflexivity].
      intros Hall. apply Ne. apply Hwin. exact Hall. }
  exists gF, g'. split; [exact E'|]. split; [exact EgF'|].
  split; [exact HoF|]. split; [exact HinvF|]. split; [|exact HD].
  intros a c Hac H0 Hfr.
  destruct HclF with (a := a) (c := c) as [[]|Hcl]; try assumption.
  rewrite (shape_contains (gm_grid g)) by exact HsF. exact Hac.
Qed.

(** What a player sees of [open_square] at a square without a mine. *)
Lemma open_square_safe_facts (fuel : nat) (g : Game) (x y : Z) :
  game_inv true (gameData g) ->
  p_width (gm_params g) = g_width (gm_grid g) ->
  p_height (gm_params g) = g_height (gm_grid g) ->
  gm_dead g = false ->
  grid_contains (gm_grid g) x y = true ->
  mine_at (gm_mines g) x y = false ->
  grid_size (gm_grid g) < Z.of_nat fuel ->
  exists g',
    open_square fuel g x y = Ret (OK, g')
    /\ g' = mkGame (gm_params g) (gm_seed g) (gm_mines g) (gm_grid g') false
              (gm_won g')
    /\ shape (gm_grid g') = shape (gm_grid g)
    /\ game_inv true (gameData g')
    /\ cell (gm_grid g') x y = neighbor_mines (gm_mines g) x y
    /\ (forall a c, grid_contains (gm_grid g) a c = true ->
                    (a, c) <> (x, y) -> cell (gm_grid g) a c <> Unknown ->
                    cell (gm_grid g') a c = cell (gm_grid g) a c)
    /\ (forall a c, grid_contains (gm_grid g) a c = true ->
                    cell (gm_grid g') a c = 0 ->
                    cell (gm_grid g) a c <> 0 \/ (a, c) = (x, y) ->
                    closed (gm_grid g') a c)
    /\ (gm_won g' = true
        <-> gm_won g = true \/ all_safe_open (gm_mines g) (gm_grid g'))
    /\ (all_safe_open (gm_mines g) (gm_grid g') ->
        forall a c, grid_contains (gm_grid g) a c = true ->
                    mine_at (gm_mines g) a c = true ->
                    cell (gm_grid g') a c = MarkedAsMine)
    /\ (forall a c, grid_contains (gm_grid g) a c = true ->
                    cell (gm_grid g') a c = cell (gm_grid g) a c
                    \/ 0 <= cell (gm_grid g') a c
                    \/ (mine_at (gm_mines g) a c = true
                        /\ cell (gm_grid g') a c = MarkedAsMine)).
Proof.
  intros Hinv Hpw Hph Hdead Hc Hm Hfuel.
  destruct (open_square_safe_spec fuel g x y Hinv Hpw Hph Hdead Hc Hm Hfuel)
    as [gF [g' [E [EgF [[HsF HoF] [HinvF [HclF HD]]]]]]].
  pose proof Hinv as [[Wm [Wg [Ew Eh]]] [Hok Hval]].
  cbn [gameData gd_mines gd_grid] in Wm, Wg, Ew, Eh.
  set (nb := neighbor_mines (gm_mines g) x y) in *.
  pose proof (neighbor_mines_nonneg (gm_mines g) x y) as Hnb. fold nb in Hnb.
  rewrite grid_with_shape in HsF.
  assert (gm_mines gF = gm_mines g) as EmF by (rewrite EgF; reflexivity).
  assert (forall a c, grid_contains (gm_grid g) a c = true ->
                      grid_contains (gm_grid gF) a c = true) as HcF
      by (intros a c Hac; rewrite (shape_contains (gm_grid g)) by exact HsF;
          exact Hac).
  assert (forall a c, grid_contains (gm_grid g) a c = true ->
            grid_contains (grid_with (gm_grid g) x y nb) a c = true) as Hc1
      by (intros a c Hac;
          rewrite (shape_contains (gm_grid g)) by apply grid_with_shape;
          exact Hac).
  (* the game after the flood fill *)
  assert (cell (gm_grid gF) x y = nb) as F2.
  { destruct (HoF x y (Hc1 x y Hc)) as [H|[H _]];
      rewrite grid_with_cell in H by assumption;
      rewrite !Z.eqb_refl in H; cbn [andb] in H; [exact H|].
    unfold Unknown in H. lia. }
  assert (forall a c, grid_contains (gm_grid g) a c = true ->
                      (a, c) <> (x, y) -> cell (gm_grid g) a c <> Unknown ->
                      cell (gm_grid gF) a c = cell (gm_grid g) a c) as F3.
  { intros a c Hac Hne Hkn.
    assert (cell (grid_with (gm_grid g) x y nb) a c = cell (gm_grid g) a c)
      as E1.
    { rewrite grid_with_cell by assumption.
      destruct ((a =? x) && (c =? y)) eqn:Exy; [|reflexivity].
      apply andb_true_iff in Exy. rewrite !Z.eqb_eq in Exy.
      exfalso. apply Hne. f_equal; tauto. }
    destruct (HoF a c (Hc1 a c Hac)) as [H|[H _]]; rewrite E1 in H;
      [exact H|contradiction]. }
  (* the game that is returned *)
  assert (g' = mkGame (gm_params g) (gm_seed g) (gm_mines g) (gm_grid g')
                 false (gm_won g')
          /\ shape (gm_grid g') = shape (gm_grid gF)
          /\ forall a c, grid_contains (gm_grid g) a c = true ->
               cell (gm_grid g') a c = cell (gm_grid gF) a c
               \/ (cell (gm_grid gF) a c < 0
                   /\ cell (gm_grid g') a c = MarkedAsMine
                   /\ mine_at (gm_mines g) a c = true)) as Hrel.
  { destruct HD as [[Hall [gridM [-> [HsM HcM]]]]|[_ ->]].
    - cbn [gm_grid gm_won]. split; [reflexivity|]. split; [congruence|].
      intros a c Hac. rewrite (HcM a c Hac). unfold marked_cell.
      destruct (Z.ltb_spec (cell (gm_grid gF) a c) 0) as [Hlt|Hge];
        [right|left; reflexivity].
      split; [exact Hlt|]. split; [reflexivity|].
      destruct (mine_at (gm_mines g) a c) eqn:Emine; [reflexivity|].
      pose proof (Hall a c (HcF a c Hac) Emine). lia.
    - split; [|split; [reflexivity|auto]].
      rewrite EgF at 1. unfold set_grid. rewrite Hdead. f_equal.
      rewrite EgF. reflexivity. }
  destruct Hrel as [Erec [Hs' Hcells]].
  assert (gm_mines g' = gm_mines g) as Em' by (rewrite Erec; reflexivity).
  assert (shape (gm_grid g') = shape (gm_grid g)) as Hsg by congruence.
  assert (forall a c, grid_contains (gm_grid g) a c = true ->
                      0 <= cell (gm_grid g') a c ->
                      cell (gm_grid g') a c = cell (gm_grid gF) a c) as Hpos.
  { intros a c Hac Hv. destruct (Hcells a c Hac) as [H|[_ [H _]]]; [exact H|].
    rewrite H in Hv. unfold MarkedAsMine in Hv. lia. }
  assert (forall a c, grid_contains (gm_grid g) a c = true ->
                      cell (gm_grid gF) a c <> Unknown ->
                      cell (gm_grid g') a c <> Unknown) as Hknown.
  { intros a c Hac Hv. destruct (Hcells a c Hac) as [H|[_ [H _]]]; rewrite H;
      [exact Hv|]. unfold MarkedAsMine, Unknown. lia. }
  exists g'. split; [exact E|]. split; [exact Erec|]. split; [exact Hsg|].
  split; [|split; [|split; [|split; [|split; [|split]]]]].
  - (* the invariant *)
    pose proof HinvF as [_ [_ HvalF]].
    split; [|split].
    + unfold game_wf. cbn [gameData gd_mines gd_grid]. rewrite Em'.
      split; [exact Wm|]. split; [eapply grid_wf_shape; eassumption|].
      unfold shape in Hsg. split; congruence.
    + intros a c Hac Hv. cbn [gameData gd_mines gd_grid] in *.
      rewrite (shape_contains (gm_grid g)) in Hac by exact Hsg.
      rewrite Em'. pose proof (Hpos a c Hac Hv) as Ev.
      rewrite Ev in Hv |- *.
      destruct (revealed_safe gF a c HinvF (HcF a c Hac) Hv) as [H1 H2].
      rewrite EmF in H1, H2. split; [intros _; exact H1|exact H2].
    + intros a c Hac. cbn [gameData gd_mines gd_grid] in *.
      rewrite (shape_contains (gm_grid g)) in Hac by exact Hsg.
      destruct (Hcells a c Hac) as [H|[_ [H _]]]; rewrite H.
      * apply (HvalF a c). exact (HcF a c Hac).
      * unfold MarkedAsMine, Unknown. lia.
  - destruct (Hcells x y Hc) as [H|[H _]]; [rewrite H; exact F2|].
    rewrite F2 in H. lia.
  - intros a c Hac Hne Hkn. pose proof (F3 a c Hac Hne Hkn) as EF.
    destruct (Hcells a c Hac) as [H|[Hlt [H _]]]; [congruence|].
    rewrite H. rewrite EF in Hlt. pose proof (Hval a c Hac) as Hlow.
    cbn [gameData gd_grid] in Hlow. unfold MarkedAsMine, Unknown in *. lia.
  - intros a c Hac H0 Hfr.
    assert (cell (gm_grid gF) a c = 0) as H0F
        by (rewrite <- (Hpos a c Hac); [exact H0|rewrite H0; lia]).
    pose proof (HclF a c Hac H0F Hfr) as Hcl.
    intros dx dy Hdx Hdy Hcd.
    rewrite (shape_contains (gm_grid g)) in Hcd by exact Hsg.
    apply Hknown; [exact Hcd|]. apply Hcl; try assumption.
    exact (HcF _ _ Hcd).
  - (* the game is won exactly when every safe square is open *)
    destruct HD as [[Hall [gridM [-> [HsM HcM]]]]|[Hnot ->]].
    + cbn [gm_won gm_grid]. split; [|reflexivity]. intros _. right.
      intros a c Hac Hsafe.
      rewrite (shape_contains (gm_grid g)) in Hac by exact HsM.
      rewrite (HcM a c Hac). unfold marked_cell.
      pose proof (Hall a c (HcF a c Hac) Hsafe) as Hv.
      destruct (Z.ltb_spec (cell (gm_grid gF) a c) 0); [lia|exact Hv].
    + split; [intros H; left; rewrite EgF in H; exact H|].
      intros [H|H]; [rewrite EgF; exact H|contradiction].
  - intros Hall a c Hac Hmine.
    destruct HD as [[HallF [gridM [-> [HsM HcM]]]]|[Hnot ->]];
      [|contradiction].
    cbn [gm_grid]. rewrite (HcM a c Hac). unfold marked_cell.
    destruct (Z.ltb_spec (cell (gm_grid gF) a c) 0) as [Hlt|Hge];
      [reflexivity|].
    destruct (revealed_safe gF a c HinvF (HcF a c Hac) Hge) as [H1 _].
    rewrite EmF, Hmine in H1. discriminate H1.
  - intros a c Hac.
    destruct (Hcells a c Hac) as [H|[_ [H Hmine]]]; [|right; right; auto].
    rewrite H.
    destruct (HoF a c (Hc1 a c Hac)) as [H1|[_ H1]]; [|right; left; exact H1].
    rewrite H1, grid_with_cell by assumption.
    destruct ((a =? x) && (c =? y)); [right; left; exact Hnb|].
    left. reflexivity.
Qed.

(** X24. [open_square] at a square of the grid without a mine, in a game
    that is not lost, whose parameters give the dimensions of the grid
    and whose revealed squares are not mines and show the number of mines
    around them, with fuel for the flood fill beyond the number of
    squares.  It returns [OK]; only the grid and [won] change; the square
    shows the number of mines around it; every revealed square is still
    not a mine and shows its count; no other square that was revealed or
    marked changes; and every square keeps its value, or is now revealed,
    or is a mine that is now marked. *)
Theorem open_square_reveals_safe_square (fuel : nat) (g : Game) (x y : Z) :
  game_inv true (gameData g) ->
  p_width (gm_params g) = g_width (gm_grid g) ->
  p_height (gm_params g) = g_height (gm_grid g) ->
  gm_dead g = false ->
  grid_contains (gm_grid g) x y = true ->
  mine_at (gm_mines g) x y = false ->
  grid_size (gm_grid g) < Z.of_nat fuel ->
  exists g',
    open_square fuel g x y = Ret (OK, g')
    /\ g' = mkGame (gm_params g) (gm_seed g) (gm_mines g) (gm_grid g') false
              (gm_won g')
    /\ shape (gm_grid g') = shape (gm_grid g)
    /\ game_inv true (gameData g')
    /\ cell (gm_grid g') x y = neighbor_mines (gm_mines g) x y
    /\ (forall a c, grid_contains (gm_grid g) a c = true ->
                    (a, c) <> (x, y) -> cell (gm_grid g) a c <> Unknown ->
                    cell (gm_grid g') a c = cell (gm_grid g) a c)
    /\ (forall a c, grid_contains (gm_grid g) a c = true ->
                    cell (gm_grid g') a c = cell (gm_grid g) a c
                    \/ 0 <= cell (gm_grid g') a c
                    \/ (mine_at (gm_mines g) a c = true
                        /\ cell (gm_grid g') a c = MarkedAsMine)).
Proof.
  intros Hinv Hpw Hph Hdead Hc Hm Hfuel.
  destruct (open_square_safe_facts fuel g x y Hinv Hpw Hph Hdead Hc Hm Hfuel)
    as [g' [E [Erec [Hs [Hinv' [Hxy [Hkeep [_ [_ [_ Hcells]]]]]]]]]].
  exists g'. auto 10.
Qed.

Lemma open_square_reveals_safe_square_witness :
  exists g',
    open_square 60 test_play 0 0 = Ret (OK, g')
    /\ g' = mkGame (gm_params test_play) (gm_seed test_play)
              (gm_mines test_play) (gm_grid g') false (gm_won g')
    /\ shape (gm_grid g') = shape (gm_grid test_play)
    /\ game_inv true (gameData g')
    /\ cell (gm_grid g') 0 0 = neighbor_mines (gm_mines test_play) 0 0
    /\ (forall a c, grid_contains (gm_grid test_play) a c = true ->
                    (a, c) <> (0, 0) ->
                    cell (gm_grid test_play) a c <> Unknown ->
                    cell (gm_grid g') a c = cell (gm_grid test_play) a c)
    /\ (forall a c, grid_contains (gm_grid test_play) a c = true ->
                    cell (gm_grid g') a c = cell (gm_grid test_play) a c
                    \/ 0 <= cell (gm_grid g') a c
                    \/ (mine_at (gm_mines test_play) a c = true
                        /\ cell (gm_grid g') a c = MarkedAsMine)).
Proof.
  apply (open_square_reveals_safe_square 60 test_play 0 0);
    try reflexivity.
  apply (game_invb_ok true). reflexivity.
Defined.

(** X25. The flood fill of [open_square], at a square of the grid
    without a mine, in a game that is not lost, whose parameters give the
    dimensions of the grid and whose revealed squares are not mines and
    show the number of mines around them, with fuel beyond the number of
    squares: in the game that is returned, every square that shows 0 and
    did not before, and the opened square if it shows 0, has no unknown
    square around it in the grid. *)
Theorem open_square_floods_zero_squares (fuel : nat) (g : Game) (x y : Z) :
  game_inv true (gameData g) ->
  p_width (gm_params g) = g_width (gm_grid g) ->
  p_height (gm_params g) = g_height (gm_grid g) ->
  gm_dead g = false ->
  grid_contains (gm_grid g) x y = true ->
  mine_at (gm_mines g) x y = false ->
  grid_size (gm_grid g) < Z.of_nat fuel ->
  exists g',
    open_square fuel g x y = Ret (OK, g')
    /\ forall a c, grid_contains (gm_grid g) a c = true ->
                   cell (gm_grid g') a c = 0 ->
                   cell (gm_grid g) a c <> 0 \/ (a, c) = (x, y) ->
                   forall dx dy, In dx deltas -> In dy deltas ->
                     grid_contains (gm_grid g) (a + dx) (c + dy) = true ->
                     cell (gm_grid g') (a + dx) (c + dy) <> Unknown.
Proof.
  intros Hinv Hpw Hph Hdead Hc Hm Hfuel.
  destruct (open_square_safe_facts fuel g x y Hinv Hpw Hph Hdead Hc Hm Hfuel)
    as [g' [E [_ [Hs [_ [_ [_ [Hcl _]]]]]]]].
  exists g'. split; [exact E|].
  intros a c Hac H0 Hfr dx dy Hdx Hdy Hcd.
  apply (Hcl a c Hac H0 Hfr dx dy Hdx Hdy).
  rewrite (shape_contains (gm_grid g)) by exact Hs. exact Hcd.
Qed.

Lemma open_square_floods_zero_squares_witness :
  exists g',
    open_square 60 test_play 0 0 = Ret (OK, g')
    /\ forall a c, grid_contains (gm_grid test_play) a c = true ->
                   cell (gm_grid g') a c = 0 ->
                   cell (gm_grid test_play) a c <> 0 \/ (a, c) = (0, 0) ->
                   forall dx dy, In dx deltas -> In dy deltas ->
                     grid_contains (gm_grid test_play) (a + dx) (c + dy)
                     = true ->
                     cell (gm_grid g') (a + dx) (c + dy) <> Unknown.
Proof.
  apply (open_square_floods_zero_squares 60 test_play 0 0);
    try reflexivity.
  apply (game_invb_ok true). reflexivity.
Defined.

(** X26. Winning: after [open_square] at a square of the grid without a
    mine, in a game that is not lost, whose parameters give the
    dimensions of the grid and whose revealed squares are not mines and
    show the number of mines around them, with fuel for the flood fill
    beyond the number of squares, the game is won exactly when it was won
    before or every square without a mine is revealed; and when every
    square without a mine is revealed, every mine is marked. *)
Theorem open_square_wins_when_all_safe_open (fuel : nat) (g : Game)
        (x y : Z) :
  game_inv true (gameData g) ->
  p_width (gm_params g) = g_width (gm_grid g) ->
  p_height (gm_params g) = g_height (gm_grid g) ->
  gm_dead g = false ->
  grid_contains (gm_grid g) x y = true ->
  mine_at (gm_mines g) x y = false ->
  grid_size (gm_grid g) < Z.of_nat fuel ->
  exists g',
    open_square fuel g x y = Ret (OK, g')
    /\ (gm_won g' = true
        <-> gm_won g = true \/ all_safe_open (gm_mines g) (gm_grid g'))
    /\ (all_safe_open (gm_mines g) (gm_grid g') ->
        forall a c, grid_contains (gm_grid g) a c = true ->
                    mine_at (gm_mines g) a c = true ->
                    cell (gm_grid g') a c = MarkedAsMine).
Proof.
  intros Hinv Hpw Hph Hdead Hc Hm Hfuel.
  destruct (open_square_safe_facts fuel g x y Hinv Hpw Hph Hdead Hc Hm Hfuel)
    as [g' [E [_ [_ [_ [_ [_ [_ [Hwon [Hmarks _]]]]]]]]]].
  exists g'. auto.
Qed.

Lemma open_square_wins_when_all_safe_open_witness :
  exists g',
    open_square 60 test_endgame 4 3 = Ret (OK, g')
    /\ (gm_won g' = true
        <-> gm_won test_endgame = true
            \/ all_safe_open (gm_mines test_endgame) (gm_grid g'))
    /\ (all_safe_open (gm_mines test_endgame) (gm_grid g') ->
        forall a c, grid_contains (gm_grid test_endgame) a c = true ->
                    mine_at (gm_mines test_endgame) a c = true ->
                    cell (gm_grid g') a c = MarkedAsMine).
Proof.
  apply (open_square_wins_when_all_safe_open 60 test_endgame 4 3);
    try reflexivity.
  apply (game_invb_ok true). reflexivity.
Defined.

Lemma neighbor_mines_clear (mines : Grid bool) (x y : Z) :
  (forall a b, near x y a b -> mine_at mines a b = false) ->
  neighbor_mines mines x y = 0.
Proof.
  intros H. unfold neighbor_mines, neighbor_offsets.
  cbn [map fold_right fst snd].
  rewrite !H by (unfold near; lia). reflexivity.
Qed.

Lemma game_inv_new (safe : bool) (sx sy : Z) (mines : Grid bool) :
  grid_wf mines ->
  game_inv safe
    (mkGameData sx sy mines
       (Grid_new (g_width mines) (g_height mines) Unknown)).
Proof.
  intros Wm. pose proof Wm as [Hw [Hh _]].
  assert (forall a c,
            cell (Grid_new (g_width mines) (g_height mines) Unknown) a c
            = Unknown) as Hcell.
  { intros a c. unfold cell, Grid_new. cbn [g_data g_width].
    apply nth_repeat. }
  split; [|split].
  - split; [exact Wm|]. split; [apply Grid_new_wf; assumption|].
    split; reflexivity.
  - intros a c _ Hv. cbn [gd_grid] in Hv. rewrite Hcell in Hv.
    unfold Unknown in Hv. lia.
  - intros a c _. cbn [gd_grid]. rewrite Hcell. lia.
Qed.

Section FirstClick.

Context {R : RNG}.

Hypothesis shuffle_law : shuffle_permutes R.

(** X27. The first click: [openSquare] at [(x, y)] on a new game, for
    parameters in range (width and height at least 1, at most
    [width * height - 9] mines, [(x, y)] in the grid), when [generate]
    returns the board [mines] for these parameters with the start square
    [(x, y)], and with fuel for the flood fill beyond the number of
    squares.  It returns a game with these mines and the seed of the
    generator, that is not lost; the square shows 0 and every square
    around it in the grid is revealed; every revealed square is not a
    mine and shows the number of mines around it.  [std::shuffle] is
    assumed to permute its range. *)
Theorem openSquare_first_click (fuel : nat) (entropy1 entropy2 : Z)
        (rng0 : RandomEngine) (params : GameParams) (seed0 x y : Z)
        (mines : Grid bool) (gen' : Generator) :
  1 <= p_width params -> 1 <= p_height params ->
  p_minecount params <= p_width params * p_height params - 9 ->
  0 <= x < p_width params -> 0 <= y < p_height params ->
  p_width params * p_height params < Z.of_nat fuel ->
  generate fuel entropy2
    (mkGenerator entropy1 rng0 (mkPerturbator 0 false) None)
    (mkGameParams (p_width params) (p_height params) (p_minecount params)
       (p_unique params) x y (p_seed params))
  = Ret (mines, gen') ->
  exists g',
    openSquare fuel entropy1 entropy2 rng0 (Game_new params seed0) x y
    = Ret g'
    /\ gm_mines g' = mines
    /\ gm_seed g' = entropy1
    /\ gm_dead g' = false
    /\ g_width (gm_grid g') = p_width params
    /\ g_height (gm_grid g') = p_height params
    /\ game_inv true (gameData g')
    /\ cell (gm_grid g') x y = 0
    /\ forall dx dy, In dx deltas -> In dy deltas ->
         grid_contains (gm_grid g') (x + dx) (y + dy) = true ->
         0 <= cell (gm_grid g') (x + dx) (y + dy).
Proof.
  intros Hw Hh Hn Hx Hy Hfuel Hgen.
  assert (shape mines
          = shape (Grid_new (p_width params) (p_height params) false)
          /\ forall a b, near x y a b -> mine_at mines a b = false)
    as [Hsm Hnear].
  { pose proof Hgen as H. unfold generate in H. cbv zeta in H.
    bind_step H r Hr. destruct r as [[[ret pb] rng] own].
    injection H as <- _. unfold minegen in Hr.
    cbn [p_width p_height p_minecount p_sx p_sy p_unique] in Hr.
    split; [exact (minegen_loop_shape _ _ _ _ _ _ _ _ _ _ _ _ _ _ _ Hr)|].
    eapply (minegen_loop_ok shuffle_law); [| | |exact Hr].
    - apply Grid_new_wf; lia.
    - cbn [Grid_new g_width g_height]. lia.
    - apply contains_bounds. cbn [Grid_new g_width g_height]. lia. }
  unfold shape, Grid_new in Hsm. cbn [g_width g_height g_data] in Hsm.
  rewrite repeat_length in Hsm.
  assert (g_width mines = p_width params) as Ewm by congruence.
  assert (g_height mines = p_height params) as Ehm by congruence.
  assert (length (g_data mines)
          = Z.to_nat (p_width params * p_height params)) as Elm
      by congruence.
  assert (grid_wf mines) as Wm.
  { unfold grid_wf, grid_size. rewrite Ewm, Ehm, Elm. nia. }
  set (g0 := mkGame
               (mkGameParams (p_width params) (p_height params)
                  (p_minecount params) (p_unique params) x y (p_seed params))
               entropy1 mines
               (Grid_new (g_width mines) (g_height mines) Unknown)
               false false).
  assert (openSquare fuel entropy1 entropy2 rng0 (Game_new params seed0) x y
          = '(_, g) <- open_square fuel g0 x y ;; Ret g) as Eopen.
  { unfold openSquare.
    cbn [Game_new gm_mines gm_params gm_grid gm_dead gm_won grid_empty
           g_data].
    rewrite Hgen. cbn [bind].
    replace (grid_size (mkGrid 0 0 (@nil Z)) =? grid_size mines) with false.
    - reflexivity.
    - symmetry. apply Z.eqb_neq. unfold grid_size. rewrite Elm.
      cbn [g_data length]. nia. }
  assert (grid_contains (gm_grid g0) x y = true) as Hc.
  { apply contains_bounds. cbn [g0 gm_grid Grid_new g_width g_height]. lia. }
  destruct (open_square_safe_facts fuel g0 x y)
    as [g' [E [Erec [Hs [Hinv' [Hxy [_ [Hcl [_ [_ Hcells]]]]]]]]]].
  - apply (game_inv_new true x y mines Wm).
  - cbn [g0 gm_params gm_grid p_width Grid_new g_width]. congruence.
  - cbn [g0 gm_params gm_grid p_height Grid_new g_height]. congruence.
  - reflexivity.
  - exact Hc.
  - apply Hnear. unfold near. lia.
  - unfold grid_size. cbn [g0 gm_grid Grid_new g_data].
    rewrite repeat_length, Ewm, Ehm. lia.
  - rewrite Eopen, E. cbn [bind]. exists g'.
    cbn [g0 gm_params gm_seed gm_mines gm_grid] in Erec, Hs, Hxy, Hcells,
      Hcl, Hc.
    assert (cell (gm_grid g') x y = 0) as H0
        by (rewrite Hxy; apply neighbor_mines_clear; exact Hnear).
    unfold shape in Hs. cbn [Grid_new g_width g_height g_data] in Hs.
    split; [reflexivity|]. split; [rewrite Erec; reflexivity|].
    split; [rewrite Erec; reflexivity|].
    split; [rewrite Erec; reflexivity|].
    split; [congruence|]. split; [congruence|].
    split; [exact Hinv'|]. split; [exact H0|].
    intros dx dy Hdx Hdy Hcd.
    assert (grid_contains
              (Grid_new (g_width mines) (g_height mines) Unknown)
              (x + dx) (y + dy) = true) as Hcd0.
    { rewrite <- Hcd. unfold grid_contains.
      cbn [Grid_new g_width g_height].
      replace (g_width (gm_grid g')) with (g_width mines) by congruence.
      replace (g_height (gm_grid g')) with (g_height mines) by congruence.
      reflexivity. }
    destruct (Hcells _ _ Hcd0) as [H|[H|[H _]]]; [|exact H|].
    + exfalso.
      apply (Hcl x y Hc H0 (or_intror eq_refl) dx dy Hdx Hdy Hcd).
      rewrite H. unfold cell, Grid_new. cbn [g_data g_width].
      apply nth_repeat.
    + rewrite Hnear in H; [discriminate H|].
      unfold deltas in Hdx, Hdy. cbn [In] in Hdx, Hdy. unfold near. lia.
Qed.

End FirstClick.

Lemma openSquare_first_click_witness :
  exists g',
    @openSquare test_rng 60 0 0 0 (Game_new test_params 7) 0 0 = Ret g'
    /\ gm_mines g' = test_board
    /\ gm_seed g' = 0
    /\ gm_dead g' = false
    /\ g_width (gm_grid g') = p_width test_params
    /\ g_height (gm_grid g') = p_height test_params
    /\ game_inv true (gameData g')
    /\ cell (gm_grid g') 0 0 = 0
    /\ forall dx dy, In dx deltas -> In dy deltas ->
         grid_contains (gm_grid g') (0 + dx) (0 + dy) = true ->
         0 <= cell (gm_grid g') (0 + dx) (0 + dy).
Proof.
  apply (@openSquare_first_click test_rng test_rng_permutes 60 0 0 0
           test_params 7 0 0 test_board test_generator1);
    try (cbn; lia).
  exact test_generate.
Defined.

(* ===================================================================== *)
(** * The game: opening the squares around a square *)
(* ===================================================================== *)

Lemma In_adjacent_offsets (dx dy : Z) :
  In (dx, dy) adjacent_offsets <-> In dx deltas /\ In dy deltas.
Proof.
  unfold adjacent_offsets. rewrite in_flat_map. split.
  - intros [a [Ha Hin]]. apply in_map_iff in Hin.
    destruct Hin as [b [E Hb]]. injection E as <- <-. auto.
  - intros [Hx Hy]. exists dy. split; [exact Hy|].
    apply in_map_iff. exists dx. auto.
Qed.

Lemma marks_loop (g : Game) (x y : Z) (l : list (Z * Z)) :
  grid_wf (gm_grid g) ->
  forall n0,
    for_each l (fun '(dx, dy) n =>
      if grid_contains (gm_grid g) (x + dx) (y + dy)
      then
        v <- grid_at (gm_grid g) (x + dx) (y + dy) ;;
        Ret (if v =? MarkedAsMine then n + 1 else n)
      else Ret n) n0
    = Ret (n0 + count_if (is_marked g x y) l).
Proof.
  intros Wg. induction l as [|[dx dy] l IH]; intros n0.
  - cbn [for_each]. unfold count_if. cbn. rewrite Z.add_0_r. reflexivity.
  - cbn [for_each]. rewrite count_if_cons.
    change (is_marked g x y (dx, dy))
      with (grid_contains (gm_grid g) (x + dx) (y + dy)
            && (cell (gm_grid g) (x + dx) (y + dy) =? MarkedAsMine)).
    destruct (grid_contains (gm_grid g) (x + dx) (y + dy)) eqn:Hc.
    + rewrite (grid_at_cell _ _ _ Wg Hc). cbn [bind]. rewrite IH.
      cbn [andb].
      destruct (cell (gm_grid g) (x + dx) (y + dy) =? MarkedAsMine);
        cbn [Z.b2z]; f_equal; try lia.
    + cbn [bind andb Z.b2z]. rewrite IH. f_equal; try lia.
Qed.

Lemma find_unmarked_mine_spec (g : Game) (x y : Z) (l : list (Z * Z)) :
  game_wf (gameData g) ->
  find_unmarked_mine g x y l = Ret (List.find (unmarked_mine g x y) l).
Proof.
  intros [Wm [Wg [Ew Eh]]]. cbn [gameData gd_mines gd_grid] in *.
  induction l as [|[dx dy] l IH]; [reflexivity|].
  cbn [find_unmarked_mine List.find]. unfold unmarked_mine at 1. cbn [fst snd].
  destruct (grid_contains (gm_mines g) (x + dx) (y + dy)) eqn:Hcm;
    [|exact IH].
  assert (grid_contains (gm_grid g) (x + dx) (y + dy) = true) as Hc.
  { unfold grid_contains in *. rewrite Ew, Eh. exact Hcm. }
  rewrite (grid_at_cell _ _ _ Wg Hc). cbn [bind andb].
  destruct (cell (gm_grid g) (x + dx) (y + dy) =? MarkedAsMine);
    cbn [negb andb]; [exact IH|].
  rewrite (grid_at_mine _ _ _ Wm Hcm). cbn [bind].
  destruct (mine_at (gm_mines g) (x + dx) (y + dy)); [reflexivity|exact IH].
Qed.

(** [openAdjacentSquares] at a square of the grid, with its tests
    evaluated. *)
Lemma openAdjacentSquares_eq (fuel : nat) (g : Game) (x y : Z) :
  game_wf (gameData g) -> grid_contains (gm_grid g) x y = true ->
  openAdjacentSquares fuel g x y
  = if cell (gm_grid g) x y =? MarkedAsMine then Ret g
    else if marked_around g x y =? cell (gm_grid g) x y
         then match List.find (unmarked_mine g x y) adjacent_offsets with
              | Some (dx, dy) =>
                  '(_, g) <- open_square fuel g (x + dx) (y + dy) ;; Ret g
              | None => for_each adjacent_offsets (open_unknown fuel x y) g
              end
         else Ret g.
Proof.
  intros Hwf Hc. pose proof Hwf as [_ [Wg _]]. cbn [gameData gd_grid] in Wg.
  unfold openAdjacentSquares. rewrite Hc. cbn [negb].
  rewrite (grid_at_cell _ _ _ Wg Hc). cbn [bind].
  destruct (cell (gm_grid g) x y =? MarkedAsMine); [reflexivity|].
  rewrite (marks_loop g x y adjacent_offsets Wg 0). cbn [bind].
  rewrite Z.add_0_l. fold (marked_around g x y).
  destruct (marked_around g x y =? cell (gm_grid g) x y); [|reflexivity].
  rewrite (find_unmarked_mine_spec g x y _ Hwf). cbn [bind].
  destruct (List.find (unmarked_mine g x y) adjacent_offsets) as [[dx dy]|];
    [reflexivity|].
  apply for_each_ext. intros [dx dy] g0. reflexivity.
Qed.

Lemma open_square_mine_eq (fuel : nat) (g : Game) (x y : Z) :
  game_wf (gameData g) -> mine_at (gm_mines g) x y = true ->
  open_square fuel g x y
  = Ret (KilledByMine,
         mkGame (gm_params g) (gm_seed g) (gm_mines g)
           (grid_with (gm_grid g) x y MineHit) true (gm_won g)).
Proof.
  intros Hwf Hm. pose proof Hwf as [Wm [Wg [Ew Eh]]].
  cbn [gameData gd_mines gd_grid] in *.
  assert (grid_contains (gm_mines g) x y = true) as Hcm.
  { unfold mine_at in Hm. apply andb_true_iff in Hm. apply Hm. }
  assert (grid_contains (gm_grid g) x y = true) as Hc.
  { unfold grid_contains in *. rewrite Ew, Eh. exact Hcm. }
  unfold open_square. cbv zeta.
  rewrite (contains_nonempty _ _ _ Wm Hcm). cbn [negb assert bind].
  rewrite (grid_at_mine _ _ _ Wm Hcm), Hm. cbn [bind].
  rewrite (grid_set_with _ _ _ MineHit Wg Hc). reflexivity.
Qed.

(** X28. [openAdjacentSquares] at a square of the grid, in a game with
    well-formed grids of the same dimensions.  It changes nothing when
    the square is marked, or when the number of marked squares around it
    differs from the value it shows.  Otherwise, if a square around it
    holds a mine that is not marked, the first such square in the order
    of the loops is opened and nothing else: the game is lost, that
    square holds [MineHit], and every other square is as before. *)
Theorem openAdjacentSquares_hits_unmarked_mine (fuel : nat) (g : Game)
        (x y : Z) :
  game_wf (gameData g) -> grid_contains (gm_grid g) x y = true ->
  (cell (gm_grid g) x y = MarkedAsMine
   \/ marked_around g x y <> cell (gm_grid g) x y ->
   openAdjacentSquares fuel g x y = Ret g)
  /\ (cell (gm_grid g) x y <> MarkedAsMine ->
      marked_around g x y = cell (gm_grid g) x y ->
      forall d, In d adjacent_offsets -> unmarked_mine g x y d = true ->
      exists dx dy g',
        openAdjacentSquares fuel g x y = Ret g'
        /\ List.find (unmarked_mine g x y) adjacent_offsets = Some (dx, dy)
        /\ In dx deltas /\ In dy deltas
        /\ mine_at (gm_mines g) (x + dx) (y + dy) = true
        /\ cell (gm_grid g) (x + dx) (y + dy) <> MarkedAsMine
        /\ gm_dead g' = true
        /\ gm_mines g' = gm_mines g
        /\ gm_won g' = gm_won g
        /\ cell (gm_grid g') (x + dx) (y + dy) = MineHit
        /\ forall a c, grid_contains (gm_grid g) a c = true ->
                       (a, c) <> (x + dx, y + dy) ->
                       cell (gm_grid g') a c = cell (gm_grid g) a c).
Proof.
  intros Hwf Hc. rewrite (openAdjacentSquares_eq fuel g x y Hwf Hc).
  pose proof Hwf as [Wm [Wg [Ew Eh]]].
  cbn [gameData gd_mines gd_grid] in *. split.
  - intros [Hmk|Hne].
    + rewrite Hmk. reflexivity.
    + destruct (cell (gm_grid g) x y =? MarkedAsMine); [reflexivity|].
      destruct (Z.eqb_spec (marked_around g x y) (cell (gm_grid g) x y));
        [contradiction|reflexivity].
  - intros Hnm Heq d Hd Hum.
    destruct (Z.eqb_spec (cell (gm_grid g) x y) MarkedAsMine);
      [contradiction|].
    rewrite Heq, Z.eqb_refl.
    destruct (List.find (unmarked_mine g x y) adjacent_offsets) as [[dx dy]|]
      eqn:Ef.
    2: { rewrite (find_none _ _ Ef d Hd) in Hum. discriminate Hum. }
    destruct (find_some _ _ Ef) as [Hin Hp].
    apply In_adjacent_offsets in Hin. destruct Hin as [Hdx Hdy].
    unfold unmarked_mine in Hp. cbn [fst snd] in Hp.
    apply andb_true_iff in Hp. destruct Hp as [Hp Hmine].
    apply andb_true_iff in Hp. destruct Hp as [Hcm Hnot].
    apply negb_true_iff, Z.eqb_neq in Hnot.
    assert (grid_contains (gm_grid g) (x + dx) (y + dy) = true) as Hcd.
    { unfold grid_contains in *. rewrite Ew, Eh. exact Hcm. }
    rewrite (open_square_mine_eq fuel g _ _ Hwf Hmine). cbn [bind].
    exists dx, dy. eexists. split; [reflexivity|].
    cbn [gm_dead gm_mines gm_won gm_grid].
    split; [reflexivity|]. split; [exact Hdx|]. split; [exact Hdy|].
    split; [exact Hmine|]. split; [exact Hnot|]. split; [reflexivity|].
    split; [reflexivity|]. split; [reflexivity|]. split.
    + rewrite grid_with_cell by assumption. rewrite !Z.eqb_refl.
      reflexivity.
    + intros a c Hac Hne. rewrite grid_with_cell by assumption.
      destruct ((a =? x + dx) && (c =? y + dy)) eqn:E; [|reflexivity].
      apply andb_true_iff in E. rewrite !Z.eqb_eq in E.
      exfalso. apply Hne. f_equal; tauto.
Qed.

Lemma openAdjacentSquares_hits_unmarked_mine_witness :
  (cell (gm_grid test_misplay) 2 1 = MarkedAsMine
   \/ marked_around test_misplay 2 1 <> cell (gm_grid test_misplay) 2 1 ->
   openAdjacentSquares 60 test_misplay 2 1 = Ret test_misplay)
  /\ exists dx dy g',
       openAdjacentSquares 60 test_misplay 2 1 = Ret g'
       /\ List.find (unmarked_mine test_misplay 2 1) adjacent_offsets
          = Some (dx, dy)
       /\ In dx deltas /\ In dy deltas
       /\ mine_at (gm_mines test_misplay) (2 + dx) (1 + dy) = true
       /\ cell (gm_grid test_misplay) (2 + dx) (1 + dy) <> MarkedAsMine
       /\ gm_dead g' = true
       /\ gm_mines g' = gm_mines test_misplay
       /\ gm_won g' = gm_won test_misplay
       /\ cell (gm_grid g') (2 + dx) (1 + dy) = MineHit
       /\ forall a c, grid_contains (gm_grid test_misplay) a c = true ->
                      (a, c) <> (2 + dx, 1 + dy) ->
                      cell (gm_grid g') a c
                      = cell (gm_grid test_misplay) a c.
Proof.
  destruct (openAdjacentSquares_hits_unmarked_mine 60 test_misplay 2 1)
    as [H1 H2].
  - split; [apply grid_wfb_ok; reflexivity|].
    split; [apply grid_wfb_ok; reflexivity|]. split; reflexivity.
  - reflexivity.
  - split; [exact H1|].
    apply (H2 ltac:(discriminate) eq_refl (1, 1)).
    + apply In_adjacent_offsets. cbn. auto.
    + reflexivity.
Defined.

(** X29. [openAdjacentSquares] at a revealed square of the grid whose
    value is the number of marked squares around it, when every mine
    around it is marked, in a game that is not lost, whose parameters
    give the dimensions of the grid and whose revealed squares are not
    mines and show the number of mines around them, with fuel for the
    flood fills beyond the number of squares.  It returns a game that is
    not lost, in which no square around the square is unknown; only the
    grid and [won] change; no square that was revealed or marked
    changes; and every revealed square is still not a mine and shows its
    count. *)
Theorem openAdjacentSquares_opens_neighbours (fuel : nat) (g : Game)
        (x y : Z) :
  game_inv true (gameData g) ->
  p_width (gm_params g) = g_width (gm_grid g) ->
  p_height (gm_params g) = g_height (gm_grid g) ->
  gm_dead g = false ->
  grid_contains (gm_grid g) x y = true ->
  marked_around g x y = cell (gm_grid g) x y ->
  (forall dx dy, In dx deltas -> In dy deltas ->
                 mine_at (gm_mines g) (x + dx) (y + dy) = true ->
                 cell (gm_grid g) (x + dx) (y + dy) = MarkedAsMine) ->
  grid_size (gm_grid g) < Z.of_nat fuel ->
  exists g',
    openAdjacentSquares fuel g x y = Ret g'
    /\ g' = mkGame (gm_params g) (gm_seed g) (gm_mines g) (gm_grid g') false
              (gm_won g')
    /\ shape (gm_grid g') = shape (gm_grid g)
    /\ game_inv true (gameData g')
    /\ (forall a c, grid_contains (gm_grid g) a c = true ->
                    cell (gm_grid g) a c <> Unknown ->
                    cell (gm_grid g') a c = cell (gm_grid g) a c)
    /\ forall dx dy, In dx deltas -> In dy deltas ->
         grid_contains (gm_grid g) (x + dx) (y + dy) = true ->
         cell (gm_grid g') (x + dx) (y + dy) <> Unknown.
Proof.
  intros Hinv Hpw Hph Hdead Hc Heq Hmarked Hfuel.
  pose proof Hinv as [Hwf _].
  rewrite (openAdjacentSquares_eq fuel g x y Hwf Hc).
  assert (g = mkGame (gm_params g) (gm_seed g) (gm_mines g) (gm_grid g)
                false (gm_won g)) as Eg0
      by (rewrite <- Hdead; destruct g; reflexivity).
  destruct (Z.eqb_spec (cell (gm_grid g) x y) MarkedAsMine) as [Hmk|Hnm].
  { (* a marked square: the number of marks around it is not negative *)
    exfalso. rewrite Hmk in Heq. unfold marked_around, count_if in Heq.
    unfold MarkedAsMine in Heq. lia. }
  rewrite Heq, Z.eqb_refl.
  assert (forall d, In d adjacent_offsets -> unmarked_mine g x y d = false)
    as Hnone.
  { intros [dx dy] Hd. apply In_adjacent_offsets in Hd.
    destruct Hd as [Hdx Hdy]. unfold unmarked_mine. cbn [fst snd].
    destruct (mine_at (gm_mines g) (x + dx) (y + dy)) eqn:Hmine;
      [|apply andb_false_r].
    rewrite (Hmarked dx dy Hdx Hdy Hmine), Z.eqb_refl.
    cbn [negb]. rewrite andb_false_r. reflexivity. }
  destruct (List.find (unmarked_mine g x y) adjacent_offsets) as [d|] eqn:Ef.
  { destruct (find_some _ _ Ef) as [Hin Hp].
    rewrite (Hnone d Hin) in Hp. discriminate Hp. }
  set (J := fun (rest : list (Z * Z)) (gk : Game) =>
     gk = mkGame (gm_params g) (gm_seed g) (gm_mines g) (gm_grid gk) false
            (gm_won gk)
     /\ shape (gm_grid gk) = shape (gm_grid g)
     /\ game_inv true (gameData gk)
     /\ (forall a c, grid_contains (gm_grid g) a c = true ->
                     cell (gm_grid g) a c <> Unknown ->
                     cell (gm_grid gk) a c = cell (gm_grid g) a c)
     /\ (forall p, In p rest -> In p adjacent_offsets)
     /\ forall dx dy, In dx deltas -> In dy deltas -> ~ In (dx, dy) rest ->
          grid_contains (gm_grid g) (x + dx) (y + dy) = true ->
          cell (gm_grid gk) (x + dx) (y + dy) <> Unknown).
  assert (forall p rest gk, J (p :: rest) gk ->
            exists g1, open_unknown fuel x y p gk = Ret g1 /\ J rest g1)
    as Hstep.
  { intros [dx dy] rest gk [Egk [Hsk [Hinvk [Hkeep [Hin Hdone]]]]].
    assert (In (dx, dy) adjacent_offsets) as Hp
        by (apply Hin; left; reflexivity).
    pose proof Hp as Hp'. apply In_adjacent_offsets in Hp'.
    destruct Hp' as [Hdx Hdy].
    assert (forall ex ey, (ex, ey) <> (dx, dy) -> ~ In (ex, ey) rest ->
                          ~ In (ex, ey) ((dx, dy) :: rest)) as Hnotin.
    { intros ex ey Hne Hnot [E|Hr]; [|exact (Hnot Hr)].
      apply Hne. symmetry. exact E. }
    assert (forall a c, grid_contains (gm_grid g) a c = true ->
                        grid_contains (gm_grid gk) a c = true) as Hck
        by (intros a c Hac;
            rewrite (shape_contains (gm_grid g)) by exact Hsk; exact Hac).
    pose proof Hinvk as [[_ [Wgk _]] _]. cbn [gameData gd_grid] in Wgk.
    unfold open_unknown.
    destruct (grid_contains (gm_grid gk) (x + dx) (y + dy)) eqn:Hcd.
    2: { exists gk. split; [reflexivity|]. unfold J.
         split; [exact Egk|]. split; [exact Hsk|]. split; [exact Hinvk|].
         split; [exact Hkeep|].
         split; [intros p Hq; apply Hin; right; exact Hq|].
         intros ex ey Hex Hey Hnot Hce.
         destruct (Z.eq_dec ex dx) as [Ex|Nx];
           [destruct (Z.eq_dec ey dy) as [Ey|Ny]|].
         - subst ex ey. rewrite (Hck _ _ Hce) in Hcd. discriminate Hcd.
         - apply Hdone; try assumption. apply Hnotin; [|exact Hnot].
           intros E. injection E as _ E. contradiction.
         - apply Hdone; try assumption. apply Hnotin; [|exact Hnot].
           intros E. injection E as E _. contradiction. }
    rewrite (grid_at_cell _ _ _ Wgk Hcd). cbn [bind].
    assert (grid_contains (gm_grid g) (x + dx) (y + dy) = true) as Hcd0
        by (rewrite <- (shape_contains (gm_grid g) (gm_grid gk)) by exact Hsk;
            exact Hcd).
    destruct (Z.eqb_spec (cell (gm_grid gk) (x + dx) (y + dy)) Unknown)
      as [Hu|Hu].
    2: { exists gk. split; [reflexivity|]. unfold J.
         split; [exact Egk|]. split; [exact Hsk|]. split; [exact Hinvk|].
         split; [exact Hkeep|].
         split; [intros p Hq; apply Hin; right; exact Hq|].
         intros ex ey Hex Hey Hnot Hce.
         destruct (Z.eq_dec ex dx) as [Ex|Nx];
           [destruct (Z.eq_dec ey dy) as [Ey|Ny]|].
         - subst ex ey. exact Hu.
         - apply Hdone; try assumption. apply Hnotin; [|exact Hnot].
           intros E. injection E as _ E. contradiction.
         - apply Hdone; try assumption. apply Hnotin; [|exact Hnot].
           intros E. injection E as E _. contradiction. }
    (* an unknown square around the square: it holds no mine *)
    assert (cell (gm_grid g) (x + dx) (y + dy) = Unknown) as Hu0.
    { destruct (Z.eq_dec (cell (gm_grid g) (x + dx) (y + dy)) Unknown)
        as [E|E]; [exact E|].
      rewrite (Hkeep _ _ Hcd0 E) in Hu. contradiction. }
    assert (mine_at (gm_mines g) (x + dx) (y + dy) = false) as Hsafe.
    { destruct (mine_at (gm_mines g) (x + dx) (y + dy)) eqn:Hmine;
        [|reflexivity].
      rewrite (Hmarked dx dy Hdx Hdy Hmine) in Hu0. discriminate Hu0. }
    assert (gm_params gk = gm_params g) as Epk by (rewrite Egk; reflexivity).
    assert (gm_mines gk = gm_mines g) as Emk by (rewrite Egk; reflexivity).
    assert (gm_seed gk = gm_seed g) as Esk by (rewrite Egk; reflexivity).
    assert (gm_dead gk = false) as Edk by (rewrite Egk; reflexivity).
    assert (g_width (gm_grid gk) = g_width (gm_grid g)
            /\ g_height (gm_grid gk) = g_height (gm_grid g)
            /\ length (g_data (gm_grid gk)) = length (g_data (gm_grid g)))
      as [Ewk [Ehk Elk]] by (unfold shape in Hsk; repeat split; congruence).
    destruct (open_square_safe_facts fuel gk (x + dx) (y + dy))
      as [g1 [E1 [Erec [Hs1 [Hinv1 [Hxy [Hkeep1 _]]]]]]];
      try assumption; try congruence.
    { unfold grid_size in *. rewrite Elk. exact Hfuel. }
    rewrite E1. cbn [bind]. exists g1. split; [reflexivity|]. unfold J.
    rewrite Epk, Esk, Emk in Erec.
    assert (forall a c, grid_contains (gm_grid g) a c = true ->
                        cell (gm_grid gk) a c <> Unknown ->
                        cell (gm_grid g1) a c = cell (gm_grid gk) a c)
      as Hkeep1'.
    { intros a c Hac Hkn. apply Hkeep1; [exact (Hck a c Hac)| |exact Hkn].
      intros E. injection E as -> ->. contradiction. }
    split; [exact Erec|]. split; [congruence|]. split; [exact Hinv1|].
    split.
    { intros a c Hac Hkn. rewrite <- (Hkeep a c Hac Hkn). apply Hkeep1'.
      - exact Hac.
      - rewrite (Hkeep a c Hac Hkn). exact Hkn. }
    split; [intros p Hq; apply Hin; right; exact Hq|].
    intros ex ey Hex Hey Hnot Hce.
    assert ((ex, ey) <> (dx, dy) ->
            cell (gm_grid g1) (x + ex) (y + ey) <> Unknown) as Hother.
    { intros Hne.
      assert (cell (gm_grid gk) (x + ex) (y + ey) <> Unknown) as Hkn
          by (apply Hdone; try assumption; apply Hnotin; assumption).
      rewrite (Hkeep1' _ _ Hce Hkn). exact Hkn. }
    destruct (Z.eq_dec ex dx) as [Ex|Nx];
      [destruct (Z.eq_dec ey dy) as [Ey|Ny]|].
    - subst ex ey. rewrite Hxy.
      pose proof (neighbor_mines_nonneg (gm_mines gk) (x + dx) (y + dy)).
      unfold Unknown. lia.
    - apply Hother. intros E. injection E as _ E. contradiction.
    - apply Hother. intros E. injection E as E _. contradiction. }
  destruct (for_each_total J adjacent_offsets (open_unknown fuel x y)
              Hstep g)
    as [g' [E [Eg' [Hs' [Hinv' [Hkeep' [_ Hall]]]]]]].
  { unfold J. split; [exact Eg0|]. split; [reflexivity|].
    split; [exact Hinv|]. split; [auto|]. split; [auto|].
    intros dx dy Hdx Hdy Hnot _. exfalso. apply Hnot.
    apply In_adjacent_offsets. auto. }
  exists g'. split; [exact E|]. split; [exact Eg'|]. split; [exact Hs'|].
  split; [exact Hinv'|]. split; [exact Hkeep'|].
  intros dx dy Hdx Hdy Hcd. apply Hall; try assumption. intros [].
Qed.

Lemma openAdjacentSquares_opens_neighbours_witness :
  exists g',
    openAdjacentSquares 60 test_play 0 0 = Ret g'
    /\ g' = mkGame (gm_params test_play) (gm_seed test_play)
              (gm_mines test_play) (gm_grid g') false (gm_won g')
    /\ shape (gm_grid g') = shape (gm_grid test_play)
    /\ game_inv true (gameData g')
    /\ (forall a c, grid_contains (gm_grid test_play) a c = true ->
                    cell (gm_grid test_play) a c <> Unknown ->
                    cell (gm_grid g') a c = cell (gm_grid test_play) a c)
    /\ forall dx dy, In dx deltas -> In dy deltas ->
         grid_contains (gm_grid test_play) (0 + dx) (0 + dy) = true ->
         cell (gm_grid g') (0 + dx) (0 + dy) <> Unknown.
Proof.
  apply (openAdjacentSquares_opens_neighbours 60 test_play 0 0);
    try reflexivity.
  - apply (game_invb_ok true). reflexivity.
  - intros dx dy Hdx Hdy. unfold deltas in Hdx, Hdy. cbn [In] in Hdx, Hdy.
    destruct Hdx as [<-|[<-|[<-|[]]]]; destruct Hdy as [<-|[<-|[<-|[]]]];
      vm_compute; intros H; discriminate H.
Defined.
